(** * rk-media-server: the media-indexing core of [MediaService]

    A shallow embedding of [src/media/media.service.ts] together with the
    entities it persists, of the routes of [src/media/media.controller.ts]
    that call it and of the exception filter of the application, and the
    properties of the indexing pipeline (library registration, scanning,
    upload ingestion, listing, base directory resolution) proved against
    it.

    A string of the program is held as its UTF-8 encoding, a [string] of
    the standard library: its characters are the bytes.  The separators
    and the dot are single bytes that occur in the encoding of no other
    character, so that the functions on paths read bytes as Node reads
    characters.  Paths are strings, handled by a model of Node's POSIX
    [path] module.  The file system is a finite tree without links that
    can be followed, the two repositories are lists of records. *)

From Stdlib Require Import List Bool Arith ZArith QArith Qround Qpower Lia Lqa.
From Stdlib Require Import Ascii String.
Import ListNotations.

Local Close Scope Q_scope.
Local Open Scope list_scope.
Local Open Scope string_scope.

(* ================================================================== *)
(** * Strings *)
(* ================================================================== *)

Module Str.

Definition slash : ascii := "/"%char.
Definition backslash : ascii := "\"%char.
Definition dot : ascii := "."%char.

Definition isSlash (c : ascii) : bool := Ascii.eqb c slash.

Definition isEmpty (s : string) : bool :=
  match s with EmptyString => true | String _ _ => false end.

(** [s.split('/')]: the pieces between the separators; never empty. *)
Fixpoint split (s : string) : list string :=
  match s with
  | EmptyString => [EmptyString]
  | String c r =>
      if isSlash c then EmptyString :: split r
      else match split r with
           | seg :: segs => String c seg :: segs
           | [] => [String c EmptyString]
           end
  end.

(** [segs.join('/')]. *)
Definition join (segs : list string) : string := String.concat "/" segs.

Definition startsWithSlash (s : string) : bool :=
  match s with String c _ => isSlash c | EmptyString => false end.

Fixpoint endsWithSlash (s : string) : bool :=
  match s with
  | EmptyString => false
  | String c EmptyString => isSlash c
  | String _ r => endsWithSlash r
  end.

Definition chars (s : string) : list ascii := list_ascii_of_string s.
Definition ofChars (l : list ascii) : string := string_of_list_ascii l.

Fixpoint dropWhile {A} (p : A -> bool) (l : list A) : list A :=
  match l with
  | [] => []
  | x :: r => if p x then dropWhile p r else l
  end.

Fixpoint takeWhile {A} (p : A -> bool) (l : list A) : list A :=
  match l with
  | [] => []
  | x :: r => if p x then x :: takeWhile p r else []
  end.

(** The lower case of an ASCII letter. *)
Definition lowerChar (c : ascii) : ascii :=
  let n := nat_of_ascii c in
  if (65 <=? n)%nat && (n <=? 90)%nat then ascii_of_nat (n + 32) else c.

(** The ASCII letters of [s] in lower case, the rest as it is: how a
    regular expression with the flag [i] compares with ASCII letters. *)
Fixpoint lowerAscii (s : string) : string :=
  match s with
  | EmptyString => EmptyString
  | String c r => String (lowerChar c) (lowerAscii r)
  end.

(** The three bytes of the Kelvin sign U+212A. *)
Definition isKelvin (c1 c2 c3 : ascii) : bool :=
  ((nat_of_ascii c1 =? 226) && (nat_of_ascii c2 =? 132)
   && (nat_of_ascii c3 =? 170))%nat.

(** [s.toLowerCase()], as far as a comparison with an ASCII string can
    tell: the ASCII letters are put in lower case, and so is the Kelvin
    sign, whose lower case is [k].  Every other character outside ASCII
    is left as it is: its lower case lies outside ASCII as well. *)
Fixpoint toLowerCase (s : string) : string :=
  match s with
  | EmptyString => EmptyString
  | String c1 r1 =>
      match r1 with
      | String c2 (String c3 r3) =>
          if isKelvin c1 c2 c3 then String "k" (toLowerCase r3)
          else String (lowerChar c1) (toLowerCase r1)
      | _ => String (lowerChar c1) (toLowerCase r1)
      end
  end.

(** [arr.includes(s)]. *)
Definition includes (s : string) (l : list string) : bool :=
  existsb (String.eqb s) l.

(** [s.padStart(n, '0')]. *)
Definition padStart0 (n : nat) (s : string) : string :=
  ofChars (repeat "0"%char (n - String.length s)) ++ s.

End Str.

(* ================================================================== *)
(** * Node's [path] module (POSIX flavour) *)
(* ================================================================== *)

Module Path.

Definition isAbsolute (p : string) : bool := Str.startsWithSlash p.

(** [normalizeString] of Node, on the segments of the path.  [res] holds
    the segments kept so far, the last one first.  Empty segments and
    [.] are dropped; [..] removes the last kept segment unless there is
    none or it is itself [..], in which case it is kept only when
    [allowAboveRoot]. *)
Fixpoint normalizeSegments (allowAboveRoot : bool) (res segs : list string)
  : list string :=
  match segs with
  | [] => rev res
  | seg :: rest =>
      if Str.isEmpty seg || String.eqb seg "." then
        normalizeSegments allowAboveRoot res rest
      else if String.eqb seg ".." then
        match res with
        | last :: res' =>
            if String.eqb last ".." then
              normalizeSegments allowAboveRoot
                (if allowAboveRoot then ".." :: res else res) rest
            else normalizeSegments allowAboveRoot res' rest
        | [] =>
            normalizeSegments allowAboveRoot
              (if allowAboveRoot then [".."] else []) rest
        end
      else normalizeSegments allowAboveRoot (seg :: res) rest
  end.

Definition normalizeString (p : string) (allowAboveRoot : bool) : string :=
  Str.join (normalizeSegments allowAboveRoot [] (Str.split p)).

(** [path.normalize]. *)
Definition normalize (p : string) : string :=
  if Str.isEmpty p then "."
  else
    let isAbs := isAbsolute p in
    let trailingSeparator := Str.endsWithSlash p in
    let q := normalizeString p (negb isAbs) in
    if Str.isEmpty q then
      (if isAbs then "/" else if trailingSeparator then "./" else ".")
    else
      let q' := if trailingSeparator then q ++ "/" else q in
      if isAbs then "/" ++ q' else q'.

(** The loop of [path.resolve], from the last argument to the first,
    stopping at the first absolute one; empty arguments are skipped. *)
Fixpoint resolveArgs (revArgs : list string) (resolvedPath : string)
  : string * bool :=
  match revArgs with
  | [] => (resolvedPath, false)
  | p :: rest =>
      if Str.isEmpty p then resolveArgs rest resolvedPath
      else
        let resolvedPath' := p ++ "/" ++ resolvedPath in
        if isAbsolute p then (resolvedPath', true)
        else resolveArgs rest resolvedPath'
  end.

(** [path.resolve(...args)] in a process whose working directory is
    [cwd]. *)
Definition resolve (cwd : string) (args : list string) : string :=
  let '(rp, abs) := resolveArgs (rev args) "" in
  let '(rp, abs) :=
    if abs then (rp, true)
    else if Str.isEmpty cwd then (rp, false)
    else (cwd ++ "/" ++ rp, isAbsolute cwd) in
  let n := normalizeString rp (negb abs) in
  if abs then "/" ++ n
  else if Str.isEmpty n then "." else n.

(** [path.join(...args)]. *)
Definition join (args : list string) : string :=
  match filter (fun a => negb (Str.isEmpty a)) args with
  | [] => "."
  | nz => normalize (Str.join nz)
  end.

(** [path.dirname]: the scan runs from the last character down to the
    second, skips the trailing separators and the last segment, and
    cuts at the separator before it. *)
Definition dirname (p : string) : string :=
  match p with
  | EmptyString => "."
  | String c0 t =>
      let hasRoot := Str.isSlash c0 in
      let r := Str.dropWhile (fun c => negb (Str.isSlash c))
                 (Str.dropWhile Str.isSlash (rev (Str.chars t))) in
      match r with
      | [] => if hasRoot then "/" else "."
      | _ :: before =>
          if hasRoot && Nat.eqb (List.length before) 0 then "//"
          else String c0 (Str.ofChars (rev before))
      end
  end.

(** [path.basename] without a suffix: the last segment, trailing
    separators ignored. *)
Definition basename (p : string) : string :=
  Str.ofChars
    (rev (Str.takeWhile (fun c => negb (Str.isSlash c))
            (Str.dropWhile Str.isSlash (rev (Str.chars p))))).

(** The part of a name from its last dot on, as a pair (characters
    before the last dot, extension with its dot), scanning from the
    end. *)
Fixpoint lastDot (revName : list ascii) (ext : list ascii)
  : option (list ascii * list ascii) :=
  match revName with
  | [] => None
  | c :: r =>
      if Ascii.eqb c Str.dot then Some (r, c :: ext)
      else lastDot r (c :: ext)
  end.

(** [path.extname]: empty when the base name has no dot, when its only
    dot is its first character, or when it is [..]. *)
Definition extname (p : string) : string :=
  let b := basename p in
  match lastDot (rev (Str.chars b)) [] with
  | None => ""
  | Some (revBefore, ext) =>
      match revBefore with
      | [] => ""
      | _ => if String.eqb b ".." then "" else Str.ofChars ext
      end
  end.

End Path.

(* ================================================================== *)
(** * JavaScript numbers, as far as [secondsToHMS] uses them *)
(* ================================================================== *)

(** A JavaScript number is an IEEE 754 double.  A finite one is held as
    its sign and the exact rational that its magnitude stands for, so
    that there are two zeros.  The results of [/] and of [parseFloat]
    are rounded to the nearest double, ties to the even significand;
    [%] and [Math.floor] are exact, as they are on doubles. *)
Module Num.

Inductive number : Type :=
| NaN
| Infinity (negative : bool)
| Finite (negative : bool) (magnitude : Q).

(** The value of [Math.floor] as [toString] reads it: an integer (the
    sign of a zero is not printed), or one of the non-finite numbers. *)
Inductive integral : Type :=
| INaN
| IInfinity (negative : bool)
| Int (z : Z).

Definition isZero (q : Q) : bool := (Qnum q =? 0)%Z.

(** ** Rounding to a double *)

(** The exponent of the leading bit of a positive rational: the largest
    [l] with [2^l <= q]. *)
Definition ilog2 (q : Q) : Z :=
  let l := (Z.log2 (Qnum q) - Z.log2 (Zpos (Qden q)))%Z in
  if Qle_bool (2 ^ l) q then l else (l - 1)%Z.

(** The exponent of the last bit of the significand of the double next
    to [q]: 53 bits, and no exponent below that of the subnormals. *)
Definition expOf (q : Q) : Z := Z.max (ilog2 q - 52) (-1074).

(** The nearest integer, the even one of two that are as near. *)
Definition nearestEven (q : Q) : Z :=
  let f := Qfloor q in
  match (q - inject_Z f) ?= (1 # 2) with
  | Lt => f
  | Gt => (f + 1)%Z
  | Eq => if Z.even f then f else (f + 1)%Z
  end%Q.

Definition roundTo (e : Z) (q : Q) : Q :=
  (inject_Z (nearestEven (q / 2 ^ e)) * 2 ^ e)%Q.

(** The double nearest to a magnitude, [None] when it is out of range
    (the result is then an infinity). *)
Definition round (q : Q) : option Q :=
  let r := roundTo (expOf q) q in
  if Qle_bool (2 ^ 1024) r then None else Some (Qred r).

(** The magnitudes of the doubles. *)
Definition isDouble (q : Q) : bool :=
  match round q with
  | Some r => Qle_bool 0 q && Qeq_bool r q
  | None => false
  end.

(** ** Arithmetic *)

(** [x / y]. *)
Definition div (x y : number) : number :=
  match x, y with
  | NaN, _ | _, NaN => NaN
  | Infinity _, Infinity _ => NaN
  | Infinity s, Finite t _ => Infinity (xorb s t)
  | Finite s _, Infinity t => Finite (xorb s t) 0
  | Finite s a, Finite t b =>
      if isZero b then (if isZero a then NaN else Infinity (xorb s t))
      else match round (a / b) with
           | Some r => Finite (xorb s t) r
           | None => Infinity (xorb s t)
           end
  end.

(** [x % y]: the remainder of the division truncated towards zero, with
    the sign of the dividend; it is a double and needs no rounding. *)
Definition rem (x y : number) : number :=
  match x, y with
  | Finite s a, Finite _ b =>
      if isZero b then NaN
      else Finite s (Qred (a - b * inject_Z (Qfloor (a / b))))
  | Finite s a, Infinity _ => Finite s a
  | _, _ => NaN
  end.

(** [Math.floor]. *)
Definition floor (x : number) : integral :=
  match x with
  | NaN => INaN
  | Infinity s => IInfinity s
  | Finite false a => Int (Qfloor a)
  | Finite true a => Int (Qfloor (- a))
  end.

(** ** [Number.prototype.toString] on an integer *)

Definition digitChar (d : Z) : ascii := ascii_of_nat (48 + Z.to_nat d).

(** The decimal digits of a positive integer, most significant first.
    [fuel] bounds the number of digits. *)
Fixpoint digitsOf (fuel : nat) (z : Z) (acc : string) : string :=
  match fuel with
  | O => acc
  | S k =>
      let acc' := String (digitChar (z mod 10)) acc in
      if (z <? 10)%Z then acc' else digitsOf k (z / 10) acc'
  end.

Definition decimal (z : Z) : string :=
  if (z <? 0)%Z then "-" ++ digitsOf (S (Z.to_nat (Z.log2 (- z)))) (- z) ""
  else digitsOf (S (Z.to_nat (Z.log2 z))) z "".

Definition roundsTo (v n : Z) : bool :=
  match round (inject_Z v) with
  | Some r => Qeq_bool r (inject_Z n)
  | None => false
  end.

(** The integer that [toString] prints for the double [n] of [digits]
    decimal digits: of the integers that round to [n], one with the
    fewest significant digits, the nearest to [n] of these, the one
    with the even last digit when two are as near.  With [k]
    significant digits only the two next to [n] need be tried. *)
Fixpoint shortest (fuel : nat) (n : Z) (digits k : nat) : Z :=
  match fuel with
  | O => n
  | S fuel' =>
      let p := (10 ^ Z.of_nat (digits - k))%Z in
      let lo := (n / p * p)%Z in
      let hi := (lo + p)%Z in
      match roundsTo lo n, roundsTo hi n with
      | true, true =>
          if (n - lo <? hi - n)%Z then lo
          else if (hi - n <? n - lo)%Z then hi
          else if Z.even (n / p) then lo else hi
      | true, false => lo
      | false, true => hi
      | false, false => shortest fuel' n digits (S k)
      end
  end.

Fixpoint dropZeros (revDigits : list ascii) : list ascii :=
  match revDigits with
  | c :: r => if Ascii.eqb c "0"%char then dropZeros r else revDigits
  | [] => []
  end.

(** The digits of a positive integer double.  Up to 2^53 they are
    those of the integer, which is the shortest that rounds to it; from
    10^21 on they are written with an exponent. *)
Definition printed (n : Z) : string :=
  if (n <? 2 ^ 53)%Z then decimal n
  else
    let digits := String.length (decimal n) in
    let v := shortest digits n digits 1 in
    if (v <? 10 ^ 21)%Z then decimal v
    else
      let exponent := Z.of_nat (String.length (decimal v) - 1) in
      match rev (dropZeros (rev (Str.chars (decimal v)))) with
      | [] => "0"
      | [d] => String d ("e+" ++ decimal exponent)
      | d :: more =>
          String d ("." ++ Str.ofChars more ++ "e+" ++ decimal exponent)
      end.

(** [v.toString()] on a value of [Math.floor]. *)
Definition toString (v : integral) : string :=
  match v with
  | INaN => "NaN"
  | IInfinity false => "Infinity"
  | IInfinity true => "-Infinity"
  | Int z => if (z <? 0)%Z then "-" ++ printed (- z) else printed z
  end.

(** ** [parseFloat] *)

Definition isDigit (c : ascii) : bool :=
  let n := nat_of_ascii c in (48 <=? n)%nat && (n <=? 57)%nat.

Definition digitVal (c : ascii) : Z := Z.of_nat (nat_of_ascii c - 48).

(** The white space and line terminators of JavaScript, in UTF-8: the
    six of ASCII, U+00A0, U+1680, U+2000 to U+200A, U+2028, U+2029,
    U+202F, U+205F, U+3000 and U+FEFF. *)
Definition isSpace1 (c : ascii) : bool :=
  let n := nat_of_ascii c in
  ((9 <=? n)%nat && (n <=? 13)%nat) || (n =? 32)%nat.

Definition isSpace2 (c1 c2 : ascii) : bool :=
  (nat_of_ascii c1 =? 194)%nat && (nat_of_ascii c2 =? 160)%nat.

Definition isSpace3 (c1 c2 c3 : ascii) : bool :=
  let a := nat_of_ascii c1 in
  let b := nat_of_ascii c2 in
  let c := nat_of_ascii c3 in
  (((a =? 225) && (b =? 154) && (c =? 128))
  || ((a =? 226) && (b =? 128)
      && (((128 <=? c) && (c <=? 138)) || (c =? 168) || (c =? 169)
          || (c =? 175)))
  || ((a =? 226) && (b =? 129) && (c =? 159))
  || ((a =? 227) && (b =? 128) && (c =? 128))
  || ((a =? 239) && (b =? 187) && (c =? 191)))%nat.

Fixpoint skipSpaces (s : string) : string :=
  match s with
  | String c1 r1 =>
      if isSpace1 c1 then skipSpaces r1
      else
        match r1 with
        | String c2 r2 =>
            if isSpace2 c1 c2 then skipSpaces r2
            else
              match r2 with
              | String c3 r3 =>
                  if isSpace3 c1 c2 c3 then skipSpaces r3 else s
              | EmptyString => s
              end
        | EmptyString => s
        end
  | EmptyString => s
  end.

(** Reads a run of decimal digits: its value after [acc], how many
    there were, and what follows. *)
Fixpoint readDigits (s : string) (acc : Z) (count : nat)
  : Z * nat * string :=
  match s with
  | String c r =>
      if isDigit c then readDigits r (acc * 10 + digitVal c)%Z (S count)
      else (acc, count, s)
  | EmptyString => (acc, count, s)
  end.

Definition readSign (s : string) : bool * string :=
  match s with
  | String c r =>
      if Ascii.eqb c "-"%char then (true, r)
      else if Ascii.eqb c "+"%char then (false, r)
      else (false, s)
  | EmptyString => (false, s)
  end.

(** The exponent part [e±ddd], 0 when there is none. *)
Definition readExponent (s : string) : Z :=
  match s with
  | String c r =>
      if Ascii.eqb c "e"%char || Ascii.eqb c "E"%char then
        let '(neg, r1) := readSign r in
        let '(e, n, _) := readDigits r1 0 0 in
        match n with
        | O => 0
        | S _ => if neg then (- e) else e
        end
      else 0
  | EmptyString => 0
  end%Z.

(** [parseFloat]: the longest prefix of the trimmed string that is a
    decimal literal, rounded to a double; [NaN] when there is none. *)
Definition parseFloat (s : string) : number :=
  let '(neg, r) := readSign (skipSpaces s) in
  if String.prefix "Infinity" r then Infinity neg
  else
    let '(ip, n1, r1) := readDigits r 0 0 in
    let '(m, n2, r2) :=
      match r1 with
      | String c r1' =>
          if Ascii.eqb c Str.dot then readDigits r1' ip 0
          else (ip, O, r1)
      | EmptyString => (ip, O, r1)
      end in
    match (n1 + n2)%nat with
    | O => NaN
    | S _ =>
        let e := (readExponent r2 - Z.of_nat n2)%Z in
        match round (inject_Z m * 10 ^ e)%Q with
        | Some v => Finite neg v
        | None => Infinity neg
        end
    end.

End Num.


(* ================================================================== *)
(** * The file system *)
(* ================================================================== *)

(** [ffprobe-extended.interface.ts]: what a successful probe returns.
    The service reads [format?.duration] only. *)
Record FFProbeFormat : Type := { duration : string }.
Record FFProbeCustomResult : Type := { format : option FFProbeFormat }.

(** What the service can observe of the bytes of a file: the size that
    [stat] reports, and what [ffprobe] makes of them ([None] when the
    probe throws). *)
Record FileData : Type := {
  byteSize : Z;
  probe : option FFProbeCustomResult
}.

Module FS.

(** A file system is a finite tree.  [Dangling] is a directory entry
    that [stat] cannot follow: a symbolic link to a path in a directory
    that does not exist, so that nothing can be created through it
    either.  A directory carries whether [readdir] succeeds on it and
    whether entries can be added to it; every regular file can be
    overwritten. *)
#[warnings="-register-all"]
Inductive node : Type :=
| File (data : FileData)
| Dir (readable writable : bool) (entries : list (string * node))
| Dangling.

Fixpoint child (name : string) (entries : list (string * node))
  : option node :=
  match entries with
  | [] => None
  | (n, c) :: rest => if String.eqb n name then Some c else child name rest
  end.

Fixpoint setChild (name : string) (c : node)
  (entries : list (string * node)) : list (string * node) :=
  match entries with
  | [] => [(name, c)]
  | (n, c0) :: rest =>
      if String.eqb n name then (n, c) :: rest
      else (n, c0) :: setChild name c rest
  end.

(** Path lookup as the operating system does it, segment by segment:
    [stack] holds the directories entered so far, for [..]. *)
Fixpoint walk (stack : list node) (cur : node) (segs : list string)
  : option node :=
  match segs with
  | [] => Some cur
  | seg :: rest =>
      match cur with
      | Dir _ _ entries =>
          if Str.isEmpty seg || String.eqb seg "." then walk stack cur rest
          else if String.eqb seg ".." then
            match stack with
            | [] => walk [] cur rest
            | parent :: stack' => walk stack' parent rest
            end
          else
            match child seg entries with
            | Some c => walk (cur :: stack) c rest
            | None => None
            end
      | _ => None
      end
  end.

Definition lookup (cwd : string) (root : node) (p : string) : option node :=
  walk [] root
    (Str.split (if Path.isAbsolute p then p else cwd ++ "/" ++ p)).

(** [fs.existsSync]. *)
Definition existsSync (cwd : string) (root : node) (p : string) : bool :=
  match lookup cwd root p with
  | Some (File _) | Some (Dir _ _ _) => true
  | _ => false
  end.

(** [fs.Stats], its two members in use. *)
Record Stats : Type := { isDirectory : bool; size : Z }.

Definition statNode (n : node) : option Stats :=
  match n with
  | File d => Some {| isDirectory := false; size := byteSize d |}
  | Dir _ _ _ => Some {| isDirectory := true; size := 0 |}
  | Dangling => None
  end.

(** [fs.statSync] and [stat]: [None] when they throw. *)
Definition statSync (cwd : string) (root : node) (p : string)
  : option Stats :=
  match lookup cwd root p with
  | Some n => statNode n
  | None => None
  end.

(** [existsSync(p) && statSync(p).isDirectory()]. *)
Definition isExistingDir (cwd : string) (root : node) (p : string) : bool :=
  existsSync cwd root p &&
  match statSync cwd root p with
  | Some st => isDirectory st
  | None => false
  end.

(** [fs.Dirent]. *)
Record Dirent : Type := {
  name : string;
  direntIsFile : bool;
  direntIsDirectory : bool
}.

Definition direntOf (e : string * node) : Dirent :=
  {| name := fst e;
     direntIsFile := match snd e with File _ => true | _ => false end;
     direntIsDirectory :=
       match snd e with Dir _ _ _ => true | _ => false end |}.

(** [readdir(p, { withFileTypes: true })]: [None] when it throws. *)
Definition readdirTypes (cwd : string) (root : node) (p : string)
  : option (list Dirent) :=
  match lookup cwd root p with
  | Some (Dir true _ entries) => Some (map direntOf entries)
  | _ => None
  end.

(** Replaces or creates the file at the end of [segs] below [n]: a
    regular file is overwritten where it is, a new entry needs a
    directory that takes it. *)
Fixpoint writeAt (segs : list string) (n : node) (data : FileData)
  : option node :=
  match segs, n with
  | [leaf], Dir r w entries =>
      match child leaf entries with
      | Some (File _) => Some (Dir r w (setChild leaf (File data) entries))
      | Some (Dir _ _ _) => None
      | Some Dangling => None
      | None =>
          if w then Some (Dir r w (setChild leaf (File data) entries))
          else None
      end
  | seg :: rest, Dir r w entries =>
      match child seg entries with
      | Some c =>
          match writeAt rest c data with
          | Some c' => Some (Dir r w (setChild seg c' entries))
          | None => None
          end
      | None => None
      end
  | _, _ => None
  end.

(** [fs.promises.writeFile(p, data)]: the new file system, [None] when
    the write fails (no such directory, the target is a directory or a
    link to nowhere, the directory does not take a new entry). *)
Definition writeFile (cwd : string) (root : node) (p : string)
  (data : FileData) : option node :=
  writeAt
    (Path.normalizeSegments false [] (Str.split (Path.resolve cwd [p])))
    root data.

(** [ffprobe(p, ...)]: [None] when it throws. *)
Definition ffprobe (cwd : string) (root : node) (p : string)
  : option FFProbeCustomResult :=
  match lookup cwd root p with
  | Some (File d) => probe d
  | _ => None
  end.

End FS.

(* ================================================================== *)
(** * Entities and repositories *)
(* ================================================================== *)

(** [media-library.entity.ts]. The [mediaItems] relation is not stored:
    it is the set of items whose [library] is this one.  Its option
    [cascade: true] makes a [save] of a library save the items loaded
    into it; nothing in this service saves a library with items. *)
Module MediaLibrary.
Record t : Type := { id : nat; name : string; path : string }.
End MediaLibrary.

(** [media-item.entity.ts]. [library] is the id of the owning library,
    a foreign key declared by [@ManyToOne] without [onDelete]; [id] is 0
    until the item is saved. *)
Module MediaItem.
Record t : Type := {
  id : nat;
  filename : string;
  filepath : string;
  size : Z;
  duration : option string;
  library : nat
}.
End MediaItem.

Module Repo.

(** The two tables, the next generated primary keys, and the number of
    writes (save or remove) done so far. *)
Record Store : Type := {
  libraries : list MediaLibrary.t;
  items : list MediaItem.t;
  nextLibraryId : nat;
  nextItemId : nat;
  writes : nat
}.

(** [mediaLibraryRepository.findOne({ where: { id } })]. *)
Definition findLibraryById (db : Store) (id : nat)
  : option MediaLibrary.t :=
  find (fun l => Nat.eqb (MediaLibrary.id l) id) (libraries db).

(** [mediaLibraryRepository.findOne({ where: { name } })]. *)
Definition findLibraryByName (db : Store) (name : string)
  : option MediaLibrary.t :=
  find (fun l => String.eqb (MediaLibrary.name l) name) (libraries db).

(** [mediaItemRepository.findOne({ where: { filepath } })]. *)
Definition findItemByFilepath (db : Store) (p : string)
  : option MediaItem.t :=
  find (fun i => String.eqb (MediaItem.filepath i) p) (items db).

(** The [mediaItems] relation of a library. *)
Definition mediaItemsOf (db : Store) (libraryId : nat)
  : list MediaItem.t :=
  filter (fun i => Nat.eqb (MediaItem.library i) libraryId) (items db).

(** [mediaLibraryRepository.save(create({ name, path }))]. *)
Definition saveLibrary (db : Store) (name path : string)
  : MediaLibrary.t * Store :=
  let l := {| MediaLibrary.id := nextLibraryId db;
              MediaLibrary.name := name;
              MediaLibrary.path := path |} in
  (l, {| libraries := libraries db ++ [l];
         items := items db;
         nextLibraryId := S (nextLibraryId db);
         nextItemId := nextItemId db;
         writes := S (writes db) |}).

Definition withId (i : MediaItem.t) (id : nat) : MediaItem.t :=
  {| MediaItem.id := id;
     MediaItem.filename := MediaItem.filename i;
     MediaItem.filepath := MediaItem.filepath i;
     MediaItem.size := MediaItem.size i;
     MediaItem.duration := MediaItem.duration i;
     MediaItem.library := MediaItem.library i |}.

Fixpoint assignIds (next : nat) (batch : list MediaItem.t)
  : list MediaItem.t :=
  match batch with
  | [] => []
  | i :: rest => withId i next :: assignIds (S next) rest
  end.

(** [mediaItemRepository.save(batch)]: one write for the whole batch;
    [filepath] carries no uniqueness constraint. *)
Definition saveItems (db : Store) (batch : list MediaItem.t) : Store :=
  {| libraries := libraries db;
     items := items db ++ assignIds (nextItemId db) batch;
     nextLibraryId := nextLibraryId db;
     nextItemId := nextItemId db + List.length batch;
     writes := S (writes db) |}.

(** [mediaLibraryRepository.remove(library)] deletes the row of the
    library and no other: a removal is carried over to the rows of
    many-to-many junctions only, and the library was loaded without its
    [mediaItems].  The foreign key of [MediaItem.library], which the
    database enforces and which has no [onDelete] action, rejects the
    deletion while an item refers to the library: [None] is the
    [QueryFailedError] thrown then. *)
Definition removeLibrary (db : Store) (l : MediaLibrary.t) : option Store :=
  match mediaItemsOf db (MediaLibrary.id l) with
  | [] =>
      Some {| libraries :=
                filter (fun l' => negb (Nat.eqb (MediaLibrary.id l')
                                          (MediaLibrary.id l)))
                  (libraries db);
              items := items db;
              nextLibraryId := nextLibraryId db;
              nextItemId := nextItemId db;
              writes := S (writes db) |}
  | _ :: _ => None
  end.

End Repo.

(* ================================================================== *)
(** * [MediaService] *)
(* ================================================================== *)

(** The exceptions that leave the service: the four HTTP exceptions it
    throws, the plain [Error] of the constructor, and the
    [QueryFailedError] of a repository. *)
Inductive exn : Type :=
| BadRequestException
| ConflictException
| NotFoundException
| ForbiddenException
| Error
| QueryFailedError.

(** How a call ends. *)
Inductive outcome (A : Type) : Type :=
| Return (a : A)
| Throw (e : exn).
Arguments Return {A} a.
Arguments Throw {A} e.

(** The calls of [this.logger], one constructor per message. *)
Inductive logEntry : Type :=
| LogUsingBaseDirectory (baseDir : string)
| WarnCannotReadDirectory (dir : string)
| WarnCannotStatFile (filePath : string)
| WarnFfprobeFailed (filePath : string)
| LogFoundAndSaved (count : nat) (libraryName : string)
| LogNoNewItemsFound (libraryName : string)
| LogFallingBack (fallbackDir : string)
| WarnNoValidDirectory (absoluteFilePath : string)
| LogSavedFile (absoluteFilePath : string)
| WarnFailedToSaveFile (absoluteFilePath : string)
| LogProcessedAndSaved (count : nat)
| LogNoNewItemsToProcess.

Definition isWarning (e : logEntry) : bool :=
  match e with
  | WarnCannotReadDirectory _ | WarnCannotStatFile _ | WarnFfprobeFailed _
  | WarnNoValidDirectory _ | WarnFailedToSaveFile _ => true
  | _ => false
  end.

(** Everything a call can read or change: the disk, the database and the
    log, oldest entry first. *)
Record World : Type := {
  disk : FS.node;
  db : Repo.Store;
  logs : list logEntry
}.

Definition logged (w : World) (es : list logEntry) : World :=
  {| disk := disk w; db := db w; logs := (logs w ++ es)%list |}.

Definition withDb (w : World) (d : Repo.Store) : World :=
  {| disk := disk w; db := d; logs := logs w |}.

(** [DirectoryNode], and the entries of [getScannableMovies]. *)
Record DirectoryNode : Type := {
  nodeName : string;
  nodePath : string;
  nodeIsDirectory : bool
}.

Record Movie : Type := {
  movieName : string;
  moviePath : string;
  movieSize : Z
}.

(** An element of the [files] argument of [processUploadedFiles], with
    the members the method reads. *)
Module Upload.
Record t : Type := {
  filename : string;
  name : string;
  size : Z;
  buffer : FileData
}.
End Upload.

Definition supportedExtensions : list string :=
  [".mp4"; ".mkv"; ".avi"; ".mov"; ".flv"].

(** [supportedExtensions.includes(path.extname(file).toLowerCase())]. *)
Definition isSupported (file : string) : bool :=
  Str.includes (Str.toLowerCase (Path.extname file)) supportedExtensions.

(** [secondsToHMS]: the three values of [Math.floor]. *)
Definition hmsFields (totalSeconds : Num.number) : list Num.integral :=
  let hours := Num.floor (Num.div totalSeconds (Num.Finite false 3600)) in
  let minutes :=
    Num.floor (Num.div (Num.rem totalSeconds (Num.Finite false 3600))
                 (Num.Finite false 60)) in
  let seconds := Num.floor (Num.rem totalSeconds (Num.Finite false 60)) in
  [hours; minutes; seconds].

Definition secondsToHMS (totalSeconds : Num.number) : string :=
  String.concat ":"
    (map (fun v => Str.padStart0 2 (Num.toString v)) (hmsFields totalSeconds)).

(** The [try] block around [ffprobe] in both indexing loops: the
    duration, and whether the probe threw. *)
Definition probeDuration (r : option FFProbeCustomResult)
  : option string * bool :=
  match r with
  | None => (None, true)
  | Some res =>
      match format res with
      | Some f =>
          if Str.isEmpty (duration f) then (None, false)
          else (Some (secondsToHMS (Num.parseFloat (duration f))), false)
      | None => (None, false)
      end
  end.

(** [.replace(/^(\.\.(\/|\\|$))+/, '')]: removes every leading [..] that
    is followed by a slash, a backslash or the end of the string. *)
Fixpoint stripLeadingParents (s : string) : string :=
  match s with
  | String c1 (String c2 rest) =>
      if Ascii.eqb c1 Str.dot && Ascii.eqb c2 Str.dot then
        match rest with
        | EmptyString => EmptyString
        | String c3 rest' =>
            if Str.isSlash c3 || Ascii.eqb c3 Str.backslash
            then stripLeadingParents rest'
            else s
        end
      else s
  | _ => s
  end.

Section Service.

(** [process.cwd()] and the [sanitize] of the [sanitize-filename]
    package. *)
Variable cwd : string.
Variable sanitize : string -> string.

(** The loop of [findExistingDir]. [None] is running out of [fuel]. *)
Fixpoint findExistingDirLoop (fuel : nat) (root : FS.node)
  (currentPath : string) : option (option string) :=
  match fuel with
  | O => None
  | S fuel' =>
      if FS.isExistingDir cwd root currentPath then Some (Some currentPath)
      else
        let parentPath := Path.dirname currentPath in
        if String.eqb currentPath parentPath then Some None
        else findExistingDirLoop fuel' root parentPath
  end.

(** Enough iterations for any path: each one shortens it. *)
Definition enoughFuel (p : string) : nat := 2 * String.length p + 4.

Definition findExistingDir (root : FS.node) (startPath : string)
  : option string :=
  let currentPath := Path.resolve cwd [startPath] in
  match findExistingDirLoop (enoughFuel currentPath) root currentPath with
  | Some r => r
  | None => None
  end.

(** The service object: its only state is [baseDir]. *)
Record MediaService : Type := { baseDir : string }.

(** The constructor; [mediaSubdir] is
    [configService.get('MEDIA_SUBDIR')]. *)
Definition userSpecifiedPath (mediaSubdir : option string) : string :=
  let desiredBaseDir :=
    match mediaSubdir with
    | Some s => if Str.isEmpty s then "Media" else s
    | None => "Media"
    end in
  if Path.isAbsolute desiredBaseDir then desiredBaseDir
  else Path.resolve cwd [desiredBaseDir].

Definition construct (mediaSubdir : option string) (w : World)
  : outcome MediaService * World :=
  match findExistingDir (disk w) (userSpecifiedPath mediaSubdir) with
  | Some foundBaseDir =>
      (Return {| baseDir := foundBaseDir |},
       logged w [LogUsingBaseDirectory foundBaseDir])
  | None => (Throw Error, w)
  end.

Variable this : MediaService.

(** The path resolution shared by [createLibrary] and the listings. *)
Definition toAbsolute (p : string) : string :=
  if Path.isAbsolute p then p else Path.resolve cwd [baseDir this; p].

Definition createLibrary (name pathStr : string) (w : World)
  : outcome MediaLibrary.t * World :=
  let sanitizedLibraryName := sanitize name in
  if negb (String.eqb sanitizedLibraryName name) then
    (Throw BadRequestException, w)
  else
    match Repo.findLibraryByName (db w) sanitizedLibraryName with
    | Some _ => (Throw ConflictException, w)
    | None =>
        let absolutePath := toAbsolute pathStr in
        if negb (FS.isExistingDir cwd (disk w) absolutePath) then
          (Throw NotFoundException, w)
        else
          let '(library, db') :=
            Repo.saveLibrary (db w) sanitizedLibraryName absolutePath in
          (Return library, withDb w db')
    end.

(** [find({ relations: ['mediaItems'] })]. *)
Definition getAllLibraries (w : World)
  : list (MediaLibrary.t * list MediaItem.t) :=
  map (fun l => (l, Repo.mediaItemsOf (db w) (MediaLibrary.id l)))
    (Repo.libraries (db w)).

Definition deleteLibrary (id : nat) (w : World) : outcome unit * World :=
  match Repo.findLibraryById (db w) id with
  | None => (Throw NotFoundException, w)
  | Some library =>
      match Repo.removeLibrary (db w) library with
      | Some db' => (Return tt, withDb w db')
      | None => (Throw QueryFailedError, w)
      end
  end.

(** ** Scanning *)

(** What the walk accumulates: [mediaItems] in the order of the
    [push]es, and the warnings. *)
Record ScanState : Type := {
  mediaItems : list MediaItem.t;
  warnings : list logEntry
}.

Definition warn (e : logEntry) (s : ScanState) : ScanState :=
  {| mediaItems := mediaItems s; warnings := (warnings s ++ [e])%list |}.

(** The branch for a file with a supported extension. *)
Definition indexFile (store : Repo.Store) (library : MediaLibrary.t)
  (file filePath : string) (data : FileData) (s : ScanState) : ScanState :=
  match Repo.findItemByFilepath store filePath with
  | Some _ => s
  | None =>
      let '(duration, threw) := probeDuration (probe data) in
      let mediaItem :=
        {| MediaItem.id := 0;
           MediaItem.filename := file;
           MediaItem.filepath := filePath;
           MediaItem.size := byteSize data;
           MediaItem.duration := duration;
           MediaItem.library := MediaLibrary.id library |} in
      {| mediaItems := (mediaItems s ++ [mediaItem])%list;
         warnings :=
           if threw then (warnings s ++ [WarnFfprobeFailed filePath])%list
           else warnings s |}
  end.

(** [traverseDirectory(dir)], where [n] is what lies at [dir]: the
    entry found at [path.join(dir, file)] is the entry [file] of the
    directory read. *)
Fixpoint traverseDirectory (store : Repo.Store) (library : MediaLibrary.t)
  (dir : string) (n : FS.node) (s : ScanState) {struct n} : ScanState :=
  match n with
  | FS.Dir true _ files =>
      (fix each (files : list (string * FS.node)) (s : ScanState)
         {struct files} : ScanState :=
         match files with
         | [] => s
         | (file, entry) :: rest =>
             let filePath := Path.join [dir; file] in
             match entry with
             | FS.Dangling => each rest (warn (WarnCannotStatFile filePath) s)
             | FS.Dir _ _ _ =>
                 each rest (traverseDirectory store library filePath entry s)
             | FS.File data =>
                 if isSupported file then
                   each rest (indexFile store library file filePath data s)
                 else each rest s
             end
         end) files s
  | _ => warn (WarnCannotReadDirectory dir) s
  end.

Definition scanLibrary (libraryId : nat) (w : World)
  : outcome unit * World :=
  match Repo.findLibraryById (db w) libraryId with
  | None => (Throw NotFoundException, w)
  | Some library =>
      let start := {| mediaItems := []; warnings := [] |} in
      let s :=
        match FS.lookup cwd (disk w) (MediaLibrary.path library) with
        | Some n =>
            traverseDirectory (db w) library (MediaLibrary.path library)
              n start
        | None =>
            warn (WarnCannotReadDirectory (MediaLibrary.path library)) start
        end in
      let w1 := logged w (warnings s) in
      match mediaItems s with
      | [] =>
          (Return tt,
           logged w1 [LogNoNewItemsFound (MediaLibrary.name library)])
      | batch =>
          (Return tt,
           logged (withDb w1 (Repo.saveItems (db w1) batch))
             [LogFoundAndSaved (List.length batch)
                (MediaLibrary.name library)])
      end
  end.

(** ** Listing *)

Definition getSubdirectories (currentPath : string) (w : World)
  : outcome (list DirectoryNode) :=
  let absolutePath := toAbsolute currentPath in
  if negb (FS.isExistingDir cwd (disk w) absolutePath) then
    Throw NotFoundException
  else
    match FS.readdirTypes cwd (disk w) absolutePath with
    | None => Throw ForbiddenException
    | Some items =>
        Return
          (map (fun dir =>
                  {| nodeName := FS.name dir;
                     nodePath := Path.join [currentPath; FS.name dir];
                     nodeIsDirectory := true |})
             (filter FS.direntIsDirectory items))
    end.

Definition getScannableMovies (directoryPath : string) (w : World)
  : outcome (list Movie) * World :=
  let absolutePath := toAbsolute directoryPath in
  if negb (FS.isExistingDir cwd (disk w) absolutePath) then
    (Throw NotFoundException, w)
  else
    match FS.readdirTypes cwd (disk w) absolutePath with
    | None => (Throw ForbiddenException, w)
    | Some items =>
        let files :=
          filter (fun item =>
                    FS.direntIsFile item && isSupported (FS.name item))
            items in
        let statOf file :=
          let filePath := Path.join [directoryPath; FS.name file] in
          let absoluteFilePath :=
            Path.resolve cwd [baseDir this; filePath] in
          (filePath, absoluteFilePath,
           FS.statSync cwd (disk w) absoluteFilePath) in
        (Return
           (map (fun file =>
                   let '(filePath, _, st) := statOf file in
                   {| movieName := FS.name file;
                      moviePath := filePath;
                      movieSize :=
                        match st with
                        | Some st => FS.size st
                        | None => 0
                        end |})
              files),
         logged w
           (flat_map (fun file =>
                        let '(_, absoluteFilePath, st) := statOf file in
                        match st with
                        | Some _ => []
                        | None => [WarnCannotStatFile absoluteFilePath]
                        end)
              files))
    end.

(** ** Upload ingestion *)

(** The state of the [for] loop of [processUploadedFiles]: the disk,
    the batch and the log entries written so far. *)
Record IngestState : Type := {
  ingestDisk : FS.node;
  ingestItems : list MediaItem.t;
  ingestLogs : list logEntry
}.

Definition ingestLog (es : list logEntry) (s : IngestState) : IngestState :=
  {| ingestDisk := ingestDisk s;
     ingestItems := ingestItems s;
     ingestLogs := (ingestLogs s ++ es)%list |}.

(** Lines 360-367: the path the file is first resolved to.  (The
    [absoluteFilePath] computed from the raw filename is overwritten
    before it is used.) *)
Definition uploadPath (filename : string) : string :=
  let relativePath := stripLeadingParents (Path.normalize filename) in
  Path.resolve cwd [baseDir this; relativePath].

(** Lines 376-395: the path to write to, after the fallback to the
    nearest existing directory, or [None] when there is none; with the
    message logged.  (The [relativePath] recomputed after the fallback
    is not read again.) *)
Definition uploadTarget (root : FS.node) (absoluteFilePath : string)
  : option string * list logEntry :=
  let fileDir := Path.dirname absoluteFilePath in
  if negb (FS.existsSync cwd root fileDir) then
    match findExistingDir root fileDir with
    | Some fallbackDir =>
        (Some (Path.join [fallbackDir; Path.basename absoluteFilePath]),
         [LogFallingBack fallbackDir])
    | None => (None, [WarnNoValidDirectory absoluteFilePath])
    end
  else (Some absoluteFilePath, []).

(** One iteration of the loop. *)
Definition ingestFile (store : Repo.Store) (library : MediaLibrary.t)
  (file : Upload.t) (s : IngestState) : IngestState :=
  let absoluteFilePath := uploadPath (Upload.filename file) in
  match Repo.findItemByFilepath store absoluteFilePath with
  | Some _ => s
  | None =>
      match uploadTarget (ingestDisk s) absoluteFilePath with
      | (None, msgs) => ingestLog msgs s
      | (Some target, msgs) =>
          match FS.writeFile cwd (ingestDisk s) target (Upload.buffer file)
          with
          | None => ingestLog (msgs ++ [WarnFailedToSaveFile target])%list s
          | Some disk' =>
              let '(duration, threw) :=
                probeDuration (FS.ffprobe cwd disk' target) in
              let mediaItem :=
                {| MediaItem.id := 0;
                   MediaItem.filename := Path.basename (Upload.name file);
                   MediaItem.filepath := target;
                   MediaItem.size := Upload.size file;
                   MediaItem.duration := duration;
                   MediaItem.library := MediaLibrary.id library |} in
              {| ingestDisk := disk';
                 ingestItems := (ingestItems s ++ [mediaItem])%list;
                 ingestLogs :=
                   (ingestLogs s ++ msgs ++ [LogSavedFile target] ++
                      (if threw then [WarnFfprobeFailed target] else []))%list
              |}
          end
      end
  end.

(** The [for] loop. *)
Definition ingestFiles (store : Repo.Store) (library : MediaLibrary.t)
  (files : list Upload.t) (s : IngestState) : IngestState :=
  fold_left (fun s file => ingestFile store library file s) files s.

Definition processUploadedFiles (files : list Upload.t) (libraryId : nat)
  (w : World) : outcome unit * World :=
  match Repo.findLibraryById (db w) libraryId with
  | None => (Throw NotFoundException, w)
  | Some library =>
      let s :=
        ingestFiles (db w) library files
          {| ingestDisk := disk w; ingestItems := []; ingestLogs := [] |} in
      let w1 :=
        {| disk := ingestDisk s; db := db w;
           logs := (logs w ++ ingestLogs s)%list |} in
      match ingestItems s with
      | [] => (Return tt, logged w1 [LogNoNewItemsToProcess])
      | batch =>
          (Return tt,
           logged (withDb w1 (Repo.saveItems (db w1) batch))
             [LogProcessedAndSaved (List.length batch)])
      end
  end.

End Service.

(* ================================================================== *)
(** * [MediaController] and the exception layer *)
(* ================================================================== *)

Module Http.

(** What a handler of the controller throws: an exception of the
    service, passed on as the object it is, or the
    [new HttpException(message, status)] that the controller builds,
    which is an instance of no subclass. *)
Inductive thrown : Type :=
| Passed (e : exn)
| HttpException (status : nat).

(** [error.status]: the four HTTP exceptions of the service carry
    their status, an [Error] and a [QueryFailedError] have none. *)
Definition statusOf (e : exn) : option nat :=
  match e with
  | BadRequestException => Some 400
  | ForbiddenException => Some 403
  | NotFoundException => Some 404
  | ConflictException => Some 409
  | Error | QueryFailedError => None
  end.

(** [error instanceof HttpException]. *)
Definition isHttpException (e : exn) : bool :=
  match e with
  | BadRequestException | ForbiddenException | NotFoundException
  | ConflictException => true
  | Error | QueryFailedError => false
  end.

(** [error.status || HttpStatus.INTERNAL_SERVER_ERROR]. *)
Definition statusOr500 (e : exn) : nat :=
  match statusOf e with
  | Some (S s) => S s
  | _ => 500
  end.

(** How a handler ends. *)
Inductive result (A : Type) : Type :=
| Ok (a : A)
| Failed (t : thrown).
Arguments Ok {A} a.
Arguments Failed {A} t.

(** The reply to a request, as far as it is told apart here: the
    status, and the page when the body is HTML. *)
Record Response : Type := {
  statusCode : nat;
  page : option string
}.

End Http.

(** The routes of [media.controller.ts], for a request that
    [JwtAuthGuard] has let through.  [POST upload] is left out: the
    controller types the uploaded files with the members [fieldname],
    [filename], [encoding], [mimetype] and [data], the service reads
    [filename], [name], [size] and [buffer]. *)
Module MediaController.

(** [handleError]: an [HttpException] is thrown again as it is,
    anything else is wrapped. *)
Definition handleError (error : Http.thrown) : Http.thrown :=
  match error with
  | Http.HttpException status => Http.HttpException status
  | Http.Passed e =>
      if Http.isHttpException e then Http.Passed e
      else Http.HttpException (Http.statusOr500 e)
  end.

(** [POST libraries]. *)
Definition addLibrary (cwd : string) (sanitize : string -> string)
  (mediaService : MediaService) (name path : string) (w : World)
  : Http.result MediaLibrary.t * World :=
  match createLibrary cwd sanitize mediaService name path w with
  | (Return library, w') => (Http.Ok library, w')
  | (Throw e, w') => (Http.Failed (Http.Passed e), w')
  end.

(** [DELETE libraries/:id], after [ParseIntPipe]. *)
Definition deleteLibrary (id : nat) (w : World) : Http.result unit * World :=
  match deleteLibrary id w with
  | (Return tt, w') => (Http.Ok tt, w')
  | (Throw e, w') => (Http.Failed (Http.Passed e), w')
  end.

(** [GET directories]: [path] is the query parameter, [''] when it is
    not given; whatever the service throws is replaced. *)
Definition getDirectories (cwd : string) (mediaService : MediaService)
  (path : option string) (w : World) : Http.result (list DirectoryNode) :=
  let path := match path with Some p => p | None => "" end in
  match getSubdirectories cwd mediaService path w with
  | Return directories => Http.Ok directories
  | Throw error => Http.Failed (Http.HttpException (Http.statusOr500 error))
  end.

(** [GET movies]. *)
Definition getMovies (cwd : string) (mediaService : MediaService)
  (path : option string) (w : World) : Http.result (list Movie) * World :=
  let path := match path with Some p => p | None => "" end in
  match getScannableMovies cwd mediaService path w with
  | (Return movies, w') => (Http.Ok movies, w')
  | (Throw error, w') =>
      (Http.Failed (Http.HttpException (Http.statusOr500 error)), w')
  end.

(** [POST scan]. [libraryId] is the query parameter as the handler
    sees it: [None] when it is falsy, else the number that the
    repository compares it with. *)
Definition scanLibrary (cwd : string) (libraryId : option nat) (w : World)
  : Http.result unit * World :=
  match libraryId with
  | None => (Http.Failed (handleError (Http.HttpException 400)), w)
  | Some id =>
      match scanLibrary cwd id w with
      | (Return tt, w') => (Http.Ok tt, w')
      | (Throw e, w') => (Http.Failed (handleError (Http.Passed e)), w')
      end
  end.

End MediaController.

(** [not-found-exception.filter.ts], registered for the whole
    application by [app.module.ts]. *)
Module NotFoundExceptionFilter.

(** [@Catch(NotFoundException)]: the exceptions that the filter
    takes. *)
Definition catches (t : Http.thrown) : bool :=
  match t with
  | Http.Passed NotFoundException => true
  | _ => false
  end.

(** [catch]: the reply sent; [index] is the content of [index.html],
    [None] when [readFileSync] throws, and then nothing is sent. *)
Definition catch (index : option string) : option Http.Response :=
  match index with
  | Some html => Some {| Http.statusCode := 200; Http.page := Some html |}
  | None => None
  end.

End NotFoundExceptionFilter.

(** The reply to a request whose handler ended in [r]: [success] is
    the status of the route (200 for [GET], 201 for [POST], what
    [@HttpCode] says); an exception goes to the filter that catches it,
    else to the default handler, which replies with the status of an
    [HttpException] and with 500 to anything else. *)
Definition reply {A : Type} (success : nat) (index : option string)
  (r : Http.result A) : option Http.Response :=
  match r with
  | Http.Ok _ => Some {| Http.statusCode := success; Http.page := None |}
  | Http.Failed t =>
      if NotFoundExceptionFilter.catches t then
        NotFoundExceptionFilter.catch index
      else
        Some {| Http.statusCode :=
                  match t with
                  | Http.Passed e =>
                      match Http.statusOf e with
                      | Some s => s
                      | None => 500
                      end
                  | Http.HttpException s => s
                  end;
                Http.page := None |}
  end.

(* ================================================================== *)
(** * Notions used to state the properties *)
(* ================================================================== *)

(** [p] lies in the directory tree rooted at [base] (both resolved):
    it is [base] or continues it after a separator. *)
Definition insideBase (base p : string) : bool :=
  String.eqb p base
  || String.prefix (if String.eqb base "/" then "/" else base ++ "/") p.

(** A string without separator, and a proper segment of a resolved
    path: not empty, not [.] nor [..], without separator. *)
Definition noSlash (s : string) : bool :=
  forallb (fun c => negb (Str.isSlash c)) (Str.chars s).

Definition noBackslash (s : string) : bool :=
  forallb (fun c => negb (Ascii.eqb c Str.backslash)) (Str.chars s).

Definition isSegment (s : string) : bool :=
  negb (Str.isEmpty s) && negb (String.eqb s ".") && negb (String.eqb s "..")
  && noSlash s.

(** A tree as [readdir] shows it: in every directory the names are
    proper segments and no name occurs twice. *)
Fixpoint wellFormed (n : FS.node) {struct n} : Prop :=
  match n with
  | FS.Dir _ _ entries =>
      NoDup (map fst entries)
      /\ Forall (fun e => isSegment (fst e) = true) entries
      /\ (fix each (es : list (string * FS.node)) {struct es} : Prop :=
            match es with
            | [] => True
            | (_, entry) :: rest => wellFormed entry /\ each rest
            end) entries
  | _ => True
  end.

(** The chain of ancestors that [findExistingDir] climbs. *)
Definition ancestor (k : nat) (p : string) : string :=
  Nat.iter k Path.dirname p.

(** A measure that [path.dirname] decreases until it reaches its fixed
    point. *)
Definition climb (p : string) : nat :=
  match p with
  | EmptyString => 3
  | _ =>
      2 * String.length p
      + (if String.eqb p "/" || String.eqb p "." then 0 else 1)
  end.

(** The regular files with a supported extension that the walk reaches
    from [dir], in the order of the walk: name, path, content. *)
Fixpoint supportedFiles (dir : string) (n : FS.node) {struct n}
  : list (string * string * FileData) :=
  match n with
  | FS.Dir true _ files =>
      (fix each (files : list (string * FS.node)) {struct files} :=
         match files with
         | [] => []
         | (file, entry) :: rest =>
             let filePath := Path.join [dir; file] in
             match entry with
             | FS.Dangling => each rest
             | FS.Dir _ _ _ => (supportedFiles filePath entry ++ each rest)%list
             | FS.File data =>
                 if isSupported file then (file, filePath, data) :: each rest
                 else each rest
             end
         end) files
  | _ => []
  end.

(** The entries that the walk cannot read, as the warnings it gives:
    the directories on which [readdir] throws and the entries on which
    [stat] throws. *)
Fixpoint walkFailures (dir : string) (n : FS.node) {struct n}
  : list logEntry :=
  match n with
  | FS.Dir true _ files =>
      (fix each (files : list (string * FS.node)) {struct files} :=
         match files with
         | [] => []
         | (file, entry) :: rest =>
             let filePath := Path.join [dir; file] in
             match entry with
             | FS.Dangling => WarnCannotStatFile filePath :: each rest
             | FS.Dir _ _ _ => (walkFailures filePath entry ++ each rest)%list
             | FS.File _ => each rest
             end
         end) files
  | _ => [WarnCannotReadDirectory dir]
  end.

(** The same for a library, whose root may not even be there. *)
Definition libraryFailures (cwd : string) (root : FS.node)
  (library : MediaLibrary.t) : list logEntry :=
  match FS.lookup cwd root (MediaLibrary.path library) with
  | Some n => walkFailures (MediaLibrary.path library) n
  | None => [WarnCannotReadDirectory (MediaLibrary.path library)]
  end.

(** The files a library holds, as [scanLibrary] walks them. *)
Definition libraryFiles (cwd : string) (root : FS.node)
  (library : MediaLibrary.t) : list (string * string * FileData) :=
  match FS.lookup cwd root (MediaLibrary.path library) with
  | Some n => supportedFiles (MediaLibrary.path library) n
  | None => []
  end.

Definition isIndexed (store : Repo.Store) (filePath : string) : bool :=
  match Repo.findItemByFilepath store filePath with
  | Some _ => true
  | None => false
  end.

(** The item that [scanLibrary] creates for a file. *)
Definition scannedItem (library : MediaLibrary.t)
  (f : string * string * FileData) : MediaItem.t :=
  let '(file, filePath, data) := f in
  {| MediaItem.id := 0;
     MediaItem.filename := file;
     MediaItem.filepath := filePath;
     MediaItem.size := byteSize data;
     MediaItem.duration := fst (probeDuration (probe data));
     MediaItem.library := MediaLibrary.id library |}.

Definition newItems (store : Repo.Store) (library : MediaLibrary.t)
  (fs : list (string * string * FileData)) : list MediaItem.t :=
  map (scannedItem library)
    (filter (fun f => negb (isIndexed store (snd (fst f)))) fs).

(** The warnings for the new files whose probe throws. *)
Definition probeFailures (store : Repo.Store)
  (fs : list (string * string * FileData)) : list logEntry :=
  map (fun f => WarnFfprobeFailed (snd (fst f)))
    (filter (fun f =>
               negb (isIndexed store (snd (fst f)))
               && match probe (snd f) with None => true | Some _ => false end)
       fs).

Definition filepaths (l : list MediaItem.t) : list string :=
  map MediaItem.filepath l.

(** ** Notions for the store, the disk and the listings *)

(** What the keys of the two tables guarantee: the ids in use are below
    the next generated one and distinct, no two libraries share a name,
    and every Item belongs to a library that is there. *)
Record consistent (store : Repo.Store) : Prop := {
  libraryIdsBelowNext :
    Forall (fun l => MediaLibrary.id l < Repo.nextLibraryId store)
      (Repo.libraries store);
  libraryIdsDistinct : NoDup (map MediaLibrary.id (Repo.libraries store));
  libraryNamesDistinct : NoDup (map MediaLibrary.name (Repo.libraries store));
  itemIdsBelowNext :
    Forall (fun i => MediaItem.id i < Repo.nextItemId store)
      (Repo.items store);
  itemIdsDistinct : NoDup (map MediaItem.id (Repo.items store));
  itemsOwned :
    Forall (fun i =>
              exists l, In l (Repo.libraries store)
                        /\ MediaLibrary.id l = MediaItem.library i)
      (Repo.items store)
}.

(** What holds of the Items of the batch during the loop: each was made
    for one of the files, and the bytes of one of the files lie at its
    filepath. *)
Definition ingested (cwd : string) (library : MediaLibrary.t)
  (files : list Upload.t) (root : FS.node) (item : MediaItem.t) : Prop :=
  (exists file,
     In file files
     /\ MediaItem.filename item = Path.basename (Upload.name file)
     /\ MediaItem.size item = Upload.size file
     /\ MediaItem.duration item
        = fst (probeDuration (probe (Upload.buffer file))))
  /\ MediaItem.library item = MediaLibrary.id library
  /\ exists segs file,
       In file files
       /\ Forall (fun x => isSegment x = true) segs
       /\ MediaItem.filepath item = String "/" (Str.join segs)
       /\ FS.lookup cwd root (MediaItem.filepath item)
          = Some (FS.File (Upload.buffer file)).

(** The state in which the loop of [processUploadedFiles] starts. *)
Definition startOfUpload (w : World) : IngestState :=
  {| ingestDisk := disk w; ingestItems := []; ingestLogs := [] |}.

(** Two decimal digits. *)
Definition twoDigits (z : Z) : string :=
  String (Num.digitChar (z / 10)) (String (Num.digitChar (z mod 10)) "").

(** [cur] is what lies at the proper segments [res] (the last one
    first) below [root], and [stack] holds the directories on the way. *)
Fixpoint reach (root : FS.node) (res : list string) (stack : list FS.node)
  (cur : FS.node) : Prop :=
  match res, stack with
  | [], [] => cur = root
  | seg :: res', parent :: stack' =>
      isSegment seg = true
      /\ (exists r w es,
            parent = FS.Dir r w es /\ FS.child seg es = Some cur)
      /\ reach root res' stack' parent
  | _, _ => False
  end.

(** The names of the entries of a directory that are directories, and
    its regular files with a supported extension. *)
Definition directoryEntries (entries : list (string * FS.node))
  : list string :=
  flat_map (fun e => match snd e with
                     | FS.Dir _ _ _ => [fst e]
                     | _ => []
                     end) entries.

Definition movieEntries (entries : list (string * FS.node))
  : list (string * FileData) :=
  flat_map (fun e => match snd e with
                     | FS.File d => if isSupported (fst e) then [(fst e, d)]
                                    else []
                     | _ => []
                     end) entries.

(** The kinds of what lies at a path of proper segments, before and
    after: a directory with the same permissions, a regular file. *)
Definition sameDirectories (root root' : FS.node) : Prop :=
  forall segs r w,
  Forall (fun x => isSegment x = true) segs ->
  ((exists es, FS.walk [] root segs = Some (FS.Dir r w es))
   <-> exists es, FS.walk [] root' segs = Some (FS.Dir r w es)).

Definition keepsFiles (root root' : FS.node) : Prop :=
  forall segs d,
  Forall (fun x => isSegment x = true) segs ->
  FS.walk [] root segs = Some (FS.File d) ->
  exists d', FS.walk [] root' segs = Some (FS.File d').

(** ** A model of [sanitize-filename], to instantiate [sanitize] *)

(** The package is not part of the repository.  This is its version 1,
    called without options: five replacements by the empty string, then
    the cut of [truncate-utf8-bytes]. *)
Module Sanitize.

(** The class of [illegalRe]: slash, question mark, angle brackets,
    backslash, colon, star, bar and double quote. *)
Definition isIllegal (c : ascii) : bool :=
  let n := nat_of_ascii c in
  existsb (Nat.eqb n) [47; 63; 60; 62; 92; 58; 42; 124; 34].

(** The class of [controlRe]: U+0000 to U+001F, one byte each, and
    U+0080 to U+009F, the two bytes C2 80 to C2 9F each. *)
Definition isControl (c : ascii) : bool := (nat_of_ascii c <=? 31)%nat.

Definition isControl2 (c1 c2 : ascii) : bool :=
  ((nat_of_ascii c1 =? 194) && (128 <=? nat_of_ascii c2)
   && (nat_of_ascii c2 <=? 159))%nat.

Fixpoint removeChars (p : ascii -> bool) (s : string) : string :=
  match s with
  | EmptyString => EmptyString
  | String c r => if p c then removeChars p r else String c (removeChars p r)
  end.

Fixpoint removeControls (s : string) : string :=
  match s with
  | EmptyString => EmptyString
  | String c1 r1 =>
      if isControl c1 then removeControls r1
      else
        match r1 with
        | String c2 r2 =>
            if isControl2 c1 c2 then removeControls r2
            else String c1 (removeControls r1)
        | EmptyString => String c1 EmptyString
        end
  end.

(** [reservedRe]: nothing but dots. *)
Definition allDots (s : string) : bool :=
  negb (Str.isEmpty s) && forallb (Ascii.eqb Str.dot) (Str.chars s).

(** A line terminator, which the dot of a regular expression does not
    match: LF, CR, U+2028 or U+2029. *)
Fixpoint hasLineTerminator (s : string) : bool :=
  match s with
  | EmptyString => false
  | String c1 r1 =>
      (nat_of_ascii c1 =? 10)%nat || (nat_of_ascii c1 =? 13)%nat
      || match r1 with
         | String c2 (String c3 _) =>
             ((nat_of_ascii c1 =? 226) && (nat_of_ascii c2 =? 128)
              && ((nat_of_ascii c3 =? 168) || (nat_of_ascii c3 =? 169)))%nat
         | _ => false
         end
      || hasLineTerminator r1
  end.

(** [windowsReservedRe]: one of the device names [con], [prn], [aux],
    [nul], [com0]-[com9] and [lpt0]-[lpt9], in either case of its ASCII
    letters, alone or before a dot and anything on one line. *)
Definition isWindowsReserved (s : string) : bool :=
  let stem :=
    Str.lowerAscii
      (Str.ofChars
         (Str.takeWhile (fun c => negb (Ascii.eqb c Str.dot))
            (Str.chars s))) in
  let rest :=
    Str.ofChars
      (Str.dropWhile (fun c => negb (Ascii.eqb c Str.dot)) (Str.chars s)) in
  (Str.includes stem ["con"; "prn"; "aux"; "nul"]
   || match stem with
      | String a (String b (String c (String d EmptyString))) =>
          Str.includes (String a (String b (String c EmptyString)))
            ["com"; "lpt"]
          && Num.isDigit d
      | _ => false
      end)
  && negb (hasLineTerminator rest).

(** [windowsTrailingRe]: the dots and spaces at the end. *)
Definition trimTrailing (s : string) : string :=
  Str.ofChars
    (rev (Str.dropWhile
            (fun c => Ascii.eqb c Str.dot || Ascii.eqb c " "%char)
            (rev (Str.chars s)))).

(** A byte that continues a character in UTF-8. *)
Definition isContinuation (c : ascii) : bool :=
  let n := nat_of_ascii c in (128 <=? n)%nat && (n <=? 191)%nat.

(** [truncate(s, n)] of [truncate-utf8-bytes]: the longest prefix of
    whole characters that takes at most [n] bytes.  When the byte after
    the first [n] continues a character, that character is left out. *)
Definition truncate (n : nat) (s : string) : string :=
  let kept := String.substring 0 n s in
  match String.get n s with
  | Some c =>
      if isContinuation c then
        Str.ofChars
          (rev (tl (Str.dropWhile isContinuation (rev (Str.chars kept)))))
      else kept
  | None => kept
  end.

(** The five replacements in their order, then the cut at 255 bytes. *)
Definition sanitize (input : string) : string :=
  let s1 := removeChars isIllegal input in
  let s2 := removeControls s1 in
  let s3 := if allDots s2 then "" else s2 in
  let s4 := if isWindowsReserved s3 then "" else s3 in
  let s5 := trimTrailing s4 in
  truncate 255 s5.

End Sanitize.

(** ** A small installation, for concrete runs *)

Module Example.

Definition cwd : string := "/srv/app".

Definition video (bytes : Z) (seconds : string) : FS.node :=
  FS.File {| byteSize := bytes;
             probe := Some {| format := Some {| duration := seconds |} |} |}.

(** A file that [ffprobe] cannot read. *)
Definition corrupt (bytes : Z) : FS.node :=
  FS.File {| byteSize := bytes; probe := None |}.

Definition tree : FS.node :=
  FS.Dir true true
    [("etc", FS.Dir true true [("passwd", corrupt 10)]);
     ("srv",
      FS.Dir true true
        [("media",
          FS.Dir true true
            [("a.mp4", video 100 "5425.700000");
             ("sub", FS.Dir true true
                       [("b.MKV", corrupt 7); ("notes.txt", corrupt 1)]);
             ("link", FS.Dangling);
             ("locked", FS.Dir false true [("c.mp4", corrupt 3)]);
             ("readonly", FS.Dir true false [])])])].

Definition movies : MediaLibrary.t :=
  {| MediaLibrary.id := 1;
     MediaLibrary.name := "Movies";
     MediaLibrary.path := "/srv/media" |}.

(** A library whose root cannot be read. *)
Definition locked : MediaLibrary.t :=
  {| MediaLibrary.id := 2;
     MediaLibrary.name := "Locked";
     MediaLibrary.path := "/srv/media/locked" |}.

Definition store : Repo.Store :=
  {| Repo.libraries := [movies; locked];
     Repo.items := [];
     Repo.nextLibraryId := 3;
     Repo.nextItemId := 1;
     Repo.writes := 0 |}.

Definition world : World := {| disk := tree; db := store; logs := [] |}.

Definition service : MediaService := {| baseDir := "/srv/media" |}.

(** The world after a first scan of [movies]. *)
Definition scanned : World :=
  snd (scanLibrary cwd 1 world).

Definition upload (filename : string) : Upload.t :=
  {| Upload.filename := filename;
     Upload.name := filename;
     Upload.size := 5;
     Upload.buffer := {| byteSize := 5; probe := None |} |}.

(** A disk with nothing at its root. *)
Definition nothing : FS.node := FS.Dangling.

End Example.

(** ** Further concrete runs *)

Module Sample.

(** The entries of the base directory of [Example.tree]. *)
Definition mediaEntries : list (string * FS.node) :=
  match FS.lookup Example.cwd Example.tree "/srv/media" with
  | Some (FS.Dir _ _ entries) => entries
  | _ => []
  end.

(** The entries of its subdirectory [sub]. *)
Definition subEntries : list (string * FS.node) :=
  match FS.lookup Example.cwd Example.tree "/srv/media/sub" with
  | Some (FS.Dir _ _ entries) => entries
  | _ => []
  end.

(** A library directory with one stream whose duration the probe
    reports as [N/A]. *)
Definition live : World :=
  {| disk :=
       FS.Dir true true
         [("srv",
           FS.Dir true true
             [("media",
               FS.Dir true true [("live.mkv", Example.video 9 "N/A")])])];
     db := Example.store;
     logs := [] |}.

(** Names with letters outside ASCII, in UTF-8: [film.mKv] with the
    Kelvin sign U+212A for its K, and a name that begins with U+00D6. *)
Definition kelvinName : string :=
  "film.m"
  ++ String (ascii_of_nat 226)
       (String (ascii_of_nat 132) (String (ascii_of_nat 170) "v")).

Definition umlautName : string :=
  String (ascii_of_nat 195) (String (ascii_of_nat 150) "sterreich").

(** A world whose disk has nothing at its root. *)
Definition diskless : World :=
  {| disk := Example.nothing; db := Example.store; logs := [] |}.

(** 5425.7 seconds: the double that the literal stands for. *)
Definition seconds : Q :=
  match Num.parseFloat "5425.7" with
  | Num.Finite _ q => q
  | _ => 0%Q
  end.

(** A library directory with one file whose probe reports 5425.7
    seconds. *)
Definition reported : World :=
  {| disk :=
       FS.Dir true true
         [("srv",
           FS.Dir true true
             [("media",
               FS.Dir true true [("a.mp4", Example.video 100 "5425.7")])])];
     db := Example.store;
     logs := [] |}.

End Sample.

(* ================================================================== *)
(** * Lists and strings *)
(* ================================================================== *)

Lemma dropWhile_length {A} (p : A -> bool) (l : list A) :
  List.length (Str.dropWhile p l) <= List.length l.
Proof.
  induction l as [|x r IH]; simpl; [lia|].
  destruct (p x); simpl; lia.
Qed.

Lemma dropWhile_head {A} (p : A -> bool) (l : list A) x r :
  Str.dropWhile p l = x :: r -> p x = false.
Proof.
  induction l as [|y l IH]; simpl; [discriminate|].
  destruct (p y) eqn:E; [exact IH|].
  intros H; injection H as -> _; exact E.
Qed.

Lemma dropWhile_shrinks {A} (p : A -> bool) (x : A) (l : list A) :
  p x = true ->
  List.length (Str.dropWhile p (x :: l)) < List.length (x :: l).
Proof.
  intros H; simpl; rewrite H.
  pose proof (dropWhile_length p l); lia.
Qed.

Lemma length_chars (s : string) : List.length (Str.chars s) = String.length s.
Proof. induction s; simpl; auto. Qed.

Lemma length_ofChars (l : list ascii) :
  String.length (Str.ofChars l) = List.length l.
Proof. induction l; simpl; auto. Qed.

Lemma isSlash_eq (c : ascii) : Str.isSlash c = true -> c = "/"%char.
Proof. unfold Str.isSlash, Str.slash; apply Ascii.eqb_eq. Qed.

Lemma startsWithSlash_cons (s : string) :
  Str.startsWithSlash s = true -> exists r, s = String "/" r.
Proof.
  destruct s as [|c r]; simpl; [discriminate|].
  intros H; apply isSlash_eq in H; subst; eauto.
Qed.

(* ================================================================== *)
(** * [path.dirname] climbs to a fixed point *)
(* ================================================================== *)

Lemma climb_bounds (s : string) :
  s <> "" -> 2 * String.length s <= climb s <= 2 * String.length s + 1.
Proof.
  destruct s as [|c r]; [congruence|]; intros _.
  unfold climb.
  destruct (String.eqb (String c r) "/" || String.eqb (String c r) ".");
    simpl String.length; lia.
Qed.

Lemma climb_lt_enoughFuel (p : string) : climb p < enoughFuel p.
Proof.
  unfold enoughFuel; destruct p as [|c r]; [simpl; lia|].
  assert (H : String c r <> "") by discriminate.
  pose proof (climb_bounds _ H); lia.
Qed.

(** The tail scan of [dirname] is shorter than the tail, by two when it
    finds a separator. *)
Lemma dirname_scan_length (t : string) s before :
  Str.dropWhile (fun c => negb (Str.isSlash c))
    (Str.dropWhile Str.isSlash (rev (Str.chars t))) = s :: before ->
  List.length before + 2 <= String.length t.
Proof.
  intros H.
  pose proof (dropWhile_length Str.isSlash (rev (Str.chars t))) as H1.
  rewrite length_rev, length_chars in H1.
  destruct (Str.dropWhile Str.isSlash (rev (Str.chars t))) as [|x X] eqn:E;
    [discriminate|].
  apply dropWhile_head in E.
  pose proof (dropWhile_shrinks (fun c => negb (Str.isSlash c)) x X) as H2.
  cbv beta in H2; rewrite E in H2; specialize (H2 eq_refl).
  rewrite H in H2; simpl in *; lia.
Qed.

Lemma dirname_climbs (p : string) :
  Path.dirname p <> p -> climb (Path.dirname p) < climb p.
Proof.
  destruct p as [|c0 t]; [intros _; simpl; lia|].
  unfold Path.dirname.
  destruct (Str.dropWhile _ (Str.dropWhile Str.isSlash (rev (Str.chars t))))
    as [|s before] eqn:E.
  - destruct (Str.isSlash c0) eqn:Hc; intros Hne.
    + destruct t as [|c1 t'].
      * apply isSlash_eq in Hc; subst; congruence.
      * assert (Hn : String c0 (String c1 t') <> "") by discriminate.
        pose proof (climb_bounds _ Hn); simpl in *; lia.
    + destruct t as [|c1 t'].
      * unfold climb.
        assert (H1 : String.eqb (String c0 "") "/" = false).
        { apply String.eqb_neq; intros H; injection H as ->; discriminate. }
        assert (H2 : String.eqb (String c0 "") "." = false).
        { apply String.eqb_neq; congruence. }
        rewrite H1, H2; simpl; lia.
      * assert (Hn : String c0 (String c1 t') <> "") by discriminate.
        pose proof (climb_bounds _ Hn); simpl in *; lia.
  - apply dirname_scan_length in E.
    assert (Hn : String c0 t <> "") by discriminate.
    pose proof (climb_bounds _ Hn) as Hp; simpl String.length in Hp.
    destruct (Str.isSlash c0 && Nat.eqb (List.length before) 0); intros _.
    + simpl; lia.
    + assert (Hm : String c0 (Str.ofChars (rev before)) <> "")
        by discriminate.
      pose proof (climb_bounds _ Hm) as Hq; simpl String.length in Hq.
      rewrite length_ofChars, length_rev in Hq; lia.
Qed.

Lemma dirname_keeps_absolute (p : string) :
  Path.isAbsolute p = true -> Path.isAbsolute (Path.dirname p) = true.
Proof.
  destruct p as [|c0 t]; [discriminate|].
  unfold Path.isAbsolute; simpl; intros Hc; rewrite Hc.
  destruct (Str.dropWhile _ _) as [|s before]; [reflexivity|].
  simpl; destruct (Nat.eqb _ _); simpl; auto.
Qed.

(** The only absolute path that is its own parent is the root. *)
Lemma dirname_fixed_absolute (p : string) :
  Path.isAbsolute p = true -> Path.dirname p = p -> p = "/".
Proof.
  destruct p as [|c0 t]; [discriminate|].
  unfold Path.isAbsolute; simpl; intros Hc.
  unfold Path.dirname; rewrite Hc.
  destruct (Str.dropWhile _ (Str.dropWhile Str.isSlash (rev (Str.chars t))))
    as [|s before] eqn:E; [auto|].
  apply dirname_scan_length in E.
  simpl; destruct (Nat.eqb _ _); intros H;
    apply (f_equal String.length) in H; simpl in H;
    try rewrite length_ofChars, length_rev in H; lia.
Qed.

Lemma ancestor_step (k : nat) (p : string) :
  ancestor (S k) p = ancestor k (Path.dirname p).
Proof. unfold ancestor; apply Nat.iter_succ_r. Qed.

Lemma ancestor_fixed (k : nat) (p : string) :
  Path.dirname p = p -> ancestor k p = p.
Proof.
  intros H; induction k as [|k IH]; [reflexivity|].
  unfold ancestor in *; simpl; rewrite IH; exact H.
Qed.

Lemma ancestor_absolute (k : nat) (p : string) :
  Path.isAbsolute p = true -> Path.isAbsolute (ancestor k p) = true.
Proof.
  intros H; induction k as [|k IH]; [exact H|].
  unfold ancestor in *; simpl; apply dirname_keeps_absolute, IH.
Qed.

(** The chain of parents reaches its fixed point within [climb p]
    steps. *)
Lemma ancestor_reaches_fixed (n : nat) :
  forall p, climb p <= n ->
  exists k, k <= n /\ Path.dirname (ancestor k p) = ancestor k p.
Proof.
  induction n as [|n IH]; intros p Hn.
  - destruct (string_dec (Path.dirname p) p) as [E|E].
    + exists 0; split; [lia|exact E].
    + apply dirname_climbs in E; lia.
  - destruct (string_dec (Path.dirname p) p) as [E|E].
    + exists 0; split; [lia|exact E].
    + pose proof (dirname_climbs _ E) as Hlt.
      destruct (IH (Path.dirname p)) as [k [Hk Hf]]; [lia|].
      exists (S k); split; [lia|].
      rewrite ancestor_step; exact Hf.
Qed.

Section FindExistingDir.

Variable cwd : string.
Variable root : FS.node.

Lemma findExistingDirLoop_total (fuel : nat) :
  forall p, climb p < fuel ->
  exists r, findExistingDirLoop cwd fuel root p = Some r.
Proof.
  induction fuel as [|fuel IH]; intros p Hlt; [lia|].
  simpl.
  destruct (FS.isExistingDir cwd root p); [eauto|].
  destruct (String.eqb p (Path.dirname p)) eqn:E; [eauto|].
  apply IH.
  apply String.eqb_neq in E.
  assert (E' : Path.dirname p <> p) by congruence.
  apply dirname_climbs in E'; lia.
Qed.

Lemma findExistingDirLoop_found (fuel : nat) :
  forall p d, findExistingDirLoop cwd fuel root p = Some (Some d) ->
  exists k, d = ancestor k p
            /\ FS.isExistingDir cwd root d = true
            /\ forall j, j < k ->
                 FS.isExistingDir cwd root (ancestor j p) = false.
Proof.
  induction fuel as [|fuel IH]; intros p d; simpl; [discriminate|].
  destruct (FS.isExistingDir cwd root p) eqn:Hd.
  - intros H; injection H as <-.
    exists 0; repeat split; auto; intros j Hj; lia.
  - destruct (String.eqb p (Path.dirname p)); [discriminate|].
    intros H; apply IH in H; destruct H as [k [-> [H1 H2]]].
    exists (S k); rewrite ancestor_step; repeat split; auto.
    intros [|j] Hj; [exact Hd|].
    rewrite ancestor_step; apply H2; lia.
Qed.

Lemma findExistingDirLoop_none (fuel : nat) :
  forall p, findExistingDirLoop cwd fuel root p = Some None ->
  forall k, FS.isExistingDir cwd root (ancestor k p) = false.
Proof.
  induction fuel as [|fuel IH]; intros p; simpl; [discriminate|].
  destruct (FS.isExistingDir cwd root p) eqn:Hd; [discriminate|].
  destruct (String.eqb p (Path.dirname p)) eqn:E.
  - intros _ k; apply String.eqb_eq in E.
    rewrite ancestor_fixed; auto.
  - intros H [|k]; [exact Hd|].
    rewrite ancestor_step; apply IH; exact H.
Qed.

(** More fuel than needed does not change the result. *)
Lemma findExistingDirLoop_more_fuel (fuel : nat) :
  forall p r, findExistingDirLoop cwd fuel root p = Some r ->
  forall fuel', fuel <= fuel' ->
  findExistingDirLoop cwd fuel' root p = Some r.
Proof.
  induction fuel as [|fuel IH]; intros p r; simpl; [discriminate|].
  intros H [|fuel'] Hle; [lia|]; simpl.
  destruct (FS.isExistingDir cwd root p); [exact H|].
  destruct (String.eqb p (Path.dirname p)); [exact H|].
  apply IH with (fuel' := fuel') in H; [exact H|lia].
Qed.

End FindExistingDir.

Lemma resolve_absolute (cwd : string) (args : list string) :
  Path.isAbsolute cwd = true -> Path.isAbsolute (Path.resolve cwd args) = true.
Proof.
  intros Hc; unfold Path.resolve.
  destruct (Path.resolveArgs (rev args) "") as [rp [|]]; [reflexivity|].
  destruct cwd as [|c r]; [discriminate|].
  simpl Str.isEmpty; cbv iota; rewrite Hc; reflexivity.
Qed.

(** C8. The upward search of [findExistingDir] terminates for every
    starting path: the chain of parents of the resolved path reaches, in
    at most [climb] steps, a path that is its own parent (the root [/]
    when the working directory is absolute); the loop never runs out of
    its fuel; it returns the nearest ancestor on that chain that is an
    existing directory, or [None] when no path of the chain is one; and
    in that case the constructor throws and no service is built. *)
Theorem findExistingDir_terminates_nearest
  (cwd : string) (root : FS.node) (startPath : string) :
  let p := Path.resolve cwd [startPath] in
  (exists k, k <= climb p
             /\ Path.dirname (ancestor k p) = ancestor k p
             /\ (Path.isAbsolute cwd = true -> ancestor k p = "/"))
  /\ (forall fuel, enoughFuel p <= fuel ->
        findExistingDirLoop cwd fuel root p
        = Some (findExistingDir cwd root startPath))
  /\ (forall d, findExistingDir cwd root startPath = Some d ->
        exists k, d = ancestor k p
                  /\ FS.isExistingDir cwd root d = true
                  /\ forall j, j < k ->
                       FS.isExistingDir cwd root (ancestor j p) = false)
  /\ (findExistingDir cwd root startPath = None ->
        forall k, FS.isExistingDir cwd root (ancestor k p) = false)
  /\ (forall mediaSubdir w,
        disk w = root -> startPath = userSpecifiedPath cwd mediaSubdir ->
        findExistingDir cwd root startPath = None ->
        construct cwd mediaSubdir w = (Throw Error, w)).
Proof.
  intros p.
  destruct (findExistingDirLoop_total cwd root (enoughFuel p) p
              (climb_lt_enoughFuel p)) as [r Hr].
  assert (Hf : findExistingDir cwd root startPath = r).
  { unfold findExistingDir; fold p; rewrite Hr; reflexivity. }
  split; [|split; [|split; [|split]]].
  - destruct (ancestor_reaches_fixed (climb p) p (le_n _)) as [k [Hk Hfix]].
    exists k; repeat split; auto.
    intros Hc; apply dirname_fixed_absolute; auto.
    apply ancestor_absolute, resolve_absolute, Hc.
  - intros fuel Hle; rewrite Hf.
    eapply findExistingDirLoop_more_fuel; eauto.
  - intros d Hd; rewrite Hf in Hd; rewrite Hd in Hr.
    eapply findExistingDirLoop_found; eauto.
  - intros Hn; rewrite Hf in Hn; rewrite Hn in Hr.
    eapply findExistingDirLoop_none; eauto.
  - intros m w Hw Hs Hn; unfold construct.
    rewrite Hw, <- Hs, Hn; reflexivity.
Qed.

Lemma findExistingDir_terminates_nearest_witness :
  findExistingDir Example.cwd Example.tree "Media/new" = Some "/srv"
  /\ (exists k, "/srv" = ancestor k "/srv/app/Media/new"
                /\ FS.isExistingDir Example.cwd Example.tree "/srv" = true
                /\ forall j, j < k ->
                     FS.isExistingDir Example.cwd Example.tree
                       (ancestor j "/srv/app/Media/new") = false)
  /\ construct Example.cwd None
       {| disk := Example.nothing; db := Example.store; logs := [] |}
     = (Throw Error,
        {| disk := Example.nothing; db := Example.store; logs := [] |}).
Proof.
  split; [reflexivity|]; split.
  - apply (findExistingDir_terminates_nearest
             Example.cwd Example.tree "Media/new"); reflexivity.
  - apply (findExistingDir_terminates_nearest
             Example.cwd Example.nothing (userSpecifiedPath Example.cwd None));
      reflexivity.
Defined.

(* ================================================================== *)
(** * Rounding to a double *)
(* ================================================================== *)

Lemma pow2_pos (e : Z) : (0 < 2 ^ e)%Q.
Proof. apply Qpower_0_lt; reflexivity. Qed.

Lemma pow2_plus (a b : Z) : (2 ^ (a + b) == 2 ^ a * 2 ^ b)%Q.
Proof. apply Qpower_plus; discriminate. Qed.

Lemma pow2_le (a b : Z) : (a <= b)%Z -> (2 ^ a <= 2 ^ b)%Q.
Proof. intros H; apply Qpower_le_compat_l; [exact H|discriminate]. Qed.

Lemma pow2_lt_inv (a b : Z) : (2 ^ a < 2 ^ b)%Q -> (a < b)%Z.
Proof. intros H; apply (Qpower_lt_compat_l_inv 2); [exact H|reflexivity]. Qed.

Lemma pow2_Z (n : Z) : (0 <= n)%Z -> (inject_Z (2 ^ n) == 2 ^ n)%Q.
Proof. intros H; apply (Zpower_Qpower 2 n H). Qed.

(** An integer counts a whole number of steps of [2^e] when [e <= 0]. *)
Lemma steps_of_integer (e k : Z) :
  (e <= 0)%Z -> (inject_Z k == inject_Z (k * 2 ^ (- e)) * 2 ^ e)%Q.
Proof.
  intros He.
  rewrite inject_Z_mult, pow2_Z by lia.
  rewrite <- Qmult_assoc, <- pow2_plus.
  replace (- e + e)%Z with 0%Z by lia.
  change (2 ^ 0)%Q with 1%Q; ring.
Qed.

Lemma Qnum_pos (q : Q) : (0 < q)%Q -> (0 < Qnum q)%Z.
Proof. destruct q as [n d]; unfold Qlt; simpl; lia. Qed.

(** [ilog2] of a positive rational is the exponent of its leading bit. *)
Lemma ilog2_spec (q : Q) :
  (0 < q)%Q -> (2 ^ Num.ilog2 q <= q)%Q /\ (q < 2 ^ (Num.ilog2 q + 1))%Q.
Proof.
  intros Hq.
  pose proof (Qnum_pos q Hq) as Hn.
  destruct (Z.log2_spec (Qnum q) Hn) as [Na Nb].
  destruct (Z.log2_spec (Zpos (Qden q)) ltac:(lia)) as [Da Db].
  pose proof (Z.log2_nonneg (Qnum q)) as Ha.
  pose proof (Z.log2_nonneg (Zpos (Qden q))) as Hb.
  set (a := Z.log2 (Qnum q)) in *.
  set (b := Z.log2 (Zpos (Qden q))) in *.
  assert (Eq : (q * inject_Z (Zpos (Qden q)) == inject_Z (Qnum q))%Q).
  { destruct q as [n d]; unfold Qeq; simpl; lia. }
  rewrite Zle_Qle, pow2_Z in Na, Da by lia.
  rewrite Zlt_Qlt, pow2_Z in Nb, Db by lia.
  set (n := inject_Z (Qnum q)) in *.
  set (d := inject_Z (Zpos (Qden q))) in *.
  assert (Hlow : (2 ^ (a - b - 1) < q)%Q).
  { apply (Qmult_lt_r _ _ (2 ^ (b + 1))%Q); [apply pow2_pos|].
    rewrite <- pow2_plus.
    replace (a - b - 1 + (b + 1))%Z with a by lia.
    apply Qle_lt_trans with n; [exact Na|].
    rewrite <- Eq.
    apply Qmult_lt_l; [exact Hq|exact Db]. }
  assert (Hhigh : (q < 2 ^ (a - b + 1))%Q).
  { apply (Qmult_lt_r _ _ (2 ^ b)%Q); [apply pow2_pos|].
    rewrite <- pow2_plus.
    replace (a - b + 1 + b)%Z with (a + 1)%Z by lia.
    apply Qle_lt_trans with n; [|exact Nb].
    rewrite <- Eq.
    apply Qmult_le_l; [exact Hq|exact Da]. }
  unfold Num.ilog2; fold a b.
  destruct (Qle_bool (2 ^ (a - b)) q) eqn:E.
  - apply Qle_bool_iff in E; split; [exact E|exact Hhigh].
  - split; [apply Qlt_le_weak; exact Hlow|].
    replace (a - b - 1 + 1)%Z with (a - b)%Z by lia.
    apply Qnot_le_lt; intros H; apply Qle_bool_iff in H; congruence.
Qed.

(** The nearest integer is not below an integer below, and is below an
    integer that is more than a half above. *)
Lemma nearestEven_floor (q : Q) :
  (Qfloor q <= Num.nearestEven q <= Qfloor q + 1)%Z.
Proof.
  unfold Num.nearestEven.
  destruct (q - inject_Z (Qfloor q) ?= 1 # 2)%Q; [|lia|lia].
  destruct (Z.even (Qfloor q)); lia.
Qed.

Lemma nearestEven_ge (q : Q) (j : Z) :
  (inject_Z j <= q)%Q -> (j <= Num.nearestEven q)%Z.
Proof.
  intros H.
  pose proof (nearestEven_floor q).
  pose proof (Qfloor_resp_le _ _ H) as Hf; rewrite Qfloor_Z in Hf; lia.
Qed.

Lemma nearestEven_lt (q : Q) (k : Z) :
  (q < inject_Z k - (1 # 2))%Q -> (Num.nearestEven q < k)%Z.
Proof.
  intros H.
  pose proof (Qfloor_le q) as Hf.
  assert (Hk : (Qfloor q < k)%Z).
  { rewrite Zlt_Qlt; lra. }
  unfold Num.nearestEven.
  destruct (q - inject_Z (Qfloor q) ?= 1 # 2)%Q eqn:E; [| exact Hk |].
  - apply Qeq_alt in E.
    assert (Hk' : (inject_Z (Qfloor q) + 1 < inject_Z k)%Q) by lra.
    rewrite <- (inject_Z_plus _ 1), <- Zlt_Qlt in Hk'.
    destruct (Z.even (Qfloor q)); lia.
  - apply Qgt_alt in E.
    assert (Hk' : (inject_Z (Qfloor q) + 1 < inject_Z k)%Q) by lra.
    rewrite <- (inject_Z_plus _ 1), <- Zlt_Qlt in Hk'; lia.
Qed.

(** Rounding at an exponent [e <= 0] a rational that lies more than
    half a step below the integer after its integer part keeps the
    integer part. *)
Lemma roundTo_keeps_floor (e j : Z) (q : Q) :
  (e <= 0)%Z ->
  (inject_Z j <= q)%Q ->
  (q < inject_Z (j + 1) - 2 ^ (e - 1))%Q ->
  (inject_Z j <= Num.roundTo e q)%Q /\ (Num.roundTo e q < inject_Z (j + 1))%Q.
Proof.
  intros He Hlo Hhi.
  pose proof (pow2_pos e) as Pe.
  pose proof (steps_of_integer e j He) as Ej.
  pose proof (steps_of_integer e (j + 1) He) as Ek.
  set (J := (j * 2 ^ (- e))%Z) in *.
  set (K := ((j + 1) * 2 ^ (- e))%Z) in *.
  assert (Eh : (2 ^ (e - 1) == (1 # 2) * 2 ^ e)%Q).
  { replace (e - 1)%Z with (-1 + e)%Z by lia; rewrite pow2_plus; reflexivity. }
  assert (Hs1 : (inject_Z J <= q / 2 ^ e)%Q).
  { apply Qle_shift_div_l; [exact Pe|]. rewrite <- Ej; exact Hlo. }
  assert (Hs2 : (q / 2 ^ e < inject_Z K - (1 # 2))%Q).
  { apply Qlt_shift_div_r; [exact Pe|].
    setoid_replace ((inject_Z K - (1 # 2)) * 2 ^ e)%Q
      with (inject_Z K * 2 ^ e - (1 # 2) * 2 ^ e)%Q by ring.
    rewrite <- Ek, <- Eh; exact Hhi. }
  apply nearestEven_ge in Hs1; apply nearestEven_lt in Hs2.
  unfold Num.roundTo; set (m := Num.nearestEven (q / 2 ^ e)) in *.
  split.
  - rewrite Ej; apply Qmult_le_r; [exact Pe|]; rewrite <- Zle_Qle; exact Hs1.
  - rewrite Ek; apply Qmult_lt_r; [exact Pe|]; rewrite <- Zlt_Qlt; exact Hs2.
Qed.

Lemma roundTo_zero (e : Z) (q : Q) : (q == 0)%Q -> (Num.roundTo e q == 0)%Q.
Proof.
  intros H; unfold Num.roundTo.
  assert (E : (q / 2 ^ e == 0)%Q) by (rewrite H; unfold Qdiv; ring).
  assert (Em : Num.nearestEven (q / 2 ^ e) = 0%Z).
  { unfold Num.nearestEven.
    assert (Ef : Qfloor (q / 2 ^ e) = 0%Z)
      by (rewrite (Qfloor_comp _ _ E); reflexivity).
    rewrite Ef.
    assert (Ec : (q / 2 ^ e - inject_Z 0 ?= 1 # 2)%Q = Lt).
    { apply Qlt_alt; rewrite E; reflexivity. }
    rewrite Ec; reflexivity. }
  rewrite Em; ring.
Qed.

(** The exponent at which a rational below 2^53 is rounded. *)
Lemma expOf_small (q : Q) :
  (0 < q)%Q -> (q < 2 ^ 53)%Q -> (Num.expOf q <= 0)%Z.
Proof.
  intros Hq Hlt.
  destruct (ilog2_spec q Hq) as [Hl _].
  assert (H : (Num.ilog2 q < 53)%Z).
  { apply pow2_lt_inv; eapply Qle_lt_trans; eauto. }
  unfold Num.expOf; lia.
Qed.

(** A quotient [y / c] of a multiple [y] of [2^E] that has no more than
    53 bits above [2^E], by a positive integer [c]: it lies more than
    half a rounding step below the integer after its integer part. *)
Lemma quotient_gap (y : Q) (c E M : Z) :
  (E <= 0)%Z ->
  (y == inject_Z M * 2 ^ E)%Q ->
  (0 < y)%Q ->
  (y < 2 ^ (E + 53))%Q ->
  (1 <= c)%Z ->
  let q := (y / inject_Z c)%Q in
  (q < inject_Z (Qfloor q + 1) - 2 ^ (Num.expOf q - 1))%Q.
Proof.
  intros HE Ey Hy Hbits Hc q.
  assert (Pc : (0 < inject_Z c)%Q).
  { change 0%Q with (inject_Z 0); rewrite <- Zlt_Qlt; lia. }
  assert (Hq : (0 < q)%Q) by (apply Qlt_shift_div_l; [exact Pc|lra]).
  assert (Eq : (q * inject_Z c == y)%Q).
  { unfold q; field; intros H; rewrite H in Pc; discriminate. }
  pose proof (Qlt_floor q) as Hfl.
  set (k := (Qfloor q + 1)%Z) in *.
  pose proof (pow2_pos E) as PE.
  (* the gap between [y] and [c * k] is a whole number of steps *)
  assert (Hgap : (2 ^ E <= inject_Z c * inject_Z k - y)%Q).
  { pose proof (steps_of_integer E (c * k) HE) as Es.
    rewrite inject_Z_mult in Es at 1.
    set (N := (c * k * 2 ^ (- E))%Z) in *.
    assert (Hlt : (inject_Z M * 2 ^ E < inject_Z N * 2 ^ E)%Q).
    { rewrite <- Ey, <- Es, <- Eq.
      rewrite (Qmult_comm (inject_Z c)).
      apply Qmult_lt_r; [exact Pc|exact Hfl]. }
    apply Qmult_lt_r in Hlt; [|exact PE].
    rewrite <- Zlt_Qlt in Hlt.
    assert (Hle : (inject_Z (M + 1) <= inject_Z N)%Q)
      by (rewrite <- Zle_Qle; lia).
    rewrite inject_Z_plus in Hle.
    rewrite Es, Ey.
    setoid_replace (inject_Z N * 2 ^ E - inject_Z M * 2 ^ E)%Q
      with ((inject_Z N - inject_Z M) * 2 ^ E)%Q by ring.
    rewrite <- (Qmult_1_l (2 ^ E)) at 1.
    apply Qmult_le_r; [exact PE|]. change (inject_Z 1) with 1%Q in Hle; lra. }
  destruct (ilog2_spec q Hq) as [Hl Hu].
  unfold Num.expOf.
  destruct (Z.max_spec (Num.ilog2 q - 52) (-1074)) as [[Hcmp ->]|[Hcmp ->]].
  - (* below the normal range *)
    assert (Hsmall : (q < 2 ^ (-1022))%Q).
    { eapply Qlt_le_trans; [exact Hu|apply pow2_le; lia]. }
    assert (H1 : (2 ^ (-1022) <= 1 # 4)%Q)
      by (change (1 # 4)%Q with (2 ^ (-2))%Q; apply pow2_le; lia).
    assert (H2 : (2 ^ (-1074 - 1) <= 1 # 4)%Q)
      by (change (1 # 4)%Q with (2 ^ (-2))%Q; apply pow2_le; lia).
    assert (Hk : (1 <= inject_Z k)%Q).
    { change 1%Q with (inject_Z 1); rewrite <- Zle_Qle; unfold k.
      assert (0 <= Qfloor q)%Z; [|lia].
      rewrite <- (Qfloor_Z 0); apply Qfloor_resp_le, Qlt_le_weak, Hq. }
    lra.
  - (* the normal range: 53 bits from the leading one *)
    set (e := (Num.ilog2 q - 52)%Z) in *.
    assert (Hl' : (2 ^ (e - 1) * 2 ^ 53 <= q)%Q).
    { rewrite <- pow2_plus.
      replace (e - 1 + 53)%Z with (Num.ilog2 q) by (unfold e; lia).
      exact Hl. }
    assert (Hb' : (y < 2 ^ E * 2 ^ 53)%Q) by (rewrite <- pow2_plus; exact Hbits).
    pose proof (pow2_pos (e - 1)) as Pe.
    pose proof (pow2_pos 53) as P53.
    set (A := (2 ^ (e - 1))%Q) in *.
    set (B := (2 ^ E)%Q) in *.
    set (P := (2 ^ 53)%Q) in *.
    set (C := inject_Z c) in *.
    set (Kq := inject_Z k) in *.
    (* A * P * C <= q * C = y < B * P, so A * C < B <= C * Kq - y *)
    assert (H1 : (A * C * P < B * P)%Q).
    { apply Qle_lt_trans with y; [|exact Hb'].
      rewrite <- Eq.
      setoid_replace (A * C * P)%Q with (A * P * C)%Q by ring.
      apply Qmult_le_r; [exact Pc|exact Hl']. }
    apply Qmult_lt_r in H1; [|exact P53].
    assert (H2 : (A * C < C * Kq - q * C)%Q) by (rewrite Eq; lra).
    setoid_replace (C * Kq - q * C)%Q with ((Kq - q) * C)%Q in H2 by ring.
    apply Qmult_lt_r in H2; [|exact Pc].
    lra.
Qed.

(** Rounding such a quotient keeps its integer part. *)
Lemma round_quotient (y : Q) (c E M : Z) :
  (E <= 0)%Z ->
  (y == inject_Z M * 2 ^ E)%Q ->
  (0 <= y)%Q ->
  (y < 2 ^ (E + 53))%Q ->
  (1 <= c)%Z ->
  (y / inject_Z c < 2 ^ 53)%Q ->
  exists r,
    Num.round (y / inject_Z c) = Some r
    /\ Qfloor r = Qfloor (y / inject_Z c).
Proof.
  intros HE Ey Hy Hbits Hc Hq53.
  set (q := (y / inject_Z c)%Q) in *.
  assert (Pc : (0 < inject_Z c)%Q).
  { change 0%Q with (inject_Z 0); rewrite <- Zlt_Qlt; lia. }
  assert (Hr : (inject_Z (Qfloor q) <= Num.roundTo (Num.expOf q) q)%Q
               /\ (Num.roundTo (Num.expOf q) q < inject_Z (Qfloor q + 1))%Q).
  { destruct (Qle_lt_or_eq _ _ Hy) as [Hpos|Hzero].
    - assert (Hq : (0 < q)%Q) by (apply Qlt_shift_div_l; [exact Pc|lra]).
      apply roundTo_keeps_floor.
      + apply expOf_small; assumption.
      + apply Qfloor_le.
      + apply (quotient_gap y c E M); assumption.
    - assert (Eq0 : (q == 0)%Q) by (unfold q; rewrite <- Hzero; reflexivity).
      rewrite (roundTo_zero _ _ Eq0), (Qfloor_comp _ _ Eq0).
      split; [apply Qle_refl|reflexivity]. }
  destruct Hr as [Hlo Hhi].
  assert (Hk : (inject_Z (Qfloor q + 1) <= 2 ^ 53)%Q).
  { rewrite <- pow2_Z by lia; rewrite <- Zle_Qle.
    assert (H : (Qfloor q < 2 ^ 53)%Z); [|lia].
    rewrite Zlt_Qlt, pow2_Z by lia.
    eapply Qle_lt_trans; [apply Qfloor_le|exact Hq53]. }
  unfold Num.round.
  destruct (Qle_bool (2 ^ 1024) (Num.roundTo (Num.expOf q) q)) eqn:Eo.
  - apply Qle_bool_iff in Eo.
    pose proof (pow2_le 53 1024 ltac:(lia)); lra.
  - eexists; split; [reflexivity|].
    rewrite (Qfloor_comp _ _ (Qred_correct _)).
    apply Z.le_antisymm.
    + apply Z.lt_succ_r; rewrite Zlt_Qlt.
      eapply Qle_lt_trans; [apply Qfloor_le|exact Hhi].
    + rewrite <- (Qfloor_Z (Qfloor q)); apply Qfloor_resp_le; exact Hlo.
Qed.

(** What being a double below 2^53 gives: a whole number of steps of
    [2^E] with [E <= 0], and no more than 53 bits above it. *)
Lemma isDouble_steps (x : Q) :
  Num.isDouble x = true -> (0 < x)%Q -> (x < 2 ^ 53)%Q ->
  exists E M,
    (E <= 0)%Z /\ (x == inject_Z M * 2 ^ E)%Q /\ (x < 2 ^ (E + 53))%Q.
Proof.
  unfold Num.isDouble, Num.round; intros H Hx Hlt.
  destruct (Qle_bool _ _); [discriminate|].
  apply andb_prop in H; destruct H as [_ H]; apply Qeq_bool_iff in H.
  rewrite Qred_correct in H.
  exists (Num.expOf x), (Num.nearestEven (x / 2 ^ Num.expOf x)).
  split; [apply expOf_small; assumption|].
  split; [symmetry; exact H|].
  destruct (ilog2_spec x Hx) as [_ Hu].
  eapply Qlt_le_trans; [exact Hu|].
  apply pow2_le; unfold Num.expOf; lia.
Qed.

(** ** What rounding returns is a double *)

Lemma ilog2_unique (q : Q) (a : Z) :
  (2 ^ a <= q)%Q -> (q < 2 ^ (a + 1))%Q -> Num.ilog2 q = a.
Proof.
  intros Hlo Hhi.
  assert (Hq : (0 < q)%Q) by (pose proof (pow2_pos a); lra).
  destruct (ilog2_spec q Hq) as [Hl Hu].
  assert (H1 : (a < Num.ilog2 q + 1)%Z)
    by (apply pow2_lt_inv; eapply Qle_lt_trans; eauto).
  assert (H2 : (Num.ilog2 q < a + 1)%Z)
    by (apply pow2_lt_inv; eapply Qle_lt_trans; eauto).
  lia.
Qed.

Lemma nearestEven_le (q : Q) (k : Z) :
  (q <= inject_Z k)%Q -> (Num.nearestEven q <= k)%Z.
Proof.
  intros H.
  pose proof (Qfloor_le q) as Hf.
  pose proof (Qfloor_resp_le _ _ H) as Hk; rewrite Qfloor_Z in Hk.
  unfold Num.nearestEven.
  assert (Hlt : (inject_Z (Qfloor q) < q)%Q -> (Qfloor q + 1 <= k)%Z).
  { intros Hs.
    assert (Hs' : (inject_Z (Qfloor q) < inject_Z k)%Q) by lra.
    rewrite <- Zlt_Qlt in Hs'; lia. }
  destruct (q - inject_Z (Qfloor q) ?= 1 # 2)%Q eqn:E; [|exact Hk|].
  - apply Qeq_alt in E.
    destruct (Z.even (Qfloor q)); [exact Hk|apply Hlt; lra].
  - apply Qgt_alt in E; apply Hlt; lra.
Qed.

Lemma nearestEven_integer (q : Q) (m : Z) :
  (q == inject_Z m)%Q -> Num.nearestEven q = m.
Proof.
  intros H; unfold Num.nearestEven.
  assert (Ef : Qfloor q = m) by (rewrite (Qfloor_comp _ _ H); apply Qfloor_Z).
  rewrite Ef.
  assert (Ec : (q - inject_Z m ?= 1 # 2)%Q = Lt).
  { apply (proj1 (Qlt_alt _ _)); rewrite H; lra. }
  rewrite Ec; reflexivity.
Qed.

(** A whole number of steps of [2^e] is not moved by the rounding at
    the exponent [e]. *)
Lemma roundTo_steps (e m : Z) (r : Q) :
  (r == inject_Z m * 2 ^ e)%Q -> (Num.roundTo e r == r)%Q.
Proof.
  intros H; unfold Num.roundTo.
  pose proof (pow2_pos e) as Pe.
  rewrite (nearestEven_integer _ m); [symmetry; exact H|].
  rewrite H; field; lra.
Qed.

(** The value of a rounding lies on the steps of its own exponent. *)
Lemma roundTo_lands (q : Q) :
  (0 < q)%Q ->
  let r := Num.roundTo (Num.expOf q) q in
  (r == 0)%Q \/ exists m, (r == inject_Z m * 2 ^ Num.expOf r)%Q.
Proof.
  intros Hq r.
  destruct (ilog2_spec q Hq) as [Hl Hu].
  set (l := Num.ilog2 q) in *.
  set (e := Num.expOf q) in *.
  pose proof (pow2_pos e) as Pe.
  set (m := Num.nearestEven (q / 2 ^ e)).
  assert (Er : (r == inject_Z m * 2 ^ e)%Q) by reflexivity.
  assert (He : e = Z.max (l - 52) (-1074)) by reflexivity.
  assert (Em : m = Num.nearestEven (q / 2 ^ e)) by reflexivity.
  clearbody r m e l.
  (* the significand has at most 53 bits *)
  assert (Hm53 : (m <= 2 ^ 53)%Z).
  { rewrite Em; apply nearestEven_le.
    rewrite pow2_Z by lia.
    apply Qle_shift_div_r; [exact Pe|].
    rewrite <- pow2_plus.
    apply Qlt_le_weak; eapply Qlt_le_trans; [exact Hu|].
    apply pow2_le; lia. }
  assert (Hm0 : (0 <= m)%Z).
  { rewrite Em; apply nearestEven_ge.
    apply Qle_shift_div_l; [exact Pe|].
    change (inject_Z 0) with 0%Q; lra. }
  destruct (Z.eq_dec m 0) as [E0|Hpos].
  { left; rewrite Er, E0; ring. }
  right.
  assert (Rpos : (0 < r)%Q).
  { rewrite Er. apply Qmult_lt_0_compat; [|exact Pe].
    change 0%Q with (inject_Z 0); rewrite <- Zlt_Qlt; lia. }
  destruct (Z.eq_dec m (2 ^ 53)) as [E53|Hlt53].
  - (* the rounding went up to the next power of two *)
    assert (Ep : (r == 2 ^ (e + 53))%Q).
    { rewrite Er, E53, pow2_Z, pow2_plus by lia; ring. }
    assert (El : Num.ilog2 r = (e + 53)%Z).
    { apply ilog2_unique; rewrite Ep; [apply Qle_refl|].
      apply Qpower_lt_compat_l; [lia|reflexivity]. }
    exists (2 ^ 52)%Z.
    unfold Num.expOf; rewrite El.
    replace (Z.max (e + 53 - 52) (-1074)) with (e + 1)%Z by lia.
    rewrite Ep, pow2_Z, <- pow2_plus by lia.
    replace (52 + (e + 1))%Z with (e + 53)%Z by lia; reflexivity.
  - (* it stayed below it *)
    exists m.
    assert (Hhi : (r < 2 ^ (e + 53))%Q).
    { rewrite Er, (Z.add_comm e 53), pow2_plus.
      apply Qmult_lt_r; [exact Pe|].
      rewrite <- pow2_Z by lia; rewrite <- Zlt_Qlt.
      apply Z.le_neq; split; assumption. }
    assert (Hexp : (Num.expOf r <= e)%Z).
    { destruct (ilog2_spec r Rpos) as [Hlr _].
      assert (Num.ilog2 r < e + 53)%Z
        by (apply pow2_lt_inv; eapply Qle_lt_trans; eauto).
      unfold Num.expOf; lia. }
    assert (Hexp' : (e <= Num.expOf r)%Z).
    { unfold Num.expOf.
      destruct (Z_le_gt_dec (l - 52) (-1074)) as [Hsub|Hnorm].
      - (* below the normal range *) lia.
      - (* the leading bit of [q] is the leading bit of [r] *)
        assert (Ee : e = (l - 52)%Z) by lia.
        assert (Hm52 : (2 ^ 52 <= m)%Z).
        { rewrite Em; apply nearestEven_ge.
          rewrite pow2_Z by lia.
          apply Qle_shift_div_l; [exact Pe|].
          rewrite <- pow2_plus.
          replace (52 + e)%Z with l by lia; exact Hl. }
        assert (Hlo : (2 ^ l <= r)%Q).
        { rewrite Er.
          replace l with (52 + e)%Z by lia; rewrite pow2_plus.
          apply Qmult_le_r; [exact Pe|].
          rewrite <- pow2_Z by lia; rewrite <- Zle_Qle; exact Hm52. }
        assert (El : Num.ilog2 r = l).
        { apply ilog2_unique; [exact Hlo|].
          replace (l + 1)%Z with (e + 53)%Z by lia; exact Hhi. }
        rewrite El; lia. }
    replace (Num.expOf r) with e by lia; exact Er.
Qed.

Lemma round_comp (q q' : Q) :
  (0 < q)%Q -> (q == q')%Q ->
  (Num.roundTo (Num.expOf q') q' == Num.roundTo (Num.expOf q) q)%Q.
Proof.
  intros Hq H.
  assert (El : Num.ilog2 q' = Num.ilog2 q).
  { destruct (ilog2_spec q Hq) as [Hl Hu].
    apply ilog2_unique; rewrite <- H; assumption. }
  unfold Num.expOf; rewrite El.
  unfold Num.roundTo.
  set (e := Z.max (Num.ilog2 q - 52) (-1074)).
  assert (En : Num.nearestEven (q' / 2 ^ e) = Num.nearestEven (q / 2 ^ e)).
  { unfold Num.nearestEven.
    assert (Es : (q' / 2 ^ e == q / 2 ^ e)%Q) by (rewrite H; reflexivity).
    rewrite (Qfloor_comp _ _ Es).
    assert (Ec : (q' / 2 ^ e - inject_Z (Qfloor (q / 2 ^ e)) ?= 1 # 2)%Q
                 = (q / 2 ^ e - inject_Z (Qfloor (q / 2 ^ e)) ?= 1 # 2)%Q).
    { apply Qcompare_comp; [rewrite Es; reflexivity|reflexivity]. }
    rewrite Ec; reflexivity. }
  rewrite En; reflexivity.
Qed.

(** Rounding gives a double. *)
Lemma round_isDouble (q r : Q) :
  (0 <= q)%Q -> Num.round q = Some r -> Num.isDouble r = true.
Proof.
  intros Hq; unfold Num.round.
  destruct (Qle_bool (2 ^ 1024) (Num.roundTo (Num.expOf q) q)) eqn:Eo;
    [discriminate|].
  set (R := Num.roundTo (Num.expOf q) q) in *.
  intros E.
  assert (Er : (r == R)%Q).
  { assert (E' : r = Qred R) by congruence.
    rewrite E'; apply Qred_correct. }
  clear E.
  assert (Hover : (R < 2 ^ 1024)%Q).
  { apply Qnot_le_lt; intros H; apply Qle_bool_iff in H; congruence. }
  assert (HR : (0 <= R)%Q).
  { unfold R, Num.roundTo.
    apply Qmult_le_0_compat; [|apply Qlt_le_weak, pow2_pos].
    change 0%Q with (inject_Z 0); rewrite <- Zle_Qle.
    apply nearestEven_ge.
    apply Qle_shift_div_l; [apply pow2_pos|].
    change (inject_Z 0) with 0%Q; lra. }
  (* rounding [r] gives [r] back *)
  assert (Hfix : (Num.roundTo (Num.expOf r) r == r)%Q).
  { destruct (Qle_lt_or_eq _ _ HR) as [Rpos|Rzero].
    - rewrite (round_comp R r Rpos (Qeq_sym _ _ Er)), Er.
      destruct (Qle_lt_or_eq _ _ Hq) as [Qpos|Qzero].
      + destruct (roundTo_lands q Qpos) as [E0|[m Em]]; fold R in E0 || fold R in Em.
        * rewrite E0 in Rpos; discriminate.
        * apply (roundTo_steps _ m); exact Em.
      + exfalso.
        assert (R == 0)%Q by (apply roundTo_zero; symmetry; exact Qzero).
        lra.
    - assert (Hr0 : (r == 0)%Q) by (rewrite Er; symmetry; exact Rzero).
      transitivity 0%Q; [apply roundTo_zero; exact Hr0|symmetry; exact Hr0]. }
  unfold Num.isDouble, Num.round.
  destruct (Qle_bool (2 ^ 1024) (Num.roundTo (Num.expOf r) r)) eqn:Eo'.
  - apply Qle_bool_iff in Eo'; rewrite Hfix, Er in Eo'; lra.
  - apply andb_true_intro; split.
    + apply Qle_bool_iff; rewrite Er; exact HR.
    + apply Qeq_bool_iff; rewrite Qred_correct; exact Hfix.
Qed.

Lemma readDigits_nonneg (s : string) :
  forall acc count,
  (0 <= acc)%Z -> (0 <= fst (fst (Num.readDigits s acc count)))%Z.
Proof.
  induction s as [|c r IH]; intros acc count Hacc; simpl; [exact Hacc|].
  destruct (Num.isDigit c); [|exact Hacc].
  apply IH; unfold Num.digitVal; lia.
Qed.

(** What [parseFloat] reads is a double. *)
Lemma parseFloat_isDouble (s : string) (neg : bool) (q : Q) :
  Num.parseFloat s = Num.Finite neg q -> Num.isDouble q = true.
Proof.
  unfold Num.parseFloat.
  destruct (Num.readSign (Num.skipSpaces s)) as [sign r].
  destruct (String.prefix "Infinity" r); [discriminate|].
  pose proof (readDigits_nonneg r 0 0 ltac:(lia)) as H1.
  destruct (Num.readDigits r 0 0) as [[ip n1] r1].
  simpl in H1.
  assert (H2 : forall m n2 r2,
             match r1 with
             | String c r1' =>
                 if Ascii.eqb c Str.dot then Num.readDigits r1' ip 0
                 else (ip, 0, r1)
             | "" => (ip, 0, r1)
             end = (m, n2, r2) -> (0 <= m)%Z).
  { intros m n2 r2 E.
    destruct r1 as [|c r1'].
    - injection E as <- _ _; exact H1.
    - destruct (Ascii.eqb c Str.dot).
      + pose proof (readDigits_nonneg r1' ip 0 H1) as H.
        rewrite E in H; exact H.
      + injection E as <- _ _; exact H1. }
  destruct (match r1 with
            | String c r1' =>
                if Ascii.eqb c Str.dot then Num.readDigits r1' ip 0
                else (ip, 0, r1)
            | "" => (ip, 0, r1)
            end) as [[m n2] r2].
  specialize (H2 m n2 r2 eq_refl).
  destruct (n1 + n2); [discriminate|].
  set (v := (inject_Z m * 10 ^ (Num.readExponent r2 - Z.of_nat n2))%Q).
  assert (Hv : (0 <= v)%Q).
  { apply Qmult_le_0_compat.
    - change 0%Q with (inject_Z 0); rewrite <- Zle_Qle; exact H2.
    - apply Qpower_0_le; discriminate. }
  destruct (Num.round v) as [r'|] eqn:Er; [|discriminate].
  intros E; injection E as _ <-.
  exact (round_isDouble v r' Hv Er).
Qed.

(* ================================================================== *)
(** * [secondsToHMS] *)
(* ================================================================== *)

Lemma Qfloor_unique (q : Q) (z : Z) :
  (inject_Z z <= q)%Q -> (q < inject_Z z + 1)%Q -> Qfloor q = z.
Proof.
  intros Hlo Hhi.
  apply Z.le_antisymm.
  - apply Z.lt_succ_r.
    rewrite Zlt_Qlt.
    apply Qle_lt_trans with q; [apply Qfloor_le|].
    unfold Z.succ; rewrite inject_Z_plus; exact Hhi.
  - rewrite <- (Qfloor_Z z); apply Qfloor_resp_le; exact Hlo.
Qed.

Lemma floor_bounds (q : Q) :
  (inject_Z (Qfloor q) <= q)%Q /\ (q < inject_Z (Qfloor q) + 1)%Q.
Proof.
  split; [apply Qfloor_le|].
  pose proof (Qlt_floor q) as H; rewrite inject_Z_plus in H; exact H.
Qed.

Lemma inject_div_mod (n d : Z) :
  (0 < d)%Z ->
  (inject_Z n == inject_Z d * inject_Z (n / d) + inject_Z (n mod d))%Q
  /\ (0 <= inject_Z (n mod d))%Q
  /\ (inject_Z (n mod d) + 1 <= inject_Z d)%Q.
Proof.
  intros Hd.
  pose proof (Z.div_mod n d ltac:(lia)) as E.
  pose proof (Z.mod_pos_bound n d Hd) as [Hlo Hhi].
  repeat split.
  - rewrite <- inject_Z_mult, <- inject_Z_plus, <- E; reflexivity.
  - change 0%Q with (inject_Z 0); rewrite <- Zle_Qle; exact Hlo.
  - change 1%Q with (inject_Z 1); rewrite <- inject_Z_plus, <- Zle_Qle; lia.
Qed.

Ltac floor_of_quotient :=
  apply Qfloor_unique;
  [ apply Qle_shift_div_l; [reflexivity|lra]
  | apply Qlt_shift_div_r; [reflexivity|lra] ].

(** A double below 2^53 is a whole number of steps of [2^E] for some
    [E <= 0], and so is what is left of it after a whole number of
    units has been taken away. *)
Lemma double_steps (x : Q) :
  Num.isDouble x = true -> (0 <= x)%Q -> (x < 2 ^ 53)%Q ->
  exists E M,
    (E <= 0)%Z /\ (x == inject_Z M * 2 ^ E)%Q /\ (x < 2 ^ (E + 53))%Q.
Proof.
  intros Hd Hx Hlt.
  destruct (Qle_lt_or_eq _ _ Hx) as [Hpos|Hzero].
  - apply isDouble_steps; assumption.
  - exists 0%Z, 0%Z; split; [lia|]; split; [rewrite <- Hzero; reflexivity|].
    exact Hlt.
Qed.

Lemma steps_minus (x : Q) (E M k : Z) :
  (E <= 0)%Z -> (x == inject_Z M * 2 ^ E)%Q ->
  (x - inject_Z k == inject_Z (M - k * 2 ^ (- E)) * 2 ^ E)%Q.
Proof.
  intros HE Ex.
  rewrite (steps_of_integer E k HE), Ex.
  unfold Z.sub; rewrite inject_Z_plus, inject_Z_opp; ring.
Qed.

(** On a double of seconds that is not negative and below 2^53, the
    three fields are the hours, minutes and seconds of its integer
    part: the rounding of the two quotients does not reach the next
    integer. *)
Lemma hmsFields_floor (x : Q) :
  Num.isDouble x = true -> (0 <= x)%Q -> (x < 2 ^ 53)%Q ->
  let n := Qfloor x in
  hmsFields (Num.Finite false x)
  = [Num.Int (n / 3600); Num.Int ((n mod 3600) / 60); Num.Int (n mod 60)]%Z.
Proof.
  intros Hd Hx H53 n.
  destruct (double_steps x Hd Hx H53) as (E & M & HE & Ex & Hbits).
  destruct (floor_bounds x) as [Hlo Hhi]; fold n in Hlo, Hhi.
  destruct (inject_div_mod n 3600 ltac:(lia)) as (E1 & L1 & U1).
  destruct (inject_div_mod n 60 ltac:(lia)) as (E2 & L2 & U2).
  destruct (inject_div_mod (n mod 3600) 60 ltac:(lia)) as (E3 & L3 & U3).
  assert (Em : ((n mod 3600) mod 60 = n mod 60)%Z).
  { apply Z.mod_mod_divide; exists 60%Z; reflexivity. }
  rewrite Em in *.
  pose proof (pow2_pos 53) as P53.
  assert (H1 : Qfloor (x / 3600) = (n / 3600)%Z).
  { change (inject_Z 3600) with 3600%Q in *; floor_of_quotient. }
  assert (H4 : Qfloor (x / 60) = (n / 60)%Z).
  { change (inject_Z 60) with 60%Q in *; floor_of_quotient. }
  (* the hours *)
  destruct (round_quotient x 3600 E M HE Ex Hx Hbits ltac:(lia))
    as (r1 & R1 & F1).
  { apply Qlt_shift_div_r; [reflexivity|].
    change (inject_Z 3600) with 3600%Q; lra. }
  (* what is left after the hours *)
  set (y := Qred (x - 3600 * inject_Z (Qfloor (x / 3600)))).
  assert (Ey : (y == x - inject_Z (3600 * (n / 3600)))%Q).
  { unfold y; rewrite Qred_correct, H1, inject_Z_mult; reflexivity. }
  assert (Hy : (0 <= y)%Q /\ (y < 3600)%Q /\ (y <= x)%Q).
  { rewrite Ey, inject_Z_mult.
    change (inject_Z 3600) with 3600%Q in *.
    change (inject_Z 60) with 60%Q in *.
    assert (0 <= inject_Z (n / 3600))%Q.
    { change 0%Q with (inject_Z 0); rewrite <- Zle_Qle.
      apply Z.div_pos; [|lia].
      rewrite <- (Qfloor_Z 0); apply Qfloor_resp_le; exact Hx. }
    repeat split; lra. }
  destruct Hy as (Hy0 & Hy1 & Hy2).
  destruct (round_quotient y 60 E _ HE
              ltac:(rewrite Ey; apply (steps_minus x E M _ HE Ex))
              Hy0 ltac:(lra) ltac:(lia))
    as (r2 & R2 & F2).
  { apply Qlt_shift_div_r; [reflexivity|].
    change (inject_Z 60) with 60%Q.
    assert (1 <= 2 ^ 53)%Q
      by (change 1%Q with (2 ^ 0)%Q; apply pow2_le; lia).
    lra. }
  assert (H3 : Qfloor (y / 60) = ((n mod 3600) / 60)%Z).
  { rewrite (Qfloor_comp _ (((x - 3600 * inject_Z (n / 3600)) / 60)%Q)).
    - change (inject_Z 3600) with 3600%Q in *.
      change (inject_Z 60) with 60%Q in *.
      floor_of_quotient.
    - rewrite Ey, inject_Z_mult; reflexivity. }
  assert (H5 : Qfloor (Qred (x - 60 * inject_Z (Qfloor (x / 60))))
               = (n mod 60)%Z).
  { rewrite (Qfloor_comp _ _ (Qred_correct _)), H4.
    change (inject_Z 3600) with 3600%Q in *.
    change (inject_Z 60) with 60%Q in *.
    apply Qfloor_unique; lra. }
  unfold hmsFields, Num.div, Num.rem, Num.floor.
  change (Num.isZero 3600) with false.
  change (Num.isZero 60) with false.
  cbv iota; fold y.
  change (inject_Z 3600) with 3600%Q in R1, F1.
  change (inject_Z 60) with 60%Q in R2, F2.
  rewrite R1, R2; cbn [xorb]; cbv iota.
  rewrite F1, H1, F2, H3, H5; reflexivity.
Qed.

(* ================================================================== *)
(** * The walk of [scanLibrary] *)
(* ================================================================== *)

(** Induction on a file system tree, with the property available for
    every entry of a directory. *)
Lemma node_entries_ind (P : FS.node -> Prop) :
  (forall d, P (FS.File d)) ->
  P FS.Dangling ->
  (forall r w entries,
      Forall (fun e => P (snd e)) entries -> P (FS.Dir r w entries)) ->
  forall n, P n.
Proof.
  intros HFile HDangling HDir.
  fix IH 1.
  intros [d|r w entries|].
  - apply HFile.
  - apply HDir.
    induction entries as [|[file entry] rest IHrest]; constructor.
    + apply IH.
    + exact IHrest.
  - apply HDangling.
Qed.

Lemma newItems_app store library (l1 l2 : list (string * string * FileData)) :
  newItems store library (l1 ++ l2)
  = (newItems store library l1 ++ newItems store library l2)%list.
Proof. unfold newItems; rewrite filter_app, map_app; reflexivity. Qed.

Lemma indexFile_items store library file filePath data s :
  mediaItems (indexFile store library file filePath data s)
  = (mediaItems s ++ newItems store library [(file, filePath, data)])%list.
Proof.
  unfold indexFile, newItems, isIndexed; simpl.
  destruct (Repo.findItemByFilepath store filePath); simpl.
  - rewrite app_nil_r; reflexivity.
  - unfold scannedItem.
    destruct (probeDuration (probe data)) as [d threw]; reflexivity.
Qed.

(** The batch of a walk: the items of the files it reaches that are not
    indexed yet, in the order of the walk. *)
Lemma traverseDirectory_items store library (n : FS.node) :
  forall dir s,
  mediaItems (traverseDirectory store library dir n s)
  = (mediaItems s ++ newItems store library (supportedFiles dir n))%list.
Proof.
  induction n as [d| |r w entries IH] using node_entries_ind; intros dir s.
  - simpl; rewrite app_nil_r; reflexivity.
  - simpl; rewrite app_nil_r; reflexivity.
  - destruct r; [|simpl; rewrite app_nil_r; reflexivity].
    simpl. revert s.
    induction IH as [|[file entry] rest Hentry _ IHrest]; intros s.
    + simpl; rewrite app_nil_r; reflexivity.
    + simpl in Hentry.
      destruct entry as [data|r' w' sub|].
      * destruct (isSupported file).
        -- rewrite IHrest, indexFile_items, <- app_assoc.
           rewrite <- newItems_app; reflexivity.
        -- apply IHrest.
      * rewrite IHrest, Hentry, <- app_assoc, <- newItems_app; reflexivity.
      * rewrite IHrest; reflexivity.
Qed.

Lemma assignIds_in next batch i :
  In i batch -> exists k, In (Repo.withId i k) (Repo.assignIds next batch).
Proof.
  revert next; induction batch as [|j rest IH]; intros next; simpl; [tauto|].
  intros [->|H].
  - exists next; auto.
  - destruct (IH (S next) H) as [k Hk]; eauto.
Qed.

Lemma assignIds_filepaths next batch :
  filepaths (Repo.assignIds next batch) = filepaths batch.
Proof.
  revert next; induction batch as [|i rest IH]; intros next; simpl; auto.
  rewrite IH; reflexivity.
Qed.

(** What [scanLibrary] does to the world, in terms of the batch. *)
Lemma scanLibrary_found cwd libraryId w library :
  Repo.findLibraryById (db w) libraryId = Some library ->
  let batch := newItems (db w) library (libraryFiles cwd (disk w) library) in
  let w' := snd (scanLibrary cwd libraryId w) in
  fst (scanLibrary cwd libraryId w) = Return tt
  /\ disk w' = disk w
  /\ db w' = match batch with
             | [] => db w
             | _ => Repo.saveItems (db w) batch
             end.
Proof.
  intros Hlib; unfold scanLibrary, libraryFiles; rewrite Hlib.
  destruct (FS.lookup cwd (disk w) (MediaLibrary.path library)) as [n|].
  - rewrite traverseDirectory_items; simpl.
    destruct (newItems _ _ _); simpl; auto.
  - simpl; auto.
Qed.

Lemma newItems_all_indexed store library fs :
  (forall f, In f fs -> isIndexed store (snd (fst f)) = true) ->
  newItems store library fs = [].
Proof.
  unfold newItems; induction fs as [|f fs IH]; intros H; [reflexivity|].
  simpl; rewrite (H f (or_introl eq_refl)); simpl.
  apply IH; intros g Hg; apply H; right; exact Hg.
Qed.

Lemma scanLibrary_all_indexed cwd libraryId w library :
  Repo.findLibraryById (db w) libraryId = Some library ->
  (forall f, In f (libraryFiles cwd (disk w) library) ->
             isIndexed (db w) (snd (fst f)) = true) ->
  fst (scanLibrary cwd libraryId w) = Return tt
  /\ db (snd (scanLibrary cwd libraryId w)) = db w
  /\ disk (snd (scanLibrary cwd libraryId w)) = disk w.
Proof.
  intros Hlib Hall.
  destruct (scanLibrary_found cwd libraryId w library Hlib) as (Hr & Hd & Hdb).
  rewrite (newItems_all_indexed _ _ _ Hall) in Hdb; auto.
Qed.

(** C2. Scanning a library all of whose supported files are already
    indexed (an Item with the same filepath exists) returns normally,
    creates no Item and writes nothing: the database, with its write
    counter, and the disk are unchanged, so every existing Item keeps its
    size and duration.  In any case a scan only appends to the Items. *)
Theorem scanLibrary_idempotent
  (cwd : string) (libraryId : nat) (w : World) (library : MediaLibrary.t) :
  Repo.findLibraryById (db w) libraryId = Some library ->
  (forall f, In f (libraryFiles cwd (disk w) library) ->
             isIndexed (db w) (snd (fst f)) = true) ->
  let w' := snd (scanLibrary cwd libraryId w) in
  fst (scanLibrary cwd libraryId w) = Return tt
  /\ db w' = db w
  /\ Repo.items (db w') = Repo.items (db w)
  /\ Repo.writes (db w') = Repo.writes (db w)
  /\ disk w' = disk w.
Proof.
  intros Hlib Hall w'.
  destruct (scanLibrary_all_indexed cwd libraryId w library Hlib Hall)
    as (Hr & Hdb & Hd).
  subst w'; rewrite Hdb; auto.
Qed.

Lemma scanLibrary_idempotent_witness :
  let w' := snd (scanLibrary Example.cwd 1 Example.scanned) in
  fst (scanLibrary Example.cwd 1 Example.scanned) = Return tt
  /\ db w' = db Example.scanned
  /\ Repo.items (db w') = Repo.items (db Example.scanned)
  /\ Repo.writes (db w') = Repo.writes (db Example.scanned)
  /\ disk w' = disk Example.scanned.
Proof.
  apply (scanLibrary_idempotent Example.cwd 1 Example.scanned Example.movies).
  - reflexivity.
  - intros f [<-|[<-|[]]]; reflexivity.
Defined.

(** A scan only appends: the Items present before it are still there,
    unchanged and in the same order. *)
Lemma scanLibrary_appends cwd libraryId w :
  exists added,
    Repo.items (db (snd (scanLibrary cwd libraryId w)))
    = (Repo.items (db w) ++ added)%list.
Proof.
  destruct (Repo.findLibraryById (db w) libraryId) as [library|] eqn:Hlib.
  - destruct (scanLibrary_found cwd libraryId w library Hlib) as (_ & _ & Hdb).
    rewrite Hdb.
    destruct (newItems _ _ _) as [|i batch].
    + exists []; rewrite app_nil_r; reflexivity.
    + eexists; reflexivity.
  - unfold scanLibrary; rewrite Hlib; exists []; simpl.
    rewrite app_nil_r; reflexivity.
Qed.

Lemma findItem_app_indexed store (extra : list MediaItem.t) p :
  isIndexed store p = true ->
  forall store', Repo.items store' = (Repo.items store ++ extra)%list ->
  isIndexed store' p = true.
Proof.
  unfold isIndexed, Repo.findItemByFilepath; intros H store' ->.
  destruct (find _ (Repo.items store)) as [i|] eqn:E; [|discriminate].
  apply find_some in E; destruct E as [Hin Hp].
  destruct (find _ (Repo.items store ++ extra)%list) eqn:E'; [reflexivity|].
  eapply find_none in E'; [|apply in_or_app; left; exact Hin].
  congruence.
Qed.

Lemma isIndexed_in store p :
  In p (filepaths (Repo.items store)) -> isIndexed store p = true.
Proof.
  unfold isIndexed, Repo.findItemByFilepath, filepaths; intros H.
  apply in_map_iff in H; destruct H as [i [<- Hin]].
  destruct (find _ (Repo.items store)) eqn:E; [reflexivity|].
  eapply find_none in E; [|exact Hin].
  rewrite String.eqb_refl in E; discriminate.
Qed.

(** Scanning twice: the second scan finds every file indexed, whatever
    the first one found. *)
Lemma rescan_adds_nothing cwd libraryId w :
  let w1 := snd (scanLibrary cwd libraryId w) in
  db (snd (scanLibrary cwd libraryId w1)) = db w1.
Proof.
  intros w1.
  destruct (Repo.findLibraryById (db w) libraryId) as [library|] eqn:Hlib.
  - destruct (scanLibrary_found cwd libraryId w library Hlib)
      as (_ & Hd & Hdb); fold w1 in Hd, Hdb.
    assert (Hlibs : Repo.libraries (db w1) = Repo.libraries (db w)).
    { rewrite Hdb; destruct (newItems _ _ _); reflexivity. }
    assert (Hlib1 : Repo.findLibraryById (db w1) libraryId = Some library).
    { unfold Repo.findLibraryById in *; rewrite Hlibs; exact Hlib. }
    apply (scanLibrary_all_indexed cwd libraryId w1 library Hlib1).
    rewrite Hd; intros f Hf.
    destruct (isIndexed (db w) (snd (fst f))) eqn:Hi.
    + destruct (scanLibrary_appends cwd libraryId w) as [added Ha].
      eapply findItem_app_indexed; eauto.
    + apply isIndexed_in.
      assert (Hin : In (scannedItem library f)
                      (newItems (db w) library
                         (libraryFiles cwd (disk w) library))).
      { unfold newItems; apply in_map, filter_In; split; [exact Hf|].
        rewrite Hi; reflexivity. }
      rewrite Hdb.
      destruct (newItems _ _ _) as [|i batch] eqn:Eb; [destruct Hin|].
      unfold Repo.saveItems, filepaths; cbn [Repo.items].
      rewrite map_app; apply in_or_app; right.
      pose proof (assignIds_filepaths (Repo.nextItemId (db w)) (i :: batch))
        as Hp.
      unfold filepaths in Hp; rewrite Hp.
      apply in_map_iff.
      exists (scannedItem library f); split; [|exact Hin].
      destruct f as [[file filePath] data]; reflexivity.
  - unfold w1, scanLibrary; rewrite Hlib; simpl; rewrite Hlib; reflexivity.
Qed.

(** A new supported file that the walk reaches gets its Item, with the
    duration that the probe gives. *)
Lemma scanned_file_gets_item cwd libraryId w library file filePath data :
  Repo.findLibraryById (db w) libraryId = Some library ->
  In (file, filePath, data) (libraryFiles cwd (disk w) library) ->
  isIndexed (db w) filePath = false ->
  exists id,
    In {| MediaItem.id := id;
          MediaItem.filename := file;
          MediaItem.filepath := filePath;
          MediaItem.size := byteSize data;
          MediaItem.duration := fst (probeDuration (probe data));
          MediaItem.library := MediaLibrary.id library |}
      (Repo.items (db (snd (scanLibrary cwd libraryId w)))).
Proof.
  intros Hlib Hin Hnew.
  destruct (scanLibrary_found cwd libraryId w library Hlib) as (_ & _ & Hdb).
  assert (Hb : In (scannedItem library (file, filePath, data))
                 (newItems (db w) library
                    (libraryFiles cwd (disk w) library))).
  { unfold newItems; apply in_map, filter_In; split; [exact Hin|].
    simpl; rewrite Hnew; reflexivity. }
  rewrite Hdb.
  destruct (newItems _ _ _) as [|i batch]; [destruct Hb|].
  destruct (assignIds_in (Repo.nextItemId (db w)) _ _ Hb) as [k Hk].
  exists k; unfold Repo.saveItems; cbn [Repo.items].
  apply in_or_app; right; exact Hk.
Qed.

Lemma isDouble_nonneg (q : Q) : Num.isDouble q = true -> (0 <= q)%Q.
Proof.
  unfold Num.isDouble; destruct (Num.round q); [|discriminate].
  intros H; apply andb_prop in H; destruct H as [H _].
  apply Qle_bool_iff; exact H.
Qed.

(** C5. [secondsToHMS] truncates: 5425.7 seconds give [01:30:25] and
    0 seconds give [00:00:00].  On every double of seconds that is not
    negative and below 2^53, the three fields are the hours, the minutes
    (below 60) and the seconds (below 60) that add up to the integer
    part of the input, never more: the rounding of the two divisions
    does not reach the next integer there.  Every report that
    [parseFloat] reads as such a number is one of these doubles.  A
    scan gives a new
    supported file whose probe reports a duration the Item with that
    duration converted, [01:30:25] for a report of 5425.7; when the probe
    throws, the scan still returns normally and the file gets its Item,
    with the size of the file and no duration. *)
Theorem secondsToHMS_floors_and_probe_failure_is_null :
  secondsToHMS (Num.parseFloat "5425.7") = "01:30:25"
  /\ secondsToHMS (Num.parseFloat "0") = "00:00:00"
  /\ probeDuration (Some {| format := Some {| duration := "5425.7" |} |})
     = (Some "01:30:25", false)
  /\ probeDuration None = (None, true)
  /\ (forall q : Q,
        Num.isDouble q = true ->
        (q < 2 ^ 53)%Q ->
        exists h m s : Z,
          hmsFields (Num.Finite false q) = [Num.Int h; Num.Int m; Num.Int s]
          /\ (0 <= h /\ 0 <= m < 60 /\ 0 <= s < 60)%Z
          /\ (h * 3600 + m * 60 + s = Qfloor q)%Z)
  /\ (forall (reported : string) (q : Q),
        Num.parseFloat reported = Num.Finite false q ->
        (q < 2 ^ 53)%Q ->
        Num.isDouble q = true
        /\ exists h m s : Z,
             hmsFields (Num.parseFloat reported)
             = [Num.Int h; Num.Int m; Num.Int s]
             /\ (0 <= h /\ 0 <= m < 60 /\ 0 <= s < 60)%Z
             /\ (h * 3600 + m * 60 + s = Qfloor q)%Z)
  /\ (forall cwd libraryId w library file filePath data reported,
        Repo.findLibraryById (db w) libraryId = Some library ->
        In (file, filePath, data) (libraryFiles cwd (disk w) library) ->
        isIndexed (db w) filePath = false ->
        probe data = Some {| format := Some {| duration := reported |} |} ->
        Str.isEmpty reported = false ->
        fst (scanLibrary cwd libraryId w) = Return tt
        /\ exists id,
             In {| MediaItem.id := id;
                   MediaItem.filename := file;
                   MediaItem.filepath := filePath;
                   MediaItem.size := byteSize data;
                   MediaItem.duration :=
                     Some (secondsToHMS (Num.parseFloat reported));
                   MediaItem.library := MediaLibrary.id library |}
               (Repo.items (db (snd (scanLibrary cwd libraryId w)))))
  /\ (forall cwd libraryId w library file filePath data,
        Repo.findLibraryById (db w) libraryId = Some library ->
        In (file, filePath, data) (libraryFiles cwd (disk w) library) ->
        isIndexed (db w) filePath = false ->
        probe data = Some {| format := Some {| duration := "5425.7" |} |} ->
        exists id,
          In {| MediaItem.id := id;
                MediaItem.filename := file;
                MediaItem.filepath := filePath;
                MediaItem.size := byteSize data;
                MediaItem.duration := Some "01:30:25";
                MediaItem.library := MediaLibrary.id library |}
            (Repo.items (db (snd (scanLibrary cwd libraryId w)))))
  /\ (forall cwd libraryId w library file filePath data,
        Repo.findLibraryById (db w) libraryId = Some library ->
        In (file, filePath, data) (libraryFiles cwd (disk w) library) ->
        isIndexed (db w) filePath = false ->
        probe data = None ->
        fst (scanLibrary cwd libraryId w) = Return tt
        /\ exists id,
             In {| MediaItem.id := id;
                   MediaItem.filename := file;
                   MediaItem.filepath := filePath;
                   MediaItem.size := byteSize data;
                   MediaItem.duration := None;
                   MediaItem.library := MediaLibrary.id library |}
               (Repo.items (db (snd (scanLibrary cwd libraryId w))))).
Proof.
  split; [vm_compute; reflexivity|]; split; [vm_compute; reflexivity|].
  split; [vm_compute; reflexivity|]; split; [reflexivity|].
  assert (Hfloor : forall q : Q,
             Num.isDouble q = true ->
             (q < 2 ^ 53)%Q ->
             exists h m s : Z,
               hmsFields (Num.Finite false q)
               = [Num.Int h; Num.Int m; Num.Int s]
               /\ (0 <= h /\ 0 <= m < 60 /\ 0 <= s < 60)%Z
               /\ (h * 3600 + m * 60 + s = Qfloor q)%Z);
    [|split; [exact Hfloor|split; [|split; [|split]]]].
  - intros q Hd H53.
    pose proof (isDouble_nonneg q Hd) as Hq.
    exists (Qfloor q / 3600)%Z, ((Qfloor q mod 3600) / 60)%Z,
           (Qfloor q mod 60)%Z.
    split; [apply hmsFields_floor; assumption|].
    assert (Hn : (0 <= Qfloor q)%Z).
    { rewrite <- (Qfloor_Z 0); apply Qfloor_resp_le; exact Hq. }
    pose proof (Z.div_mod (Qfloor q) 3600 ltac:(lia)).
    pose proof (Z.mod_pos_bound (Qfloor q) 3600 ltac:(lia)).
    pose proof (Z.div_mod (Qfloor q mod 3600) 60 ltac:(lia)).
    pose proof (Z.mod_pos_bound (Qfloor q mod 3600) 60 ltac:(lia)).
    pose proof (Z.mod_mod_divide (Qfloor q) 3600 60
                  ltac:(exists 60%Z; reflexivity)).
    pose proof (Z.div_pos (Qfloor q) 3600 Hn ltac:(lia)).
    pose proof (Z.div_pos (Qfloor q mod 3600) 60 ltac:(lia) ltac:(lia)).
    lia.
  - intros reported q Hparse H53.
    pose proof (parseFloat_isDouble reported false q Hparse) as Hd.
    split; [exact Hd|].
    rewrite Hparse; apply Hfloor; assumption.
  - intros cwd libraryId w library file filePath data reported
      Hlib Hin Hnew Hprobe Hne.
    split; [apply (scanLibrary_found cwd libraryId w library Hlib)|].
    destruct (scanned_file_gets_item cwd libraryId w library file filePath
                data Hlib Hin Hnew) as [id Hid].
    exists id; rewrite Hprobe in Hid; unfold probeDuration in Hid.
    cbn [format duration] in Hid; rewrite Hne in Hid; exact Hid.
  - intros cwd libraryId w library file filePath data Hlib Hin Hnew Hprobe.
    destruct (scanned_file_gets_item cwd libraryId w library file filePath
                data Hlib Hin Hnew) as [id Hid].
    exists id; rewrite Hprobe in Hid.
    change (fst (probeDuration
                   (Some {| format := Some {| duration := "5425.7" |} |})))
      with (Some (secondsToHMS (Num.parseFloat "5425.7"))) in Hid.
    replace (secondsToHMS (Num.parseFloat "5425.7")) with "01:30:25" in Hid
      by (vm_compute; reflexivity).
    exact Hid.
  - intros cwd libraryId w library file filePath data Hlib Hin Hnew Hprobe.
    split; [apply (scanLibrary_found cwd libraryId w library Hlib)|].
    destruct (scanned_file_gets_item cwd libraryId w library file filePath
                data Hlib Hin Hnew) as [id Hid].
    exists id; rewrite Hprobe in Hid; exact Hid.
Qed.

Lemma secondsToHMS_floors_and_probe_failure_is_null_witness :
  (exists h m s : Z,
     hmsFields (Num.Finite false Sample.seconds)
     = [Num.Int h; Num.Int m; Num.Int s]
     /\ (0 <= h /\ 0 <= m < 60 /\ 0 <= s < 60)%Z
     /\ (h * 3600 + m * 60 + s = Qfloor Sample.seconds)%Z)
  /\ (Num.isDouble Sample.seconds = true
      /\ exists h m s : Z,
           hmsFields (Num.parseFloat "5425.7")
           = [Num.Int h; Num.Int m; Num.Int s]
           /\ (0 <= h /\ 0 <= m < 60 /\ 0 <= s < 60)%Z
           /\ (h * 3600 + m * 60 + s = Qfloor Sample.seconds)%Z)
  /\ (exists id,
        In {| MediaItem.id := id;
              MediaItem.filename := "a.mp4";
              MediaItem.filepath := "/srv/media/a.mp4";
              MediaItem.size := 100;
              MediaItem.duration := Some "01:30:25";
              MediaItem.library := 1 |}
          (Repo.items (db (snd (scanLibrary Example.cwd 1 Sample.reported)))))
  /\ fst (scanLibrary Example.cwd 1 Example.world) = Return tt
  /\ exists id,
       In {| MediaItem.id := id;
             MediaItem.filename := "b.MKV";
             MediaItem.filepath := "/srv/media/sub/b.MKV";
             MediaItem.size := 7;
             MediaItem.duration := None;
             MediaItem.library := 1 |}
         (Repo.items (db (snd (scanLibrary Example.cwd 1 Example.world)))).
Proof.
  destruct secondsToHMS_floors_and_probe_failure_is_null
    as (_ & _ & _ & _ & Hfloor & Hparse & _ & Hstored & Hscan).
  split; [|split; [|split]].
  - apply Hfloor; [vm_compute; reflexivity|].
    apply Qlt_alt; vm_compute; reflexivity.
  - apply (Hparse "5425.7" Sample.seconds); [vm_compute; reflexivity|].
    apply Qlt_alt; vm_compute; reflexivity.
  - apply (Hstored Example.cwd 1 Sample.reported Example.movies "a.mp4"
             "/srv/media/a.mp4"
             {| byteSize := 100;
                probe := Some {| format := Some {| duration := "5425.7" |} |}
             |}).
    + reflexivity.
    + vm_compute; left; reflexivity.
    + reflexivity.
    + reflexivity.
  - apply (Hscan Example.cwd 1 Example.world Example.movies "b.MKV"
             "/srv/media/sub/b.MKV" {| byteSize := 7; probe := None |}).
    + reflexivity.
    + vm_compute; right; left; reflexivity.
    + reflexivity.
    + reflexivity.
Defined.

(* ================================================================== *)
(** * The library registry *)
(* ================================================================== *)

Lemma findLibraryById_id store id library :
  Repo.findLibraryById store id = Some library ->
  In library (Repo.libraries store) /\ MediaLibrary.id library = id.
Proof.
  unfold Repo.findLibraryById; intros H; apply find_some in H.
  destruct H as [Hin Heq]; apply Nat.eqb_eq in Heq; auto.
Qed.

Lemma in_filter_not_id {A} (key : A -> nat) (id : nat) (l : list A) (x : A) :
  In x (filter (fun y => negb (Nat.eqb (key y) id)) l)
  <-> In x l /\ key x <> id.
Proof.
  rewrite filter_In, negb_true_iff, Nat.eqb_neq; tauto.
Qed.

(** What [deleteLibrary] does: an unknown id throws
    [NotFoundException]; a library without Items loses its record and
    nothing else; a library with Items stays, with its Items, and the
    call ends in the [QueryFailedError] of the repository.  The world is
    unchanged unless the record is removed. *)
Lemma deleteLibrary_cases (id : nat) (w : World) :
  match Repo.findLibraryById (db w) id with
  | None => deleteLibrary id w = (Throw NotFoundException, w)
  | Some library =>
      match Repo.mediaItemsOf (db w) id with
      | [] =>
          fst (deleteLibrary id w) = Return tt
          /\ Repo.items (db (snd (deleteLibrary id w))) = Repo.items (db w)
          /\ (forall l, In l (Repo.libraries (db (snd (deleteLibrary id w))))
                        <-> In l (Repo.libraries (db w))
                            /\ MediaLibrary.id l <> id)
          /\ disk (snd (deleteLibrary id w)) = disk w
      | _ :: _ => deleteLibrary id w = (Throw QueryFailedError, w)
      end
  end.
Proof.
  unfold deleteLibrary.
  destruct (Repo.findLibraryById (db w) id) as [library|] eqn:H;
    [|reflexivity].
  apply findLibraryById_id in H; destruct H as [_ Hid].
  unfold Repo.removeLibrary; rewrite Hid.
  destruct (Repo.mediaItemsOf (db w) id); [|reflexivity].
  cbn [fst snd db withDb Repo.items Repo.libraries disk].
  split; [reflexivity|]; split; [reflexivity|]; split; [|reflexivity].
  intros l; apply in_filter_not_id.
Qed.

(** C6, the failing input.  The library [Movies] owns two Items after
    its scan.  Deleting it removes neither the Items nor the record: the
    call ends in a [QueryFailedError] and the world is as before.
    Deleting an id that no library has throws [NotFoundException] and
    changes nothing either. *)
Theorem deleteLibrary_keeps_owned_items :
  Repo.findLibraryById (db Example.scanned) 1 = Some Example.movies
  /\ List.length (Repo.mediaItemsOf (db Example.scanned) 1) = 2
  /\ deleteLibrary 1 Example.scanned
     = (Throw QueryFailedError, Example.scanned)
  /\ Repo.findLibraryById (db Example.scanned) 7 = None
  /\ deleteLibrary 7 Example.scanned
     = (Throw NotFoundException, Example.scanned).
Proof. repeat split. Qed.

Lemma find_append {A} (f : A -> bool) (l1 l2 : list A) :
  find f (l1 ++ l2)
  = match find f l1 with
    | Some x => Some x
    | None => find f l2
    end.
Proof.
  induction l1 as [|x l1 IH]; simpl; [reflexivity|].
  destruct (f x); auto.
Qed.

Section CreateLibrary.

Variable cwd : string.
Variable sanitize : string -> string.
Variable this : MediaService.

(** The three checks of [createLibrary], in their order. *)
Lemma createLibrary_cases (name pathStr : string) (w : World) :
  createLibrary cwd sanitize this name pathStr w
  = if negb (String.eqb (sanitize name) name) then
      (Throw BadRequestException, w)
    else if match Repo.findLibraryByName (db w) name with
            | Some _ => true
            | None => false
            end then (Throw ConflictException, w)
    else if negb (FS.isExistingDir cwd (disk w) (toAbsolute cwd this pathStr))
    then (Throw NotFoundException, w)
    else
      (Return (fst (Repo.saveLibrary (db w) name
                      (toAbsolute cwd this pathStr))),
       withDb w (snd (Repo.saveLibrary (db w) name
                        (toAbsolute cwd this pathStr)))).
Proof.
  unfold createLibrary.
  destruct (String.eqb (sanitize name) name) eqn:E; [|reflexivity].
  apply String.eqb_eq in E; rewrite E; simpl.
  destruct (Repo.findLibraryByName (db w) name); [reflexivity|].
  destruct (FS.isExistingDir _ _ _); reflexivity.
Qed.

End CreateLibrary.

(** C4, as the code has it.  [createLibrary] succeeds if and only if the
    name is unchanged by sanitization, no library has that name, and the
    resolved path is an existing directory.  Otherwise it throws, the
    world unchanged: [BadRequestException] when sanitization changes the
    name (whatever the other two), else [ConflictException] when a
    library has the name (whatever the path), else [NotFoundException].
    On success the new library has the name and the resolved path, and
    is found under its name. *)
Theorem createLibrary_succeeds_iff
  (cwd : string) (sanitize : string -> string) (this : MediaService)
  (name pathStr : string) (w : World) :
  let absolutePath := toAbsolute cwd this pathStr in
  let run := createLibrary cwd sanitize this name pathStr w in
  ((exists library w', run = (Return library, w'))
   <-> sanitize name = name
       /\ Repo.findLibraryByName (db w) name = None
       /\ FS.isExistingDir cwd (disk w) absolutePath = true)
  /\ (sanitize name <> name -> run = (Throw BadRequestException, w))
  /\ (sanitize name = name ->
      Repo.findLibraryByName (db w) name <> None ->
      run = (Throw ConflictException, w))
  /\ (sanitize name = name ->
      Repo.findLibraryByName (db w) name = None ->
      FS.isExistingDir cwd (disk w) absolutePath = false ->
      run = (Throw NotFoundException, w))
  /\ (sanitize name = name ->
      Repo.findLibraryByName (db w) name = None ->
      FS.isExistingDir cwd (disk w) absolutePath = true ->
      exists library,
        run = (Return library, withDb w (snd (Repo.saveLibrary (db w) name
                                                absolutePath)))
        /\ MediaLibrary.name library = name
        /\ MediaLibrary.path library = absolutePath
        /\ Repo.findLibraryByName
             (snd (Repo.saveLibrary (db w) name absolutePath)) name
           = Some library).
Proof.
  intros absolutePath run.
  assert (Hrun := createLibrary_cases cwd sanitize this name pathStr w).
  fold run absolutePath in Hrun.
  destruct (String.eqb (sanitize name) name) eqn:Es; simpl in Hrun.
  - apply String.eqb_eq in Es.
    destruct (Repo.findLibraryByName (db w) name) as [l|] eqn:En.
    + split; [|repeat split; intros; congruence].
      rewrite Hrun; split.
      * intros (library & w' & H); discriminate.
      * intros (_ & H & _); discriminate.
    + destruct (FS.isExistingDir cwd (disk w) absolutePath) eqn:Ed;
        simpl in Hrun.
      * split; [rewrite Hrun; split; eauto|].
        split; [congruence|]; split; [congruence|]; split; [congruence|].
        intros _ _ _; eexists; split; [exact Hrun|].
        split; [reflexivity|]; split; [reflexivity|].
        unfold Repo.findLibraryByName in *; simpl.
        rewrite find_append, En; simpl.
        rewrite String.eqb_refl; reflexivity.
      * split; [|repeat split; intros; congruence].
        rewrite Hrun; split.
        -- intros (library & w' & H); discriminate.
        -- intros (_ & _ & H); discriminate.
  - apply String.eqb_neq in Es.
    split; [|repeat split; intros; congruence].
    rewrite Hrun; split.
    + intros (library & w' & H); discriminate.
    + intros (H & _); congruence.
Qed.

Lemma createLibrary_succeeds_iff_witness :
  createLibrary Example.cwd Sanitize.sanitize Example.service
    "TV/Shows" "sub" Example.world
  = (Throw BadRequestException, Example.world)
  /\ createLibrary Example.cwd Sanitize.sanitize Example.service
       "Movies" "/nowhere" Example.world
     = (Throw ConflictException, Example.world)
  /\ createLibrary Example.cwd Sanitize.sanitize Example.service
       "Shows" "/nowhere" Example.world
     = (Throw NotFoundException, Example.world)
  /\ exists library w',
       createLibrary Example.cwd Sanitize.sanitize Example.service
         "Shows" "sub" Example.world = (Return library, w').
Proof.
  split; [|split; [|split]].
  - apply (createLibrary_succeeds_iff Example.cwd Sanitize.sanitize
             Example.service "TV/Shows" "sub" Example.world).
    vm_compute; discriminate.
  - apply (createLibrary_succeeds_iff Example.cwd Sanitize.sanitize
             Example.service "Movies" "/nowhere" Example.world).
    + reflexivity.
    + vm_compute; discriminate.
  - apply (createLibrary_succeeds_iff Example.cwd Sanitize.sanitize
             Example.service "Shows" "/nowhere" Example.world);
      reflexivity.
  - apply (createLibrary_succeeds_iff Example.cwd Sanitize.sanitize
             Example.service "Shows" "sub" Example.world).
    repeat split.
Defined.

(** C4 as stated fails: a name that sanitization leaves unchanged and
    that no library has does not make [createLibrary] succeed when the
    path is not an existing directory. *)
Lemma createLibrary_needs_directory :
  ~ ((exists library w',
        createLibrary Example.cwd Sanitize.sanitize Example.service
          "Shows" "/nowhere" Example.world = (Return library, w'))
     <-> Sanitize.sanitize "Shows" = "Shows"
         /\ Repo.findLibraryByName (db Example.world) "Shows" = None).
Proof.
  intros [_ H].
  destruct H as (library & w' & H); [split; reflexivity|].
  vm_compute in H; discriminate.
Qed.

(* ================================================================== *)
(** * The listings *)
(* ================================================================== *)

Lemma isExistingDir_lookup cwd root p :
  FS.isExistingDir cwd root p
  = match FS.lookup cwd root p with
    | Some (FS.Dir _ _ _) => true
    | _ => false
    end.
Proof.
  unfold FS.isExistingDir, FS.existsSync, FS.statSync.
  destruct (FS.lookup cwd root p) as [[d|r w entries|]|]; reflexivity.
Qed.

(** C10. Both listings throw [NotFoundException] whenever the target is
    not an existing directory: nothing there, an entry that cannot be
    followed, or a regular file.  Both throw [ForbiddenException] when
    the target is a directory that [readdir] cannot read. *)
Theorem listings_NotFound_or_Forbidden
  (cwd : string) (this : MediaService) (target : string) (w : World) :
  let absolutePath := toAbsolute cwd this target in
  let notFound :=
    getSubdirectories cwd this target w = Throw NotFoundException
    /\ getScannableMovies cwd this target w = (Throw NotFoundException, w) in
  let forbidden :=
    getSubdirectories cwd this target w = Throw ForbiddenException
    /\ getScannableMovies cwd this target w = (Throw ForbiddenException, w) in
  (FS.isExistingDir cwd (disk w) absolutePath = false -> notFound)
  /\ (FS.lookup cwd (disk w) absolutePath = None -> notFound)
  /\ (FS.lookup cwd (disk w) absolutePath = Some FS.Dangling -> notFound)
  /\ (forall data,
        FS.lookup cwd (disk w) absolutePath = Some (FS.File data) -> notFound)
  /\ (forall writable entries,
        FS.lookup cwd (disk w) absolutePath
        = Some (FS.Dir false writable entries) -> forbidden)
  /\ (FS.isExistingDir cwd (disk w) absolutePath = true ->
      FS.readdirTypes cwd (disk w) absolutePath = None -> forbidden).
Proof.
  intros absolutePath notFound forbidden.
  assert (HNF : FS.isExistingDir cwd (disk w) absolutePath = false -> notFound).
  { intros H; unfold notFound, getSubdirectories, getScannableMovies.
    fold absolutePath; rewrite H; split; reflexivity. }
  assert (HF : FS.isExistingDir cwd (disk w) absolutePath = true ->
               FS.readdirTypes cwd (disk w) absolutePath = None -> forbidden).
  { intros H1 H2; unfold forbidden, getSubdirectories, getScannableMovies.
    fold absolutePath; rewrite H1, H2; split; reflexivity. }
  split; [exact HNF|].
  split; [intros H; apply HNF; rewrite isExistingDir_lookup, H; reflexivity|].
  split; [intros H; apply HNF; rewrite isExistingDir_lookup, H; reflexivity|].
  split.
  { intros data H; apply HNF; rewrite isExistingDir_lookup, H; reflexivity. }
  split; [|exact HF].
  intros writable entries H; apply HF.
  - rewrite isExistingDir_lookup, H; reflexivity.
  - unfold FS.readdirTypes; rewrite H; reflexivity.
Qed.

Lemma listings_NotFound_or_Forbidden_witness :
  (getSubdirectories Example.cwd Example.service "a.mp4" Example.world
   = Throw NotFoundException
   /\ getScannableMovies Example.cwd Example.service "a.mp4" Example.world
      = (Throw NotFoundException, Example.world))
  /\ (getSubdirectories Example.cwd Example.service "missing" Example.world
      = Throw NotFoundException
      /\ getScannableMovies Example.cwd Example.service "missing"
           Example.world
         = (Throw NotFoundException, Example.world))
  /\ (getSubdirectories Example.cwd Example.service "/srv/media/locked"
        Example.world
      = Throw ForbiddenException
      /\ getScannableMovies Example.cwd Example.service "/srv/media/locked"
           Example.world
         = (Throw ForbiddenException, Example.world)).
Proof.
  split; [|split].
  - destruct (listings_NotFound_or_Forbidden Example.cwd Example.service
                "a.mp4" Example.world) as (_ & _ & _ & H & _).
    apply (H {| byteSize := 100;
                probe := Some {| format :=
                                   Some {| duration := "5425.700000" |} |} |}).
    reflexivity.
  - destruct (listings_NotFound_or_Forbidden Example.cwd Example.service
                "missing" Example.world) as (_ & H & _).
    apply H; reflexivity.
  - destruct (listings_NotFound_or_Forbidden Example.cwd Example.service
                "/srv/media/locked" Example.world) as (_ & _ & _ & _ & H & _).
    apply (H true [("c.mp4", Example.corrupt 3)]); reflexivity.
Defined.

(* ================================================================== *)
(** * Failures during a scan or an ingestion *)
(* ================================================================== *)

Lemma probeFailures_app store (l1 l2 : list (string * string * FileData)) :
  probeFailures store (l1 ++ l2)
  = (probeFailures store l1 ++ probeFailures store l2)%list.
Proof. unfold probeFailures; rewrite filter_app, map_app; reflexivity. Qed.

Lemma indexFile_keeps_warnings store library file filePath data s e :
  In e (warnings s) ->
  In e (warnings (indexFile store library file filePath data s)).
Proof.
  unfold indexFile; intros H.
  destruct (Repo.findItemByFilepath store filePath); [exact H|].
  destruct (probeDuration (probe data)) as [d [|]]; simpl; [|exact H].
  apply in_or_app; left; exact H.
Qed.

Lemma indexFile_warns_probe store library file filePath data s e :
  In e (probeFailures store [(file, filePath, data)]) ->
  In e (warnings (indexFile store library file filePath data s)).
Proof.
  unfold probeFailures, indexFile, isIndexed; simpl.
  destruct (Repo.findItemByFilepath store filePath); simpl; [tauto|].
  destruct (probe data); simpl; [tauto|].
  intros [<-|[]]; apply in_or_app; right; left; reflexivity.
Qed.

(** Every failure met by the walk is in its warnings, and no earlier
    warning is lost. *)
Lemma traverseDirectory_warns store library (n : FS.node) :
  forall dir s e,
  In e (warnings s ++ walkFailures dir n
          ++ probeFailures store (supportedFiles dir n))%list ->
  In e (warnings (traverseDirectory store library dir n s)).
Proof.
  induction n as [d| |r w entries IH] using node_entries_ind; intros dir s e.
  - simpl; exact (fun H => H).
  - simpl; exact (fun H => H).
  - destruct r; [|simpl; exact (fun H => H)].
    simpl. revert s.
    induction IH as [|[file entry] rest Hentry _ IHrest]; intros s.
    + simpl; rewrite app_nil_r; exact (fun H => H).
    + simpl in Hentry.
      destruct entry as [data|r' w' sub|].
      * intros H; destruct (isSupported file).
        -- apply IHrest.
           change ((file, Path.join [dir; file], data) :: ?l)
             with ([(file, Path.join [dir; file], data)] ++ l)%list in H.
           rewrite probeFailures_app in H.
           repeat (rewrite in_app_iff in H || rewrite in_app_iff).
           destruct H as [H|[H|[H|H]]]; auto.
           ++ left; apply indexFile_keeps_warnings; exact H.
           ++ left; apply indexFile_warns_probe; exact H.
        -- apply IHrest; exact H.
      * intros H; apply IHrest.
        rewrite probeFailures_app in H.
        repeat (rewrite in_app_iff in H || rewrite in_app_iff).
        destruct H as [H|[[H|H]|[H|H]]]; auto;
          left; apply Hentry; repeat rewrite in_app_iff; auto.
      * intros H; apply IHrest.
        repeat (rewrite in_app_iff in H || rewrite in_app_iff).
        simpl in H.
        destruct H as [H|[[H|H]|H]]; auto.
        -- left; simpl; apply in_or_app; left; exact H.
        -- left; simpl; apply in_or_app; right; left; exact H.
Qed.

Lemma scanLibrary_logs cwd libraryId w library e :
  Repo.findLibraryById (db w) libraryId = Some library ->
  In e (libraryFailures cwd (disk w) library)
  \/ In e (probeFailures (db w) (libraryFiles cwd (disk w) library)) ->
  In e (logs (snd (scanLibrary cwd libraryId w))).
Proof.
  intros Hlib He.
  unfold scanLibrary, libraryFailures, libraryFiles in *; rewrite Hlib.
  set (walked :=
         match FS.lookup cwd (disk w) (MediaLibrary.path library) with
         | Some n =>
             traverseDirectory (db w) library (MediaLibrary.path library) n
               {| mediaItems := []; warnings := [] |}
         | None =>
             warn (WarnCannotReadDirectory (MediaLibrary.path library))
               {| mediaItems := []; warnings := [] |}
         end).
  assert (Hw : In e (warnings walked)).
  { subst walked.
    destruct (FS.lookup cwd (disk w) (MediaLibrary.path library)) as [n|].
    - apply traverseDirectory_warns; simpl.
      apply in_or_app; destruct He; auto.
    - destruct He as [He|[]]; exact He. }
  cbv zeta.
  destruct (mediaItems walked); simpl;
    apply in_or_app; left; apply in_or_app; right; exact Hw.
Qed.

Lemma ingestFiles_app cwd this store library (before after : list Upload.t) s :
  ingestFiles cwd this store library (before ++ after) s
  = ingestFiles cwd this store library after
      (ingestFiles cwd this store library before s).
Proof. unfold ingestFiles; apply fold_left_app. Qed.

Lemma outcome_of_scanLibrary cwd libraryId w :
  fst (scanLibrary cwd libraryId w)
  = match Repo.findLibraryById (db w) libraryId with
    | Some _ => Return tt
    | None => Throw NotFoundException
    end.
Proof.
  destruct (Repo.findLibraryById (db w) libraryId) as [library|] eqn:Hlib.
  - apply (scanLibrary_found cwd libraryId w library Hlib).
  - unfold scanLibrary; rewrite Hlib; reflexivity.
Qed.

Lemma outcome_of_processUploadedFiles cwd this files libraryId w :
  fst (processUploadedFiles cwd this files libraryId w)
  = match Repo.findLibraryById (db w) libraryId with
    | Some _ => Return tt
    | None => Throw NotFoundException
    end.
Proof.
  unfold processUploadedFiles.
  destruct (Repo.findLibraryById (db w) libraryId) as [library|];
    [|reflexivity].
  cbv zeta; destruct (ingestItems _); reflexivity.
Qed.


(* ================================================================== *)
(** * Paths as lists of segments *)
(* ================================================================== *)

Lemma append_assoc (a b c : string) : (a ++ b) ++ c = a ++ (b ++ c).
Proof. induction a as [|x a IH]; simpl; [reflexivity|rewrite IH; reflexivity]. Qed.

Lemma append_empty_r (a : string) : a ++ "" = a.
Proof. induction a as [|x a IH]; simpl; [reflexivity|rewrite IH; reflexivity]. Qed.

Lemma prefix_append (a b : string) : String.prefix a (a ++ b) = true.
Proof.
  induction a as [|x a IH]; simpl; [destruct b; reflexivity|].
  destruct (ascii_dec x x); [exact IH|congruence].
Qed.

Lemma split_not_nil (s : string) : Str.split s <> [].
Proof.
  destruct s as [|c r]; simpl; [discriminate|].
  destruct (Str.isSlash c); [discriminate|].
  destruct (Str.split r); discriminate.
Qed.

Lemma split_append_slash (a b : string) :
  Str.split (a ++ String "/" b) = (Str.split a ++ Str.split b)%list.
Proof.
  induction a as [|c a IH]; [reflexivity|].
  simpl; rewrite IH.
  destruct (Str.isSlash c); [reflexivity|].
  pose proof (split_not_nil a).
  destruct (Str.split a); [congruence|reflexivity].
Qed.

Lemma split_noSlash (s : string) :
  Forall (fun seg => noSlash seg = true) (Str.split s).
Proof.
  induction s as [|c r IH]; simpl; [repeat constructor|].
  destruct (Str.isSlash c) eqn:E; [constructor; [reflexivity|exact IH]|].
  destruct (Str.split r) as [|seg segs]; [repeat constructor; simpl|].
  - unfold noSlash; simpl; rewrite E; reflexivity.
  - inversion IH as [|? ? H1 H2]; subst; constructor; [|exact H2].
    unfold noSlash in *; simpl; rewrite E; exact H1.
Qed.

Lemma split_one (s : string) : noSlash s = true -> Str.split s = [s].
Proof.
  unfold noSlash; induction s as [|c r IH]; simpl; [reflexivity|].
  intros H; apply andb_prop in H; destruct H as [Hc Hr].
  apply negb_true_iff in Hc; rewrite Hc, (IH Hr); reflexivity.
Qed.

Lemma split_join (segs : list string) :
  segs <> [] -> Forall (fun seg => noSlash seg = true) segs ->
  Str.split (Str.join segs) = segs.
Proof.
  induction segs as [|x rest IH]; [congruence|]; intros _ H.
  inversion H as [|? ? Hx Hrest]; subst.
  destruct rest as [|y rest]; [apply split_one; exact Hx|].
  unfold Str.join in *.
  change (Str.split (x ++ String "/" (String.concat "/" (y :: rest)))
          = x :: y :: rest).
  rewrite split_append_slash, (split_one x Hx), IH; [reflexivity| |exact Hrest].
  discriminate.
Qed.

Lemma normalizeSegments_app (allow : bool) (l1 l2 : list string) :
  forall res,
  Path.normalizeSegments allow res (l1 ++ l2)
  = Path.normalizeSegments allow
      (rev (Path.normalizeSegments allow res l1)) l2.
Proof.
  induction l1 as [|seg rest IH]; intros res; simpl.
  - rewrite rev_involutive; reflexivity.
  - destruct (Str.isEmpty seg || String.eqb seg "."); [apply IH|].
    destruct (String.eqb seg ".."); [|apply IH].
    destruct res as [|last res']; [apply IH|].
    destruct (String.eqb last ".."); apply IH.
Qed.

Lemma isSegment_spec (s : string) :
  isSegment s = true ->
  Str.isEmpty s = false /\ String.eqb s "." = false
  /\ String.eqb s ".." = false /\ noSlash s = true.
Proof.
  unfold isSegment; intros H.
  repeat (apply andb_prop in H; destruct H as [H ?]).
  repeat split; try (apply negb_true_iff); assumption.
Qed.

(** Proper segments pass through [normalizeString] unchanged. *)
Lemma normalizeSegments_segments (allow : bool) (segs : list string) :
  Forall (fun s => isSegment s = true) segs ->
  forall res,
  Path.normalizeSegments allow res segs = (rev res ++ segs)%list.
Proof.
  induction 1 as [|seg rest Hseg _ IH]; intros res; simpl.
  - rewrite app_nil_r; reflexivity.
  - destruct (isSegment_spec _ Hseg) as (E1 & E2 & E3 & _).
    rewrite E1, E2, E3; simpl.
    rewrite IH; simpl; rewrite <- app_assoc; reflexivity.
Qed.

(** Below the root, what [normalizeString] keeps are proper segments. *)
Lemma normalizeSegments_gives_segments (segs : list string) :
  Forall (fun s => noSlash s = true) segs ->
  forall res,
  Forall (fun s => isSegment s = true) res ->
  Forall (fun s => isSegment s = true) (Path.normalizeSegments false res segs).
Proof.
  induction 1 as [|seg rest Hseg _ IH]; intros res Hres; simpl.
  - apply Forall_rev; exact Hres.
  - destruct (Str.isEmpty seg) eqn:E1; simpl; [apply IH; exact Hres|].
    destruct (String.eqb seg ".") eqn:E2; [apply IH; exact Hres|].
    destruct (String.eqb seg "..") eqn:E3.
    + destruct res as [|last res']; [apply IH; exact Hres|].
      destruct (String.eqb last ".."); apply IH; [exact Hres|].
      inversion Hres; assumption.
    + apply IH; constructor; [|exact Hres].
      unfold isSegment; rewrite E1, E2, E3, Hseg; reflexivity.
Qed.

Lemma join_segments_not_empty (seg : string) (rest : list string) :
  Str.isEmpty seg = false -> Str.isEmpty (Str.join (seg :: rest)) = false.
Proof.
  unfold Str.join; destruct seg as [|c r]; [discriminate|]; intros _.
  destruct rest; reflexivity.
Qed.

(** The segments of an absolute path in resolved form. *)
Lemma resolved_segments (segs : list string) (trail : string) :
  Forall (fun s => isSegment s = true) segs ->
  (trail = "" \/ trail = "/") ->
  Path.normalizeSegments false []
    (Str.split (String "/" (Str.join segs ++ trail ++ "/")))
  = segs.
Proof.
  intros Hsegs Htrail.
  assert (Hns : Forall (fun s => noSlash s = true) segs).
  { eapply Forall_impl; [|exact Hsegs].
    intros s Hs; apply (isSegment_spec s Hs). }
  cbn [Str.split]; change (Str.isSlash "/") with true; cbv iota.
  cbn [Path.normalizeSegments]; simpl Str.isEmpty; cbv iota.
  cbn [orb].
  destruct segs as [|seg rest].
  - simpl Str.join; simpl String.append at 1.
    destruct Htrail as [->| ->]; reflexivity.
  - assert (E : exists X, trail ++ "/" = String "/" X
                          /\ forall res,
                               Path.normalizeSegments false res (Str.split X)
                               = rev res).
    { destruct Htrail as [->| ->];
        [exists ""|exists "/"]; split; reflexivity. }
    destruct E as (X & -> & HX).
    rewrite split_append_slash, split_join; [|discriminate|exact Hns].
    rewrite normalizeSegments_app.
    rewrite (normalizeSegments_segments false (seg :: rest) Hsegs).
    rewrite HX, rev_involutive; reflexivity.
Qed.

(* ================================================================== *)
(** * The path of an uploaded file *)
(* ================================================================== *)

Lemma stripLeadingParents_absolute (s : string) :
  Path.isAbsolute s = true -> stripLeadingParents s = s.
Proof.
  intros H; apply startsWithSlash_cons in H; destruct H as [r ->].
  destruct r; reflexivity.
Qed.

(** [path.normalize] of an absolute path: the root, then the segments
    that [normalizeString] keeps, then at most one separator. *)
Lemma normalize_absolute (f : string) :
  Path.isAbsolute f = true ->
  exists trail,
    (trail = "" \/ trail = "/")
    /\ Path.normalize f
       = String "/"
           (Str.join (Path.normalizeSegments false [] (Str.split f))
            ++ trail).
Proof.
  intros Habs.
  assert (Hseg : Forall (fun s => isSegment s = true)
                   (Path.normalizeSegments false [] (Str.split f))).
  { apply normalizeSegments_gives_segments; [apply split_noSlash|constructor]. }
  assert (Hne : Str.isEmpty f = false)
    by (destruct f; [discriminate|reflexivity]).
  unfold Path.normalize, Path.normalizeString.
  rewrite Habs, Hne; simpl negb.
  destruct (Path.normalizeSegments false [] (Str.split f)) as [|seg rest].
  - exists ""; split; [left; reflexivity|reflexivity].
  - inversion Hseg as [|? ? H1 _]; subst.
    destruct (isSegment_spec _ H1) as (E & _).
    rewrite (join_segments_not_empty seg rest E).
    destruct (Str.endsWithSlash f).
    + exists "/"; split; [right; reflexivity|reflexivity].
    + exists ""; split; [left; reflexivity|].
      rewrite append_empty_r; reflexivity.
Qed.

Lemma resolve_one_absolute (cwd f : string) :
  Path.isAbsolute f = true ->
  Path.resolve cwd [f]
  = String "/" (Str.join (Path.normalizeSegments false [] (Str.split f))).
Proof.
  intros Habs.
  assert (Hne : Str.isEmpty f = false)
    by (destruct f; [discriminate|reflexivity]).
  unfold Path.resolve; simpl rev; cbn [Path.resolveArgs].
  rewrite Hne, Habs; unfold Path.normalizeString; simpl negb.
  change ("/" ++ "") with (String "/" "").
  rewrite split_append_slash, normalizeSegments_app.
  simpl; rewrite rev_involutive; reflexivity.
Qed.

(** An absolute filename is not touched by the stripping and takes the
    place of the base directory. *)
Lemma uploadPath_absolute (cwd : string) (this : MediaService) (f : string) :
  Path.isAbsolute f = true ->
  stripLeadingParents (Path.normalize f) = Path.normalize f
  /\ uploadPath cwd this f = Path.resolve cwd [f].
Proof.
  intros Habs.
  destruct (normalize_absolute f Habs) as (trail & Htrail & Hn).
  assert (Hs : stripLeadingParents (Path.normalize f) = Path.normalize f).
  { apply stripLeadingParents_absolute; rewrite Hn; reflexivity. }
  split; [exact Hs|].
  unfold uploadPath; rewrite Hs, (resolve_one_absolute cwd f Habs), Hn.
  unfold Path.resolve; simpl rev; cbn [Path.resolveArgs].
  simpl Str.isEmpty; cbv iota.
  change (Path.isAbsolute (String "/" ?x)) with true; cbv iota.
  unfold Path.normalizeString; simpl negb.
  cbn [String.append]; rewrite append_assoc.
  rewrite resolved_segments; [reflexivity| |exact Htrail].
  apply normalizeSegments_gives_segments; [apply split_noSlash|constructor].
Qed.


(* ================================================================== *)
(** * Relative filenames without backslash stay inside the base *)
(* ================================================================== *)

Lemma rev_repeat_same {A} (x : A) (k : nat) : rev (repeat x k) = repeat x k.
Proof.
  induction k as [|k IH]; [reflexivity|].
  simpl; rewrite IH.
  clear IH; induction k as [|k IH]; simpl; [reflexivity|].
  rewrite IH; reflexivity.
Qed.

Lemma split_forall_chars (p : ascii -> bool) (s : string) :
  forallb p (Str.chars s) = true ->
  Forall (fun seg => forallb p (Str.chars seg) = true) (Str.split s).
Proof.
  induction s as [|c r IH]; simpl; [repeat constructor|].
  intros H; apply andb_prop in H; destruct H as [Hc Hr].
  specialize (IH Hr).
  destruct (Str.isSlash c); [constructor; [reflexivity|exact IH]|].
  destruct (Str.split r) as [|seg segs];
    [repeat constructor; simpl; rewrite Hc; reflexivity|].
  inversion IH as [|? ? H1 H2]; subst; constructor; [|exact H2].
  simpl; rewrite Hc; exact H1.
Qed.

(** What [normalizeString] keeps of a relative path: some [..], then
    proper segments, all taken from the path. [kept] is the list of the
    segments kept so far, the last one first. *)
Lemma normalizeSegments_relative (P : string -> Prop) (segs : list string) :
  Forall (fun s => noSlash s = true /\ P s) segs ->
  forall k kept,
  Forall (fun s => isSegment s = true /\ P s) kept ->
  exists k' cs,
    Forall (fun s => isSegment s = true /\ P s) cs
    /\ Path.normalizeSegments true (kept ++ repeat ".." k) segs
       = (repeat ".." k' ++ cs)%list.
Proof.
  induction 1 as [|seg rest [Hns HP] _ IH]; intros k kept Hkept.
  - exists k, (rev kept); split; [apply Forall_rev; exact Hkept|].
    simpl; rewrite rev_app_distr, rev_repeat_same; reflexivity.
  - simpl.
    destruct (Str.isEmpty seg) eqn:E1; [apply IH; exact Hkept|].
    destruct (String.eqb seg ".") eqn:E2; [apply IH; exact Hkept|].
    simpl.
    destruct (String.eqb seg "..") eqn:E3.
    + destruct kept as [|c kept'].
      * destruct k as [|k]; simpl.
        -- apply (IH 1 []); constructor.
        -- apply (IH (S (S k)) []); constructor.
      * inversion Hkept as [|? ? [Hc _] Hk]; subst.
        destruct (isSegment_spec _ Hc) as (_ & _ & Ec & _).
        simpl; rewrite Ec; apply IH; exact Hk.
    + apply (IH k (seg :: kept)); constructor; [|exact Hkept].
      split; [|exact HP].
      unfold isSegment; rewrite E1, E2, E3, Hns; reflexivity.
Qed.

(** A proper segment without backslash stops the stripping. *)
Lemma stripLeadingParents_segment (c X : string) :
  isSegment c = true -> noBackslash c = true ->
  stripLeadingParents (c ++ X) = c ++ X.
Proof.
  intros Hc Hb.
  destruct (isSegment_spec _ Hc) as (_ & Edot & Edots & Hns).
  destruct c as [|a [|b [|d r]]]; simpl.
  - discriminate.
  - destruct X as [|x X']; [reflexivity|].
    destruct (Ascii.eqb a Str.dot) eqn:Ea; [|reflexivity].
    apply Ascii.eqb_eq in Ea; subst a; discriminate.
  - destruct (Ascii.eqb a Str.dot) eqn:Ea; [|reflexivity].
    destruct (Ascii.eqb b Str.dot) eqn:Eb; [|reflexivity].
    apply Ascii.eqb_eq in Ea, Eb; subst a b; discriminate.
  - destruct (Ascii.eqb a Str.dot && Ascii.eqb b Str.dot); [|reflexivity].
    unfold noSlash, noBackslash in *; simpl in Hns, Hb.
    repeat (apply andb_prop in Hns; destruct Hns as [? Hns]).
    repeat (apply andb_prop in Hb; destruct Hb as [? Hb]).
    repeat match goal with
           | H : negb _ = true |- _ => apply negb_true_iff in H; rewrite H
           end.
    reflexivity.
Qed.

Lemma join_cons (x : string) (l : list string) :
  l <> [] -> Str.join (x :: l) = x ++ String "/" (Str.join l).
Proof. destruct l; [congruence|reflexivity]. Qed.

(** The stripping of a normalized relative path: all the leading [..]
    go, the proper segments stay. *)
Lemma stripLeadingParents_normalized (k : nat) (cs : list string)
  (trail : string) :
  Forall (fun s => isSegment s = true /\ noBackslash s = true) cs ->
  (trail = "" \/ trail = "/") ->
  (repeat ".." k ++ cs)%list <> [] ->
  stripLeadingParents (Str.join (repeat ".." k ++ cs) ++ trail)
  = match cs with
    | [] => ""
    | _ => Str.join cs ++ trail
    end.
Proof.
  intros Hcs Htrail; induction k as [|k IH]; intros Hne.
  - simpl in *; destruct cs as [|c cs']; [congruence|].
    inversion Hcs as [|? ? [Hc Hb] _]; subst.
    destruct cs' as [|c' cs''].
    + apply stripLeadingParents_segment; assumption.
    + rewrite join_cons by discriminate.
      rewrite append_assoc.
      apply stripLeadingParents_segment; assumption.
  - simpl repeat; simpl app.
    destruct (repeat ".." k ++ cs)%list as [|x l] eqn:E.
    + destruct cs; [|destruct k; discriminate].
      destruct Htrail as [->| ->]; reflexivity.
    + rewrite join_cons by discriminate.
      rewrite <- E in *.
      change (stripLeadingParents
                (Str.join (repeat ".." k ++ cs) ++ trail)
              = match cs with
                | [] => ""
                | _ => Str.join cs ++ trail
                end).
      apply IH; rewrite E; discriminate.
Qed.

Lemma join_app (l1 l2 : list string) :
  l1 <> [] -> l2 <> [] ->
  Str.join (l1 ++ l2) = Str.join l1 ++ String "/" (Str.join l2).
Proof.
  intros H1 H2; induction l1 as [|x l1 IH]; [congruence|].
  destruct l1 as [|y l1].
  - simpl app; apply join_cons; exact H2.
  - change ((x :: y :: l1) ++ l2)%list with (x :: ((y :: l1) ++ l2))%list.
    rewrite join_cons by discriminate.
    rewrite IH by discriminate.
    rewrite (join_cons x (y :: l1)) by discriminate.
    rewrite append_assoc; reflexivity.
Qed.

Lemma split_resolved (bs : list string) :
  Forall (fun s => isSegment s = true) bs ->
  Path.normalizeSegments false [] (Str.split (String "/" (Str.join bs))) = bs.
Proof.
  intros Hbs.
  change (Str.split (String "/" (Str.join bs)))
    with ("" :: Str.split (Str.join bs)).
  change (Path.normalizeSegments false [] ("" :: ?l))
    with (Path.normalizeSegments false [] l).
  destruct bs as [|b bs']; [reflexivity|].
  rewrite split_join; [|discriminate|].
  - apply (normalizeSegments_segments false (b :: bs') Hbs []).
  - eapply Forall_impl; [|exact Hbs].
    intros s Hs; apply (isSegment_spec s Hs).
Qed.

(** A base directory in resolved form is the root followed by proper
    segments. *)
Lemma resolved_form (cwd base : string) :
  Path.isAbsolute base = true -> Path.resolve cwd [base] = base ->
  exists bs,
    Forall (fun s => isSegment s = true) bs /\ base = String "/" (Str.join bs).
Proof.
  intros Habs Hres.
  rewrite (resolve_one_absolute cwd base Habs) in Hres.
  exists (Path.normalizeSegments false [] (Str.split base)); split.
  - apply normalizeSegments_gives_segments; [apply split_noSlash|constructor].
  - symmetry; exact Hres.
Qed.

Lemma resolve_under_base (cwd : string) (bs : list string) (rel : string)
  (cs : list string) :
  Forall (fun s => isSegment s = true) bs ->
  Str.isEmpty rel = false -> Path.isAbsolute rel = false ->
  Path.normalizeSegments false (rev bs) (Str.split (rel ++ "/"))
  = (bs ++ cs)%list ->
  Path.resolve cwd [String "/" (Str.join bs); rel]
  = String "/" (Str.join (bs ++ cs)).
Proof.
  intros Hbs Hne Hrel Hnorm.
  unfold Path.resolve; simpl rev; cbn [Path.resolveArgs].
  rewrite Hne, Hrel; simpl Str.isEmpty; cbv iota.
  change (Path.isAbsolute (String "/" ?x)) with true; cbv iota.
  unfold Path.normalizeString; simpl negb.
  rewrite append_empty_r.
  cbn [String.append Str.split]; change (Str.isSlash "/") with true.
  cbv iota.
  rewrite split_append_slash.
  change (Path.normalizeSegments false [] ("" :: ?l))
    with (Path.normalizeSegments false [] l).
  rewrite normalizeSegments_app.
  assert (Hb : Path.normalizeSegments false [] (Str.split (Str.join bs)) = bs).
  { pose proof (split_resolved bs Hbs) as H.
    change (Str.split (String "/" (Str.join bs)))
      with ("" :: Str.split (Str.join bs)) in H.
    exact H. }
  rewrite Hb, Hnorm; reflexivity.
Qed.

Lemma resolve_base_alone (cwd base : string) :
  Path.resolve cwd [base; ""] = Path.resolve cwd [base].
Proof. reflexivity. Qed.

Lemma insideBase_extended (bs cs : list string) :
  Forall (fun s => isSegment s = true) bs ->
  insideBase (String "/" (Str.join bs)) (String "/" (Str.join (bs ++ cs)))
  = true.
Proof.
  intros Hbs; unfold insideBase.
  destruct cs as [|c cs'].
  - rewrite app_nil_r, String.eqb_refl; reflexivity.
  - apply orb_true_iff; right.
    destruct bs as [|b bs'];
      [exact (prefix_append "/" (Str.join (c :: cs')))|].
    rewrite join_app by discriminate.
    destruct (String.eqb _ "/");
      [exact (prefix_append "/" (Str.join (b :: bs')
                                 ++ String "/" (Str.join (c :: cs'))))|].
    change (String "/" (Str.join (b :: bs')) ++ "/")
      with (String "/" (Str.join (b :: bs') ++ "/")).
    replace (String "/" (Str.join (b :: bs')
                         ++ String "/" (Str.join (c :: cs'))))
      with ((String "/" (Str.join (b :: bs') ++ "/"))
            ++ Str.join (c :: cs')).
    + apply prefix_append.
    + cbn [String.append]; rewrite append_assoc; reflexivity.
Qed.

Lemma segment_is_relative (c X : string) :
  isSegment c = true ->
  Str.isEmpty (c ++ X) = false /\ Path.isAbsolute (c ++ X) = false.
Proof.
  intros Hc; destruct (isSegment_spec _ Hc) as (Hne & _ & _ & Hns).
  destruct c as [|a r]; [discriminate|].
  split; [reflexivity|].
  unfold noSlash in Hns; simpl in Hns.
  apply andb_prop in Hns; destruct Hns as [Ha _].
  apply negb_true_iff in Ha; exact Ha.
Qed.

(** What is left of a relative filename without backslash after
    [path.normalize] and the stripping: nothing, the current directory,
    or proper segments with at most one separator after them. *)
Lemma stripped_relative (f : string) :
  Path.isAbsolute f = false -> noBackslash f = true ->
  let rel := stripLeadingParents (Path.normalize f) in
  rel = "" \/ rel = "." \/ rel = "./"
  \/ exists c cs trail,
       Forall (fun s => isSegment s = true) (c :: cs)
       /\ (trail = "" \/ trail = "/")
       /\ rel = Str.join (c :: cs) ++ trail.
Proof.
  intros Hrel Hb rel; subst rel.
  unfold Path.normalize, Path.normalizeString.
  destruct (Str.isEmpty f) eqn:Hf; [right; left; reflexivity|].
  rewrite Hrel; simpl negb.
  assert (Hsegs : Forall (fun s => noSlash s = true /\ noBackslash s = true)
                    (Str.split f)).
  { pose proof (split_noSlash f) as H1.
    pose proof (split_forall_chars _ f Hb) as H2.
    rewrite Forall_forall in *; intros s Hs; split; auto.
    apply H2; exact Hs. }
  destruct (normalizeSegments_relative
              (fun s => noBackslash s = true) _ Hsegs 0 [] (Forall_nil _))
    as (k & cs & Hcs & Hn).
  simpl app in Hn; rewrite Hn.
  destruct (repeat ".." k ++ cs)%list as [|x l] eqn:E.
  - simpl; destruct (Str.endsWithSlash f); auto.
  - assert (Hx : Str.isEmpty x = false).
    { destruct k as [|k]; simpl in E.
      - subst cs; inversion Hcs as [|? ? [H _] _]; subst.
        apply (isSegment_spec _ H).
      - injection E as <- _; reflexivity. }
    rewrite (join_segments_not_empty x l Hx), <- E.
    assert (Hne : (repeat ".." k ++ cs)%list <> []) by (rewrite E; discriminate).
    assert (Hstrip : forall trail, trail = "" \/ trail = "/" ->
              stripLeadingParents (Str.join (repeat ".." k ++ cs) ++ trail)
              = match cs with
                | [] => ""
                | _ => Str.join cs ++ trail
                end).
    { intros trail Ht; apply stripLeadingParents_normalized; auto. }
    assert (Hcs' : Forall (fun s => isSegment s = true) cs).
    { eapply Forall_impl; [|exact Hcs]; intros s [H _]; exact H. }
    destruct (Str.endsWithSlash f).
    + rewrite (Hstrip "/") by auto.
      destruct cs as [|c cs']; [left; reflexivity|].
      right; right; right; exists c, cs', "/"; auto.
    + rewrite <- (append_empty_r (Str.join (repeat ".." k ++ cs))).
      rewrite (Hstrip "") by auto.
      destruct cs as [|c cs']; [left; reflexivity|].
      right; right; right; exists c, cs', ""; auto.
Qed.

(** Without a backslash in it, a relative filename is resolved to the
    base directory followed by proper segments. *)
Lemma uploadPath_relative (cwd : string) (this : MediaService)
  (f : string) (bs : list string) :
  baseDir this = String "/" (Str.join bs) ->
  Forall (fun s => isSegment s = true) bs ->
  Path.isAbsolute f = false -> noBackslash f = true ->
  exists cs,
    Forall (fun s => isSegment s = true) cs
    /\ uploadPath cwd this f = String "/" (Str.join (bs ++ cs)).
Proof.
  intros Ebase Hbs Hrel Hb.
  unfold uploadPath; rewrite Ebase.
  destruct (stripped_relative f Hrel Hb)
    as [-> | [-> | [-> | (c & cs & trail & Hcs & Htrail & ->)]]].
  - exists []; split; [constructor|].
    rewrite resolve_base_alone, app_nil_r.
    rewrite resolve_one_absolute by reflexivity.
    rewrite split_resolved by exact Hbs; reflexivity.
  - exists []; split; [constructor|].
    apply (resolve_under_base cwd bs "." [] Hbs eq_refl eq_refl).
    simpl; rewrite rev_involutive, app_nil_r; reflexivity.
  - exists []; split; [constructor|].
    apply (resolve_under_base cwd bs "./" [] Hbs eq_refl eq_refl).
    simpl; rewrite rev_involutive, app_nil_r; reflexivity.
  - exists (c :: cs); split; [exact Hcs|].
    inversion Hcs as [|? ? Hc _]; subst.
    assert (Hns : Forall (fun s => noSlash s = true) (c :: cs)).
    { eapply Forall_impl; [|exact Hcs].
      intros s Hs; apply (isSegment_spec s Hs). }
    assert (Hr : Str.isEmpty (Str.join (c :: cs) ++ trail) = false
                 /\ Path.isAbsolute (Str.join (c :: cs) ++ trail) = false).
    { destruct cs as [|c' cs'].
      - apply segment_is_relative; exact Hc.
      - rewrite join_cons by discriminate.
        rewrite append_assoc; apply segment_is_relative; exact Hc. }
    destruct Hr as [H1 H2].
    apply (resolve_under_base cwd bs _ (c :: cs) Hbs H1 H2).
    rewrite append_assoc.
    assert (E : exists X, trail ++ "/" = String "/" X
                          /\ forall res,
                               Path.normalizeSegments false res (Str.split X)
                               = rev res).
    { destruct Htrail as [->| ->];
        [exists ""|exists "/"]; split; reflexivity. }
    destruct E as (X & -> & HX).
    rewrite split_append_slash, split_join; [|discriminate|exact Hns].
    rewrite normalizeSegments_app.
    rewrite (normalizeSegments_segments false (c :: cs) Hcs).
    rewrite HX, !rev_involutive; reflexivity.
Qed.

(** So it lies inside the base directory. *)
Lemma uploadPath_inside_base (cwd : string) (this : MediaService)
  (f : string) :
  Path.isAbsolute (baseDir this) = true ->
  Path.resolve cwd [baseDir this] = baseDir this ->
  Path.isAbsolute f = false -> noBackslash f = true ->
  insideBase (baseDir this) (uploadPath cwd this f) = true.
Proof.
  intros Habs Hres Hrel Hb.
  destruct (resolved_form cwd _ Habs Hres) as (bs & Hbs & Ebase).
  destruct (uploadPath_relative cwd this f bs Ebase Hbs Hrel Hb)
    as (cs & Hcs & ->).
  rewrite Ebase; apply insideBase_extended; exact Hbs.
Qed.

(* ================================================================== *)
(** * The paths of a walk are distinct *)
(* ================================================================== *)

Lemma endsWithSlash_append (a c : string) :
  Str.isEmpty c = false -> Str.endsWithSlash (a ++ c) = Str.endsWithSlash c.
Proof.
  intros Hc; induction a as [|x a IH]; [reflexivity|].
  simpl; rewrite IH.
  destruct (a ++ c) eqn:E; [|reflexivity].
  destruct a; simpl in E; [subst c|]; discriminate.
Qed.

Lemma endsWithSlash_noSlash (c : string) :
  noSlash c = true -> Str.endsWithSlash c = false.
Proof.
  unfold noSlash; induction c as [|x c IH]; [reflexivity|].
  simpl; intros H; apply andb_prop in H; destruct H as [Hx Hc].
  apply negb_true_iff in Hx.
  destruct c; [exact Hx|apply IH; exact Hc].
Qed.

(** [path.join(dir, file)] for an absolute [dir] and a proper name: the
    segments of [dir], then the name. *)
Lemma join_absolute (dir file : string) :
  Path.isAbsolute dir = true -> isSegment file = true ->
  Path.join [dir; file]
  = String "/" (Str.join
                  (Path.normalizeSegments false [] (Str.split dir) ++ [file])).
Proof.
  intros Hdir Hfile.
  destruct (isSegment_spec _ Hfile) as (Hne & _ & _ & Hns).
  assert (Hd : Str.isEmpty dir = false)
    by (destruct dir; [discriminate|reflexivity]).
  unfold Path.join; simpl filter; rewrite Hd, Hne; simpl negb; cbv iota.
  unfold Str.join at 1; cbn [String.concat].
  change ("/" ++ file) with (String "/" file).
  unfold Path.normalize, Path.normalizeString.
  assert (Hd' : Str.isEmpty (dir ++ String "/" file) = false)
    by (destruct dir; [discriminate|reflexivity]).
  assert (Ha : Path.isAbsolute (dir ++ String "/" file) = true)
    by (destruct dir; [discriminate|exact Hdir]).
  rewrite Hd', Ha; simpl negb.
  rewrite split_append_slash, (split_one file Hns), normalizeSegments_app.
  rewrite (normalizeSegments_segments false [file]) by (repeat constructor; exact Hfile).
  rewrite rev_involutive.
  destruct (Path.normalizeSegments false [] (Str.split dir) ++ [file])%list
    as [|x l] eqn:E; [destruct (Path.normalizeSegments _ _ _); discriminate|].
  assert (Hx : Str.isEmpty x = false).
  { assert (Hall : Forall (fun s => isSegment s = true) (x :: l)).
    { rewrite <- E; apply Forall_app; split; [|repeat constructor; exact Hfile].
      apply normalizeSegments_gives_segments;
        [apply split_noSlash|constructor]. }
    inversion Hall as [|? ? H _]; subst; apply (isSegment_spec _ H). }
  rewrite (join_segments_not_empty x l Hx).
  change (dir ++ String "/" file) with (dir ++ (String "/" file)).
  rewrite endsWithSlash_append by reflexivity.
  change (Str.endsWithSlash (String "/" file))
    with (match file with
          | EmptyString => Str.isSlash "/"
          | _ => Str.endsWithSlash file
          end).
  destruct file as [|c r]; [discriminate|].
  rewrite (endsWithSlash_noSlash _ Hns); reflexivity.
Qed.

Lemma supportedFiles_cons (dir file : string) (entry : FS.node) (w : bool)
  (rest : list (string * FS.node)) :
  supportedFiles dir (FS.Dir true w ((file, entry) :: rest))
  = (match entry with
     | FS.Dangling => []
     | FS.Dir _ _ _ => supportedFiles (Path.join [dir; file]) entry
     | FS.File data =>
         if isSupported file then [(file, Path.join [dir; file], data)]
         else []
     end ++ supportedFiles dir (FS.Dir true w rest))%list.
Proof.
  destruct entry as [data|r' w' sub|]; simpl; [|reflexivity|reflexivity].
  destruct (isSupported file); reflexivity.
Qed.

Lemma wellFormed_cons (r w : bool) (file : string) (entry : FS.node)
  (rest : list (string * FS.node)) :
  wellFormed (FS.Dir r w ((file, entry) :: rest)) ->
  isSegment file = true /\ ~ In file (map fst rest)
  /\ wellFormed entry /\ wellFormed (FS.Dir r w rest).
Proof.
  simpl; intros (Hnd & Hseg & Hentry & Hrest).
  inversion Hnd; inversion Hseg; subst; auto 10.
Qed.

(** Two lists of proper segments under the same directory that give the
    same path are the same list. *)
Lemma resolved_path_injective (ns l1 l2 : list string) :
  Forall (fun s => isSegment s = true) ns ->
  Forall (fun s => isSegment s = true) l1 ->
  Forall (fun s => isSegment s = true) l2 ->
  l1 <> [] -> l2 <> [] ->
  String "/" (Str.join (ns ++ l1)) = String "/" (Str.join (ns ++ l2)) ->
  l1 = l2.
Proof.
  intros Hns H1 H2 N1 N2 E; injection E as E.
  assert (Hs : forall l, Forall (fun s => isSegment s = true) l -> l <> [] ->
               Str.split (Str.join (ns ++ l)) = (ns ++ l)%list).
  { intros l Hl Nl; apply split_join.
    - destruct ns; [exact Nl|discriminate].
    - eapply Forall_impl; [|apply Forall_app; split; [exact Hns|exact Hl]].
      intros s Hs; apply (isSegment_spec s Hs). }
  apply (f_equal Str.split) in E.
  rewrite (Hs l1 H1 N1), (Hs l2 H2 N2) in E.
  apply app_inv_head in E; exact E.
Qed.

(** Below an absolute directory, each file of the walk lies at the
    segments of the directory followed by the name of an entry and the
    names under it; no path comes twice. *)
Lemma supportedFiles_distinct (n : FS.node) :
  forall dir,
  Path.isAbsolute dir = true -> wellFormed n ->
  let ns := Path.normalizeSegments false [] (Str.split dir) in
  (forall f, In f (supportedFiles dir n) ->
     exists name more,
       Forall (fun s => isSegment s = true) (name :: more)
       /\ snd (fst f) = String "/" (Str.join (ns ++ name :: more))
       /\ match n with
          | FS.Dir _ _ entries => In name (map fst entries)
          | _ => False
          end)
  /\ NoDup (map (fun f => snd (fst f)) (supportedFiles dir n)).
Proof.
  induction n as [d| |r w entries IH] using node_entries_ind;
    intros dir Habs Hwf ns.
  - split; [intros f []|constructor].
  - split; [intros f []|constructor].
  - destruct r; [|split; [intros f []|constructor]].
    assert (Hns : Forall (fun s => isSegment s = true) ns).
    { apply normalizeSegments_gives_segments;
        [apply split_noSlash|constructor]. }
    induction IH as [|[file entry] rest Hentry _ IHrest].
    + split; [intros f []|constructor].
    + apply wellFormed_cons in Hwf.
      destruct Hwf as (Hfile & Hfresh & Hwentry & Hwrest).
      destruct (IHrest Hwrest) as [Hrest Hnodup]; clear IHrest.
      rewrite supportedFiles_cons.
      pose proof (join_absolute dir file Habs Hfile) as Hjoin; fold ns in Hjoin.
      assert (Hhere : forall f,
                In f (match entry with
                      | FS.Dangling => []
                      | FS.Dir _ _ _ =>
                          supportedFiles (Path.join [dir; file]) entry
                      | FS.File data =>
                          if isSupported file
                          then [(file, Path.join [dir; file], data)]
                          else []
                      end) ->
                exists more,
                  Forall (fun s => isSegment s = true) (file :: more)
                  /\ snd (fst f) = String "/" (Str.join (ns ++ file :: more))).
      { intros f Hf; destruct entry as [data|r' w' sub|]; [| |destruct Hf].
        - destruct (isSupported file); [|destruct Hf].
          destruct Hf as [<-|[]]; exists []; split; [repeat constructor; auto|].
          exact Hjoin.
        - simpl in Hentry.
          assert (Ha : Path.isAbsolute (Path.join [dir; file]) = true)
            by (rewrite Hjoin; reflexivity).
          destruct (Hentry _ Ha Hwentry) as [Hsub _].
          destruct (Hsub f Hf) as (name & more & Hall & Hpath & _).
          exists (name :: more); split; [constructor; auto|].
          rewrite Hpath, Hjoin, split_resolved.
          + rewrite <- app_assoc; reflexivity.
          + apply Forall_app; split; [exact Hns|repeat constructor; auto]. }
      split.
      * intros f Hf; apply in_app_or in Hf; destruct Hf as [Hf|Hf].
        -- destruct (Hhere f Hf) as (more & Hall & Hpath).
           exists file, more; simpl; auto.
        -- destruct (Hrest f Hf) as (name & more & Hall & Hpath & Hin).
           exists name, more; simpl; auto.
      * rewrite map_app; apply NoDup_app; [|exact Hnodup|].
        -- destruct entry as [data|r' w' sub|]; [| |constructor].
           ++ destruct (isSupported file); repeat constructor; auto.
           ++ simpl in Hentry.
              assert (Ha : Path.isAbsolute (Path.join [dir; file]) = true)
                by (rewrite Hjoin; reflexivity).
              apply (Hentry _ Ha Hwentry).
        -- intros p Hp Hq.
           apply in_map_iff in Hp; destruct Hp as (f & <- & Hf).
           apply in_map_iff in Hq; destruct Hq as (g & Eg & Hg).
           destruct (Hhere f Hf) as (more & Hall & Hpath).
           destruct (Hrest g Hg) as (name' & more' & Hall' & Hpath' & Hin).
           rewrite Hpath, Hpath' in Eg.
           apply resolved_path_injective in Eg; auto; try discriminate.
           injection Eg as -> _; exact (Hfresh Hin).
Qed.

Lemma filepaths_newItems store library fs :
  filepaths (newItems store library fs)
  = map (fun f => snd (fst f))
      (filter (fun f => negb (isIndexed store (snd (fst f)))) fs).
Proof.
  unfold filepaths, newItems; rewrite map_map.
  apply map_ext; intros [[file filePath] data]; reflexivity.
Qed.

Lemma NoDup_map_filter {A B} (g : A -> B) (p : A -> bool) (l : list A) :
  NoDup (map g l) -> NoDup (map g (filter p l)).
Proof.
  induction l as [|x l IH]; simpl; [auto|].
  intros H; inversion H as [|? ? Hx Hl]; subst.
  destruct (p x); [|apply IH; exact Hl].
  simpl; constructor; [|apply IH; exact Hl].
  intros Hin; apply Hx.
  apply in_map_iff in Hin; destruct Hin as (y & E & Hy).
  apply filter_In in Hy; destruct Hy as [Hy _].
  apply in_map_iff; eauto.
Qed.

(** X1. Find-before-insert is enough for a scan: over a tree as
    [readdir] shows it, the scan of a library with an absolute path
    keeps the filepaths of the Items distinct. *)
Lemma scanLibrary_keeps_filepaths_distinct cwd libraryId w library :
  Repo.findLibraryById (db w) libraryId = Some library ->
  Path.isAbsolute (MediaLibrary.path library) = true ->
  (forall n, FS.lookup cwd (disk w) (MediaLibrary.path library) = Some n ->
             wellFormed n) ->
  NoDup (filepaths (Repo.items (db w))) ->
  NoDup (filepaths (Repo.items (db (snd (scanLibrary cwd libraryId w))))).
Proof.
  intros Hlib Habs Hwf Hold.
  destruct (scanLibrary_found cwd libraryId w library Hlib) as (_ & _ & Hdb).
  rewrite Hdb; clear Hdb.
  destruct (newItems _ _ _) as [|i batch] eqn:Eb; [exact Hold|].
  rewrite <- Eb; clear Eb i batch.
  unfold Repo.saveItems; cbn [Repo.items].
  unfold filepaths at 1; rewrite map_app.
  fold (filepaths (Repo.items (db w))).
  fold (filepaths (Repo.assignIds (Repo.nextItemId (db w))
                     (newItems (db w) library
                        (libraryFiles cwd (disk w) library)))).
  rewrite assignIds_filepaths, filepaths_newItems.
  apply NoDup_app; [exact Hold| |].
  - apply NoDup_map_filter.
    unfold libraryFiles.
    destruct (FS.lookup cwd (disk w) (MediaLibrary.path library)) as [n|];
      [|constructor].
    apply (supportedFiles_distinct n _ Habs (Hwf n eq_refl)).
  - intros p Hp Hq.
    apply isIndexed_in in Hp.
    apply in_map_iff in Hq; destruct Hq as (f & <- & Hf).
    apply filter_In in Hf; destruct Hf as [_ Hf].
    rewrite Hp in Hf; discriminate.
Qed.

(* ================================================================== *)
(** * [dirname] and [basename] of a resolved path *)
(* ================================================================== *)

Lemma chars_append (a b : string) :
  Str.chars (a ++ b) = (Str.chars a ++ Str.chars b)%list.
Proof. induction a as [|x a IH]; simpl; [reflexivity|rewrite IH; reflexivity]. Qed.

Lemma ofChars_chars (s : string) : Str.ofChars (Str.chars s) = s.
Proof. induction s as [|x s IH]; simpl; [reflexivity|rewrite IH; reflexivity]. Qed.

Lemma forallb_rev {A} (p : A -> bool) (l : list A) :
  forallb p (rev l) = forallb p l.
Proof.
  induction l as [|x l IH]; [reflexivity|].
  simpl; rewrite forallb_app, IH; simpl.
  rewrite andb_true_r; apply andb_comm.
Qed.

Lemma dropWhile_all {A} (p : A -> bool) (l1 l2 : list A) :
  forallb p l1 = true -> Str.dropWhile p (l1 ++ l2) = Str.dropWhile p l2.
Proof.
  induction l1 as [|x l1 IH]; simpl; [reflexivity|].
  intros H; apply andb_prop in H; destruct H as [Hx Hl].
  rewrite Hx; apply IH; exact Hl.
Qed.

Lemma dropWhile_nothing {A} (p : A -> bool) (x : A) (l : list A) :
  p x = false -> Str.dropWhile p (x :: l) = x :: l.
Proof. intros H; simpl; rewrite H; reflexivity. Qed.

Lemma takeWhile_all {A} (p : A -> bool) (l1 : list A) (x : A) (l2 : list A) :
  forallb p l1 = true -> p x = false ->
  Str.takeWhile p (l1 ++ x :: l2) = l1.
Proof.
  induction l1 as [|y l1 IH]; simpl; intros H Hx; [rewrite Hx; reflexivity|].
  apply andb_prop in H; destruct H as [Hy Hl].
  rewrite Hy, IH; auto.
Qed.

(** The characters of the segments joined, read from the end: those of
    the last segment, then the separator before it and the rest. *)
Lemma joined_from_the_end (segs : list string) (c : string) :
  rev (Str.chars (Str.join (segs ++ [c])))
  = (rev (Str.chars c)
     ++ match segs with
        | [] => []
        | _ => "/"%char :: rev (Str.chars (Str.join segs))
        end)%list.
Proof.
  destruct segs as [|s segs'].
  - simpl; rewrite app_nil_r; reflexivity.
  - rewrite join_app by discriminate.
    change (Str.join [c]) with c.
    rewrite chars_append.
    change (Str.chars (String "/" c)) with ("/"%char :: Str.chars c).
    rewrite rev_app_distr; cbn [rev].
    rewrite <- app_assoc; reflexivity.
Qed.

Lemma segment_chars (c : string) :
  isSegment c = true ->
  Str.chars c <> []
  /\ forallb (fun x => negb (Str.isSlash x)) (rev (Str.chars c)) = true.
Proof.
  intros Hc; destruct (isSegment_spec _ Hc) as (Hne & _ & _ & Hns).
  split; [destruct c; [discriminate|discriminate]|].
  rewrite forallb_rev; exact Hns.
Qed.

Lemma basename_resolved (segs : list string) (c : string) :
  isSegment c = true ->
  Path.basename (String "/" (Str.join (segs ++ [c]))) = c.
Proof.
  intros Hc; destruct (segment_chars c Hc) as [Hne Hall].
  unfold Path.basename.
  change (Str.chars (String "/" ?x)) with ("/"%char :: Str.chars x).
  cbn [rev]; rewrite joined_from_the_end.
  destruct (rev (Str.chars c)) as [|y ys] eqn:E.
  { apply (f_equal (@rev ascii)) in E; rewrite rev_involutive in E.
    contradiction. }
  assert (Hy : Str.isSlash y = false).
  { simpl in Hall; apply andb_prop in Hall; destruct Hall as [Hy _].
    apply negb_true_iff in Hy; exact Hy. }
  rewrite <- !app_comm_cons, (dropWhile_nothing Str.isSlash y _ Hy).
  rewrite app_comm_cons.
  assert (Hrest : exists l,
            ((match segs with
              | [] => []
              | _ => "/"%char :: rev (Str.chars (Str.join segs))
              end ++ ["/"%char])%list = "/"%char :: l)).
  { destruct segs; simpl; eauto. }
  destruct Hrest as [l Hl].
  match goal with
  | |- context [Str.takeWhile _ ?L] =>
      replace L with ((y :: ys) ++ "/"%char :: l)%list
        by (rewrite <- Hl; simpl; rewrite app_assoc; reflexivity)
  end.
  rewrite takeWhile_all; [|exact Hall|reflexivity].
  rewrite <- E, rev_involutive; apply ofChars_chars.
Qed.

Lemma dirname_resolved (segs : list string) (c : string) :
  Forall (fun s => isSegment s = true) segs -> isSegment c = true ->
  Path.dirname (String "/" (Str.join (segs ++ [c])))
  = String "/" (Str.join segs).
Proof.
  intros Hsegs Hc; destruct (segment_chars c Hc) as [Hne Hall].
  unfold Path.dirname; rewrite joined_from_the_end.
  destruct (rev (Str.chars c)) as [|y ys] eqn:E.
  { apply (f_equal (@rev ascii)) in E; rewrite rev_involutive in E.
    contradiction. }
  assert (Hy : Str.isSlash y = false).
  { simpl in Hall; apply andb_prop in Hall; destruct Hall as [Hy _].
    apply negb_true_iff in Hy; exact Hy. }
  rewrite <- app_comm_cons, (dropWhile_nothing Str.isSlash y _ Hy).
  rewrite app_comm_cons, dropWhile_all by exact Hall.
  destruct segs as [|s segs']; [reflexivity|].
  simpl Str.dropWhile.
  change (Str.isSlash "/") with true; simpl negb; cbv iota.
  rewrite rev_involutive, ofChars_chars.
  inversion Hsegs as [|? ? Hs _]; subst.
  destruct (isSegment_spec _ Hs) as (Es & _).
  pose proof (join_segments_not_empty s segs' Es) as Hj.
  destruct (Str.join (s :: segs')) as [|j js] eqn:Ej; [discriminate|].
  rewrite length_rev; reflexivity.
Qed.

(** The [k]-th ancestor of a resolved path drops its last [k]
    segments. *)
Lemma ancestor_resolved (k : nat) :
  forall segs,
  Forall (fun s => isSegment s = true) segs -> k <= List.length segs ->
  ancestor k (String "/" (Str.join segs))
  = String "/" (Str.join (firstn (List.length segs - k) segs)).
Proof.
  induction k as [|k IH]; intros segs Hsegs Hk.
  - rewrite Nat.sub_0_r, firstn_all; reflexivity.
  - destruct (exists_last (l := segs)) as (init & last & ->).
    { intros ->; simpl in Hk; lia. }
    apply Forall_app in Hsegs; destruct Hsegs as [Hinit Hlast].
    inversion Hlast as [|? ? Hl _]; subst.
    rewrite length_app in *; simpl in Hk.
    rewrite ancestor_step, dirname_resolved, IH by (auto; lia).
    replace (List.length init + List.length [last] - S k)
      with (List.length init - k) by (simpl; lia).
    rewrite firstn_app.
    replace (List.length init - k - List.length init) with 0 by lia.
    simpl; rewrite app_nil_r; reflexivity.
Qed.

Lemma resolve_resolved (cwd : string) (segs : list string) :
  Forall (fun s => isSegment s = true) segs ->
  Path.resolve cwd [String "/" (Str.join segs)] = String "/" (Str.join segs).
Proof.
  intros Hsegs.
  rewrite resolve_one_absolute by reflexivity.
  rewrite split_resolved by exact Hsegs; reflexivity.
Qed.

(** In a tree, what lies on the way to an entry is a directory. *)
Lemma walk_before_last (segs : list string) (c : string) :
  Forall (fun s => isSegment s = true) segs ->
  forall stack cur n,
  FS.walk stack cur (segs ++ [c]) = Some n ->
  exists stack' r w entries,
    FS.walk stack cur segs = Some (FS.Dir r w entries)
    /\ FS.walk stack' (FS.Dir r w entries) [c] = Some n.
Proof.
  induction 1 as [|s segs Hs _ IH]; intros stack cur n H.
  - destruct cur as [d|r w entries|]; try discriminate.
    exists stack, r, w, entries; split; [reflexivity|exact H].
  - destruct (isSegment_spec _ Hs) as (E1 & E2 & E3 & _).
    simpl in *.
    destruct cur as [d|r w entries|]; try discriminate.
    rewrite E1, E2, E3 in *; simpl in *.
    destruct (FS.child s entries) as [ch|]; [|discriminate].
    apply IH in H; exact H.
Qed.

Lemma lookup_resolved (cwd : string) (root : FS.node) (segs : list string) :
  Forall (fun s => isSegment s = true) segs ->
  FS.lookup cwd root (String "/" (Str.join segs))
  = match root with
    | FS.Dir _ _ _ => FS.walk [] root segs
    | _ => None
    end.
Proof.
  intros Hsegs; unfold FS.lookup.
  change (Path.isAbsolute (String "/" ?x)) with true; cbv iota.
  change (Str.split (String "/" ?x)) with ("" :: Str.split x).
  destruct root as [d|r w entries|]; try reflexivity.
  change (FS.walk [] (FS.Dir r w entries) ("" :: ?l))
    with (FS.walk [] (FS.Dir r w entries) l).
  destruct segs as [|s segs']; [reflexivity|].
  rewrite split_join; [reflexivity|discriminate|].
  eapply Forall_impl; [|exact Hsegs].
  intros x Hx; apply (isSegment_spec x Hx).
Qed.

(** The parent of an existing directory exists. *)
Lemma parent_exists (cwd : string) (root : FS.node) (segs : list string) :
  Forall (fun s => isSegment s = true) segs ->
  FS.isExistingDir cwd root (String "/" (Str.join segs)) = true ->
  FS.existsSync cwd root (Path.dirname (String "/" (Str.join segs))) = true.
Proof.
  intros Hsegs Hdir.
  destruct segs as [|s segs'].
  - apply andb_prop in Hdir; destruct Hdir as [He _]; exact He.
  - destruct (exists_last (l := s :: segs')) as (init & last & E);
      [discriminate|].
    rewrite E in *; clear E s segs'.
    apply Forall_app in Hsegs; destruct Hsegs as [Hinit Hlast].
    inversion Hlast as [|? ? Hl _]; subst.
    rewrite dirname_resolved by auto.
    rewrite isExistingDir_lookup, lookup_resolved in Hdir
      by (apply Forall_app; auto).
    unfold FS.existsSync; rewrite lookup_resolved by auto.
    destruct root as [d|r w entries|]; try discriminate.
    destruct (FS.walk [] (FS.Dir r w entries) (init ++ [last])) as [n|] eqn:E;
      [|discriminate].
    apply walk_before_last in E; [|exact Hinit].
    destruct E as (stack' & r' & w' & entries' & -> & _); reflexivity.
Qed.

(* ================================================================== *)
(** * The fallback directory of an upload *)
(* ================================================================== *)

Lemma Forall_firstn_keeps {A} (P : A -> Prop) (n : nat) (l : list A) :
  Forall P l -> Forall P (firstn n l).
Proof.
  revert n; induction l as [|x l IH]; intros [|n] H; simpl;
    try constructor; inversion H; subst; auto.
Qed.

Lemma findExistingDir_found (cwd : string) (root : FS.node)
  (startPath d : string) :
  findExistingDir cwd root startPath = Some d ->
  exists k,
    d = ancestor k (Path.resolve cwd [startPath])
    /\ FS.isExistingDir cwd root d = true
    /\ forall j, j < k ->
         FS.isExistingDir cwd root
           (ancestor j (Path.resolve cwd [startPath])) = false.
Proof.
  unfold findExistingDir.
  destruct (findExistingDirLoop cwd _ root _) as [r|] eqn:E; [|discriminate].
  intros ->; eapply findExistingDirLoop_found; exact E.
Qed.

(** When the base directory exists, the path that an upload resolved
    below it is finally written to is below it too, fallback or not. *)
Lemma uploadTarget_below_base (cwd : string) (root : FS.node)
  (bs cs : list string) (target : string) (msgs : list logEntry) :
  Forall (fun s => isSegment s = true) bs ->
  Forall (fun s => isSegment s = true) cs ->
  FS.isExistingDir cwd root (String "/" (Str.join bs)) = true ->
  uploadTarget cwd root (String "/" (Str.join (bs ++ cs)))
  = (Some target, msgs) ->
  exists cs',
    Forall (fun s => isSegment s = true) cs'
    /\ target = String "/" (Str.join (bs ++ cs')).
Proof.
  intros Hbs Hcs Hbase; unfold uploadTarget.
  destruct (FS.existsSync cwd root
              (Path.dirname (String "/" (Str.join (bs ++ cs))))) eqn:Hdir;
    simpl negb; cbv iota.
  { intros H; injection H as <- _; exists cs; auto. }
  destruct cs as [|c0 cs0].
  { rewrite app_nil_r in Hdir.
    rewrite (parent_exists cwd root bs Hbs Hbase) in Hdir; discriminate. }
  destruct (exists_last (l := c0 :: cs0)) as (init & c & E); [discriminate|].
  rewrite E in *; clear E c0 cs0.
  apply Forall_app in Hcs; destruct Hcs as [Hinit Hlast].
  inversion Hlast as [|? ? Hc _]; subst.
  assert (Hbi : Forall (fun s => isSegment s = true) (bs ++ init))
    by (apply Forall_app; auto).
  rewrite app_assoc, basename_resolved, dirname_resolved by auto.
  destruct (findExistingDir cwd root (String "/" (Str.join (bs ++ init))))
    as [d|] eqn:Hfound; [|discriminate].
  intros H; injection H as <- _.
  apply findExistingDir_found in Hfound.
  destruct Hfound as (k & -> & _ & Hnearest).
  rewrite resolve_resolved in * by exact Hbi.
  assert (Hk : k <= List.length init).
  { destruct (Nat.le_gt_cases k (List.length init)) as [Hle|Hgt]; [exact Hle|].
    specialize (Hnearest _ Hgt).
    rewrite ancestor_resolved in Hnearest
      by (auto; rewrite length_app; lia).
    rewrite length_app, Nat.add_sub, firstn_app, Nat.sub_diag in Hnearest.
    rewrite firstn_all, firstn_O, app_nil_r in Hnearest.
    congruence. }
  rewrite ancestor_resolved by (auto; rewrite length_app; lia).
  rewrite length_app, firstn_app.
  replace (List.length bs + List.length init - k - List.length bs)
    with (List.length init - k) by lia.
  rewrite firstn_all2 by lia.
  assert (Hd : Forall (fun s => isSegment s = true)
                 (bs ++ firstn (List.length init - k) init)).
  { apply Forall_app; split; [exact Hbs|].
    apply Forall_firstn_keeps; exact Hinit. }
  exists (firstn (List.length init - k) init ++ [c])%list; split.
  - apply Forall_app; split; [|repeat constructor; exact Hc].
    apply Forall_app in Hd; apply Hd.
  - rewrite join_absolute by (auto; reflexivity).
    rewrite split_resolved by exact Hd.
    rewrite <- app_assoc; reflexivity.
Qed.

(** Where the stripping does protect.  With a base directory that
    exists, a relative filename without backslash is only ever written,
    and its Item stored, inside the base directory. *)
Lemma ingestFile_inside_base (cwd : string) (this : MediaService)
  (store : Repo.Store) (library : MediaLibrary.t) (file : Upload.t)
  (s : IngestState) :
  Path.isAbsolute (baseDir this) = true ->
  Path.resolve cwd [baseDir this] = baseDir this ->
  FS.isExistingDir cwd (ingestDisk s) (baseDir this) = true ->
  Path.isAbsolute (Upload.filename file) = false ->
  noBackslash (Upload.filename file) = true ->
  let s' := ingestFile cwd this store library file s in
  (forall item, In item (ingestItems s') ->
     In item (ingestItems s)
     \/ insideBase (baseDir this) (MediaItem.filepath item) = true)
  /\ (ingestDisk s' = ingestDisk s
      \/ exists target,
           insideBase (baseDir this) target = true
           /\ FS.writeFile cwd (ingestDisk s) target (Upload.buffer file)
              = Some (ingestDisk s')).
Proof.
  intros Habs Hres Hbase Hrel Hb s'; subst s'.
  destruct (resolved_form cwd _ Habs Hres) as (bs & Hbs & Ebase).
  destruct (uploadPath_relative cwd this _ bs Ebase Hbs Hrel Hb)
    as (cs & Hcs & Hpath).
  unfold ingestFile; rewrite Hpath.
  destruct (Repo.findItemByFilepath store _); [auto|].
  destruct (uploadTarget cwd (ingestDisk s) _) as [[target|] msgs] eqn:Ht;
    [|auto].
  rewrite Ebase in Hbase.
  apply (uploadTarget_below_base cwd _ bs cs target msgs Hbs Hcs Hbase) in Ht.
  destruct Ht as (cs' & Hcs' & ->).
  assert (Hin : insideBase (baseDir this)
                  (String "/" (Str.join (bs ++ cs'))) = true)
    by (rewrite Ebase; apply insideBase_extended; exact Hbs).
  destruct (FS.writeFile cwd (ingestDisk s) _ (Upload.buffer file))
    as [disk'|] eqn:Hw; [|auto].
  destruct (probeDuration _) as [d threw]; simpl; split.
  - intros item Hitem; apply in_app_or in Hitem.
    destruct Hitem as [Hitem|[<-|[]]]; auto.
  - right; eauto.
Qed.

(** C1, the failing input.  On the filename [../..\/etc/passwd], a
    relative path with a leading [../] segment, [path.normalize] changes
    nothing (to POSIX [..\] is an ordinary segment), the stripping takes
    [../] and then [..\] away and leaves the absolute [/etc/passwd], and
    [path.resolve] returns it: the bytes are written outside the base
    directory [/srv/media] and the Item stores that path. *)
Theorem traversal_through_backslash :
  let filename := "../..\/etc/passwd" in
  let w' :=
    snd (processUploadedFiles Example.cwd Example.service
           [Example.upload filename] 1 Example.world) in
  Path.isAbsolute filename = false
  /\ String.prefix "../" filename = true
  /\ Path.normalize filename = filename
  /\ stripLeadingParents (Path.normalize filename) = "/etc/passwd"
  /\ uploadPath Example.cwd Example.service filename = "/etc/passwd"
  /\ insideBase (baseDir Example.service) "/etc/passwd" = false
  /\ FS.lookup Example.cwd (disk Example.world) "/etc/passwd"
     = Some (Example.corrupt 10)
  /\ FS.lookup Example.cwd (disk w') "/etc/passwd"
     = Some (FS.File (Upload.buffer (Example.upload filename)))
  /\ filepaths (Repo.items (db w')) = ["/etc/passwd"].
Proof. cbv zeta; repeat split. Qed.

(** C3, the failing inputs.  Two files of one upload with the same
    filename both pass the check against the database, which is not
    written before the end of the loop, and both Items are saved.  And a
    file whose directory is missing is checked under the path first
    resolved but saved under the path of the fallback directory, which
    an Item may already have. *)
Theorem upload_persists_duplicate_filepaths :
  let twice :=
    snd (processUploadedFiles Example.cwd Example.service
           [Example.upload "n.mp4"; Example.upload "n.mp4"] 1
           Example.world) in
  let fallback :=
    snd (processUploadedFiles Example.cwd Example.service
           [Example.upload "missing/a.mp4"] 1 Example.scanned) in
  NoDup (filepaths (Repo.items (db Example.world)))
  /\ filepaths (Repo.items (db twice))
     = ["/srv/media/n.mp4"; "/srv/media/n.mp4"]
  /\ ~ NoDup (filepaths (Repo.items (db twice)))
  /\ NoDup (filepaths (Repo.items (db Example.scanned)))
  /\ filepaths (Repo.items (db fallback))
     = ["/srv/media/a.mp4"; "/srv/media/sub/b.MKV"; "/srv/media/a.mp4"]
  /\ ~ NoDup (filepaths (Repo.items (db fallback))).
Proof.
  cbv zeta.
  split; [constructor|].
  split; [reflexivity|].
  split.
  { intros H; vm_compute in H; inversion H as [|? ? Hn _]; subst.
    apply Hn; left; reflexivity. }
  split.
  { vm_compute; repeat constructor; simpl; intuition discriminate. }
  split; [reflexivity|].
  intros H; vm_compute in H; inversion H as [|? ? Hn _]; subst.
  apply Hn; right; left; reflexivity.
Qed.

(* ================================================================== *)
(** * Further properties of a scan *)
(* ================================================================== *)

Lemma supportedFiles_supported (n : FS.node) :
  forall dir f,
  In f (supportedFiles dir n) -> isSupported (fst (fst f)) = true.
Proof.
  induction n as [d| |r w entries IH] using node_entries_ind; intros dir f.
  - intros [].
  - intros [].
  - destruct r; [|intros []].
    simpl.
    induction IH as [|[file entry] rest Hentry _ IHrest]; [intros []|].
    simpl in Hentry.
    destruct entry as [data|r' w' sub|].
    + destruct (isSupported file) eqn:Hs; [|exact IHrest].
      intros [<-|H]; [exact Hs|exact (IHrest H)].
    + intros H; apply in_app_or in H; destruct H as [H|H].
      * exact (Hentry _ _ H).
      * exact (IHrest H).
    + exact IHrest.
Qed.

Lemma assignIds_length next batch :
  List.length (Repo.assignIds next batch) = List.length batch.
Proof.
  revert next; induction batch as [|i rest IH]; intros next; simpl; auto.
Qed.

Lemma assignIds_ids next batch :
  map MediaItem.id (Repo.assignIds next batch)
  = seq next (List.length batch).
Proof.
  revert next; induction batch as [|i rest IH]; intros next; simpl; auto.
  rewrite IH; reflexivity.
Qed.

Lemma assignIds_Forall (P : MediaItem.t -> Prop) next batch :
  (forall i k, P i -> P (Repo.withId i k)) ->
  Forall P batch -> Forall P (Repo.assignIds next batch).
Proof.
  intros HP H; revert next; induction H as [|i rest Hi _ IH]; intros next;
    simpl; constructor; auto.
Qed.

Lemma newItems_Forall store library fs :
  (forall f, In f fs -> isSupported (fst (fst f)) = true) ->
  Forall (fun i =>
            MediaItem.library i = MediaLibrary.id library
            /\ isSupported (MediaItem.filename i) = true
            /\ isIndexed store (MediaItem.filepath i) = false)
    (newItems store library fs).
Proof.
  intros Hs; unfold newItems; apply Forall_forall; intros i Hi.
  apply in_map_iff in Hi; destruct Hi as ([[file filePath] data] & <- & Hf).
  apply filter_In in Hf; destruct Hf as [Hf Hn]; simpl in *.
  repeat split.
  - exact (Hs _ Hf).
  - destruct (isIndexed store filePath); [discriminate|reflexivity].
Qed.

Lemma libraryFiles_supported cwd root library f :
  In f (libraryFiles cwd root library) -> isSupported (fst (fst f)) = true.
Proof.
  unfold libraryFiles.
  destruct (FS.lookup cwd root (MediaLibrary.path library)) as [n|];
    [|intros []].
  apply supportedFiles_supported.
Qed.

(** What a scan adds to the Items. *)
Lemma scanLibrary_added cwd libraryId w :
  let db' := db (snd (scanLibrary cwd libraryId w)) in
  exists added,
    Repo.items db' = (Repo.items (db w) ++ added)%list
    /\ Repo.libraries db' = Repo.libraries (db w)
    /\ Repo.nextLibraryId db' = Repo.nextLibraryId (db w)
    /\ map MediaItem.id added
       = seq (Repo.nextItemId (db w)) (List.length added)
    /\ Repo.nextItemId db' = Repo.nextItemId (db w) + List.length added
    /\ Forall (fun i =>
                 MediaItem.library i = libraryId
                 /\ isSupported (MediaItem.filename i) = true
                 /\ isIndexed (db w) (MediaItem.filepath i) = false)
         added.
Proof.
  intros db'; subst db'.
  destruct (Repo.findLibraryById (db w) libraryId) as [library|] eqn:Hlib.
  - destruct (scanLibrary_found cwd libraryId w library Hlib) as (_ & _ & Hdb).
    rewrite Hdb; clear Hdb.
    pose proof (newItems_Forall (db w) library
                  (libraryFiles cwd (disk w) library)
                  (libraryFiles_supported cwd (disk w) library)) as HF.
    rewrite (proj2 (findLibraryById_id _ _ _ Hlib)) in HF.
    destruct (newItems _ _ _) as [|i batch] eqn:Eb.
    + exists []; rewrite app_nil_r, Nat.add_0_r; repeat split; constructor.
    + exists (Repo.assignIds (Repo.nextItemId (db w)) (i :: batch)).
      rewrite assignIds_ids, assignIds_length.
      split; [reflexivity|]; split; [reflexivity|]; split; [reflexivity|].
      split; [reflexivity|]; split; [reflexivity|].
      apply assignIds_Forall; [|exact HF].
      intros j k Hj; exact Hj.
  - unfold scanLibrary; rewrite Hlib; simpl.
    exists []; rewrite app_nil_r, Nat.add_0_r; repeat split; constructor.
Qed.

Lemma indexFile_warnings_only store library file filePath data s e :
  In e (warnings (indexFile store library file filePath data s)) ->
  In e (warnings s)
  \/ In e (probeFailures store [(file, filePath, data)]).
Proof.
  unfold probeFailures, indexFile, isIndexed; simpl.
  destruct (Repo.findItemByFilepath store filePath); simpl; [tauto|].
  unfold probeDuration.
  destruct (probe data) as [res|]; simpl.
  - destruct (format res) as [f|]; [destruct (Str.isEmpty (duration f))|];
      simpl; tauto.
  - intros H; apply in_app_or in H; simpl in H; tauto.
Qed.

(** The warnings of a walk are the failures it met, and no other. *)
Lemma traverseDirectory_warns_only store library (n : FS.node) :
  forall dir s e,
  In e (warnings (traverseDirectory store library dir n s)) ->
  In e (warnings s ++ walkFailures dir n
          ++ probeFailures store (supportedFiles dir n))%list.
Proof.
  induction n as [d| |r w entries IH] using node_entries_ind; intros dir s e.
  - simpl; exact (fun H => H).
  - simpl; exact (fun H => H).
  - destruct r; [|simpl; exact (fun H => H)].
    simpl. revert s.
    induction IH as [|[file entry] rest Hentry _ IHrest]; intros s.
    + simpl; rewrite app_nil_r; exact (fun H => H).
    + simpl in Hentry.
      destruct entry as [data|r' w' sub|].
      * intros H; destruct (isSupported file).
        -- apply IHrest in H.
           change ((file, Path.join [dir; file], data) :: ?l)
             with ([(file, Path.join [dir; file], data)] ++ l)%list.
           rewrite probeFailures_app.
           repeat (rewrite in_app_iff in H || rewrite in_app_iff).
           destruct H as [H|[H|H]]; auto.
           apply indexFile_warnings_only in H; destruct H; auto.
        -- apply IHrest; exact H.
      * intros H; apply IHrest in H.
        rewrite probeFailures_app.
        repeat (rewrite in_app_iff in H || rewrite in_app_iff).
        destruct H as [H|[H|H]]; auto.
        apply Hentry in H.
        repeat rewrite in_app_iff in H.
        destruct H as [H|[H|H]]; auto.
      * intros H; apply IHrest in H.
        repeat (rewrite in_app_iff in H || rewrite in_app_iff).
        simpl.
        destruct H as [H|[H|H]]; auto.
        simpl in H; apply in_app_or in H; simpl in H.
        destruct H as [H|[H|[]]]; auto.
Qed.

(** The log of a scan: what was there, the warnings of the walk, one
    summary. *)
Lemma scanLibrary_log cwd libraryId w library :
  Repo.findLibraryById (db w) libraryId = Some library ->
  let files := libraryFiles cwd (disk w) library in
  let batch := newItems (db w) library files in
  exists ws,
    logs (snd (scanLibrary cwd libraryId w))
    = (logs w ++ ws
       ++ [match batch with
           | [] => LogNoNewItemsFound (MediaLibrary.name library)
           | _ => LogFoundAndSaved (List.length batch)
                    (MediaLibrary.name library)
           end])%list
    /\ forall e,
         In e ws
         <-> In e (libraryFailures cwd (disk w) library)
             \/ In e (probeFailures (db w) files).
Proof.
  intros Hlib files batch; subst files batch.
  unfold scanLibrary, libraryFailures, libraryFiles; rewrite Hlib.
  destruct (FS.lookup cwd (disk w) (MediaLibrary.path library)) as [n|].
  - set (start := {| mediaItems := []; warnings := [] |}).
    exists (warnings (traverseDirectory (db w) library
                        (MediaLibrary.path library) n start)).
    split.
    + cbv zeta.
      pose proof (traverseDirectory_items (db w) library n
                    (MediaLibrary.path library) start) as Hi.
      simpl in Hi; rewrite <- Hi.
      destruct (mediaItems _); simpl; rewrite <- app_assoc; reflexivity.
    + intros e; split; intros H.
      * apply traverseDirectory_warns_only in H; simpl in H.
        apply in_app_or in H; exact H.
      * apply traverseDirectory_warns; simpl.
        apply in_or_app; exact H.
  - exists [WarnCannotReadDirectory (MediaLibrary.path library)].
    split; [simpl; rewrite <- app_assoc; reflexivity|].
    intros e; simpl; tauto.
Qed.

Lemma mediaItemsOf_saveItems store batch k :
  Repo.mediaItemsOf (Repo.saveItems store batch) k
  = (Repo.mediaItemsOf store k
     ++ filter (fun i => Nat.eqb (MediaItem.library i) k)
          (Repo.assignIds (Repo.nextItemId store) batch))%list.
Proof. unfold Repo.mediaItemsOf, Repo.saveItems; simpl; apply filter_app. Qed.

Lemma filter_none {A} (p : A -> bool) (l : list A) :
  Forall (fun x => p x = false) l -> filter p l = [].
Proof.
  induction 1 as [|x l Hx _ IH]; simpl; [reflexivity|].
  rewrite Hx; exact IH.
Qed.

Lemma filter_all {A} (p : A -> bool) (l : list A) :
  Forall (fun x => p x = true) l -> filter p l = l.
Proof.
  induction 1 as [|x l Hx _ IH]; simpl; [reflexivity|].
  rewrite Hx, IH; reflexivity.
Qed.

Lemma mediaItemsOf_app store store' added k :
  Repo.items store' = (Repo.items store ++ added)%list ->
  Repo.mediaItemsOf store' k
  = (Repo.mediaItemsOf store k
     ++ filter (fun i => Nat.eqb (MediaItem.library i) k) added)%list.
Proof. unfold Repo.mediaItemsOf; intros ->; apply filter_app. Qed.

(** X2. A scan only appends to the Items.  What it adds gets the
    next ids in order, belongs to the scanned library, has a file name
    with a supported extension and a filepath that no Item had before. *)
Theorem scanLibrary_adds_new_supported_files
  (cwd : string) (libraryId : nat) (w : World) :
  let db' := db (snd (scanLibrary cwd libraryId w)) in
  exists added,
    Repo.items db' = (Repo.items (db w) ++ added)%list
    /\ map MediaItem.id added
       = seq (Repo.nextItemId (db w)) (List.length added)
    /\ Repo.nextItemId db' = Repo.nextItemId (db w) + List.length added
    /\ Forall (fun i =>
                 MediaItem.library i = libraryId
                 /\ isSupported (MediaItem.filename i) = true
                 /\ isIndexed (db w) (MediaItem.filepath i) = false)
         added.
Proof.
  intros db'; subst db'.
  destruct (scanLibrary_added cwd libraryId w)
    as (added & H1 & _ & _ & H2 & H3 & H4).
  exists added; auto.
Qed.

(** X3. After a scan [getAllLibraries] lists the same libraries,
    the Items of every other library are as they were, and those of the
    scanned library are only extended. *)
Theorem scanLibrary_leaves_other_libraries
  (cwd : string) (libraryId : nat) (w : World) :
  let w' := snd (scanLibrary cwd libraryId w) in
  map fst (getAllLibraries w') = map fst (getAllLibraries w)
  /\ (forall other,
        other <> libraryId ->
        Repo.mediaItemsOf (db w') other = Repo.mediaItemsOf (db w) other)
  /\ exists added,
       Repo.mediaItemsOf (db w') libraryId
       = (Repo.mediaItemsOf (db w) libraryId ++ added)%list.
Proof.
  intros w'; subst w'.
  destruct (scanLibrary_added cwd libraryId w)
    as (added & H1 & H2 & _ & _ & _ & H4).
  split; [|split].
  - unfold getAllLibraries; rewrite !map_map; simpl; rewrite H2; reflexivity.
  - intros other Hne.
    rewrite (mediaItemsOf_app _ _ _ other H1), filter_none, app_nil_r;
      [reflexivity|].
    eapply Forall_impl; [|exact H4].
    intros i (Hi & _); simpl; rewrite Hi.
    apply Nat.eqb_neq; congruence.
  - exists added.
    rewrite (mediaItemsOf_app _ _ _ libraryId H1), filter_all; [reflexivity|].
    eapply Forall_impl; [|exact H4].
    intros i (Hi & _); simpl; rewrite Hi; apply Nat.eqb_refl.
Qed.

Lemma scanLibrary_keeps_disk cwd libraryId w :
  disk (snd (scanLibrary cwd libraryId w)) = disk w.
Proof.
  destruct (Repo.findLibraryById (db w) libraryId) as [library|] eqn:Hlib.
  - apply (scanLibrary_found cwd libraryId w library Hlib).
  - unfold scanLibrary; rewrite Hlib; reflexivity.
Qed.

(** X4. A scan run again right after a scan ends as the first one
    did and changes neither the database nor the disk, whatever the
    first one found. *)
Theorem scanLibrary_twice_is_once
  (cwd : string) (libraryId : nat) (w : World) :
  let w1 := snd (scanLibrary cwd libraryId w) in
  let w2 := snd (scanLibrary cwd libraryId w1) in
  fst (scanLibrary cwd libraryId w1) = fst (scanLibrary cwd libraryId w)
  /\ db w2 = db w1
  /\ disk w2 = disk w1.
Proof.
  intros w1 w2; subst w1 w2; split; [|split].
  - rewrite !outcome_of_scanLibrary.
    destruct (scanLibrary_added cwd libraryId w) as (_ & _ & H & _).
    unfold Repo.findLibraryById; rewrite H; reflexivity.
  - apply rescan_adds_nothing.
  - apply scanLibrary_keeps_disk.
Qed.

Lemma walkFailures_are_warnings (n : FS.node) :
  forall dir, Forall (fun e => isWarning e = true) (walkFailures dir n).
Proof.
  induction n as [d| |r w entries IH] using node_entries_ind; intros dir.
  - repeat constructor.
  - repeat constructor.
  - destruct r; [|repeat constructor].
    simpl.
    induction IH as [|[file entry] rest Hentry _ IHrest]; [constructor|].
    simpl in Hentry.
    destruct entry as [data|r' w' sub|].
    + exact IHrest.
    + apply Forall_app; split; [apply Hentry|exact IHrest].
    + constructor; [reflexivity|exact IHrest].
Qed.

(** X5. The log of the scan of a known library is the old log,
    then warnings, then one summary that counts the Items saved.  The
    warnings are exactly the directories that could not be read, the
    entries that could not be stat-ed, and the probes that threw for new
    files. *)
Theorem scanLibrary_logs_failures_then_summary
  (cwd : string) (libraryId : nat) (w : World) (library : MediaLibrary.t) :
  Repo.findLibraryById (db w) libraryId = Some library ->
  let files := libraryFiles cwd (disk w) library in
  let batch := newItems (db w) library files in
  exists ws,
    logs (snd (scanLibrary cwd libraryId w))
    = (logs w ++ ws
       ++ [match batch with
           | [] => LogNoNewItemsFound (MediaLibrary.name library)
           | _ => LogFoundAndSaved (List.length batch)
                    (MediaLibrary.name library)
           end])%list
    /\ Forall (fun e => isWarning e = true) ws
    /\ forall e,
         In e ws
         <-> In e (libraryFailures cwd (disk w) library)
             \/ In e (probeFailures (db w) files).
Proof.
  intros Hlib files batch.
  destruct (scanLibrary_log cwd libraryId w library Hlib) as (ws & Hl & Hw).
  exists ws; split; [exact Hl|]; split; [|exact Hw].
  apply Forall_forall; intros e He; apply Hw in He.
  destruct He as [He|He].
  - unfold libraryFailures in He.
    destruct (FS.lookup cwd (disk w) (MediaLibrary.path library)) as [n|].
    + pose proof (walkFailures_are_warnings n (MediaLibrary.path library))
        as HF.
      rewrite Forall_forall in HF; exact (HF e He).
    + destruct He as [<-|[]]; reflexivity.
  - unfold probeFailures in He; apply in_map_iff in He.
    destruct He as (f & <- & _); reflexivity.
Qed.

Lemma scanLibrary_logs_failures_then_summary_witness :
  exists ws,
    logs (snd (scanLibrary Example.cwd 1 Example.world))
    = ([] ++ ws ++ [LogFoundAndSaved 2 "Movies"])%list
    /\ Forall (fun e => isWarning e = true) ws
    /\ forall e,
         In e ws
         <-> In e (libraryFailures Example.cwd Example.tree Example.movies)
             \/ In e (probeFailures Example.store
                        (libraryFiles Example.cwd Example.tree
                           Example.movies)).
Proof.
  exact (scanLibrary_logs_failures_then_summary
           Example.cwd 1 Example.world Example.movies eq_refl).
Defined.

Lemma example_media_wellFormed :
  forall n,
  FS.lookup Example.cwd Example.tree "/srv/media" = Some n -> wellFormed n.
Proof.
  intros n H; vm_compute in H; injection H as <-.
  simpl; repeat split; repeat constructor; simpl; intuition discriminate.
Qed.

Lemma scanLibrary_keeps_filepaths_distinct_witness :
  NoDup (filepaths (Repo.items (db (snd (scanLibrary Example.cwd 1
                                           Example.world))))).
Proof.
  apply (scanLibrary_keeps_filepaths_distinct Example.cwd 1 Example.world
           Example.movies).
  - reflexivity.
  - reflexivity.
  - exact example_media_wellFormed.
  - constructor.
Defined.

(* ================================================================== *)
(** * What an ingestion adds *)
(* ================================================================== *)

Lemma ingestFile_adds cwd this store library file s :
  let s' := ingestFile cwd this store library file s in
  exists new,
    ingestItems s' = (ingestItems s ++ new)%list
    /\ List.length new <= 1
    /\ Forall (fun i =>
                 MediaItem.library i = MediaLibrary.id library
                 /\ MediaItem.filename i = Path.basename (Upload.name file)
                 /\ MediaItem.size i = Upload.size file)
         new
    /\ exists es, ingestLogs s' = (ingestLogs s ++ es)%list.
Proof.
  intros s'; subst s'; unfold ingestFile.
  destruct (Repo.findItemByFilepath store _).
  { exists []; rewrite app_nil_r; repeat split; auto.
    exists []; rewrite app_nil_r; reflexivity. }
  destruct (uploadTarget cwd (ingestDisk s) _) as [[target|] msgs].
  - destruct (FS.writeFile cwd (ingestDisk s) target (Upload.buffer file))
      as [disk'|].
    + destruct (probeDuration _) as [d threw]; simpl.
      eexists; split; [reflexivity|]; split; [simpl; lia|].
      split; [repeat constructor|]; eauto.
    + exists []; simpl; rewrite app_nil_r; repeat split; auto; eauto.
  - exists []; simpl; rewrite app_nil_r; repeat split; auto; eauto.
Qed.

Lemma ingestFiles_adds cwd this store library files :
  forall s,
  let s' := ingestFiles cwd this store library files s in
  exists added,
    ingestItems s' = (ingestItems s ++ added)%list
    /\ List.length added <= List.length files
    /\ Forall (fun i =>
                 MediaItem.library i = MediaLibrary.id library
                 /\ exists file,
                      In file files
                      /\ MediaItem.filename i
                         = Path.basename (Upload.name file)
                      /\ MediaItem.size i = Upload.size file)
         added
    /\ exists es, ingestLogs s' = (ingestLogs s ++ es)%list.
Proof.
  induction files as [|file rest IH]; intros s; cbv zeta.
  - exists []; simpl; rewrite app_nil_r; repeat split; auto.
    exists []; rewrite app_nil_r; reflexivity.
  - change (ingestFiles cwd this store library (file :: rest) s)
      with (ingestFiles cwd this store library rest
              (ingestFile cwd this store library file s)).
    destruct (ingestFile_adds cwd this store library file s)
      as (new & H1 & H2 & H3 & es1 & H4).
    destruct (IH (ingestFile cwd this store library file s))
      as (added & G1 & G2 & G3 & es2 & G4).
    exists (new ++ added)%list.
    rewrite G1, H1, <- app_assoc; split; [reflexivity|].
    split; [rewrite length_app; simpl; lia|].
    split.
    + apply Forall_app; split.
      * eapply Forall_impl; [|exact H3].
        intros i (Hi & Hn & Hz); split; [exact Hi|].
        exists file; simpl; auto.
      * eapply Forall_impl; [|exact G3].
        intros i (Hi & f & Hf & Hn & Hz); split; [exact Hi|].
        exists f; simpl; auto.
    + exists (es1 ++ es2)%list; rewrite G4, H4, <- app_assoc; reflexivity.
Qed.

Lemma processUploadedFiles_added cwd this files libraryId w :
  let db' := db (snd (processUploadedFiles cwd this files libraryId w)) in
  exists added,
    Repo.items db' = (Repo.items (db w) ++ added)%list
    /\ Repo.libraries db' = Repo.libraries (db w)
    /\ Repo.nextLibraryId db' = Repo.nextLibraryId (db w)
    /\ map MediaItem.id added
       = seq (Repo.nextItemId (db w)) (List.length added)
    /\ Repo.nextItemId db' = Repo.nextItemId (db w) + List.length added
    /\ List.length added <= List.length files
    /\ Forall (fun i =>
                 MediaItem.library i = libraryId
                 /\ exists file,
                      In file files
                      /\ MediaItem.filename i
                         = Path.basename (Upload.name file)
                      /\ MediaItem.size i = Upload.size file)
         added.
Proof.
  intros db'; subst db'; unfold processUploadedFiles.
  destruct (Repo.findLibraryById (db w) libraryId) as [library|] eqn:Hlib.
  - destruct (ingestFiles_adds cwd this (db w) library files
                {| ingestDisk := disk w; ingestItems := [];
                   ingestLogs := [] |})
      as (added & H1 & H2 & H3 & _).
    simpl in H1; cbv zeta; rewrite H1.
    rewrite (proj2 (findLibraryById_id _ _ _ Hlib)) in H3.
    destruct added as [|i batch].
    + exists []; simpl; rewrite app_nil_r, Nat.add_0_r.
      repeat split; auto; lia.
    + exists (Repo.assignIds (Repo.nextItemId (db w)) (i :: batch)).
      rewrite assignIds_ids, assignIds_length.
      split; [reflexivity|]; split; [reflexivity|]; split; [reflexivity|].
      split; [reflexivity|]; split; [reflexivity|]; split; [exact H2|].
      apply assignIds_Forall; [|exact H3].
      intros j k Hj; exact Hj.
  - exists []; simpl; rewrite app_nil_r, Nat.add_0_r.
    repeat split; auto; lia.
Qed.

Lemma ingestFiles_all_indexed cwd this store library files s :
  Forall (fun file =>
            isIndexed store (uploadPath cwd this (Upload.filename file))
            = true) files ->
  ingestFiles cwd this store library files s = s.
Proof.
  induction 1 as [|file rest Hf _ IH]; [reflexivity|].
  change (ingestFiles cwd this store library (file :: rest) s)
    with (ingestFiles cwd this store library rest
            (ingestFile cwd this store library file s)).
  unfold ingestFile at 1.
  unfold isIndexed in Hf.
  destruct (Repo.findItemByFilepath store _); [exact IH|discriminate].
Qed.

(* ================================================================== *)
(** * One file of an upload, and the call as a whole *)
(* ================================================================== *)

(** The world that [processUploadedFiles] leaves for a known library,
    by the state of its loop at the end. *)
Lemma processUploadedFiles_world cwd this files libraryId w library :
  Repo.findLibraryById (db w) libraryId = Some library ->
  let s := ingestFiles cwd this (db w) library files (startOfUpload w) in
  let w' := snd (processUploadedFiles cwd this files libraryId w) in
  disk w' = ingestDisk s
  /\ Repo.items (db w')
     = (Repo.items (db w)
        ++ Repo.assignIds (Repo.nextItemId (db w)) (ingestItems s))%list
  /\ exists summary, logs w' = (logs w ++ ingestLogs s ++ [summary])%list.
Proof.
  intros Hlib s w'; subst s w'; unfold processUploadedFiles; rewrite Hlib.
  fold (startOfUpload w); cbv zeta.
  destruct (ingestItems _) as [|i batch] eqn:E; simpl.
  - rewrite app_nil_r; split; [reflexivity|]; split; [reflexivity|].
    eexists; rewrite <- app_assoc; reflexivity.
  - split; [reflexivity|]; split; [reflexivity|].
    eexists; rewrite <- app_assoc; reflexivity.
Qed.

(** What the loop has logged and put in the batch after one file is
    still there at the end of the call, and the loop goes through the
    files after it. *)
Lemma upload_goes_on cwd this before file after libraryId w library :
  Repo.findLibraryById (db w) libraryId = Some library ->
  let s1 :=
    ingestFile cwd this (db w) library file
      (ingestFiles cwd this (db w) library before (startOfUpload w)) in
  let w' :=
    snd (processUploadedFiles cwd this (before ++ file :: after) libraryId w)
  in
  disk w' = ingestDisk (ingestFiles cwd this (db w) library after s1)
  /\ Repo.items (db w')
     = (Repo.items (db w)
        ++ Repo.assignIds (Repo.nextItemId (db w))
             (ingestItems (ingestFiles cwd this (db w) library after s1)))%list
  /\ (forall e, In e (ingestLogs s1) -> In e (logs w'))
  /\ (forall item,
        In item (ingestItems s1) ->
        exists id, In (Repo.withId item id) (Repo.items (db w'))).
Proof.
  intros Hlib s1 w'.
  destruct (processUploadedFiles_world cwd this (before ++ file :: after)
              libraryId w library Hlib) as (Hd & Hi & summary & Hl).
  fold w' in Hd, Hi, Hl.
  assert (E : ingestFiles cwd this (db w) library (before ++ file :: after)
                (startOfUpload w)
              = ingestFiles cwd this (db w) library after s1)
    by (rewrite ingestFiles_app; reflexivity).
  rewrite E in Hd, Hi, Hl.
  destruct (ingestFiles_adds cwd this (db w) library after s1)
    as (added & Ha & _ & _ & es & He).
  split; [exact Hd|]; split; [exact Hi|]; split.
  - intros e Hin; rewrite Hl, He.
    apply in_or_app; right; apply in_or_app; left.
    apply in_or_app; left; exact Hin.
  - intros item Hin; rewrite Hi, Ha.
    assert (Hin' : In item (ingestItems s1 ++ added)%list)
      by (apply in_or_app; left; exact Hin).
    destruct (assignIds_in (Repo.nextItemId (db w)) _ _ Hin') as [k Hk].
    exists k; apply in_or_app; right; exact Hk.
Qed.

(** C7, as the code has it.  A scan or an ingestion throws only for an
    unknown library id, and then [NotFoundException].  Whatever fails
    below that is recovered: the scan gives an Item to every new
    supported file that the walk reaches, and logs every directory it
    cannot read (the library's own top-level directory among them),
    every entry it cannot stat and every probe that throws.  An
    uploaded file with no directory to go to, or whose write fails,
    only adds a warning to the log of the call; one whose probe throws
    adds a warning and still gets its Item, without a duration; and in
    each case the loop goes on with the files after it, from which the
    world at the end of the call results. *)
Theorem failures_recovered_locally :
  (forall cwd libraryId w,
     fst (scanLibrary cwd libraryId w)
     = match Repo.findLibraryById (db w) libraryId with
       | Some _ => Return tt
       | None => Throw NotFoundException
       end)
  /\ (forall cwd libraryId w library,
        Repo.findLibraryById (db w) libraryId = Some library ->
        let w' := snd (scanLibrary cwd libraryId w) in
        let files := libraryFiles cwd (disk w) library in
        Repo.items (db w')
        = (Repo.items (db w)
           ++ Repo.assignIds (Repo.nextItemId (db w))
                (newItems (db w) library files))%list
        /\ forall e,
             In e (libraryFailures cwd (disk w) library)
             \/ In e (probeFailures (db w) files) ->
             In e (logs w'))
  /\ (forall cwd this files libraryId w,
        fst (processUploadedFiles cwd this files libraryId w)
        = match Repo.findLibraryById (db w) libraryId with
          | Some _ => Return tt
          | None => Throw NotFoundException
          end)
  /\ (forall cwd this store library file s,
        let absoluteFilePath := uploadPath cwd this (Upload.filename file) in
        let s' := ingestFile cwd this store library file s in
        Repo.findItemByFilepath store absoluteFilePath = None ->
        (fst (uploadTarget cwd (ingestDisk s) absoluteFilePath) = None ->
         s' = ingestLog [WarnNoValidDirectory absoluteFilePath] s)
        /\ (forall target,
              fst (uploadTarget cwd (ingestDisk s) absoluteFilePath)
              = Some target ->
              FS.writeFile cwd (ingestDisk s) target (Upload.buffer file)
              = None ->
              ingestDisk s' = ingestDisk s
              /\ ingestItems s' = ingestItems s
              /\ In (WarnFailedToSaveFile target) (ingestLogs s')))
  /\ (forall cwd this store library before file after s,
        ingestFiles cwd this store library (before ++ file :: after) s
        = ingestFiles cwd this store library after
            (ingestFile cwd this store library file
               (ingestFiles cwd this store library before s)))
  /\ (forall cwd this before file after libraryId w library,
        Repo.findLibraryById (db w) libraryId = Some library ->
        let s :=
          ingestFiles cwd this (db w) library before (startOfUpload w) in
        let s1 := ingestFile cwd this (db w) library file s in
        let absoluteFilePath := uploadPath cwd this (Upload.filename file) in
        let w' :=
          snd (processUploadedFiles cwd this (before ++ file :: after)
                 libraryId w) in
        Repo.findItemByFilepath (db w) absoluteFilePath = None ->
        (disk w' = ingestDisk (ingestFiles cwd this (db w) library after s1)
         /\ Repo.items (db w')
            = (Repo.items (db w)
               ++ Repo.assignIds (Repo.nextItemId (db w))
                    (ingestItems
                       (ingestFiles cwd this (db w) library after s1)))%list)
        /\ (fst (uploadTarget cwd (ingestDisk s) absoluteFilePath) = None ->
            In (WarnNoValidDirectory absoluteFilePath) (logs w'))
        /\ (forall target,
              fst (uploadTarget cwd (ingestDisk s) absoluteFilePath)
              = Some target ->
              (FS.writeFile cwd (ingestDisk s) target (Upload.buffer file)
               = None ->
               In (WarnFailedToSaveFile target) (logs w'))
              /\ (forall disk',
                    FS.writeFile cwd (ingestDisk s) target
                      (Upload.buffer file) = Some disk' ->
                    FS.ffprobe cwd disk' target = None ->
                    In (WarnFfprobeFailed target) (logs w')
                    /\ exists id,
                         In {| MediaItem.id := id;
                               MediaItem.filename :=
                                 Path.basename (Upload.name file);
                               MediaItem.filepath := target;
                               MediaItem.size := Upload.size file;
                               MediaItem.duration := None;
                               MediaItem.library := MediaLibrary.id library |}
                           (Repo.items (db w'))))).
Proof.
  split; [exact outcome_of_scanLibrary|].
  split; [|split; [exact outcome_of_processUploadedFiles|split; [|split]]].
  - intros cwd libraryId w library Hlib w' files; split.
    + destruct (scanLibrary_found cwd libraryId w library Hlib)
        as (_ & _ & Hdb).
      subst w'; rewrite Hdb; fold files.
      destruct (newItems (db w) library files);
        [simpl; rewrite app_nil_r|]; reflexivity.
    + intros e He; eapply scanLibrary_logs; eauto.
  - intros cwd this store library file s absoluteFilePath s' Hnew.
    subst s'; unfold ingestFile; fold absoluteFilePath; rewrite Hnew.
    split.
    + unfold uploadTarget.
      destruct (negb (FS.existsSync cwd (ingestDisk s)
                        (Path.dirname absoluteFilePath)));
        [|discriminate].
      destruct (findExistingDir cwd (ingestDisk s)
                  (Path.dirname absoluteFilePath)); [discriminate|].
      reflexivity.
    + intros target Ht Hw.
      destruct (uploadTarget cwd (ingestDisk s) absoluteFilePath)
        as [t msgs].
      simpl in Ht; subst t; rewrite Hw; simpl.
      repeat split.
      repeat (apply in_or_app; right); left; reflexivity.
  - intros cwd this store library before file after s.
    rewrite ingestFiles_app; reflexivity.
  - intros cwd this before file after libraryId w library Hlib
      s s1 absoluteFilePath w' Hnew.
    destruct (upload_goes_on cwd this before file after libraryId w library
                Hlib) as (Hd & Hi & Hlogs & Hitems).
    fold s s1 w' in Hd, Hi, Hlogs, Hitems.
    split; [split; [exact Hd|exact Hi]|].
    assert (E : s1 = match uploadTarget cwd (ingestDisk s) absoluteFilePath
                     with
                     | (None, msgs) => ingestLog msgs s
                     | (Some target, msgs) =>
                         match FS.writeFile cwd (ingestDisk s) target
                                 (Upload.buffer file) with
                         | None =>
                             ingestLog
                               (msgs ++ [WarnFailedToSaveFile target])%list s
                         | Some disk' =>
                             let '(duration, threw) :=
                               probeDuration (FS.ffprobe cwd disk' target) in
                             {| ingestDisk := disk';
                                ingestItems :=
                                  (ingestItems s
                                   ++ [{| MediaItem.id := 0;
                                          MediaItem.filename :=
                                            Path.basename (Upload.name file);
                                          MediaItem.filepath := target;
                                          MediaItem.size := Upload.size file;
                                          MediaItem.duration := duration;
                                          MediaItem.library :=
                                            MediaLibrary.id library |}])%list;
                                ingestLogs :=
                                  (ingestLogs s ++ msgs
                                   ++ [LogSavedFile target]
                                   ++ (if threw
                                       then [WarnFfprobeFailed target]
                                       else []))%list |}
                         end
                     end).
    { unfold s1, ingestFile; fold absoluteFilePath; rewrite Hnew.
      reflexivity. }
    split.
    + intros Ht; apply Hlogs; rewrite E.
      unfold uploadTarget in *.
      destruct (negb (FS.existsSync cwd (ingestDisk s)
                        (Path.dirname absoluteFilePath)));
        [|discriminate].
      destruct (findExistingDir cwd (ingestDisk s)
                  (Path.dirname absoluteFilePath)); [discriminate|].
      simpl; apply in_or_app; right; left; reflexivity.
    + intros target Ht.
      destruct (uploadTarget cwd (ingestDisk s) absoluteFilePath)
        as [t msgs].
      simpl in Ht; subst t.
      split.
      * intros Hw; apply Hlogs; rewrite E, Hw; simpl.
        repeat (apply in_or_app; right); left; reflexivity.
      * intros disk' Hw Hp.
        rewrite Hw, Hp in E; simpl in E.
        split.
        -- apply Hlogs; rewrite E; simpl.
           repeat (apply in_or_app; right).
           right; left; reflexivity.
        -- apply (Hitems
                    {| MediaItem.id := 0;
                       MediaItem.filename := Path.basename (Upload.name file);
                       MediaItem.filepath := target;
                       MediaItem.size := Upload.size file;
                       MediaItem.duration := None;
                       MediaItem.library := MediaLibrary.id library |}).
           rewrite E; simpl; apply in_or_app; right; left; reflexivity.
Qed.

Lemma failures_recovered_locally_witness :
  In (WarnCannotReadDirectory "/srv/media/locked")
    (logs (snd (scanLibrary Example.cwd 1 Example.world)))
  /\ In (WarnCannotReadDirectory "/srv/media/locked")
       (logs (snd (scanLibrary Example.cwd 2 Example.world)))
  /\ In (WarnFailedToSaveFile "/srv/media/readonly/x.mp4")
       (ingestLogs
          (ingestFile Example.cwd Example.service Example.store
             Example.movies (Example.upload "readonly/x.mp4")
             {| ingestDisk := Example.tree;
                ingestItems := [];
                ingestLogs := [] |}))
  /\ In (WarnFailedToSaveFile "/srv/media/readonly/x.mp4")
       (logs (snd (processUploadedFiles Example.cwd Example.service
                     [Example.upload "readonly/x.mp4";
                      Example.upload "sub/new.mp4"] 1 Example.world)))
  /\ (In (WarnFfprobeFailed "/srv/media/sub/new.mp4")
        (logs (snd (processUploadedFiles Example.cwd Example.service
                      [Example.upload "readonly/x.mp4";
                       Example.upload "sub/new.mp4"] 1 Example.world)))
      /\ exists id,
           In {| MediaItem.id := id;
                 MediaItem.filename := "new.mp4";
                 MediaItem.filepath := "/srv/media/sub/new.mp4";
                 MediaItem.size := 5;
                 MediaItem.duration := None;
                 MediaItem.library := 1 |}
             (Repo.items
                (db (snd (processUploadedFiles Example.cwd Example.service
                            [Example.upload "readonly/x.mp4";
                             Example.upload "sub/new.mp4"] 1
                            Example.world)))))
  /\ In (WarnNoValidDirectory "/srv/media/x.mp4")
       (logs (snd (processUploadedFiles Example.cwd Example.service
                     [Example.upload "x.mp4"] 1 Sample.diskless))).
Proof.
  destruct failures_recovered_locally
    as (_ & Hscan & _ & Hingest & _ & Hupload).
  split; [|split; [|split; [|split; [|split]]]].
  - apply (Hscan Example.cwd 1 Example.world Example.movies eq_refl).
    left; vm_compute; auto.
  - apply (Hscan Example.cwd 2 Example.world Example.locked eq_refl).
    left; vm_compute; auto.
  - apply (Hingest Example.cwd Example.service Example.store Example.movies
             (Example.upload "readonly/x.mp4")
             {| ingestDisk := Example.tree;
                ingestItems := [];
                ingestLogs := [] |} eq_refl);
      reflexivity.
  - pose proof (Hupload Example.cwd Example.service []
                  (Example.upload "readonly/x.mp4")
                  [Example.upload "sub/new.mp4"] 1 Example.world
                  Example.movies eq_refl eq_refl) as H.
    cbv zeta in H; destruct H as (_ & _ & H).
    refine (proj1 (H "/srv/media/readonly/x.mp4" _) _);
      vm_compute; reflexivity.
  - pose proof (Hupload Example.cwd Example.service
                  [Example.upload "readonly/x.mp4"]
                  (Example.upload "sub/new.mp4") [] 1 Example.world
                  Example.movies eq_refl eq_refl) as H.
    cbv zeta in H; destruct H as (_ & _ & H).
    refine (proj2 (H "/srv/media/sub/new.mp4" _)
              (match FS.writeFile Example.cwd Example.tree
                       "/srv/media/sub/new.mp4"
                       (Upload.buffer (Example.upload "sub/new.mp4")) with
               | Some d => d
               | None => Example.tree
               end) _ _);
      vm_compute; reflexivity.
  - pose proof (Hupload Example.cwd Example.service []
                  (Example.upload "x.mp4") [] 1 Sample.diskless
                  Example.movies eq_refl eq_refl) as H.
    cbv zeta in H; destruct H as (_ & H & _).
    apply H; vm_compute; reflexivity.
Defined.

(** C7 as stated fails: scanning a library whose top-level directory
    cannot be read does not throw; and a file whose probe throws is not
    skipped, it gets its Item. *)
Lemma unreadable_root_is_not_surfaced :
  FS.isExistingDir Example.cwd (disk Example.world)
    (MediaLibrary.path Example.locked) = true
  /\ FS.readdirTypes Example.cwd (disk Example.world)
       (MediaLibrary.path Example.locked) = None
  /\ Repo.findLibraryById (db Example.world) 2 = Some Example.locked
  /\ ~ (exists e, fst (scanLibrary Example.cwd 2 Example.world) = Throw e)
  /\ FS.ffprobe Example.cwd (disk Example.world) "/srv/media/sub/b.MKV"
     = None
  /\ In (WarnFfprobeFailed "/srv/media/sub/b.MKV")
       (logs (snd (scanLibrary Example.cwd 1 Example.world)))
  /\ In "/srv/media/sub/b.MKV"
       (filepaths
          (Repo.items (db (snd (scanLibrary Example.cwd 1 Example.world))))).
Proof.
  split; [reflexivity|]; split; [reflexivity|]; split; [reflexivity|].
  split; [intros [e H]; vm_compute in H; discriminate|].
  split; [reflexivity|].
  split; vm_compute; auto.
Qed.

(* ================================================================== *)
(** * Absolute filenames *)
(* ================================================================== *)

(** C9, as the code has it.  An absolute filename is left as it is by
    the stripping of leading [..] segments, and the upload is resolved
    to that absolute path itself ([path.resolve] of it alone), whatever
    the base directory.  When no Item has this path, the file is written
    there if the directory of the path exists, and else under its base
    name in the nearest directory above that exists; when the write
    succeeds, the path written to is the [filepath] of the Item that
    the call saves.  It need not lie inside the base directory. *)
Theorem absolute_filename_bypasses_base
  (cwd : string) (this : MediaService) (before : list Upload.t)
  (file : Upload.t) (after : list Upload.t) (libraryId : nat) (w : World)
  (library : MediaLibrary.t) :
  Path.isAbsolute (Upload.filename file) = true ->
  Repo.findLibraryById (db w) libraryId = Some library ->
  let f := Upload.filename file in
  let absoluteFilePath := Path.resolve cwd [f] in
  let s := ingestFiles cwd this (db w) library before (startOfUpload w) in
  let w' :=
    snd (processUploadedFiles cwd this (before ++ file :: after) libraryId w)
  in
  stripLeadingParents (Path.normalize f) = Path.normalize f
  /\ uploadPath cwd this f = absoluteFilePath
  /\ (Repo.findItemByFilepath (db w) absoluteFilePath = None ->
      forall target disk',
      (FS.existsSync cwd (ingestDisk s) (Path.dirname absoluteFilePath) = true
       /\ target = absoluteFilePath)
      \/ (FS.existsSync cwd (ingestDisk s) (Path.dirname absoluteFilePath)
          = false
          /\ exists fallbackDir,
               findExistingDir cwd (ingestDisk s)
                 (Path.dirname absoluteFilePath) = Some fallbackDir
               /\ target
                  = Path.join [fallbackDir; Path.basename absoluteFilePath]) ->
      FS.writeFile cwd (ingestDisk s) target (Upload.buffer file)
      = Some disk' ->
      ingestDisk (ingestFile cwd this (db w) library file s) = disk'
      /\ exists id,
           In {| MediaItem.id := id;
                 MediaItem.filename := Path.basename (Upload.name file);
                 MediaItem.filepath := target;
                 MediaItem.size := Upload.size file;
                 MediaItem.duration :=
                   fst (probeDuration (FS.ffprobe cwd disk' target));
                 MediaItem.library := MediaLibrary.id library |}
             (Repo.items (db w')))
  /\ insideBase (baseDir Example.service)
       (uploadPath cwd Example.service "/etc/passwd") = false.
Proof.
  intros Habs Hlib f absoluteFilePath s w'.
  destruct (uploadPath_absolute cwd this f Habs) as [Hs Hu].
  split; [exact Hs|]; split; [exact Hu|]; split; [|reflexivity].
  intros Hnew target disk' Htarget Hwrite.
  destruct (upload_goes_on cwd this before file after libraryId w library
              Hlib) as (_ & _ & _ & Hitems).
  fold s w' in Hitems.
  assert (Ht : uploadTarget cwd (ingestDisk s) absoluteFilePath
               = (Some target,
                  if FS.existsSync cwd (ingestDisk s)
                       (Path.dirname absoluteFilePath)
                  then []
                  else match findExistingDir cwd (ingestDisk s)
                               (Path.dirname absoluteFilePath) with
                       | Some d => [LogFallingBack d]
                       | None => []
                       end)).
  { unfold uploadTarget.
    destruct Htarget as [[He ->]|(He & d & Hd & ->)]; rewrite He; simpl.
    - reflexivity.
    - rewrite Hd; reflexivity. }
  assert (E : ingestFile cwd this (db w) library file s
              = let '(duration, threw) :=
                  probeDuration (FS.ffprobe cwd disk' target) in
                {| ingestDisk := disk';
                   ingestItems :=
                     (ingestItems s
                      ++ [{| MediaItem.id := 0;
                             MediaItem.filename :=
                               Path.basename (Upload.name file);
                             MediaItem.filepath := target;
                             MediaItem.size := Upload.size file;
                             MediaItem.duration := duration;
                             MediaItem.library := MediaLibrary.id library |}])%list;
                   ingestLogs :=
                     (ingestLogs s
                      ++ snd (uploadTarget cwd (ingestDisk s)
                                absoluteFilePath)
                      ++ [LogSavedFile target]
                      ++ (if threw then [WarnFfprobeFailed target]
                          else []))%list |}).
  { unfold ingestFile; cbv zeta; fold f; rewrite Hu; fold absoluteFilePath.
    rewrite Hnew, Ht, Hwrite; reflexivity. }
  rewrite E in *.
  destruct (probeDuration (FS.ffprobe cwd disk' target)) as [d threw].
  split; [reflexivity|].
  apply (Hitems
           {| MediaItem.id := 0;
              MediaItem.filename := Path.basename (Upload.name file);
              MediaItem.filepath := target;
              MediaItem.size := Upload.size file;
              MediaItem.duration := d;
              MediaItem.library := MediaLibrary.id library |}).
  simpl; apply in_or_app; right; left; reflexivity.
Qed.

Lemma absolute_filename_bypasses_base_witness :
  uploadPath Example.cwd Example.service "/etc/passwd" = "/etc/passwd"
  /\ (exists id,
        In {| MediaItem.id := id;
              MediaItem.filename := "passwd";
              MediaItem.filepath := "/etc/passwd";
              MediaItem.size := 5;
              MediaItem.duration := None;
              MediaItem.library := 1 |}
          (Repo.items
             (db (snd (processUploadedFiles Example.cwd Example.service
                         [Example.upload "/etc/passwd"] 1 Example.world)))))
  /\ exists id,
       In {| MediaItem.id := id;
             MediaItem.filename := "x.mp4";
             MediaItem.filepath := "/x.mp4";
             MediaItem.size := 5;
             MediaItem.duration := None;
             MediaItem.library := 1 |}
         (Repo.items
            (db (snd (processUploadedFiles Example.cwd Example.service
                        [Example.upload "/nowhere/x.mp4"] 1
                        Example.world)))).
Proof.
  split; [|split].
  - destruct (absolute_filename_bypasses_base Example.cwd Example.service
                [] (Example.upload "/etc/passwd") [] 1 Example.world
                Example.movies eq_refl eq_refl) as (_ & Hu & _).
    exact Hu.
  - destruct (absolute_filename_bypasses_base Example.cwd Example.service
                [] (Example.upload "/etc/passwd") [] 1 Example.world
                Example.movies eq_refl eq_refl) as (_ & _ & H & _).
    destruct (H eq_refl "/etc/passwd"
                (match FS.writeFile Example.cwd Example.tree "/etc/passwd"
                         (Upload.buffer (Example.upload "/etc/passwd")) with
                 | Some d => d
                 | None => Example.tree
                 end)) as (_ & id & Hid).
    + left; split; reflexivity.
    + reflexivity.
    + exists id; exact Hid.
  - destruct (absolute_filename_bypasses_base Example.cwd Example.service
                [] (Example.upload "/nowhere/x.mp4") [] 1 Example.world
                Example.movies eq_refl eq_refl) as (_ & _ & H & _).
    destruct (H eq_refl "/x.mp4"
                (match FS.writeFile Example.cwd Example.tree "/x.mp4"
                         (Upload.buffer (Example.upload "/nowhere/x.mp4"))
                 with
                 | Some d => d
                 | None => Example.tree
                 end)) as (_ & id & Hid).
    + right; split; [reflexivity|].
      exists "/"; split; reflexivity.
    + reflexivity.
    + exists id; exact Hid.
Defined.

(** C9 as stated fails: when the directory of the absolute filename
    does not exist, the file is written and its Item stored under
    another path, the base name in the nearest existing directory
    above. *)
Lemma absolute_filename_falls_back :
  let file := Example.upload "/nowhere/x.mp4" in
  let w' :=
    snd (processUploadedFiles Example.cwd Example.service [file] 1
           Example.world) in
  Path.isAbsolute (Upload.filename file) = true
  /\ uploadPath Example.cwd Example.service (Upload.filename file)
     = "/nowhere/x.mp4"
  /\ filepaths (Repo.items (db w')) = ["/x.mp4"]
  /\ FS.lookup Example.cwd (disk w') "/x.mp4"
     = Some (FS.File (Upload.buffer file))
  /\ FS.lookup Example.cwd (disk w') "/nowhere/x.mp4" = None
  /\ ~ In "/nowhere/x.mp4" (filepaths (Repo.items (db w'))).
Proof.
  repeat split.
  vm_compute; intros [H|[]]; discriminate.
Qed.

(* ================================================================== *)
(** * Lookups and writes in the tree *)
(* ================================================================== *)

Lemma walk_any_stack (segs : list string) :
  Forall (fun s => isSegment s = true) segs ->
  forall stack stack' cur,
  FS.walk stack cur segs = FS.walk stack' cur segs.
Proof.
  induction 1 as [|s segs Hs _ IH]; intros stack stack' cur; [reflexivity|].
  destruct (isSegment_spec _ Hs) as (E1 & E2 & E3 & _).
  simpl.
  destruct cur as [d|r w entries|]; try reflexivity.
  rewrite E1, E2, E3; simpl.
  destruct (FS.child s entries) as [c|]; [apply IH|reflexivity].
Qed.

Lemma walk_cons (s : string) (segs : list string) stack r w entries :
  isSegment s = true ->
  FS.walk stack (FS.Dir r w entries) (s :: segs)
  = match FS.child s entries with
    | Some c => FS.walk (FS.Dir r w entries :: stack) c segs
    | None => None
    end.
Proof.
  intros Hs; destruct (isSegment_spec _ Hs) as (E1 & E2 & E3 & _).
  simpl; rewrite E1, E2, E3; reflexivity.
Qed.

Lemma child_setChild_same name c entries :
  FS.child name (FS.setChild name c entries) = Some c.
Proof.
  induction entries as [|[n c0] rest IH]; simpl.
  - rewrite String.eqb_refl; reflexivity.
  - destruct (String.eqb n name) eqn:E; simpl; rewrite E; auto.
Qed.

Lemma child_setChild_other name name' c entries :
  name' <> name ->
  FS.child name' (FS.setChild name c entries) = FS.child name' entries.
Proof.
  intros Hne; induction entries as [|[n c0] rest IH]; simpl.
  - destruct (String.eqb name name') eqn:E; [|reflexivity].
    apply String.eqb_eq in E; congruence.
  - destruct (String.eqb n name) eqn:E; simpl.
    + apply String.eqb_eq in E; subst n.
      destruct (String.eqb name name') eqn:E'; [|reflexivity].
      apply String.eqb_eq in E'; congruence.
    + rewrite IH; reflexivity.
Qed.

(** The two cases of [writeAt]. *)
Lemma writeAt_leaf leaf n data n' :
  FS.writeAt [leaf] n data = Some n' ->
  exists r w entries,
    n = FS.Dir r w entries
    /\ (forall r' w' es, FS.child leaf entries <> Some (FS.Dir r' w' es))
    /\ n' = FS.Dir r w (FS.setChild leaf (FS.File data) entries).
Proof.
  destruct n as [d|r w entries|]; simpl; try discriminate.
  destruct (FS.child leaf entries) as [[d|r' w' es|]|] eqn:E;
    try discriminate.
  - intros H; injection H as <-.
    exists r, w, entries; repeat split; congruence.
  - destruct w; [|discriminate].
    intros H; injection H as <-.
    exists r, true, entries; repeat split; congruence.
Qed.

(** Nothing is written at a link to nowhere, and a new entry needs a
    directory that takes it. *)
Lemma writeAt_leaf_entry leaf r w entries data n' :
  FS.writeAt [leaf] (FS.Dir r w entries) data = Some n' ->
  (exists d, FS.child leaf entries = Some (FS.File d))
  \/ (FS.child leaf entries = None /\ w = true).
Proof.
  simpl.
  destruct (FS.child leaf entries) as [[d|r' w' es|]|]; try discriminate.
  - eauto.
  - destruct w; [auto|discriminate].
Qed.

Lemma writeAt_deeper seg s rest n data n' :
  FS.writeAt (seg :: s :: rest) n data = Some n' ->
  exists r w entries c c',
    n = FS.Dir r w entries
    /\ FS.child seg entries = Some c
    /\ FS.writeAt (s :: rest) c data = Some c'
    /\ n' = FS.Dir r w (FS.setChild seg c' entries).
Proof.
  destruct n as [d|r w entries|]; [discriminate| |discriminate].
  intros H.
  - assert (H' : match FS.child seg entries with
                 | Some c =>
                     match FS.writeAt (s :: rest) c data with
                     | Some c' => Some (FS.Dir r w (FS.setChild seg c' entries))
                     | None => None
                     end
                 | None => None
                 end = Some n').
    { destruct w; exact H. }
    clear H.
    destruct (FS.child seg entries) as [c|] eqn:Hc; [|discriminate].
    destruct (FS.writeAt (s :: rest) c data) as [c'|] eqn:E; [|discriminate].
    injection H' as <-.
    exists r, w, entries, c, c'; auto.
Qed.

(** After a write the file is there. *)
Lemma writeAt_walk (segs : list string) :
  Forall (fun s => isSegment s = true) segs ->
  forall stack n data n',
  FS.writeAt segs n data = Some n' ->
  FS.walk stack n' segs = Some (FS.File data).
Proof.
  induction 1 as [|seg rest Hseg Hrest IH]; intros stack n data n' H.
  - destruct n; discriminate.
  - destruct rest as [|s rest].
    + apply writeAt_leaf in H; destruct H as (r & w & entries & -> & _ & ->).
      rewrite walk_cons by exact Hseg.
      rewrite child_setChild_same; reflexivity.
    + apply writeAt_deeper in H.
      destruct H as (r & w & entries & c & c' & -> & Hc & Hw & ->).
      rewrite walk_cons by exact Hseg.
      rewrite child_setChild_same.
      eapply IH; exact Hw.
Qed.

(** A write changes what lies at its own path and nowhere else, and a
    directory stays one. *)
Lemma writeAt_elsewhere (segs : list string) :
  forall ps,
  Forall (fun s => isSegment s = true) segs ->
  Forall (fun s => isSegment s = true) ps ->
  forall stack n data n' x,
  FS.writeAt segs n data = Some n' ->
  FS.walk stack n ps = Some x ->
  match x with
  | FS.Dir r w _ => exists es, FS.walk stack n' ps = Some (FS.Dir r w es)
  | FS.File d =>
      (ps = segs /\ FS.walk stack n' ps = Some (FS.File data))
      \/ (ps <> segs /\ FS.walk stack n' ps = Some (FS.File d))
  | FS.Dangling =>
      (ps = segs /\ FS.walk stack n' ps = Some (FS.File data))
      \/ (ps <> segs /\ FS.walk stack n' ps = Some FS.Dangling)
  end.
Proof.
  induction segs as [|seg rest IH]; intros ps Hsegs Hps stack n data n' x H Hx.
  - destruct n; discriminate.
  - inversion Hsegs as [|? ? Hseg Hrest]; subst.
    destruct ps as [|p ps'].
    + (* the node written into is a directory *)
      simpl in Hx; injection Hx as <-.
      destruct rest as [|s rest].
      * apply writeAt_leaf in H; destruct H as (r & w & entries & -> & _ & ->).
        simpl; eauto.
      * apply writeAt_deeper in H.
        destruct H as (r & w & entries & c & c' & -> & _ & _ & ->).
        simpl; eauto.
    + inversion Hps as [|? ? Hp Hps']; subst.
      assert (Hn : exists r w entries, n = FS.Dir r w entries).
      { destruct rest.
        - apply writeAt_leaf in H; destruct H as (r & w & es & -> & _); eauto.
        - apply writeAt_deeper in H.
          destruct H as (r & w & es & c & c' & -> & _); eauto. }
      destruct Hn as (r & w & entries & ->).
      rewrite walk_cons in Hx by exact Hp.
      destruct (FS.child p entries) as [c|] eqn:Hc; [|discriminate].
      destruct (string_dec p seg) as [->|Hne].
      * (* the same entry *)
        destruct rest as [|s rest].
        -- apply writeAt_leaf in H.
           destruct H as (r0 & w0 & es0 & E & Hnd & ->).
           injection E as <- <- <-.
           destruct ps' as [|p' ps''].
           ++ simpl in Hx; injection Hx as <-.
              rewrite walk_cons by exact Hp.
              rewrite child_setChild_same; simpl.
              destruct c as [d|r' w' es|]; auto.
              exfalso; exact (Hnd _ _ _ Hc).
           ++ exfalso.
              destruct c as [d|r' w' es|]; try discriminate.
              exact (Hnd _ _ _ Hc).
        -- apply writeAt_deeper in H.
           destruct H as (r0 & w0 & es0 & c0 & c' & E & Hc0 & Hw & ->).
           injection E as <- <- <-.
           rewrite Hc in Hc0; injection Hc0 as <-.
           rewrite walk_cons by exact Hp.
           rewrite child_setChild_same.
           pose proof (IH ps' Hrest Hps' (FS.Dir r w entries :: stack)
                         c data c' x Hw Hx) as G.
           rewrite (walk_any_stack ps' Hps'
                      (FS.Dir r w (FS.setChild seg c' entries) :: stack)
                      (FS.Dir r w entries :: stack)).
           destruct x as [d|r' w' es|]; [|exact G|].
           ++ destruct G as [[-> G]|[Hd G]]; [left|right]; split; auto.
              congruence.
           ++ destruct G as [[-> G]|[Hd G]]; [left|right]; split; auto.
              congruence.
      * (* another entry *)
        assert (Hn' : exists es',
                        n' = FS.Dir r w es' /\ FS.child p es' = Some c).
        { destruct rest as [|s rest].
          - apply writeAt_leaf in H.
            destruct H as (r0 & w0 & es0 & E & _ & ->).
            injection E as <- <- <-.
            eexists; split; [reflexivity|].
            rewrite child_setChild_other; auto.
          - apply writeAt_deeper in H.
            destruct H as (r0 & w0 & es0 & c0 & c' & E & _ & _ & ->).
            injection E as <- <- <-.
            eexists; split; [reflexivity|].
            rewrite child_setChild_other; auto. }
        destruct Hn' as (es' & -> & Hc').
        rewrite walk_cons by exact Hp.
        rewrite Hc'.
        rewrite (walk_any_stack ps' Hps' (FS.Dir r w es' :: stack)
                   (FS.Dir r w entries :: stack)).
        rewrite Hx.
        destruct x as [d|r' w' es|]; eauto;
          right; split; auto; congruence.
Qed.

Lemma resolve_form (cwd : string) (args : list string) :
  Path.isAbsolute cwd = true ->
  exists segs,
    Forall (fun s => isSegment s = true) segs
    /\ Path.resolve cwd args = String "/" (Str.join segs).
Proof.
  intros Hc; unfold Path.resolve.
  assert (Hne : Str.isEmpty cwd = false)
    by (destruct cwd; [discriminate|reflexivity]).
  destruct (Path.resolveArgs (rev args) "") as [rp abs].
  destruct abs.
  - exists (Path.normalizeSegments false [] (Str.split rp)); split;
      [|reflexivity].
    apply normalizeSegments_gives_segments; [apply split_noSlash|constructor].
  - rewrite Hne, Hc.
    exists (Path.normalizeSegments false [] (Str.split (cwd ++ "/" ++ rp)));
      split; [|reflexivity].
    apply normalizeSegments_gives_segments; [apply split_noSlash|constructor].
Qed.

Lemma writeFile_resolved (cwd : string) (root : FS.node) (segs : list string)
  (data : FileData) :
  Forall (fun s => isSegment s = true) segs ->
  FS.writeFile cwd root (String "/" (Str.join segs)) data
  = FS.writeAt segs root data.
Proof.
  intros Hsegs; unfold FS.writeFile.
  rewrite resolve_resolved, split_resolved by exact Hsegs; reflexivity.
Qed.

Lemma writeAt_gives_directory segs n data n' :
  FS.writeAt segs n data = Some n' ->
  (exists r w es, n = FS.Dir r w es) /\ exists r w es, n' = FS.Dir r w es.
Proof.
  destruct segs as [|seg [|s rest]]; intros H.
  - destruct n; discriminate.
  - apply writeAt_leaf in H; destruct H as (r & w & es & -> & _ & ->);
      eauto 10.
  - apply writeAt_deeper in H.
    destruct H as (r & w & es & c & c' & -> & _ & _ & ->); eauto 10.
Qed.

(** A file written at a resolved path is found there, with its bytes. *)
Lemma writeFile_lookup (cwd : string) (root root' : FS.node)
  (segs : list string) (data : FileData) :
  Forall (fun s => isSegment s = true) segs ->
  FS.writeFile cwd root (String "/" (Str.join segs)) data = Some root' ->
  FS.lookup cwd root' (String "/" (Str.join segs)) = Some (FS.File data).
Proof.
  intros Hsegs H; rewrite writeFile_resolved in H by exact Hsegs.
  rewrite lookup_resolved by exact Hsegs.
  destruct (writeAt_gives_directory _ _ _ _ H) as (_ & r & w & es & E).
  rewrite E; rewrite <- E.
  eapply writeAt_walk; eauto.
Qed.

(* ================================================================== *)
(** * The files and the Items of an ingestion *)
(* ================================================================== *)

Lemma isExistingDir_root cwd r w es :
  FS.isExistingDir cwd (FS.Dir r w es) "/" = true.
Proof. reflexivity. Qed.

Lemma writeFile_gives_directory cwd root p data root' :
  FS.writeFile cwd root p data = Some root' ->
  exists r w es, root = FS.Dir r w es.
Proof.
  unfold FS.writeFile; intros H.
  apply writeAt_gives_directory in H; apply H.
Qed.

(** One iteration of the loop of [processUploadedFiles], when the
    working directory is absolute: nothing but the log changes, or the
    bytes are written at a resolved path and the Item describes them. *)
Lemma ingestFile_wrote cwd this store library file s :
  Path.isAbsolute cwd = true ->
  let s' := ingestFile cwd this store library file s in
  (ingestItems s' = ingestItems s /\ ingestDisk s' = ingestDisk s)
  \/ exists segs item,
       Forall (fun x => isSegment x = true) segs
       /\ ingestItems s' = (ingestItems s ++ [item])%list
       /\ MediaItem.filepath item = String "/" (Str.join segs)
       /\ FS.writeAt segs (ingestDisk s) (Upload.buffer file)
          = Some (ingestDisk s')
       /\ MediaItem.duration item
          = fst (probeDuration (probe (Upload.buffer file)))
       /\ MediaItem.filename item = Path.basename (Upload.name file)
       /\ MediaItem.size item = Upload.size file
       /\ MediaItem.library item = MediaLibrary.id library.
Proof.
  intros Hcwd s'; subst s'; unfold ingestFile.
  destruct (Repo.findItemByFilepath store _); [auto|].
  unfold uploadPath.
  destruct (resolve_form cwd
              [baseDir this;
               stripLeadingParents (Path.normalize (Upload.filename file))]
              Hcwd) as (ps & Hps & ->).
  destruct (uploadTarget cwd (ingestDisk s) _) as [[target|] msgs] eqn:Ht;
    [|auto].
  destruct (FS.writeFile cwd (ingestDisk s) target (Upload.buffer file))
    as [disk'|] eqn:Hw; [|auto].
  destruct (writeFile_gives_directory _ _ _ _ _ Hw) as (r & w & es & Hroot).
  assert (Hseg : exists segs,
             Forall (fun x => isSegment x = true) segs
             /\ target = String "/" (Str.join segs)).
  { apply (uploadTarget_below_base cwd (ingestDisk s) [] ps target msgs);
      auto.
    rewrite Hroot; reflexivity. }
  destruct Hseg as (segs & Hsegs & ->).
  right.
  unfold FS.ffprobe; rewrite (writeFile_lookup _ _ _ _ _ Hsegs Hw).
  rewrite writeFile_resolved in Hw by exact Hsegs.
  destruct (probeDuration (probe (Upload.buffer file))) as [d threw] eqn:Ep.
  simpl.
  eexists segs, _; split; [exact Hsegs|]; split; [reflexivity|].
  simpl; auto 10.
Qed.

Lemma ingested_more cwd library files files' root item :
  (forall f, In f files -> In f files') ->
  ingested cwd library files root item ->
  ingested cwd library files' root item.
Proof.
  intros Hsub ((f & Hf & H1) & H2 & segs & f2 & Hf2 & H3).
  split; [exists f; auto|]; split; [exact H2|].
  exists segs, f2; auto.
Qed.

Lemma ingestFiles_ingested cwd this store library files :
  Path.isAbsolute cwd = true ->
  forall done s,
  Forall (ingested cwd library done (ingestDisk s)) (ingestItems s) ->
  let s' := ingestFiles cwd this store library files s in
  Forall (ingested cwd library (done ++ files) (ingestDisk s'))
    (ingestItems s').
Proof.
  intros Hcwd; induction files as [|file rest IH]; intros done s Hs; cbv zeta.
  - rewrite app_nil_r; exact Hs.
  - change (ingestFiles cwd this store library (file :: rest) s)
      with (ingestFiles cwd this store library rest
              (ingestFile cwd this store library file s)).
    replace (done ++ file :: rest)%list with ((done ++ [file]) ++ rest)%list
      by (rewrite <- app_assoc; reflexivity).
    apply IH.
    destruct (ingestFile_wrote cwd this store library file s Hcwd)
      as [[Hi Hd]|(segs & item & Hsegs & Hi & Hp & Hw & Hdur & Hn & Hz & Hl)].
    + rewrite Hi, Hd.
      eapply Forall_impl; [|exact Hs].
      intros i; apply ingested_more.
      intros f Hf; apply in_or_app; auto.
    + rewrite Hi; apply Forall_app; split.
      * eapply Forall_impl; [|exact Hs].
        intros i ((f & Hf & H1) & H2 & ps & f2 & Hf2 & Hps & Hip & Hwalk).
        split; [exists f; split; [apply in_or_app; auto|exact H1]|].
        split; [exact H2|].
        destruct (writeAt_gives_directory _ _ _ _ Hw)
          as ((r & w & es & E) & (r' & w' & es' & E')).
        rewrite Hip, lookup_resolved, E in Hwalk by exact Hps.
        rewrite <- E in Hwalk.
        pose proof (writeAt_elsewhere segs ps Hsegs Hps [] _ _ _ _ Hw Hwalk)
          as G; simpl in G.
        assert (Hl' : forall x,
                   FS.walk [] (ingestDisk
                                 (ingestFile cwd this store library file s))
                     ps = x ->
                   FS.lookup cwd
                     (ingestDisk (ingestFile cwd this store library file s))
                     (MediaItem.filepath i) = x).
        { intros x <-; rewrite Hip, lookup_resolved, E' by exact Hps.
          reflexivity. }
        destruct G as [[_ G]|[_ G]]; apply Hl' in G.
        -- exists ps, file; split; [apply in_or_app; simpl; auto|auto].
        -- exists ps, f2; split; [apply in_or_app; auto|auto].
      * constructor; [|constructor].
        split; [exists file; split; [apply in_or_app; simpl; auto|auto]|].
        split; [exact Hl|].
        exists segs, file; split; [apply in_or_app; simpl; auto|].
        split; [exact Hsegs|]; split; [exact Hp|].
        rewrite Hp; apply (writeFile_lookup cwd (ingestDisk s));
          [exact Hsegs|].
        rewrite writeFile_resolved by exact Hsegs; exact Hw.
Qed.

Lemma processUploadedFiles_disk_and_items cwd this files libraryId w library :
  Repo.findLibraryById (db w) libraryId = Some library ->
  let s :=
    ingestFiles cwd this (db w) library files
      {| ingestDisk := disk w; ingestItems := []; ingestLogs := [] |} in
  let w' := snd (processUploadedFiles cwd this files libraryId w) in
  disk w' = ingestDisk s
  /\ Repo.items (db w')
     = (Repo.items (db w)
        ++ Repo.assignIds (Repo.nextItemId (db w)) (ingestItems s))%list.
Proof.
  intros Hlib s w'; subst s w'; unfold processUploadedFiles; rewrite Hlib.
  cbv zeta.
  destruct (ingestItems _) as [|i batch] eqn:E; simpl.
  - rewrite app_nil_r; auto.
  - auto.
Qed.

(** X6. With an absolute working directory, every Item that an
    ingestion adds carries the base name of the [name] of one uploaded
    file, its declared [size] and the duration probed from its bytes;
    and at the filepath of the Item the disk then holds a regular file
    with the bytes of one of the uploaded files. *)
Theorem processUploadedFiles_items_describe_written_files
  (cwd : string) (this : MediaService) (files : list Upload.t)
  (libraryId : nat) (w : World) :
  Path.isAbsolute cwd = true ->
  let w' := snd (processUploadedFiles cwd this files libraryId w) in
  exists added,
    Repo.items (db w') = (Repo.items (db w) ++ added)%list
    /\ Forall (fun item =>
                 (exists file,
                    In file files
                    /\ MediaItem.filename item
                       = Path.basename (Upload.name file)
                    /\ MediaItem.size item = Upload.size file
                    /\ MediaItem.duration item
                       = fst (probeDuration (probe (Upload.buffer file))))
                 /\ exists file,
                      In file files
                      /\ FS.lookup cwd (disk w') (MediaItem.filepath item)
                         = Some (FS.File (Upload.buffer file)))
         added.
Proof.
  intros Hcwd w'; subst w'.
  destruct (Repo.findLibraryById (db w) libraryId) as [library|] eqn:Hlib.
  - destruct (processUploadedFiles_disk_and_items cwd this files libraryId w
                library Hlib) as (Hd & Hi).
    rewrite Hi, Hd; eexists; split; [reflexivity|].
    apply assignIds_Forall; [intros i k Hik; exact Hik|].
    pose proof (ingestFiles_ingested cwd this (db w) library files Hcwd []
                  {| ingestDisk := disk w; ingestItems := [];
                     ingestLogs := [] |} (Forall_nil _)) as H.
    eapply Forall_impl; [|exact H].
    intros i (H1 & _ & segs & f & Hf & _ & _ & Hl); split; [exact H1|].
    exists f; auto.
  - unfold processUploadedFiles; rewrite Hlib; simpl.
    exists []; rewrite app_nil_r; auto.
Qed.

(** ** Relative names stay below the base directory *)

Lemma ingestFile_below cwd this store library file s bs :
  baseDir this = String "/" (Str.join bs) ->
  Forall (fun x => isSegment x = true) bs ->
  FS.isExistingDir cwd (ingestDisk s) (baseDir this) = true ->
  Path.isAbsolute (Upload.filename file) = false ->
  noBackslash (Upload.filename file) = true ->
  let s' := ingestFile cwd this store library file s in
  (ingestItems s' = ingestItems s /\ ingestDisk s' = ingestDisk s)
  \/ exists cs item,
       Forall (fun x => isSegment x = true) cs
       /\ ingestItems s' = (ingestItems s ++ [item])%list
       /\ MediaItem.filepath item = String "/" (Str.join (bs ++ cs))
       /\ FS.writeAt (bs ++ cs) (ingestDisk s) (Upload.buffer file)
          = Some (ingestDisk s').
Proof.
  intros Ebase Hbs Hbase Hrel Hb s'; subst s'.
  destruct (uploadPath_relative cwd this _ bs Ebase Hbs Hrel Hb)
    as (cs & Hcs & Hpath).
  unfold ingestFile; rewrite Hpath.
  destruct (Repo.findItemByFilepath store _); [auto|].
  destruct (uploadTarget cwd (ingestDisk s) _) as [[target|] msgs] eqn:Ht;
    [|auto].
  rewrite Ebase in Hbase.
  apply (uploadTarget_below_base cwd _ bs cs target msgs Hbs Hcs Hbase) in Ht.
  destruct Ht as (cs' & Hcs' & ->).
  assert (Hall : Forall (fun x => isSegment x = true) (bs ++ cs'))
    by (apply Forall_app; auto).
  rewrite writeFile_resolved by exact Hall.
  destruct (FS.writeAt (bs ++ cs') (ingestDisk s) (Upload.buffer file))
    as [disk'|] eqn:Hw; [|auto].
  destruct (probeDuration _) as [d threw]; simpl.
  right; eexists cs', _; split; [exact Hcs'|]; split; [reflexivity|].
  split; [reflexivity|exact Hw].
Qed.

(** The loop over relative names without backslash: the base directory
    stays a directory, and the Items of the batch lie below it. *)
Lemma ingestFiles_below cwd this store library bs files :
  baseDir this = String "/" (Str.join bs) ->
  Forall (fun x => isSegment x = true) bs ->
  Forall (fun file =>
            Path.isAbsolute (Upload.filename file) = false
            /\ noBackslash (Upload.filename file) = true) files ->
  forall s,
  FS.isExistingDir cwd (ingestDisk s) (baseDir this) = true ->
  let s' := ingestFiles cwd this store library files s in
  FS.isExistingDir cwd (ingestDisk s') (baseDir this) = true
  /\ exists added,
       ingestItems s' = (ingestItems s ++ added)%list
       /\ Forall (fun i =>
                    insideBase (baseDir this) (MediaItem.filepath i) = true)
            added.
Proof.
  intros Ebase Hbs Hfiles.
  induction Hfiles as [|file rest [Hrel Hb] _ IH]; intros s Hbase; cbv zeta.
  - split; [exact Hbase|].
    exists []; rewrite app_nil_r; auto.
  - change (ingestFiles cwd this store library (file :: rest) s)
      with (ingestFiles cwd this store library rest
              (ingestFile cwd this store library file s)).
    destruct (ingestFile_below cwd this store library file s bs
                Ebase Hbs Hbase Hrel Hb)
      as [[Hi Hd]|(cs & item & Hcs & Hi & Hp & Hw)].
    + rewrite <- Hd in Hbase.
      destruct (IH _ Hbase) as (G1 & added & G2 & G3).
      split; [exact G1|].
      exists added; rewrite G2, Hi; auto.
    + assert (Hall : Forall (fun x => isSegment x = true) (bs ++ cs))
        by (apply Forall_app; auto).
      destruct (writeAt_gives_directory _ _ _ _ Hw)
        as ((r & w & es & E) & (r' & w' & es' & E')).
      assert (Hbase' : FS.isExistingDir cwd
                         (ingestDisk
                            (ingestFile cwd this store library file s))
                         (baseDir this) = true).
      { rewrite isExistingDir_lookup in *.
        rewrite Ebase, lookup_resolved in * by exact Hbs.
        rewrite E in Hbase; rewrite <- E in Hbase.
        destruct (FS.walk [] (ingestDisk s) bs) as [[d0|r0 w0 es0|]|] eqn:Hwalk;
          try discriminate.
        pose proof (writeAt_elsewhere (bs ++ cs) bs Hall Hbs [] _ _ _ _
                      Hw Hwalk) as G; simpl in G.
        destruct G as (es1 & G); rewrite E'; rewrite <- E'.
        rewrite G; reflexivity. }
      destruct (IH _ Hbase') as (G1 & added & G2 & G3).
      split; [exact G1|].
      exists (item :: added).
      rewrite G2, Hi, <- app_assoc; split; [reflexivity|].
      constructor; [|exact G3].
      rewrite Hp, Ebase; apply insideBase_extended; exact Hbs.
Qed.

(** X7. With a base directory in resolved form that exists, the
    ingestion of files whose names are relative and without backslash
    stores Items whose filepaths lie below the base directory only (as
    paths: a link below the base directory is not looked through), and
    the base directory is still a directory afterwards. *)
Theorem processUploadedFiles_stays_inside_base
  (cwd : string) (this : MediaService) (files : list Upload.t)
  (libraryId : nat) (w : World) :
  Path.isAbsolute (baseDir this) = true ->
  Path.resolve cwd [baseDir this] = baseDir this ->
  FS.isExistingDir cwd (disk w) (baseDir this) = true ->
  Forall (fun file =>
            Path.isAbsolute (Upload.filename file) = false
            /\ noBackslash (Upload.filename file) = true) files ->
  let w' := snd (processUploadedFiles cwd this files libraryId w) in
  (exists added,
     Repo.items (db w') = (Repo.items (db w) ++ added)%list
     /\ Forall (fun i =>
                  insideBase (baseDir this) (MediaItem.filepath i) = true)
          added)
  /\ FS.isExistingDir cwd (disk w') (baseDir this) = true.
Proof.
  intros Habs Hres Hbase Hfiles w'; subst w'.
  destruct (resolved_form cwd _ Habs Hres) as (bs & Hbs & Ebase).
  destruct (Repo.findLibraryById (db w) libraryId) as [library|] eqn:Hlib.
  - destruct (processUploadedFiles_disk_and_items cwd this files libraryId w
                library Hlib) as (Hd & Hi).
    rewrite Hi, Hd.
    destruct (ingestFiles_below cwd this (db w) library bs files Ebase Hbs
                Hfiles
                {| ingestDisk := disk w; ingestItems := [];
                   ingestLogs := [] |} Hbase)
      as (G1 & added & G2 & G3).
    simpl in G2; split; [|exact G1].
    eexists; split; [reflexivity|].
    rewrite G2.
    apply assignIds_Forall; [intros i k Hik; exact Hik|exact G3].
  - unfold processUploadedFiles; rewrite Hlib; simpl.
    split; [|exact Hbase].
    exists []; rewrite app_nil_r; auto.
Qed.

Lemma processUploadedFiles_items_describe_written_files_witness :
  let w' :=
    snd (processUploadedFiles Example.cwd Example.service
           [Example.upload "sub/n.txt"] 1 Example.world) in
  exists added,
    Repo.items (db w') = (Repo.items (db Example.world) ++ added)%list
    /\ Forall (fun item =>
                 (exists file,
                    In file [Example.upload "sub/n.txt"]
                    /\ MediaItem.filename item
                       = Path.basename (Upload.name file)
                    /\ MediaItem.size item = Upload.size file
                    /\ MediaItem.duration item
                       = fst (probeDuration (probe (Upload.buffer file))))
                 /\ exists file,
                      In file [Example.upload "sub/n.txt"]
                      /\ FS.lookup Example.cwd (disk w')
                           (MediaItem.filepath item)
                         = Some (FS.File (Upload.buffer file)))
         added.
Proof.
  exact (processUploadedFiles_items_describe_written_files
           Example.cwd Example.service [Example.upload "sub/n.txt"] 1
           Example.world eq_refl).
Defined.

Lemma processUploadedFiles_stays_inside_base_witness :
  let files := [Example.upload "../../x/../n.mp4"; Example.upload "a/b.mkv"] in
  let w' :=
    snd (processUploadedFiles Example.cwd Example.service files 1
           Example.world) in
  (exists added,
     Repo.items (db w') = (Repo.items (db Example.world) ++ added)%list
     /\ Forall (fun i =>
                  insideBase "/srv/media" (MediaItem.filepath i) = true)
          added)
  /\ FS.isExistingDir Example.cwd (disk w') "/srv/media" = true.
Proof.
  apply (processUploadedFiles_stays_inside_base
           Example.cwd Example.service
           [Example.upload "../../x/../n.mp4"; Example.upload "a/b.mkv"] 1
           Example.world).
  - reflexivity.
  - reflexivity.
  - reflexivity.
  - repeat constructor.
Defined.

(** X8. When every uploaded file resolves to a filepath that an
    Item already has, the ingestion of a known library writes nothing:
    disk and database stay as they are, and the one log entry says that
    there was nothing to process. *)
Theorem processUploadedFiles_skips_indexed_paths
  (cwd : string) (this : MediaService) (files : list Upload.t)
  (libraryId : nat) (w : World) (library : MediaLibrary.t) :
  Repo.findLibraryById (db w) libraryId = Some library ->
  Forall (fun file =>
            isIndexed (db w) (uploadPath cwd this (Upload.filename file))
            = true) files ->
  processUploadedFiles cwd this files libraryId w
  = (Return tt, logged w [LogNoNewItemsToProcess]).
Proof.
  intros Hlib Hall; unfold processUploadedFiles; rewrite Hlib.
  rewrite (ingestFiles_all_indexed cwd this (db w) library files _ Hall).
  simpl; rewrite app_nil_r; destruct w; reflexivity.
Qed.

Lemma processUploadedFiles_skips_indexed_paths_witness :
  processUploadedFiles Example.cwd Example.service
    [Example.upload "a.mp4"; Example.upload "x/../sub/b.MKV"] 1
    Example.scanned
  = (Return tt, logged Example.scanned [LogNoNewItemsToProcess]).
Proof.
  apply (processUploadedFiles_skips_indexed_paths
           Example.cwd Example.service
           [Example.upload "a.mp4"; Example.upload "x/../sub/b.MKV"] 1
           Example.scanned Example.movies).
  - reflexivity.
  - repeat constructor.
Defined.

(** X9. An ingestion only appends to the Items and leaves the
    libraries alone: at most one Item for each uploaded file, with the
    next ids in order, all of the given library. *)
Theorem processUploadedFiles_adds_items_of_the_library
  (cwd : string) (this : MediaService) (files : list Upload.t)
  (libraryId : nat) (w : World) :
  let db' := db (snd (processUploadedFiles cwd this files libraryId w)) in
  exists added,
    Repo.items db' = (Repo.items (db w) ++ added)%list
    /\ Repo.libraries db' = Repo.libraries (db w)
    /\ map MediaItem.id added
       = seq (Repo.nextItemId (db w)) (List.length added)
    /\ List.length added <= List.length files
    /\ Forall (fun i => MediaItem.library i = libraryId) added.
Proof.
  intros db'; subst db'.
  destruct (processUploadedFiles_added cwd this files libraryId w)
    as (added & H1 & H2 & _ & H3 & _ & H4 & H5).
  exists added; repeat split; auto.
  eapply Forall_impl; [|exact H5]; intros i Hi; apply Hi.
Qed.

(* ================================================================== *)
(** * An ingestion adds files and nothing else *)
(* ================================================================== *)

(** A directory found after a write was there before it. *)
Lemma writeAt_directories_back (segs : list string) :
  forall ps,
  Forall (fun s => isSegment s = true) segs ->
  Forall (fun s => isSegment s = true) ps ->
  forall stack n data n' r w es,
  FS.writeAt segs n data = Some n' ->
  FS.walk stack n' ps = Some (FS.Dir r w es) ->
  exists es0, FS.walk stack n ps = Some (FS.Dir r w es0).
Proof.
  induction segs as [|seg rest IH];
    intros ps Hsegs Hps stack n data n' r w es H Hx.
  - destruct n; discriminate.
  - inversion Hsegs as [|? ? Hseg Hrest]; subst.
    destruct ps as [|p ps'].
    + simpl in Hx; injection Hx as ->.
      destruct rest as [|s rest].
      * apply writeAt_leaf in H; destruct H as (r0 & w0 & es0 & -> & _ & E).
        injection E as -> -> ->; simpl; eauto.
      * apply writeAt_deeper in H.
        destruct H as (r0 & w0 & es0 & c & c' & -> & _ & _ & E).
        injection E as -> -> ->; simpl; eauto.
    + inversion Hps as [|? ? Hp Hps']; subst.
      destruct (string_dec p seg) as [->|Hne].
      * destruct rest as [|s rest].
        -- apply writeAt_leaf in H.
           destruct H as (r0 & w0 & es0 & -> & _ & ->).
           rewrite walk_cons in Hx by exact Hp.
           rewrite child_setChild_same in Hx.
           destruct ps'; discriminate.
        -- apply writeAt_deeper in H.
           destruct H as (r0 & w0 & es0 & c & c' & -> & Hc & Hw & ->).
           rewrite walk_cons in * by exact Hp.
           rewrite child_setChild_same in Hx; rewrite Hc.
           rewrite (walk_any_stack ps' Hps' _ (FS.Dir r0 w0 es0 :: stack))
             in Hx.
           eapply IH; eauto.
      * assert (Hn : exists r0 w0 es0 es1,
                       n = FS.Dir r0 w0 es0 /\ n' = FS.Dir r0 w0 es1
                       /\ FS.child p es1 = FS.child p es0).
        { destruct rest as [|s rest].
          - apply writeAt_leaf in H.
            destruct H as (r0 & w0 & es0 & -> & _ & ->).
            do 4 eexists; split; [reflexivity|]; split; [reflexivity|].
            apply child_setChild_other; exact Hne.
          - apply writeAt_deeper in H.
            destruct H as (r0 & w0 & es0 & c & c' & -> & _ & _ & ->).
            do 4 eexists; split; [reflexivity|]; split; [reflexivity|].
            apply child_setChild_other; exact Hne. }
        destruct Hn as (r0 & w0 & es0 & es1 & -> & -> & Hc).
        rewrite walk_cons in * by exact Hp.
        rewrite Hc in Hx.
        destruct (FS.child p es0) as [c|]; [|discriminate].
        rewrite (walk_any_stack ps' Hps' _ (FS.Dir r0 w0 es0 :: stack)) in Hx.
        eauto.
Qed.

(** What one iteration does to the disk. *)
Lemma ingestFile_disk cwd this store library file s :
  let s' := ingestFile cwd this store library file s in
  ingestDisk s' = ingestDisk s
  \/ exists segs,
       Forall (fun x => isSegment x = true) segs
       /\ FS.writeAt segs (ingestDisk s) (Upload.buffer file)
          = Some (ingestDisk s').
Proof.
  intros s'; subst s'; unfold ingestFile.
  destruct (Repo.findItemByFilepath store _); [auto|].
  destruct (uploadTarget cwd (ingestDisk s) _) as [[target|] msgs];
    [|auto].
  destruct (FS.writeFile cwd (ingestDisk s) target (Upload.buffer file))
    as [disk'|] eqn:Hw; [|auto].
  destruct (probeDuration _) as [d threw]; simpl.
  right; eexists; split; [|exact Hw].
  apply normalizeSegments_gives_segments; [apply split_noSlash|constructor].
Qed.

Lemma writeAt_sameDirectories segs n data n' :
  Forall (fun x => isSegment x = true) segs ->
  FS.writeAt segs n data = Some n' ->
  sameDirectories n n' /\ keepsFiles n n'.
Proof.
  intros Hsegs Hw; split.
  - intros ps r w Hps; split; intros (es & H).
    + exact (writeAt_elsewhere segs ps Hsegs Hps [] _ _ _ _ Hw H).
    + exact (writeAt_directories_back segs ps Hsegs Hps [] n data n' r w es
               Hw H).
  - intros ps d Hps H.
    pose proof (writeAt_elsewhere segs ps Hsegs Hps [] _ _ _ _ Hw H) as G.
    simpl in G; destruct G as [[_ G]|[_ G]]; eauto.
Qed.

Lemma ingestFiles_only_writes_files cwd this store library files :
  forall s,
  let s' := ingestFiles cwd this store library files s in
  sameDirectories (ingestDisk s) (ingestDisk s')
  /\ keepsFiles (ingestDisk s) (ingestDisk s').
Proof.
  induction files as [|file rest IH]; intros s; cbv zeta.
  - split; [intros segs r w _; tauto|intros segs d _ H; eauto].
  - change (ingestFiles cwd this store library (file :: rest) s)
      with (ingestFiles cwd this store library rest
              (ingestFile cwd this store library file s)).
    destruct (IH (ingestFile cwd this store library file s)) as [D F].
    destruct (ingestFile_disk cwd this store library file s)
      as [E|(segs & Hsegs & Hw)].
    + rewrite E in D, F; auto.
    + destruct (writeAt_sameDirectories _ _ _ _ Hsegs Hw) as [D0 F0].
      split.
      * intros ps r w Hps; rewrite (D0 ps r w Hps); apply D; exact Hps.
      * intros ps d Hps H.
        destruct (F0 ps d Hps H) as (d' & H').
        exact (F ps d' Hps H').
Qed.

(** X10. An ingestion creates no directory and removes nothing:
    at every path of proper segments there is a directory afterwards
    exactly when there was one before, with the same permissions, and
    where there was a regular file there still is one. *)
Theorem processUploadedFiles_creates_no_directory
  (cwd : string) (this : MediaService) (files : list Upload.t)
  (libraryId : nat) (w : World) :
  let w' := snd (processUploadedFiles cwd this files libraryId w) in
  sameDirectories (disk w) (disk w') /\ keepsFiles (disk w) (disk w').
Proof.
  intros w'; subst w'; unfold processUploadedFiles.
  destruct (Repo.findLibraryById (db w) libraryId) as [library|].
  - pose proof (ingestFiles_only_writes_files cwd this (db w) library files
                  {| ingestDisk := disk w; ingestItems := [];
                     ingestLogs := [] |}) as H.
    cbv zeta in H |- *; simpl ingestDisk in H.
    destruct (ingestItems _); exact H.
  - split; [intros segs r wr _; tauto|intros segs d _ H; eauto].
Qed.

(* ================================================================== *)
(** * The consistency of the store *)
(* ================================================================== *)

Lemma NoDup_snoc {A} (l : list A) (x : A) :
  NoDup l -> ~ In x l -> NoDup (l ++ [x]).
Proof.
  intros Hl Hx; apply NoDup_app; [exact Hl|repeat constructor; auto|].
  intros y Hy [<-|[]]; auto.
Qed.

Lemma seq_fresh (ids : list nat) (next n : nat) :
  Forall (fun i => i < next) ids -> NoDup ids ->
  NoDup (ids ++ seq next n)
  /\ Forall (fun i => i < next + n) (ids ++ seq next n).
Proof.
  intros Hb Hd; split.
  - apply NoDup_app; [exact Hd|apply seq_NoDup|].
    intros i Hi Hs; apply in_seq in Hs.
    rewrite Forall_forall in Hb; specialize (Hb i Hi); lia.
  - apply Forall_app; split.
    + eapply Forall_impl; [|exact Hb]; simpl; intros; lia.
    + apply Forall_forall; intros i Hi; apply in_seq in Hi; lia.
Qed.

(** Appending Items of a library that is there, with fresh ids. *)
Lemma consistent_added store store' added libraryId :
  consistent store ->
  Repo.items store' = (Repo.items store ++ added)%list ->
  Repo.libraries store' = Repo.libraries store ->
  Repo.nextLibraryId store' = Repo.nextLibraryId store ->
  map MediaItem.id added = seq (Repo.nextItemId store) (List.length added) ->
  Repo.nextItemId store' = Repo.nextItemId store + List.length added ->
  Forall (fun i => MediaItem.library i = libraryId) added ->
  (added = [] \/ exists l, In l (Repo.libraries store)
                            /\ MediaLibrary.id l = libraryId) ->
  consistent store'.
Proof.
  intros [C1 C2 C3 C4 C5 C6] Hi Hl Hn Hids Hnext Hown Hlib.
  destruct (seq_fresh (map MediaItem.id (Repo.items store))
              (Repo.nextItemId store) (List.length added)) as [F1 F2].
  { apply Forall_map; exact C4. }
  { exact C5. }
  rewrite <- Hids, <- map_app, <- Hi in F1, F2.
  constructor; rewrite ?Hl, ?Hn, ?Hnext; auto.
  - apply Forall_map in F2; exact F2.
  - rewrite Hi; apply Forall_app; split; [exact C6|].
    destruct Hlib as [->|(l & Hin & Hid)]; [constructor|].
    eapply Forall_impl; [|exact Hown].
    intros i Hi'; exists l; split; [exact Hin|congruence].
Qed.

Lemma findLibraryByName_none store name :
  Repo.findLibraryByName store name = None ->
  ~ In name (map MediaLibrary.name (Repo.libraries store)).
Proof.
  unfold Repo.findLibraryByName; intros H Hin.
  apply in_map_iff in Hin; destruct Hin as (l & <- & Hl).
  eapply find_none in H; [|exact Hl].
  simpl in H; rewrite String.eqb_refl in H; discriminate.
Qed.

Lemma createLibrary_consistent cwd sanitize this name pathStr w :
  consistent (db w) ->
  consistent (db (snd (createLibrary cwd sanitize this name pathStr w))).
Proof.
  intros C; rewrite createLibrary_cases.
  destruct (negb (String.eqb (sanitize name) name)); [exact C|].
  destruct (Repo.findLibraryByName (db w) name) as [l|] eqn:En; [exact C|].
  destruct (negb (FS.isExistingDir cwd (disk w) _)); [exact C|].
  destruct C as [C1 C2 C3 C4 C5 C6].
  constructor; simpl.
  - apply Forall_app; split.
    + eapply Forall_impl; [|exact C1]; simpl; intros; lia.
    + repeat constructor.
  - rewrite map_app; apply NoDup_snoc; [exact C2|]; simpl.
    intros Hin; apply in_map_iff in Hin; destruct Hin as (l & E & Hl).
    rewrite Forall_forall in C1; specialize (C1 l Hl); lia.
  - rewrite map_app; apply NoDup_snoc; [exact C3|]; simpl.
    apply findLibraryByName_none; exact En.
  - exact C4.
  - exact C5.
  - eapply Forall_impl; [|exact C6].
    intros i (l & Hl & E); exists l; split; [|exact E].
    apply in_or_app; auto.
Qed.

Lemma mediaItemsOf_nil store id :
  Repo.mediaItemsOf store id = [] ->
  Forall (fun i => MediaItem.library i <> id) (Repo.items store).
Proof.
  unfold Repo.mediaItemsOf; intros H.
  apply Forall_forall; intros i Hi E.
  assert (Hin : In i (filter (fun i => Nat.eqb (MediaItem.library i) id)
                        (Repo.items store))).
  { apply filter_In; split; [exact Hi|]; apply Nat.eqb_eq; exact E. }
  rewrite H in Hin; exact Hin.
Qed.

Lemma filtered_keys_distinct {A B} (key : A -> B) (keep : A -> bool)
  (rows : list A) :
  NoDup (map key rows) -> NoDup (map key (filter keep rows)).
Proof.
  induction rows as [|x rows IH]; simpl; [auto|].
  intros H; inversion H as [|? ? Hx Hrows]; subst.
  destruct (keep x); simpl; [|auto].
  constructor; [|auto].
  intros Hin; apply Hx.
  apply in_map_iff in Hin; destruct Hin as (y & E & Hy).
  apply filter_In in Hy; apply in_map_iff; exists y; tauto.
Qed.

Lemma deleteLibrary_consistent id w :
  consistent (db w) -> consistent (db (snd (deleteLibrary id w))).
Proof.
  intros C; unfold deleteLibrary.
  destruct (Repo.findLibraryById (db w) id) as [library|] eqn:Hlib;
    [|exact C].
  destruct (findLibraryById_id _ _ _ Hlib) as [_ Hid].
  unfold Repo.removeLibrary; rewrite Hid.
  destruct (Repo.mediaItemsOf (db w) id) eqn:Hitems; [|exact C].
  apply mediaItemsOf_nil in Hitems.
  destruct C as [C1 C2 C3 C4 C5 C6].
  constructor; simpl.
  - apply Forall_forall; intros l Hl; apply filter_In in Hl.
    rewrite Forall_forall in C1; apply C1, Hl.
  - apply filtered_keys_distinct; exact C2.
  - apply filtered_keys_distinct; exact C3.
  - exact C4.
  - exact C5.
  - rewrite Forall_forall in *; intros i Hi.
    destruct (C6 i Hi) as (l & Hl & E).
    exists l; split; [|exact E].
    apply in_filter_not_id; split; [exact Hl|].
    rewrite E; apply Hitems; exact Hi.
Qed.

(** X11. The four operations that write keep the store consistent:
    the ids in use stay below the next generated ones and distinct, the
    names of the libraries stay distinct, and every Item belongs to a
    library that is there. *)
Theorem service_keeps_the_store_consistent :
  forall w : World,
  consistent (db w) ->
  (forall cwd sanitize this name pathStr,
     consistent (db (snd (createLibrary cwd sanitize this name pathStr w))))
  /\ (forall id, consistent (db (snd (deleteLibrary id w))))
  /\ (forall cwd libraryId,
        consistent (db (snd (scanLibrary cwd libraryId w))))
  /\ (forall cwd this files libraryId,
        consistent
          (db (snd (processUploadedFiles cwd this files libraryId w)))).
Proof.
  intros w C; split; [|split; [|split]].
  - intros; apply createLibrary_consistent; exact C.
  - intros; apply deleteLibrary_consistent; exact C.
  - intros cwd libraryId.
    destruct (scanLibrary_added cwd libraryId w)
      as (added & H1 & H2 & H3 & H4 & H5 & H6).
    apply (consistent_added (db w) _ added libraryId); auto.
    + eapply Forall_impl; [|exact H6]; intros i Hi; apply Hi.
    + destruct (Repo.findLibraryById (db w) libraryId) as [l|] eqn:Hlib.
      * right; exists l; apply findLibraryById_id; exact Hlib.
      * left. unfold scanLibrary in H1; rewrite Hlib in H1; simpl in H1.
        rewrite <- (app_nil_r (Repo.items (db w))) in H1 at 1.
        apply app_inv_head in H1; auto.
  - intros cwd this files libraryId.
    destruct (processUploadedFiles_added cwd this files libraryId w)
      as (added & H1 & H2 & H3 & H4 & H5 & _ & H6).
    apply (consistent_added (db w) _ added libraryId); auto.
    + eapply Forall_impl; [|exact H6]; intros i Hi; apply Hi.
    + destruct (Repo.findLibraryById (db w) libraryId) as [l|] eqn:Hlib.
      * right; exists l; apply findLibraryById_id; exact Hlib.
      * left. unfold processUploadedFiles in H1; rewrite Hlib in H1;
          simpl in H1.
        rewrite <- (app_nil_r (Repo.items (db w))) in H1 at 1.
        apply app_inv_head in H1; auto.
Qed.

Lemma example_consistent : consistent (db Example.world).
Proof.
  constructor; simpl; repeat constructor; simpl; intuition discriminate.
Qed.

Lemma service_keeps_the_store_consistent_witness :
  (forall cwd sanitize this name pathStr,
     consistent
       (db (snd (createLibrary cwd sanitize this name pathStr
                   Example.world))))
  /\ (forall id, consistent (db (snd (deleteLibrary id Example.world))))
  /\ (forall cwd libraryId,
        consistent (db (snd (scanLibrary cwd libraryId Example.world))))
  /\ (forall cwd this files libraryId,
        consistent
          (db (snd (processUploadedFiles cwd this files libraryId
                      Example.world)))).
Proof.
  exact (service_keeps_the_store_consistent Example.world example_consistent).
Defined.

(** ** Registering and removing a library *)

Lemma createLibrary_returns cwd sanitize this name pathStr w library w' :
  createLibrary cwd sanitize this name pathStr w = (Return library, w') ->
  sanitize name = name
  /\ Repo.findLibraryByName (db w) name = None
  /\ FS.isExistingDir cwd (disk w) (toAbsolute cwd this pathStr) = true
  /\ library = {| MediaLibrary.id := Repo.nextLibraryId (db w);
                  MediaLibrary.name := name;
                  MediaLibrary.path := toAbsolute cwd this pathStr |}
  /\ w' = withDb w (snd (Repo.saveLibrary (db w) name
                           (toAbsolute cwd this pathStr))).
Proof.
  rewrite createLibrary_cases.
  destruct (String.eqb (sanitize name) name) eqn:Es; simpl; [|discriminate].
  apply String.eqb_eq in Es.
  destruct (Repo.findLibraryByName (db w) name); [discriminate|].
  destruct (FS.isExistingDir cwd (disk w) _); simpl; [|discriminate].
  intros H; injection H as <- <-; auto.
Qed.

(** X12. Once a library has been created, creating one of the
    same name again ends in [ConflictException] and changes nothing,
    whatever the path given. *)
Theorem createLibrary_twice_conflicts
  (cwd : string) (sanitize : string -> string) (this : MediaService)
  (name pathStr : string) (w : World) (library : MediaLibrary.t)
  (w' : World) :
  createLibrary cwd sanitize this name pathStr w = (Return library, w') ->
  forall pathStr',
  createLibrary cwd sanitize this name pathStr' w'
  = (Throw ConflictException, w').
Proof.
  intros H pathStr'.
  apply createLibrary_returns in H.
  destruct H as (Hs & Hn & _ & _ & ->).
  rewrite createLibrary_cases, Hs, String.eqb_refl; simpl.
  unfold Repo.findLibraryByName in *; simpl.
  rewrite find_append, Hn; simpl.
  rewrite String.eqb_refl; reflexivity.
Qed.

Lemma createLibrary_twice_conflicts_witness :
  createLibrary Example.cwd Sanitize.sanitize Example.service "Shows"
    "/srv/media/locked"
    (snd (createLibrary Example.cwd Sanitize.sanitize Example.service
            "Shows" "sub" Example.world))
  = (Throw ConflictException,
     snd (createLibrary Example.cwd Sanitize.sanitize Example.service
            "Shows" "sub" Example.world)).
Proof.
  apply (createLibrary_twice_conflicts Example.cwd Sanitize.sanitize
           Example.service "Shows" "sub" Example.world
           (fst (Repo.saveLibrary Example.store "Shows" "/srv/media/sub"))).
  reflexivity.
Defined.

(** X13. In a consistent store and with an absolute working
    directory, a library just created has an id that no library had, is
    found by that id, owns no Item, has an absolute path that is an
    existing directory, can be scanned, and can be deleted again, which
    gives back both tables as they were. *)
Theorem createLibrary_then_deleteLibrary
  (cwd : string) (sanitize : string -> string) (this : MediaService)
  (name pathStr : string) (w : World) (library : MediaLibrary.t)
  (w' : World) :
  consistent (db w) ->
  Path.isAbsolute cwd = true ->
  createLibrary cwd sanitize this name pathStr w = (Return library, w') ->
  (forall l, In l (Repo.libraries (db w)) ->
             MediaLibrary.id l <> MediaLibrary.id library)
  /\ Repo.findLibraryById (db w') (MediaLibrary.id library) = Some library
  /\ Repo.mediaItemsOf (db w') (MediaLibrary.id library) = []
  /\ Path.isAbsolute (MediaLibrary.path library) = true
  /\ FS.isExistingDir cwd (disk w') (MediaLibrary.path library) = true
  /\ fst (scanLibrary cwd (MediaLibrary.id library) w') = Return tt
  /\ fst (deleteLibrary (MediaLibrary.id library) w') = Return tt
  /\ Repo.libraries (db (snd (deleteLibrary (MediaLibrary.id library) w')))
     = Repo.libraries (db w)
  /\ Repo.items (db (snd (deleteLibrary (MediaLibrary.id library) w')))
     = Repo.items (db w).
Proof.
  intros [C1 _ _ _ _ C6] Hcwd H.
  apply createLibrary_returns in H.
  destruct H as (Hs & Hn & Hd & -> & ->).
  cbn [MediaLibrary.id MediaLibrary.path db disk withDb].
  assert (Hfresh : forall l, In l (Repo.libraries (db w)) ->
                             MediaLibrary.id l <> Repo.nextLibraryId (db w)).
  { intros l Hl; rewrite Forall_forall in C1; specialize (C1 l Hl); lia. }
  assert (Hfind : Repo.findLibraryById
                    (snd (Repo.saveLibrary (db w) name
                            (toAbsolute cwd this pathStr)))
                    (Repo.nextLibraryId (db w))
                  = Some {| MediaLibrary.id := Repo.nextLibraryId (db w);
                            MediaLibrary.name := name;
                            MediaLibrary.path := toAbsolute cwd this pathStr
                         |}).
  { unfold Repo.findLibraryById; simpl.
    rewrite find_append.
    destruct (find _ (Repo.libraries (db w))) as [l|] eqn:E.
    - apply find_some in E; destruct E as [Hl E].
      apply Nat.eqb_eq in E; exfalso; exact (Hfresh l Hl E).
    - simpl; rewrite Nat.eqb_refl; reflexivity. }
  assert (Hnone : Repo.mediaItemsOf
                    (snd (Repo.saveLibrary (db w) name
                            (toAbsolute cwd this pathStr)))
                    (Repo.nextLibraryId (db w)) = []).
  { unfold Repo.mediaItemsOf; simpl.
    apply filter_none.
    eapply Forall_impl; [|exact C6].
    intros i (l & Hl & E); simpl.
    apply Nat.eqb_neq; rewrite <- E; apply Hfresh; exact Hl. }
  split; [exact Hfresh|]; split; [exact Hfind|]; split; [exact Hnone|].
  split.
  { unfold toAbsolute.
    destruct (Path.isAbsolute pathStr) eqn:E; [exact E|].
    apply resolve_absolute; exact Hcwd. }
  split; [exact Hd|].
  split.
  { rewrite outcome_of_scanLibrary; cbn [db withDb]; rewrite Hfind.
    reflexivity. }
  unfold deleteLibrary; cbn [db withDb]; rewrite Hfind.
  unfold Repo.removeLibrary; cbn [MediaLibrary.id]; rewrite Hnone.
  cbn [fst snd db withDb Repo.libraries Repo.items Repo.saveLibrary].
  split; [reflexivity|]; split; [|reflexivity].
  rewrite filter_app; simpl; rewrite Nat.eqb_refl; simpl.
  rewrite app_nil_r; apply filter_all.
  apply Forall_forall; intros l Hl.
  apply negb_true_iff, Nat.eqb_neq, Hfresh; exact Hl.
Qed.

Lemma createLibrary_then_deleteLibrary_witness :
  let library :=
    {| MediaLibrary.id := 3; MediaLibrary.name := "Shows";
       MediaLibrary.path := "/srv/media/sub" |} in
  let w' :=
    snd (createLibrary Example.cwd Sanitize.sanitize Example.service
           "Shows" "sub" Example.world) in
  (forall l, In l (Repo.libraries Example.store) -> MediaLibrary.id l <> 3)
  /\ Repo.findLibraryById (db w') 3 = Some library
  /\ Repo.mediaItemsOf (db w') 3 = []
  /\ Path.isAbsolute "/srv/media/sub" = true
  /\ FS.isExistingDir Example.cwd (disk w') "/srv/media/sub" = true
  /\ fst (scanLibrary Example.cwd 3 w') = Return tt
  /\ fst (deleteLibrary 3 w') = Return tt
  /\ Repo.libraries (db (snd (deleteLibrary 3 w')))
     = Repo.libraries Example.store
  /\ Repo.items (db (snd (deleteLibrary 3 w'))) = Repo.items Example.store.
Proof.
  apply (createLibrary_then_deleteLibrary Example.cwd Sanitize.sanitize
           Example.service "Shows" "sub" Example.world
           {| MediaLibrary.id := 3; MediaLibrary.name := "Shows";
              MediaLibrary.path := "/srv/media/sub" |}
           (snd (createLibrary Example.cwd Sanitize.sanitize Example.service
                   "Shows" "sub" Example.world))).
  - exact example_consistent.
  - reflexivity.
  - reflexivity.
Defined.

(** X14. Deleting a library that owns no Item returns, removes
    the libraries of that id and no other, and touches neither the Items
    nor the disk; deleting it once more throws [NotFoundException]. *)
Theorem deleteLibrary_of_an_empty_library
  (id : nat) (w : World) (library : MediaLibrary.t) :
  Repo.findLibraryById (db w) id = Some library ->
  Repo.mediaItemsOf (db w) id = [] ->
  let w' := snd (deleteLibrary id w) in
  fst (deleteLibrary id w) = Return tt
  /\ (forall l, In l (Repo.libraries (db w'))
                <-> In l (Repo.libraries (db w)) /\ MediaLibrary.id l <> id)
  /\ Repo.items (db w') = Repo.items (db w)
  /\ disk w' = disk w
  /\ deleteLibrary id w' = (Throw NotFoundException, w').
Proof.
  intros Hlib Hnone w'; subst w'.
  pose proof (deleteLibrary_cases id w) as H.
  rewrite Hlib, Hnone in H.
  destruct H as (H1 & H2 & H3 & H4).
  split; [exact H1|]; split; [exact H3|]; split; [exact H2|].
  split; [exact H4|].
  pose proof (deleteLibrary_cases id (snd (deleteLibrary id w))) as G.
  destruct (Repo.findLibraryById (db (snd (deleteLibrary id w))) id)
    as [l|] eqn:E; [|exact G].
  apply findLibraryById_id in E; destruct E as [Hl Hid].
  apply H3 in Hl; destruct Hl as [_ Hne]; congruence.
Qed.

Lemma deleteLibrary_of_an_empty_library_witness :
  let w' := snd (deleteLibrary 2 Example.world) in
  fst (deleteLibrary 2 Example.world) = Return tt
  /\ (forall l, In l (Repo.libraries (db w'))
                <-> In l (Repo.libraries (db Example.world))
                    /\ MediaLibrary.id l <> 2)
  /\ Repo.items (db w') = Repo.items (db Example.world)
  /\ disk w' = disk Example.world
  /\ deleteLibrary 2 w' = (Throw NotFoundException, w').
Proof.
  apply (deleteLibrary_of_an_empty_library 2 Example.world Example.locked);
    reflexivity.
Defined.

(* ================================================================== *)
(** * Names that [sanitize] changes *)
(* ================================================================== *)

Lemma removeChars_length p s :
  String.length (Sanitize.removeChars p s) <= String.length s.
Proof.
  induction s as [|c r IH]; simpl; [lia|].
  destruct (p c); simpl; lia.
Qed.

Lemma removeChars_shorter p s :
  existsb p (Str.chars s) = true ->
  String.length (Sanitize.removeChars p s) < String.length s.
Proof.
  induction s as [|c r IH]; simpl; [discriminate|].
  destruct (p c) eqn:E; simpl.
  - intros _; pose proof (removeChars_length p r); lia.
  - intros H; specialize (IH H); lia.
Qed.

Lemma removeChars_append p a b :
  Sanitize.removeChars p (a ++ b)
  = Sanitize.removeChars p a ++ Sanitize.removeChars p b.
Proof.
  induction a as [|c r IH]; simpl; [reflexivity|].
  destruct (p c); simpl; rewrite IH; reflexivity.
Qed.

(** Induction on a string, with the property available for what
    follows its first character and for what follows its second. *)
Lemma string_two_ind (P : string -> Prop) :
  P "" ->
  (forall c, P (String c "")) ->
  (forall c1 c2 r, P (String c2 r) -> P r -> P (String c1 (String c2 r))) ->
  forall s, P s.
Proof.
  intros H0 H1 H2 s.
  assert (H : P s /\ forall c, P (String c s)); [|apply H].
  induction s as [|c2 r [IH1 IH2]]; [split; [exact H0|exact H1]|].
  split; [apply IH2|].
  intros c1; apply H2; [apply IH2|exact IH1].
Qed.

Lemma removeControls_length s :
  String.length (Sanitize.removeControls s) <= String.length s.
Proof.
  induction s as [|c|c1 c2 r IH1 IH2] using string_two_ind.
  - simpl; lia.
  - simpl; destruct (Sanitize.isControl c); simpl; lia.
  - change (Sanitize.removeControls (String c1 (String c2 r)))
      with (if Sanitize.isControl c1
            then Sanitize.removeControls (String c2 r)
            else if Sanitize.isControl2 c1 c2 then Sanitize.removeControls r
                 else String c1 (Sanitize.removeControls (String c2 r))).
    cbn [String.length] in *.
    destruct (Sanitize.isControl c1); [lia|].
    destruct (Sanitize.isControl2 c1 c2); cbn [String.length]; lia.
Qed.

Lemma removeControls_shorter s :
  existsb Sanitize.isControl (Str.chars s) = true ->
  String.length (Sanitize.removeControls s) < String.length s.
Proof.
  induction s as [|c|c1 c2 r IH1 IH2] using string_two_ind.
  - discriminate.
  - simpl; destruct (Sanitize.isControl c); simpl; [lia|discriminate].
  - change (Sanitize.removeControls (String c1 (String c2 r)))
      with (if Sanitize.isControl c1
            then Sanitize.removeControls (String c2 r)
            else if Sanitize.isControl2 c1 c2 then Sanitize.removeControls r
                 else String c1 (Sanitize.removeControls (String c2 r))).
    pose proof (removeControls_length (String c2 r)) as L1.
    pose proof (removeControls_length r) as L2.
    cbn [Str.chars list_ascii_of_string existsb String.length] in *.
    destruct (Sanitize.isControl c1); [intros _; lia|].
    cbn [orb]; intros H.
    destruct (Sanitize.isControl2 c1 c2); cbn [String.length].
    + lia.
    + specialize (IH1 H); lia.
Qed.

(** A dot or a space at the end stays where it is. *)
Lemma removeControls_last stem c :
  (c = "."%char \/ c = " "%char) ->
  Sanitize.removeControls (stem ++ String c "")
  = Sanitize.removeControls stem ++ String c "".
Proof.
  intros Hc.
  assert (E1 : Sanitize.isControl c = false)
    by (destruct Hc as [->| ->]; reflexivity).
  assert (E2 : forall c1, Sanitize.isControl2 c1 c = false).
  { intros c1; unfold Sanitize.isControl2.
    destruct Hc as [->| ->]; simpl;
      rewrite andb_false_r; reflexivity. }
  induction stem as [|c1|c1 c2 r IH1 IH2] using string_two_ind.
  - simpl; rewrite E1; reflexivity.
  - simpl; rewrite E1, E2.
    destruct (Sanitize.isControl c1); reflexivity.
  - change ((String c1 (String c2 r)) ++ String c "")
      with (String c1 (String c2 (r ++ String c ""))).
    change (Sanitize.removeControls (String c1 (String c2 ?x)))
      with (if Sanitize.isControl c1
            then Sanitize.removeControls (String c2 x)
            else if Sanitize.isControl2 c1 c2 then Sanitize.removeControls x
                 else String c1 (Sanitize.removeControls (String c2 x))).
    change (String c2 (r ++ String c "")) with (String c2 r ++ String c "").
    rewrite IH1, IH2.
    destruct (Sanitize.isControl c1); [reflexivity|].
    destruct (Sanitize.isControl2 c1 c2); reflexivity.
Qed.

Lemma substring_length n s :
  String.length (String.substring 0 n s) <= Nat.min n (String.length s).
Proof.
  revert s; induction n as [|n IH]; intros [|c r]; simpl; try lia.
  specialize (IH r); lia.
Qed.

Lemma length_append a b :
  String.length (a ++ b) = String.length a + String.length b.
Proof. induction a as [|c r IH]; simpl; [reflexivity|rewrite IH; reflexivity]. Qed.

Lemma truncate_length n s :
  String.length (Sanitize.truncate n s) <= Nat.min n (String.length s).
Proof.
  pose proof (substring_length n s) as H.
  unfold Sanitize.truncate.
  destruct (String.get n s) as [c|]; [|exact H].
  destruct (Sanitize.isContinuation c); [|exact H].
  rewrite length_ofChars, length_rev.
  set (l := Str.dropWhile _ _).
  assert (Hl : List.length l <= String.length (String.substring 0 n s)).
  { subst l; etransitivity; [apply dropWhile_length|].
    rewrite length_rev, length_chars; lia. }
  destruct l; simpl in *; lia.
Qed.

Lemma trimTrailing_length s :
  String.length (Sanitize.trimTrailing s) <= String.length s.
Proof.
  unfold Sanitize.trimTrailing.
  rewrite length_ofChars, length_rev.
  etransitivity; [apply dropWhile_length|].
  rewrite length_rev, length_chars; lia.
Qed.

Lemma trimTrailing_last stem c :
  (c = "."%char \/ c = " "%char) ->
  String.length (Sanitize.trimTrailing (stem ++ String c ""))
  <= String.length stem.
Proof.
  intros Hc; unfold Sanitize.trimTrailing.
  rewrite length_ofChars, length_rev, chars_append, rev_app_distr; simpl.
  assert (E : (Ascii.eqb c Str.dot || Ascii.eqb c " "%char) = true)
    by (destruct Hc as [->| ->]; reflexivity).
  rewrite E.
  etransitivity; [apply dropWhile_length|].
  rewrite length_rev, length_chars; lia.
Qed.

(** [sanitize] never lengthens a name, and shortens it when it holds an
    illegal character or a control character of ASCII, ends in a dot or
    a space, or takes more than 255 bytes. *)
Lemma sanitize_shortens name :
  existsb (fun c => Sanitize.isIllegal c || Sanitize.isControl c)
    (Str.chars name) = true
  \/ (exists stem c,
        name = stem ++ String c "" /\ (c = "."%char \/ c = " "%char))
  \/ 255 < String.length name ->
  String.length (Sanitize.sanitize name) < String.length name.
Proof.
  intros H; unfold Sanitize.sanitize.
  set (s1 := Sanitize.removeChars Sanitize.isIllegal name).
  set (s2 := Sanitize.removeControls s1).
  set (s3 := if Sanitize.allDots s2 then "" else s2).
  set (s4 := if Sanitize.isWindowsReserved s3 then "" else s3).
  pose proof (truncate_length 255 (Sanitize.trimTrailing s4)) as Hsub.
  pose proof (trimTrailing_length s4) as Htrim.
  pose proof (removeChars_length Sanitize.isIllegal name) as H1.
  pose proof (removeControls_length s1) as H2.
  fold s1 in H1; fold s2 in H2.
  assert (H3 : String.length s3 <= String.length s2)
    by (subst s3; destruct (Sanitize.allDots s2); simpl; lia).
  assert (H4 : String.length s4 <= String.length s3)
    by (subst s4; destruct (Sanitize.isWindowsReserved s3); simpl; lia).
  destruct H as [H|[(stem & c & -> & Hc)|H]].
  - assert (Hlt : String.length s2 < String.length name); [|lia].
    destruct (existsb Sanitize.isIllegal (Str.chars name)) eqn:E.
    + apply removeChars_shorter in E; fold s1 in E; lia.
    + assert (E1 : s1 = name).
      { subst s1; clear -E.
        induction name as [|c r IH]; simpl in *; [reflexivity|].
        apply orb_false_elim in E; destruct E as [Ec Er].
        rewrite Ec, (IH Er); reflexivity. }
      assert (E2 : existsb Sanitize.isControl (Str.chars name) = true).
      { clear -H E.
        induction name as [|c r IH]; simpl in *; [discriminate|].
        apply orb_false_elim in E; destruct E as [Ec Er].
        rewrite Ec in H; simpl in H.
        destruct (Sanitize.isControl c); simpl in *; auto. }
      subst s2; rewrite E1.
      apply removeControls_shorter; exact E2.
  - assert (Ec1 : Sanitize.isIllegal c = false)
      by (destruct Hc as [->| ->]; reflexivity).
    assert (E2 : s2 = Sanitize.removeControls
                        (Sanitize.removeChars Sanitize.isIllegal stem)
                      ++ String c "").
    { subst s2 s1; rewrite removeChars_append; simpl; rewrite Ec1.
      apply removeControls_last; exact Hc. }
    set (x := Sanitize.removeControls
                (Sanitize.removeChars Sanitize.isIllegal stem)) in E2.
    assert (Hx : String.length x <= String.length stem).
    { subst x.
      pose proof (removeChars_length Sanitize.isIllegal stem).
      pose proof (removeControls_length
                    (Sanitize.removeChars Sanitize.isIllegal stem)).
      lia. }
    rewrite length_append; cbn [String.length].
    assert (Hs4 : s4 = "" \/ s4 = x ++ String c "").
    { subst s4 s3; rewrite E2.
      destruct (Sanitize.allDots (x ++ String c ""));
        [destruct (Sanitize.isWindowsReserved ""); auto|].
      destruct (Sanitize.isWindowsReserved (x ++ String c "")); auto. }
    clearbody s4; destruct Hs4 as [E|E]; subst s4.
    + change (Sanitize.trimTrailing "") with "" in *.
      change (String.length (Sanitize.truncate 255 "")) with 0; lia.
    + pose proof (trimTrailing_last x c Hc); lia.
  - lia.
Qed.

(** Letters outside ASCII are no control characters: such a name is
    left as it is, and a library can bear it. *)
Lemma sanitize_keeps_letters_outside_ascii :
  Sanitize.sanitize Sample.umlautName = Sample.umlautName
  /\ exists library w',
       createLibrary Example.cwd Sanitize.sanitize Example.service
         Sample.umlautName "sub" Example.world
       = (Return library, w')
       /\ MediaLibrary.name library = Sample.umlautName.
Proof.
  split; [reflexivity|].
  eexists _, _; split; reflexivity.
Qed.

(** X15. With [sanitize-filename] as modelled, a name that holds a
    separator, another illegal character or a control character of
    ASCII, that ends in a dot or a space, or that takes more than 255
    bytes, is rejected with [BadRequestException] and nothing is
    changed. *)
Theorem createLibrary_rejects_names_that_sanitize_shortens
  (cwd : string) (this : MediaService) (name pathStr : string) (w : World) :
  existsb (fun c => Sanitize.isIllegal c || Sanitize.isControl c)
    (Str.chars name) = true
  \/ (exists stem c,
        name = stem ++ String c "" /\ (c = "."%char \/ c = " "%char))
  \/ 255 < String.length name ->
  createLibrary cwd Sanitize.sanitize this name pathStr w
  = (Throw BadRequestException, w).
Proof.
  intros H; apply sanitize_shortens in H.
  rewrite createLibrary_cases.
  destruct (String.eqb (Sanitize.sanitize name) name) eqn:E; [|reflexivity].
  apply String.eqb_eq in E; rewrite E in H; lia.
Qed.

Lemma createLibrary_rejects_names_that_sanitize_shortens_witness :
  createLibrary Example.cwd Sanitize.sanitize Example.service
    "../../etc" "sub" Example.world
  = (Throw BadRequestException, Example.world)
  /\ createLibrary Example.cwd Sanitize.sanitize Example.service
       "Shows." "sub" Example.world
     = (Throw BadRequestException, Example.world).
Proof.
  split.
  - apply (createLibrary_rejects_names_that_sanitize_shortens
             Example.cwd Example.service "../../etc" "sub" Example.world).
    left; reflexivity.
  - apply (createLibrary_rejects_names_that_sanitize_shortens
             Example.cwd Example.service "Shows." "sub" Example.world).
    right; left; exists "Shows", "."%char; split; [reflexivity|].
    left; reflexivity.
Defined.

(* ================================================================== *)
(** * The base directory *)
(* ================================================================== *)

Lemma ancestor_of_resolved (k : nat) (segs : list string) :
  Forall (fun s => isSegment s = true) segs ->
  exists segs',
    Forall (fun s => isSegment s = true) segs'
    /\ ancestor k (String "/" (Str.join segs)) = String "/" (Str.join segs').
Proof.
  intros Hsegs.
  destruct (Nat.le_gt_cases k (List.length segs)) as [Hle|Hgt].
  - exists (firstn (List.length segs - k) segs); split.
    + apply Forall_firstn_keeps; exact Hsegs.
    + apply ancestor_resolved; auto.
  - exists []; split; [constructor|].
    replace k with ((k - List.length segs) + List.length segs) by lia.
    unfold ancestor; rewrite Nat.iter_add.
    fold (ancestor (List.length segs) (String "/" (Str.join segs))).
    rewrite ancestor_resolved by auto.
    rewrite Nat.sub_diag, firstn_O.
    apply (ancestor_fixed (k - List.length segs) "/"); reflexivity.
Qed.

(** With an absolute working directory, what [findExistingDir] returns
    is an existing directory in resolved form. *)
Lemma findExistingDir_resolved cwd root startPath d :
  Path.isAbsolute cwd = true ->
  findExistingDir cwd root startPath = Some d ->
  FS.isExistingDir cwd root d = true
  /\ exists segs,
       Forall (fun s => isSegment s = true) segs
       /\ d = String "/" (Str.join segs).
Proof.
  intros Hcwd H.
  apply findExistingDir_found in H; destruct H as (k & -> & Hd & _).
  split; [exact Hd|].
  destruct (resolve_form cwd [startPath] Hcwd) as (segs & Hsegs & ->).
  destruct (ancestor_of_resolved k segs Hsegs) as (segs' & H' & ->); eauto.
Qed.

Lemma findExistingDir_here cwd root p :
  FS.isExistingDir cwd root (Path.resolve cwd [p]) = true ->
  findExistingDir cwd root p = Some (Path.resolve cwd [p]).
Proof.
  intros H; unfold findExistingDir, enoughFuel.
  replace (2 * String.length (Path.resolve cwd [p]) + 4)
    with (S (2 * String.length (Path.resolve cwd [p]) + 3)) by lia.
  simpl; rewrite H; reflexivity.
Qed.

Lemma lookup_needs_root cwd root p n :
  FS.lookup cwd root p = Some n -> exists r w es, root = FS.Dir r w es.
Proof.
  unfold FS.lookup.
  pose proof (split_not_nil (if Path.isAbsolute p then p else cwd ++ "/" ++ p))
    as Hne.
  destruct (Str.split _) as [|seg rest]; [congruence|].
  destruct root as [d|r w es|]; simpl; try discriminate; eauto.
Qed.

(** X16. With an absolute working directory, what
    [findExistingDir] returns is absolute, in resolved form and an
    existing directory, and [findExistingDir] maps it to itself. *)
Theorem findExistingDir_returns_its_fixed_point
  (cwd : string) (root : FS.node) (startPath d : string) :
  Path.isAbsolute cwd = true ->
  findExistingDir cwd root startPath = Some d ->
  Path.isAbsolute d = true
  /\ Path.resolve cwd [d] = d
  /\ FS.isExistingDir cwd root d = true
  /\ findExistingDir cwd root d = Some d.
Proof.
  intros Hcwd H.
  destruct (findExistingDir_resolved cwd root startPath d Hcwd H)
    as (Hd & segs & Hsegs & ->).
  assert (Hr := resolve_resolved cwd segs Hsegs).
  split; [reflexivity|]; split; [exact Hr|]; split; [exact Hd|].
  rewrite <- Hr at 2; apply findExistingDir_here; rewrite Hr; exact Hd.
Qed.

Lemma findExistingDir_returns_its_fixed_point_witness :
  Path.isAbsolute "/srv" = true
  /\ Path.resolve Example.cwd ["/srv"] = "/srv"
  /\ FS.isExistingDir Example.cwd Example.tree "/srv" = true
  /\ findExistingDir Example.cwd Example.tree "/srv" = Some "/srv".
Proof.
  apply (findExistingDir_returns_its_fixed_point
           Example.cwd Example.tree "Media/new" "/srv"); reflexivity.
Defined.

Lemma findExistingDir_none cwd root startPath :
  findExistingDir cwd root startPath = None ->
  forall k,
  FS.isExistingDir cwd root (ancestor k (Path.resolve cwd [startPath]))
  = false.
Proof.
  unfold findExistingDir.
  set (p := Path.resolve cwd [startPath]).
  destruct (findExistingDirLoop_total cwd root (enoughFuel p) p
              (climb_lt_enoughFuel p)) as [r Hr].
  rewrite Hr; intros ->.
  eapply findExistingDirLoop_none; eauto.
Qed.

Lemma ancestor_reaches_root cwd startPath :
  Path.isAbsolute cwd = true ->
  exists k, ancestor k (Path.resolve cwd [startPath]) = "/".
Proof.
  intros Hcwd.
  destruct (ancestor_reaches_fixed (climb (Path.resolve cwd [startPath]))
              (Path.resolve cwd [startPath]) (le_n _)) as [k [_ Hfix]].
  exists k; apply dirname_fixed_absolute; [|exact Hfix].
  apply ancestor_absolute, resolve_absolute, Hcwd.
Qed.

(** X17. With an absolute working directory the constructor
    returns exactly when the root of the file system is a directory, and
    throws [Error] without any effect exactly when it is not.  The base
    directory of the service it returns is absolute, in resolved form
    and an existing directory, and the only effect is one log entry. *)
Theorem construct_succeeds_iff_the_root_is_a_directory
  (cwd : string) (mediaSubdir : option string) (w : World) :
  Path.isAbsolute cwd = true ->
  ((exists r wr es, disk w = FS.Dir r wr es)
   <-> exists this w', construct cwd mediaSubdir w = (Return this, w'))
  /\ ((forall r wr es, disk w <> FS.Dir r wr es)
      <-> construct cwd mediaSubdir w = (Throw Error, w))
  /\ forall this w',
       construct cwd mediaSubdir w = (Return this, w') ->
       w' = logged w [LogUsingBaseDirectory (baseDir this)]
       /\ Path.isAbsolute (baseDir this) = true
       /\ Path.resolve cwd [baseDir this] = baseDir this
       /\ FS.isExistingDir cwd (disk w') (baseDir this) = true.
Proof.
  intros Hcwd; unfold construct.
  set (start := userSpecifiedPath cwd mediaSubdir).
  destruct (findExistingDir cwd (disk w) start) as [d|] eqn:Hf.
  - destruct (findExistingDir_resolved cwd (disk w) start d Hcwd Hf)
      as (H3 & segs & Hsegs & E).
    assert (H1 : Path.isAbsolute d = true) by (rewrite E; reflexivity).
    assert (H2 : Path.resolve cwd [d] = d)
      by (rewrite E; apply resolve_resolved; exact Hsegs).
    clear segs Hsegs E.
    assert (Hroot : exists r wr es, disk w = FS.Dir r wr es).
    { rewrite isExistingDir_lookup in H3.
      destruct (FS.lookup cwd (disk w) d) as [n|] eqn:E; [|discriminate].
      eapply lookup_needs_root; exact E. }
    split; [split; eauto|]; split.
    + split; [|discriminate].
      intros Hno; destruct Hroot as (r & wr & es & E).
      exfalso; exact (Hno _ _ _ E).
    + intros this w' E; injection E as <- <-; simpl; auto.
  - assert (Hno : forall r wr es, disk w <> FS.Dir r wr es).
    { intros r wr es E.
      destruct (ancestor_reaches_root cwd start Hcwd) as (k & Hk).
      pose proof (findExistingDir_none cwd (disk w) start Hf k) as Hn.
      rewrite Hk, E in Hn; discriminate. }
    split; [|split].
    + split; [|intros (this & w' & E); discriminate].
      intros (r & wr & es & E); exfalso; exact (Hno _ _ _ E).
    + split; auto.
    + intros this w' E; discriminate.
Qed.

Lemma construct_succeeds_iff_the_root_is_a_directory_witness :
  ((exists r wr es, disk Example.world = FS.Dir r wr es)
   <-> exists this w',
         construct Example.cwd None Example.world = (Return this, w'))
  /\ ((forall r wr es, disk Example.world <> FS.Dir r wr es)
      <-> construct Example.cwd None Example.world
          = (Throw Error, Example.world))
  /\ forall this w',
       construct Example.cwd None Example.world = (Return this, w') ->
       w' = logged Example.world [LogUsingBaseDirectory (baseDir this)]
       /\ Path.isAbsolute (baseDir this) = true
       /\ Path.resolve Example.cwd [baseDir this] = baseDir this
       /\ FS.isExistingDir Example.cwd (disk w') (baseDir this) = true.
Proof.
  exact (construct_succeeds_iff_the_root_is_a_directory
           Example.cwd None Example.world eq_refl).
Defined.

(* ================================================================== *)
(** * The format of a duration *)
(* ================================================================== *)

Lemma padStart0_two_digits (z : Z) :
  (0 <= z < 100)%Z ->
  Str.padStart0 2 (Num.toString (Num.Int z)) = twoDigits z.
Proof.
  intros [Hlo Hhi].
  destruct z as [|p|p]; [reflexivity| |lia].
  do 7 (destruct p as [p|p|]; try (exfalso; lia); try reflexivity).
Qed.

Lemma digitsOf_length fuel :
  forall z acc, String.length acc <= String.length (Num.digitsOf fuel z acc).
Proof.
  induction fuel as [|k IH]; intros z acc; simpl; [lia|].
  destruct (z <? 10)%Z; simpl; [lia|].
  etransitivity; [|apply IH]; simpl; lia.
Qed.

Lemma decimal_long (z : Z) :
  (100 <= z)%Z -> 3 <= String.length (Num.decimal z).
Proof.
  intros Hz; unfold Num.decimal.
  destruct (z <? 0)%Z eqn:E; [apply Z.ltb_lt in E; lia|].
  assert (Hlog : (6 <= Z.log2 z)%Z)
    by (change 6%Z with (Z.log2 64); apply Z.log2_le_mono; lia).
  destruct (Z.to_nat (Z.log2 z)) as [|[|k]] eqn:Ek; try lia.
  cbn [Num.digitsOf].
  destruct (z <? 10)%Z eqn:E1; [apply Z.ltb_lt in E1; lia|].
  assert (H10 : (10 <= z / 10)%Z) by (apply Z.div_le_lower_bound; lia).
  destruct (z / 10 <? 10)%Z eqn:E2; [apply Z.ltb_lt in E2; lia|].
  destruct (z / 10 / 10 <? 10)%Z; simpl.
  - lia.
  - etransitivity; [|apply digitsOf_length]; simpl; lia.
Qed.

Lemma padStart0_long n s :
  n <= String.length s -> Str.padStart0 n s = s.
Proof.
  intros H; unfold Str.padStart0.
  replace (n - String.length s) with 0 by lia; reflexivity.
Qed.

Lemma Qfloor_nonneg (q : Q) : (0 <= q)%Q -> (0 <= Qfloor q)%Z.
Proof.
  intros Hq; rewrite <- (Qfloor_Z 0); apply Qfloor_resp_le; exact Hq.
Qed.

(** X18. For a double of seconds that is not negative and below
    2^53, the minutes and the seconds always take two digits.  Below
    100 hours the result is the eight characters of HH:MM:SS; from 100
    hours on the hours take more digits and the result is longer. *)
Theorem secondsToHMS_is_HH_MM_SS_below_100_hours (q : Q) :
  Num.isDouble q = true ->
  (q < 2 ^ 53)%Q ->
  let n := Qfloor q in
  secondsToHMS (Num.Finite false q)
  = Str.padStart0 2 (Num.decimal (n / 3600)) ++ ":"
    ++ twoDigits ((n mod 3600) / 60) ++ ":" ++ twoDigits (n mod 60)
  /\ ((q < 360000)%Q ->
      secondsToHMS (Num.Finite false q)
      = twoDigits (n / 3600) ++ ":" ++ twoDigits ((n mod 3600) / 60)
        ++ ":" ++ twoDigits (n mod 60)
      /\ String.length (secondsToHMS (Num.Finite false q)) = 8)
  /\ ((360000 <= q)%Q ->
      9 <= String.length (secondsToHMS (Num.Finite false q))).
Proof.
  intros Hd H53 n.
  pose proof (isDouble_nonneg q Hd) as Hq.
  assert (Hn : (0 <= n)%Z) by (apply Qfloor_nonneg; exact Hq).
  assert (Hn53 : (n < 2 ^ 53)%Z).
  { rewrite Zlt_Qlt, pow2_Z by lia.
    eapply Qle_lt_trans; [apply Qfloor_le|exact H53]. }
  assert (Hm : (0 <= (n mod 3600) / 60 < 60)%Z).
  { pose proof (Z.mod_pos_bound n 3600 ltac:(lia)).
    split; [apply Z.div_pos; lia|apply Z.div_lt_upper_bound; lia]. }
  assert (Hs : (0 <= n mod 60 < 60)%Z) by (apply Z.mod_pos_bound; lia).
  assert (Hh : (0 <= n / 3600 < 2 ^ 53)%Z).
  { split; [apply Z.div_pos; lia|].
    apply Z.div_lt_upper_bound; lia. }
  assert (Eh : Num.toString (Num.Int (n / 3600)) = Num.decimal (n / 3600)).
  { unfold Num.toString, Num.printed.
    destruct (n / 3600 <? 0)%Z eqn:E1; [apply Z.ltb_lt in E1; lia|].
    destruct (n / 3600 <? 2 ^ 53)%Z eqn:E2; [reflexivity|].
    apply Z.ltb_ge in E2; lia. }
  assert (E : secondsToHMS (Num.Finite false q)
              = Str.padStart0 2 (Num.decimal (n / 3600)) ++ ":"
                ++ twoDigits ((n mod 3600) / 60) ++ ":"
                ++ twoDigits (n mod 60)).
  { unfold secondsToHMS; rewrite (hmsFields_floor q Hd Hq H53); fold n.
    cbn [map String.concat].
    rewrite (padStart0_two_digits ((n mod 3600) / 60)) by lia.
    rewrite (padStart0_two_digits (n mod 60)) by lia.
    rewrite Eh; reflexivity. }
  split; [exact E|]; split.
  - intros Hlt.
    assert (Hh' : (0 <= n / 3600 < 100)%Z).
    { split; [apply Z.div_pos; lia|].
      apply Z.div_lt_upper_bound; [lia|].
      assert (Hq' : (inject_Z n < inject_Z 360000)%Q).
      { eapply Qle_lt_trans; [apply Qfloor_le|exact Hlt]. }
      rewrite <- Zlt_Qlt in Hq'; lia. }
    rewrite E, <- Eh.
    rewrite (padStart0_two_digits (n / 3600) Hh').
    split; reflexivity.
  - intros Hge.
    assert (Hh' : (100 <= n / 3600)%Z).
    { apply Z.div_le_lower_bound; [lia|].
      change (3600 * 100)%Z with (Qfloor (inject_Z 360000)).
      unfold n; apply Qfloor_resp_le; exact Hge. }
    pose proof (decimal_long _ Hh') as Hlen.
    rewrite E, padStart0_long by lia.
    rewrite length_append; simpl; lia.
Qed.

Lemma secondsToHMS_is_HH_MM_SS_below_100_hours_witness :
  secondsToHMS (Num.Finite false (7322 # 1))
  = Str.padStart0 2 (Num.decimal 2) ++ ":" ++ twoDigits 2 ++ ":" ++ twoDigits 2
  /\ (((7322 # 1) < 360000)%Q ->
      secondsToHMS (Num.Finite false (7322 # 1))
      = twoDigits 2 ++ ":" ++ twoDigits 2 ++ ":" ++ twoDigits 2
      /\ String.length (secondsToHMS (Num.Finite false (7322 # 1))) = 8)
  /\ ((360000 <= (7322 # 1))%Q ->
      9 <= String.length (secondsToHMS (Num.Finite false (7322 # 1)))).
Proof.
  apply (secondsToHMS_is_HH_MM_SS_below_100_hours (7322 # 1)).
  - vm_compute; reflexivity.
  - apply Qlt_alt; vm_compute; reflexivity.
Defined.

(** X19. When the probe of a new file reports a duration that
    [parseFloat] cannot read, such as [N/A], the Item is saved with the
    duration [NaN:NaN:NaN], not with a null duration. *)
Theorem unparsable_duration_is_stored_as_NaN
  (cwd : string) (libraryId : nat) (w : World) (library : MediaLibrary.t)
  (file filePath : string) (data : FileData) (reported : string) :
  Str.isEmpty reported = false ->
  Num.parseFloat reported = Num.NaN ->
  probe data = Some {| format := Some {| duration := reported |} |} ->
  Repo.findLibraryById (db w) libraryId = Some library ->
  In (file, filePath, data) (libraryFiles cwd (disk w) library) ->
  isIndexed (db w) filePath = false ->
  probeDuration (probe data) = (Some "NaN:NaN:NaN", false)
  /\ exists id,
       In {| MediaItem.id := id;
             MediaItem.filename := file;
             MediaItem.filepath := filePath;
             MediaItem.size := byteSize data;
             MediaItem.duration := Some "NaN:NaN:NaN";
             MediaItem.library := MediaLibrary.id library |}
         (Repo.items (db (snd (scanLibrary cwd libraryId w)))).
Proof.
  intros Hne Hnan Hprobe Hlib Hin Hnew.
  assert (Hd : probeDuration (probe data) = (Some "NaN:NaN:NaN", false)).
  { rewrite Hprobe; unfold probeDuration; simpl.
    rewrite Hne, Hnan; reflexivity. }
  split; [exact Hd|].
  destruct (scanLibrary_found cwd libraryId w library Hlib) as (_ & _ & Hdb).
  assert (Hb : In (scannedItem library (file, filePath, data))
                 (newItems (db w) library
                    (libraryFiles cwd (disk w) library))).
  { unfold newItems; apply in_map, filter_In; split; [exact Hin|].
    simpl; rewrite Hnew; reflexivity. }
  rewrite Hdb.
  destruct (newItems _ _ _) as [|i batch]; [destruct Hb|].
  destruct (assignIds_in (Repo.nextItemId (db w)) _ _ Hb) as [k Hk].
  exists k; unfold Repo.saveItems; cbn [Repo.items].
  apply in_or_app; right.
  unfold scannedItem, Repo.withId in Hk; simpl in Hk.
  rewrite Hd in Hk; exact Hk.
Qed.

Lemma unparsable_duration_is_stored_as_NaN_witness :
  probeDuration (Some {| format := Some {| duration := "N/A" |} |})
  = (Some "NaN:NaN:NaN", false)
  /\ exists id,
       In {| MediaItem.id := id;
             MediaItem.filename := "live.mkv";
             MediaItem.filepath := "/srv/media/live.mkv";
             MediaItem.size := 9;
             MediaItem.duration := Some "NaN:NaN:NaN";
             MediaItem.library := 1 |}
         (Repo.items (db (snd (scanLibrary Example.cwd 1 Sample.live)))).
Proof.
  apply (unparsable_duration_is_stored_as_NaN
           Example.cwd 1 Sample.live Example.movies
           "live.mkv" "/srv/media/live.mkv"
           {| byteSize := 9;
              probe := Some {| format := Some {| duration := "N/A" |} |} |}
           "N/A").
  - reflexivity.
  - reflexivity.
  - reflexivity.
  - reflexivity.
  - vm_compute; left; reflexivity.
  - reflexivity.
Defined.

(* ================================================================== *)
(** * Lexical and real paths *)
(* ================================================================== *)

Lemma reach_walk root (res : list string) :
  forall stack cur more,
  reach root res stack cur ->
  FS.walk [] root (rev res ++ more) = FS.walk stack cur more.
Proof.
  induction res as [|seg res IH]; intros stack cur more H.
  - destruct stack; [|destruct H]. simpl in H; subst; reflexivity.
  - destruct stack as [|parent stack]; [destruct H|].
    destruct H as (Hseg & (r & w & es & -> & Hc) & H).
    simpl rev; rewrite <- app_assoc; simpl app.
    rewrite (IH _ _ _ H), walk_cons by exact Hseg.
    rewrite Hc; reflexivity.
Qed.

(** When the operating system finds a path, it finds the same node at
    the normalized path. *)
Lemma walk_normalized_from root (segs : list string) :
  Forall (fun s => noSlash s = true) segs ->
  forall res stack cur n,
  reach root res stack cur ->
  FS.walk stack cur segs = Some n ->
  FS.walk [] root (Path.normalizeSegments false res segs) = Some n.
Proof.
  induction 1 as [|seg rest Hseg _ IH]; intros res stack cur n Hr Hw.
  - simpl in *; rewrite <- (app_nil_r (rev res)).
    rewrite (reach_walk _ _ _ _ [] Hr); exact Hw.
  - simpl in Hw |- *.
    destruct cur as [d|r w entries|]; try discriminate.
    destruct (Str.isEmpty seg || String.eqb seg ".") eqn:E1;
      [eapply IH; eauto|].
    destruct (String.eqb seg "..") eqn:E2.
    + destruct stack as [|parent stack'].
      * destruct res; [|destruct Hr]. eapply IH; eauto.
      * destruct res as [|last res']; [destruct Hr|].
        destruct Hr as (Hlast & _ & Hr).
        destruct (isSegment_spec _ Hlast) as (_ & _ & E3 & _).
        rewrite E3; eapply IH; eauto.
    + destruct (FS.child seg entries) as [c|] eqn:Hc; [|discriminate].
      apply (IH (seg :: res) (FS.Dir r w entries :: stack) c n); [|exact Hw].
      apply orb_false_elim in E1; destruct E1 as [E0 E1].
      split; [|split; [eauto|exact Hr]].
      unfold isSegment; rewrite E0, E1, E2, Hseg; reflexivity.
Qed.

Lemma walk_normalized root (segs : list string) (n : FS.node) :
  Forall (fun s => noSlash s = true) segs ->
  FS.walk [] root segs = Some n ->
  FS.walk [] root (Path.normalizeSegments false [] segs) = Some n.
Proof.
  intros Hsegs H.
  apply (walk_normalized_from root segs Hsegs [] [] root n); [reflexivity|].
  exact H.
Qed.

Lemma walk_snoc (segs : list string) (name : string) :
  Forall (fun s => isSegment s = true) segs -> isSegment name = true ->
  forall stack cur,
  FS.walk stack cur (segs ++ [name])
  = match FS.walk stack cur segs with
    | Some (FS.Dir _ _ es) => FS.child name es
    | _ => None
    end.
Proof.
  intros Hsegs Hname.
  induction Hsegs as [|seg rest Hseg _ IH]; intros stack cur.
  - simpl app.
    destruct cur as [d|r w es|]; try reflexivity.
    rewrite walk_cons by exact Hname.
    cbn [FS.walk].
    destruct (FS.child name es); reflexivity.
  - simpl app.
    destruct cur as [d|r w es|]; try reflexivity.
    rewrite !walk_cons by exact Hseg.
    destruct (FS.child seg es); [apply IH|reflexivity].
Qed.

(** What [normalizeString] keeps of a relative path stands for the
    path itself when it is resolved below proper segments. *)
Lemma normalizeSegments_twice (segs : list string) :
  Forall (fun s => noSlash s = true) segs ->
  forall acc res,
  Forall (fun s => noSlash s = true) acc ->
  Forall (fun s => (Str.isEmpty s || String.eqb s ".") = false) acc ->
  Forall (fun s => isSegment s = true) res ->
  Path.normalizeSegments false res (Path.normalizeSegments true acc segs)
  = Path.normalizeSegments false
      (rev (Path.normalizeSegments false res (rev acc))) segs.
Proof.
  induction 1 as [|seg rest Hseg Hrest IH]; intros acc res Hacc Hacc' Hres.
  - simpl; rewrite rev_involutive; reflexivity.
  - assert (HR : Forall (fun s => isSegment s = true)
                   (rev (Path.normalizeSegments false res (rev acc)))).
    { apply Forall_rev, normalizeSegments_gives_segments; [|exact Hres].
      apply Forall_rev; exact Hacc. }
    set (R := rev (Path.normalizeSegments false res (rev acc))) in *.
    simpl.
    destruct (Str.isEmpty seg || String.eqb seg ".") eqn:E1;
      [apply IH; auto|].
    destruct (String.eqb seg "..") eqn:E2.
    + apply String.eqb_eq in E2; subst seg.
      assert (Hpop : forall acc',
                 Forall (fun s => noSlash s = true) acc' ->
                 Forall (fun s => (Str.isEmpty s || String.eqb s ".") = false)
                   acc' ->
                 rev (Path.normalizeSegments false res (rev acc')) = tl R ->
                 Path.normalizeSegments false res
                   (Path.normalizeSegments true acc' rest)
                 = match R with
                   | [] => Path.normalizeSegments false [] rest
                   | last :: R' =>
                       if String.eqb last ".." then
                         Path.normalizeSegments false R rest
                       else Path.normalizeSegments false R' rest
                   end).
      { intros acc' H1 H2 H3; rewrite IH, H3 by auto.
        destruct R as [|last R']; [reflexivity|].
        inversion HR as [|? ? Hl _]; subst.
        destruct (isSegment_spec _ Hl) as (_ & _ & E3 & _).
        rewrite E3; reflexivity. }
      assert (Hup : rev (Path.normalizeSegments false res
                           (rev acc ++ [".."])) = tl R).
      { rewrite normalizeSegments_app; fold R.
        destruct R as [|last R']; [reflexivity|].
        inversion HR as [|? ? Hl _]; subst.
        destruct (isSegment_spec _ Hl) as (_ & _ & E3 & _).
        simpl; rewrite E3, rev_involutive; reflexivity. }
      destruct acc as [|last acc'].
      * apply Hpop; [repeat constructor|repeat constructor|exact Hup].
      * destruct (String.eqb last "..") eqn:E3.
        -- apply Hpop; [constructor; auto|constructor; auto|exact Hup].
        -- inversion Hacc as [|? ? Hl Hacc1]; subst.
           inversion Hacc' as [|? ? Hl' Hacc1']; subst.
           apply Hpop; [exact Hacc1|exact Hacc1'|].
           assert (Hlast : isSegment last = true).
           { apply orb_false_elim in Hl'; destruct Hl' as [E0 E0'].
             unfold isSegment; rewrite E0, E0', E3, Hl; reflexivity. }
           subst R; simpl rev.
           rewrite normalizeSegments_app.
           rewrite (normalizeSegments_segments false [last]
                      (Forall_cons _ Hlast (Forall_nil _))).
           rewrite rev_involutive, rev_app_distr; reflexivity.
    + assert (Hs : isSegment seg = true).
      { apply orb_false_elim in E1; destruct E1 as [E0 E0'].
        unfold isSegment; rewrite E0, E0', E2, Hseg; reflexivity. }
      rewrite IH by (try constructor; auto).
      simpl rev; rewrite normalizeSegments_app; fold R.
      rewrite (normalizeSegments_segments false [seg]
                 (Forall_cons _ Hs (Forall_nil _))).
      rewrite rev_app_distr, rev_involutive; reflexivity.
Qed.

Lemma normalizeSegments_kept (allow : bool) (segs : list string) :
  Forall (fun s => noSlash s = true) segs ->
  forall acc,
  Forall (fun s => noSlash s = true /\ Str.isEmpty s = false) acc ->
  Forall (fun s => noSlash s = true /\ Str.isEmpty s = false)
    (Path.normalizeSegments allow acc segs).
Proof.
  induction 1 as [|seg rest Hseg _ IH]; intros acc Hacc; simpl.
  - apply Forall_rev; exact Hacc.
  - destruct (Str.isEmpty seg) eqn:E1; simpl; [apply IH; exact Hacc|].
    destruct (String.eqb seg "."); [apply IH; exact Hacc|].
    destruct (String.eqb seg "..") eqn:E3.
    + apply String.eqb_eq in E3; subst seg.
      destruct acc as [|last acc'].
      * destruct allow; apply IH; repeat constructor.
      * inversion Hacc; subst.
        destruct (String.eqb last "..");
          [destruct allow; apply IH; auto|apply IH; auto].
    + apply IH; constructor; auto.
Qed.

Lemma join_head_relative (x : string) (l : list string) :
  noSlash x = true -> Str.isEmpty x = false ->
  Path.isAbsolute (Str.join (x :: l)) = false
  /\ Str.isEmpty (Str.join (x :: l)) = false.
Proof.
  intros Hx Hne; destruct x as [|c r]; [discriminate|].
  unfold noSlash in Hx; simpl in Hx.
  apply andb_prop in Hx; destruct Hx as [Hc _].
  apply negb_true_iff in Hc.
  unfold Str.join; destruct l; simpl; auto.
Qed.

(** [path.join(dir, name)] for a relative [dir] and a proper name. *)
Lemma join_relative (dir name : string) :
  Path.isAbsolute dir = false -> isSegment name = true ->
  Path.join [dir; name]
  = Str.join (Path.normalizeSegments true [] (Str.split dir) ++ [name]).
Proof.
  intros Hdir Hname.
  destruct (isSegment_spec _ Hname) as (Hne & E2 & E3 & Hns).
  assert (Hkept := normalizeSegments_kept true (Str.split dir)
                     (split_noSlash dir) [] (Forall_nil _)).
  set (T := Path.normalizeSegments true [] (Str.split dir)) in *.
  assert (Hq : Path.normalizeSegments true []
                 (Str.split dir ++ [name]) = (T ++ [name])%list).
  { rewrite normalizeSegments_app; fold T.
    rewrite (normalizeSegments_segments true [name])
      by (repeat constructor; exact Hname).
    rewrite rev_involutive; reflexivity. }
  assert (Hhead : exists x l, (T ++ [name])%list = x :: l
                              /\ noSlash x = true /\ Str.isEmpty x = false).
  { destruct T as [|x l]; [exists name, []; auto|].
    inversion Hkept as [|? ? [H1 H2] _]; subst.
    exists x, (l ++ [name])%list; auto. }
  destruct Hhead as (x & l & Ehead & Hx & Hxne).
  destruct (join_head_relative x l Hx Hxne) as [_ Hjne].
  unfold Path.join; simpl filter; rewrite Hne; simpl negb; cbv iota.
  destruct dir as [|c0 d0] eqn:Edir.
  - simpl Str.isEmpty; simpl negb; cbv iota.
    unfold Str.join at 1; cbn [String.concat].
    unfold Path.normalize, Path.normalizeString.
    rewrite Hne.
    destruct (join_head_relative name [] Hns Hne) as [Hrel _].
    unfold Str.join in Hrel; simpl in Hrel; rewrite Hrel; simpl negb.
    rewrite (split_one name Hns).
    rewrite (normalizeSegments_segments true [name])
      by (repeat constructor; exact Hname).
    simpl rev; simpl app.
    unfold Str.join at 1; cbn [String.concat]; rewrite Hne.
    rewrite (endsWithSlash_noSlash _ Hns); reflexivity.
  - rewrite <- Edir in *.
    assert (Hd : Str.isEmpty dir = false) by (subst dir; reflexivity).
    rewrite Hd; simpl negb; cbv iota.
    unfold Str.join at 1; cbn [String.concat].
    change ("/" ++ name) with (String "/" name).
    unfold Path.normalize, Path.normalizeString.
    assert (Hd' : Str.isEmpty (dir ++ String "/" name) = false)
      by (subst dir; reflexivity).
    assert (Ha : Path.isAbsolute (dir ++ String "/" name) = false)
      by (subst dir; exact Hdir).
    rewrite Hd', Ha; simpl negb.
    rewrite split_append_slash, (split_one name Hns), Hq, Ehead, Hjne.
    rewrite endsWithSlash_append by reflexivity.
    change (Str.endsWithSlash (String "/" name))
      with (match name with
            | EmptyString => Str.isSlash "/"
            | _ => Str.endsWithSlash name
            end).
    destruct name as [|c r]; [discriminate|].
    rewrite (endsWithSlash_noSlash _ Hns); reflexivity.
Qed.

Lemma resolve_relative (cwd : string) (bs : list string) (rel : string) :
  Forall (fun s => isSegment s = true) bs ->
  Path.isAbsolute rel = false ->
  Path.resolve cwd [String "/" (Str.join bs); rel]
  = String "/" (Str.join
                  (Path.normalizeSegments false (rev bs) (Str.split rel))).
Proof.
  intros Hbs Hrel.
  destruct (Str.isEmpty rel) eqn:Hne.
  - destruct rel; [|discriminate].
    rewrite resolve_base_alone, resolve_resolved by exact Hbs.
    simpl; rewrite rev_involutive; reflexivity.
  - unfold Path.resolve; simpl rev; cbn [Path.resolveArgs].
    rewrite Hne, Hrel; simpl Str.isEmpty; cbv iota.
    change (Path.isAbsolute (String "/" ?x)) with true; cbv iota.
    unfold Path.normalizeString; simpl negb.
    rewrite append_empty_r.
    cbn [String.append Str.split]; change (Str.isSlash "/") with true.
    cbv iota.
    rewrite split_append_slash.
    change (Path.normalizeSegments false [] ("" :: ?l))
      with (Path.normalizeSegments false [] l).
    rewrite normalizeSegments_app.
    assert (Hb : Path.normalizeSegments false []
                   (Str.split (Str.join bs)) = bs).
    { pose proof (split_resolved bs Hbs) as H.
      change (Str.split (String "/" (Str.join bs)))
        with ("" :: Str.split (Str.join bs)) in H.
      exact H. }
    rewrite Hb.
    change (rel ++ "/") with (rel ++ String "/" "").
    rewrite split_append_slash, normalizeSegments_app.
    simpl; rewrite rev_involutive; reflexivity.
Qed.

(** The entry [name] of a directory that a listing has found at [dir]
    is what lies at [path.join(dir, name)], for the listing and for
    [stat]. *)
Lemma listed_entry (cwd : string) (this : MediaService) (root : FS.node)
  (bs : list string) (dir name : string) (r wr : bool)
  (entries : list (string * FS.node)) :
  baseDir this = String "/" (Str.join bs) ->
  Forall (fun s => isSegment s = true) bs ->
  isSegment name = true ->
  FS.lookup cwd root (toAbsolute cwd this dir) = Some (FS.Dir r wr entries) ->
  FS.lookup cwd root (toAbsolute cwd this (Path.join [dir; name]))
  = FS.child name entries
  /\ FS.lookup cwd root
       (Path.resolve cwd [baseDir this; Path.join [dir; name]])
     = FS.child name entries.
Proof.
  intros Ebase Hbs Hname Hl.
  destruct (lookup_needs_root _ _ _ _ Hl) as (r0 & w0 & es0 & Eroot).
  assert (Hfind : forall S,
             Forall (fun s => isSegment s = true) S ->
             FS.walk [] root S = Some (FS.Dir r wr entries) ->
             FS.lookup cwd root (String "/" (Str.join (S ++ [name])))
             = FS.child name entries).
  { intros S HS Hw.
    rewrite lookup_resolved
      by (apply Forall_app; split; [exact HS|repeat constructor; exact Hname]).
    rewrite Eroot; rewrite <- Eroot.
    rewrite walk_snoc, Hw by auto; reflexivity. }
  unfold toAbsolute in *.
  destruct (Path.isAbsolute dir) eqn:Hdir.
  - (* an absolute directory, looked up as it is written *)
    rewrite (join_absolute dir name Hdir Hname).
    change (Path.isAbsolute (String "/" ?x)) with true; cbv iota.
    set (S := Path.normalizeSegments false [] (Str.split dir)).
    assert (HS : Forall (fun s => isSegment s = true) S).
    { apply normalizeSegments_gives_segments;
        [apply split_noSlash|constructor]. }
    assert (Hw : FS.walk [] root S = Some (FS.Dir r wr entries)).
    { apply walk_normalized; [apply split_noSlash|].
      unfold FS.lookup in Hl; rewrite Hdir in Hl; exact Hl. }
    split; [apply Hfind; auto|].
    assert (E : Path.resolve cwd
                  [baseDir this; String "/" (Str.join (S ++ [name]))]
                = Path.resolve cwd [String "/" (Str.join (S ++ [name]))]).
    { unfold Path.resolve; simpl rev; cbn [Path.resolveArgs].
      reflexivity. }
    rewrite E, resolve_resolved
      by (apply Forall_app; split; [exact HS|repeat constructor; exact Hname]).
    apply Hfind; auto.
  - (* a directory relative to the base directory *)
    rewrite (join_relative dir name Hdir Hname).
    set (T := Path.normalizeSegments true [] (Str.split dir)).
    assert (Hkept := normalizeSegments_kept true (Str.split dir)
                       (split_noSlash dir) [] (Forall_nil _)).
    fold T in Hkept.
    destruct (isSegment_spec _ Hname) as (Hne & _ & _ & Hns).
    assert (Hall : Forall (fun s => noSlash s = true) (T ++ [name])).
    { apply Forall_app; split; [|repeat constructor; exact Hns].
      eapply Forall_impl; [|exact Hkept]; intros s Hs; apply Hs. }
    assert (Hrel : Path.isAbsolute (Str.join (T ++ [name])) = false).
    { destruct T as [|x l]; simpl app.
      - apply (join_head_relative name []); auto.
      - inversion Hkept as [|? ? [H1 H2] _]; subst.
        apply (join_head_relative x (l ++ [name])); auto. }
    rewrite Hrel, Ebase in *.
    rewrite (resolve_relative cwd bs _ Hbs Hrel).
    rewrite (resolve_relative cwd bs _ Hbs Hdir) in Hl.
    rewrite split_join
      by (auto; destruct T; discriminate).
    rewrite normalizeSegments_app.
    unfold T.
    rewrite (normalizeSegments_twice (Str.split dir) (split_noSlash dir)
               [] (rev bs))
      by (try constructor; apply Forall_rev; exact Hbs).
    assert (E0 : rev (Path.normalizeSegments false (rev bs) (rev []))
                 = rev bs)
      by (simpl; rewrite rev_involutive; reflexivity).
    rewrite E0.
    set (S := Path.normalizeSegments false (rev bs) (Str.split dir)) in *.
    assert (HS : Forall (fun s => isSegment s = true) S).
    { apply normalizeSegments_gives_segments;
        [apply split_noSlash|apply Forall_rev; exact Hbs]. }
    rewrite (normalizeSegments_segments false [name])
      by (repeat constructor; exact Hname).
    rewrite rev_involutive.
    rewrite lookup_resolved, Eroot in Hl by exact HS.
    rewrite <- Eroot in Hl.
    split; apply Hfind; auto.
Qed.

(* ================================================================== *)
(** * What the listings return *)
(* ================================================================== *)

Lemma child_of_entry (entries : list (string * FS.node)) name n :
  NoDup (map fst entries) -> In (name, n) entries ->
  FS.child name entries = Some n.
Proof.
  induction entries as [|[x c] rest IH]; simpl; [tauto|].
  intros Hnd [E|Hin].
  - injection E as -> ->; rewrite String.eqb_refl; reflexivity.
  - inversion Hnd as [|? ? Hx Hrest]; subst.
    destruct (String.eqb x name) eqn:E; [|auto].
    apply String.eqb_eq in E; subst x.
    exfalso; apply Hx; apply in_map_iff; exists (name, n); auto.
Qed.

Lemma directoryEntries_in entries name :
  In name (directoryEntries entries) ->
  exists r w es, In (name, FS.Dir r w es) entries.
Proof.
  unfold directoryEntries; intros H; apply in_flat_map in H.
  destruct H as ([x n] & Hin & H); simpl in H.
  destruct n as [d|r w es|]; simpl in H; try tauto.
  destruct H as [->|[]]; eauto.
Qed.

Lemma movieEntries_in entries name d :
  In (name, d) (movieEntries entries) -> In (name, FS.File d) entries.
Proof.
  unfold movieEntries; intros H; apply in_flat_map in H.
  destruct H as ([x n] & Hin & H); simpl in H.
  destruct n as [d'|r w es|]; simpl in H; try tauto.
  destruct (isSupported x); [|destruct H].
  destruct H as [E|[]]; injection E as -> ->; exact Hin.
Qed.

Lemma listed_directories (dir : string) (entries : list (string * FS.node)) :
  map (fun d : FS.Dirent =>
         {| nodeName := FS.name d;
            nodePath := Path.join [dir; FS.name d];
            nodeIsDirectory := true |})
    (filter FS.direntIsDirectory (map FS.direntOf entries))
  = map (fun name =>
           {| nodeName := name;
              nodePath := Path.join [dir; name];
              nodeIsDirectory := true |})
      (directoryEntries entries).
Proof.
  induction entries as [|[x n] rest IH]; [reflexivity|].
  simpl; destruct n as [d|r w es|]; simpl; rewrite ?IH; reflexivity.
Qed.

(** X20. Over a readable directory whose entries are as
    [readdir] shows them, and with a base directory in resolved form,
    [getSubdirectories] returns exactly the subdirectories, in order,
    each with the path [path.join(dir, name)]; and each of these paths
    leads to a directory, so that listing it does not end in
    [NotFoundException]. *)
Theorem getSubdirectories_lists_directories_that_can_be_listed
  (cwd : string) (this : MediaService) (dir : string) (w : World)
  (wr : bool) (entries : list (string * FS.node)) :
  Path.isAbsolute (baseDir this) = true ->
  Path.resolve cwd [baseDir this] = baseDir this ->
  FS.lookup cwd (disk w) (toAbsolute cwd this dir)
  = Some (FS.Dir true wr entries) ->
  wellFormed (FS.Dir true wr entries) ->
  getSubdirectories cwd this dir w
  = Return (map (fun name =>
                   {| nodeName := name;
                      nodePath := Path.join [dir; name];
                      nodeIsDirectory := true |})
              (directoryEntries entries))
  /\ forall name,
       In name (directoryEntries entries) ->
       (exists r' w' es',
          FS.lookup cwd (disk w) (toAbsolute cwd this (Path.join [dir; name]))
          = Some (FS.Dir r' w' es'))
       /\ getSubdirectories cwd this (Path.join [dir; name]) w
          <> Throw NotFoundException.
Proof.
  intros Habs Hres Hl (Hnd & Hseg & _).
  destruct (resolved_form cwd _ Habs Hres) as (bs & Hbs & Ebase).
  split.
  - unfold getSubdirectories, FS.readdirTypes.
    rewrite isExistingDir_lookup, Hl; simpl negb; cbv iota.
    rewrite listed_directories; reflexivity.
  - intros name Hin.
    destruct (directoryEntries_in _ _ Hin) as (r' & w' & es' & He).
    assert (Hname : isSegment name = true).
    { rewrite Forall_forall in Hseg; exact (Hseg _ He). }
    destruct (listed_entry cwd this (disk w) bs dir name true wr entries
                Ebase Hbs Hname Hl) as [H1 _].
    rewrite (child_of_entry _ _ _ Hnd He) in H1.
    split; [eauto|].
    unfold getSubdirectories.
    rewrite isExistingDir_lookup, H1; simpl negb; cbv iota.
    destruct (FS.readdirTypes _ _ _); discriminate.
Qed.

Lemma sample_media_wellFormed :
  wellFormed (FS.Dir true true Sample.mediaEntries).
Proof.
  vm_compute; repeat split; repeat constructor; simpl; intuition discriminate.
Qed.

Lemma getSubdirectories_lists_directories_that_can_be_listed_witness :
  getSubdirectories Example.cwd Example.service "" Example.world
  = Return (map (fun name =>
                   {| nodeName := name;
                      nodePath := Path.join [""; name];
                      nodeIsDirectory := true |})
              (directoryEntries Sample.mediaEntries))
  /\ forall name,
       In name (directoryEntries Sample.mediaEntries) ->
       (exists r' w' es',
          FS.lookup Example.cwd (disk Example.world)
            (toAbsolute Example.cwd Example.service (Path.join [""; name]))
          = Some (FS.Dir r' w' es'))
       /\ getSubdirectories Example.cwd Example.service
            (Path.join [""; name]) Example.world
          <> Throw NotFoundException.
Proof.
  apply (getSubdirectories_lists_directories_that_can_be_listed
           Example.cwd Example.service "" Example.world true
           Sample.mediaEntries).
  - reflexivity.
  - reflexivity.
  - reflexivity.
  - exact sample_media_wellFormed.
Defined.

Lemma listed_movies (cwd : string) (this : MediaService) (root : FS.node)
  (dir : string) (entries : list (string * FS.node)) :
  (forall name d,
     In (name, FS.File d) entries ->
     FS.statSync cwd root
       (Path.resolve cwd [baseDir this; Path.join [dir; name]])
     = Some {| FS.isDirectory := false; FS.size := byteSize d |}) ->
  forall es,
  (forall e, In e es -> In e entries) ->
  let files :=
    filter (fun item => FS.direntIsFile item && isSupported (FS.name item))
      (map FS.direntOf es) in
  map (fun file =>
         {| movieName := FS.name file;
            moviePath := Path.join [dir; FS.name file];
            movieSize :=
              match FS.statSync cwd root
                      (Path.resolve cwd
                         [baseDir this; Path.join [dir; FS.name file]])
              with
              | Some st => FS.size st
              | None => 0%Z
              end |}) files
  = map (fun f => {| movieName := fst f;
                     moviePath := Path.join [dir; fst f];
                     movieSize := byteSize (snd f) |})
      (movieEntries es)
  /\ flat_map (fun file =>
                 match FS.statSync cwd root
                         (Path.resolve cwd
                            [baseDir this; Path.join [dir; FS.name file]])
                 with
                 | Some _ => []
                 | None =>
                     [WarnCannotStatFile
                        (Path.resolve cwd
                           [baseDir this; Path.join [dir; FS.name file]])]
                 end) files
     = [].
Proof.
  intros Hstat es; induction es as [|[x n] rest IH]; intros Hsub files.
  - split; reflexivity.
  - destruct IH as [IH1 IH2]; [intros e He; apply Hsub; right; exact He|].
    subst files; simpl.
    destruct n as [d|r w es'|]; simpl; auto.
    destruct (isSupported x); simpl; auto.
    rewrite (Hstat x d) by (apply Hsub; left; reflexivity).
    simpl; rewrite IH1, IH2; auto.
Qed.

(** X21. Over the same, [getScannableMovies] returns exactly the
    regular files with a supported extension, in order, each with the
    size of the file on disk, and logs no warning. *)
Theorem getScannableMovies_lists_files_with_their_sizes
  (cwd : string) (this : MediaService) (dir : string) (w : World)
  (wr : bool) (entries : list (string * FS.node)) :
  Path.isAbsolute (baseDir this) = true ->
  Path.resolve cwd [baseDir this] = baseDir this ->
  FS.lookup cwd (disk w) (toAbsolute cwd this dir)
  = Some (FS.Dir true wr entries) ->
  wellFormed (FS.Dir true wr entries) ->
  getScannableMovies cwd this dir w
  = (Return (map (fun f => {| movieName := fst f;
                              moviePath := Path.join [dir; fst f];
                              movieSize := byteSize (snd f) |})
               (movieEntries entries)),
     logged w []).
Proof.
  intros Habs Hres Hl (Hnd & Hseg & _).
  destruct (resolved_form cwd _ Habs Hres) as (bs & Hbs & Ebase).
  assert (Hstat : forall name d,
             In (name, FS.File d) entries ->
             FS.statSync cwd (disk w)
               (Path.resolve cwd [baseDir this; Path.join [dir; name]])
             = Some {| FS.isDirectory := false; FS.size := byteSize d |}).
  { intros name d He.
    assert (Hname : isSegment name = true).
    { rewrite Forall_forall in Hseg; exact (Hseg _ He). }
    destruct (listed_entry cwd this (disk w) bs dir name true wr entries
                Ebase Hbs Hname Hl) as [_ H2].
    rewrite (child_of_entry _ _ _ Hnd He) in H2.
    unfold FS.statSync; rewrite H2; reflexivity. }
  destruct (listed_movies cwd this (disk w) dir entries Hstat entries
              (fun e He => He)) as [H1 H2].
  unfold getScannableMovies, FS.readdirTypes.
  rewrite isExistingDir_lookup, Hl; simpl negb; cbv iota zeta beta.
  cbv zeta in H1, H2.
  f_equal; [f_equal; exact H1|f_equal; exact H2].
Qed.

Lemma sample_sub_wellFormed :
  wellFormed (FS.Dir true true Sample.subEntries).
Proof.
  vm_compute; repeat split; repeat constructor; simpl; intuition discriminate.
Qed.

Lemma getScannableMovies_lists_files_with_their_sizes_witness :
  getScannableMovies Example.cwd Example.service "x/../sub" Example.world
  = (Return [{| movieName := "b.MKV"; moviePath := "sub/b.MKV";
                movieSize := 7 |}],
     logged Example.world []).
Proof.
  apply (getScannableMovies_lists_files_with_their_sizes
           Example.cwd Example.service "x/../sub" Example.world true
           Sample.subEntries).
  - reflexivity.
  - reflexivity.
  - reflexivity.
  - exact sample_sub_wellFormed.
Defined.

(* ================================================================== *)
(** * The replies of the controller *)
(* ================================================================== *)

(** X22. The two listing routes reply 404 when the target is not
    an existing directory, 403 when it cannot be read and 200 otherwise.
    What they throw is never a [NotFoundException], so the filter of the
    application never answers for them. *)
Theorem listing_endpoints_reply_404_or_403
  (cwd : string) (this : MediaService) (path : option string) (w : World)
  (index : option string) :
  let target :=
    toAbsolute cwd this (match path with Some p => p | None => "" end) in
  let directories := MediaController.getDirectories cwd this path w in
  let movies := MediaController.getMovies cwd this path w in
  let status s := Some {| Http.statusCode := s; Http.page := None |} in
  (FS.isExistingDir cwd (disk w) target = false ->
   directories = Http.Failed (Http.HttpException 404)
   /\ movies = (Http.Failed (Http.HttpException 404), w)
   /\ reply 200 index directories = status 404
   /\ reply 200 index (fst movies) = status 404)
  /\ (FS.isExistingDir cwd (disk w) target = true ->
      FS.readdirTypes cwd (disk w) target = None ->
      directories = Http.Failed (Http.HttpException 403)
      /\ movies = (Http.Failed (Http.HttpException 403), w)
      /\ reply 200 index directories = status 403
      /\ reply 200 index (fst movies) = status 403)
  /\ (FS.isExistingDir cwd (disk w) target = true ->
      FS.readdirTypes cwd (disk w) target <> None ->
      reply 200 index directories = status 200
      /\ reply 200 index (fst movies) = status 200)
  /\ (forall t,
        directories = Http.Failed t \/ fst movies = Http.Failed t ->
        NotFoundExceptionFilter.catches t = false).
Proof.
  intros target directories movies status.
  subst directories movies status target.
  unfold MediaController.getDirectories, MediaController.getMovies,
    getSubdirectories, getScannableMovies.
  set (p := match path with Some p => p | None => "" end).
  destruct (FS.isExistingDir cwd (disk w) (toAbsolute cwd this p)) eqn:Hd;
    simpl negb; cbv iota.
  - destruct (FS.readdirTypes cwd (disk w) (toAbsolute cwd this p))
      as [items|] eqn:Hr.
    + split; [discriminate|]; split; [intros _ H; discriminate|].
      split; [intros _ _; split; reflexivity|].
      intros t [H|H]; discriminate.
    + split; [discriminate|]; split; [intros _ _; repeat split|].
      split; [intros _ H; congruence|].
      intros t [H|H]; simpl in H; injection H as <-; reflexivity.
  - split; [intros _; repeat split|].
    split; [discriminate|]; split; [discriminate|].
    intros t [H|H]; simpl in H; injection H as <-; reflexivity.
Qed.

(** X23. What the client gets from the library routes, the index
    page being readable.  [POST libraries] replies 400 to a name that
    sanitization changes, 409 to a name in use, the index page with
    status 200 when the directory does not exist, else 201.  [DELETE
    libraries/:id] replies the index page with status 200 to an unknown
    id, 500 when the library owns Items, else 204.  [POST scan] replies
    400 without [libraryId], the index page with status 200 to an
    unknown id, else 201. *)
Theorem library_endpoints_reply
  (cwd : string) (sanitize : string -> string) (this : MediaService)
  (name path : string) (id : nat) (libraryId : option nat) (w : World)
  (html : string) :
  let status s := Some {| Http.statusCode := s; Http.page := None |} in
  let index := Some {| Http.statusCode := 200; Http.page := Some html |} in
  reply 201 (Some html)
    (fst (MediaController.addLibrary cwd sanitize this name path w))
  = (if negb (String.eqb (sanitize name) name) then status 400
     else match Repo.findLibraryByName (db w) name with
          | Some _ => status 409
          | None =>
              if FS.isExistingDir cwd (disk w) (toAbsolute cwd this path)
              then status 201 else index
          end)
  /\ reply 204 (Some html) (fst (MediaController.deleteLibrary id w))
     = match Repo.findLibraryById (db w) id with
       | None => index
       | Some _ =>
           match Repo.mediaItemsOf (db w) id with
           | [] => status 204
           | _ :: _ => status 500
           end
       end
  /\ reply 201 (Some html) (fst (MediaController.scanLibrary cwd libraryId w))
     = match libraryId with
       | None => status 400
       | Some id' =>
           match Repo.findLibraryById (db w) id' with
           | None => index
           | Some _ => status 201
           end
       end.
Proof.
  intros status index; subst status index.
  split; [|split].
  - unfold MediaController.addLibrary; rewrite createLibrary_cases.
    destruct (negb (String.eqb (sanitize name) name)); [reflexivity|].
    destruct (Repo.findLibraryByName (db w) name); [reflexivity|].
    destruct (FS.isExistingDir cwd (disk w) (toAbsolute cwd this path));
      reflexivity.
  - unfold MediaController.deleteLibrary.
    pose proof (deleteLibrary_cases id w) as H.
    destruct (Repo.findLibraryById (db w) id) as [library|];
      [|rewrite H; reflexivity].
    destruct (Repo.mediaItemsOf (db w) id); [|rewrite H; reflexivity].
    destruct H as (H & _).
    destruct (deleteLibrary id w) as [[[]|e] w']; simpl in H;
      [reflexivity|discriminate].
  - unfold MediaController.scanLibrary.
    destruct libraryId as [id'|]; [|reflexivity].
    pose proof (outcome_of_scanLibrary cwd id' w) as H.
    destruct (scanLibrary cwd id' w) as [[[]|e] w']; simpl in H.
    + destruct (Repo.findLibraryById (db w) id'); [reflexivity|discriminate].
    + destruct (Repo.findLibraryById (db w) id'); [discriminate|].
      injection H as ->; reflexivity.
Qed.

(* ================================================================== *)
(** * The files behind the Items of a scan *)
(* ================================================================== *)

Lemma walk_app_proper (segs rest : list string) :
  Forall (fun s => isSegment s = true) segs ->
  Forall (fun s => isSegment s = true) rest ->
  forall stack cur n,
  FS.walk stack cur segs = Some n ->
  FS.walk stack cur (segs ++ rest) = FS.walk [] n rest.
Proof.
  intros Hsegs Hrest.
  induction Hsegs as [|s segs Hs _ IH]; intros stack cur n H.
  - simpl in H; injection H as <-; simpl.
    apply walk_any_stack; exact Hrest.
  - simpl app.
    destruct cur as [d|r w es|]; try discriminate.
    rewrite walk_cons in * by exact Hs.
    destruct (FS.child s es) as [c|]; [|discriminate].
    eapply IH; exact H.
Qed.

Lemma child_cons_other (file name : string) (entry : FS.node)
  (rest : list (string * FS.node)) :
  file <> name ->
  FS.child name ((file, entry) :: rest) = FS.child name rest.
Proof.
  intros Hne; simpl.
  destruct (String.eqb file name) eqn:E; [|reflexivity].
  apply String.eqb_eq in E; congruence.
Qed.

(** Below an absolute directory, each file of the walk is found by the
    operating system at the path the walk gives it, and the last
    segment of that path is its name. *)
Lemma supportedFiles_found (n : FS.node) :
  forall dir,
  Path.isAbsolute dir = true -> wellFormed n ->
  let ns := Path.normalizeSegments false [] (Str.split dir) in
  forall f, In f (supportedFiles dir n) ->
  exists name more,
    Forall (fun s => isSegment s = true) (name :: more)
    /\ snd (fst f) = String "/" (Str.join (ns ++ name :: more))
    /\ match n with
       | FS.Dir _ _ entries => In name (map fst entries)
       | _ => False
       end
    /\ last (name :: more) "" = fst (fst f)
    /\ forall stack,
         FS.walk stack n (name :: more) = Some (FS.File (snd f)).
Proof.
  induction n as [d| |r w entries IH] using node_entries_ind;
    intros dir Habs Hwf ns.
  - intros f [].
  - intros f [].
  - destruct r; [|intros f []].
    assert (Hns : Forall (fun s => isSegment s = true) ns).
    { apply normalizeSegments_gives_segments;
        [apply split_noSlash|constructor]. }
    induction IH as [|[file entry] rest Hentry _ IHrest]; [intros f []|].
    apply wellFormed_cons in Hwf.
    destruct Hwf as (Hfile & Hfresh & Hwentry & Hwrest).
    specialize (IHrest Hwrest).
    rewrite supportedFiles_cons.
    pose proof (join_absolute dir file Habs Hfile) as Hjoin; fold ns in Hjoin.
    intros f Hf; apply in_app_or in Hf; destruct Hf as [Hf|Hf].
    + destruct entry as [data|r' w' sub|]; [| |destruct Hf].
      * destruct (isSupported file); [|destruct Hf].
        destruct Hf as [<-|[]]; exists file, [].
        split; [repeat constructor; exact Hfile|].
        split; [exact Hjoin|]; split; [simpl; auto|]; split; [reflexivity|].
        intros stack; rewrite walk_cons by exact Hfile.
        simpl FS.child; rewrite String.eqb_refl; reflexivity.
      * simpl in Hentry.
        assert (Ha : Path.isAbsolute (Path.join [dir; file]) = true)
          by (rewrite Hjoin; reflexivity).
        destruct (Hentry _ Ha Hwentry f Hf)
          as (name & more & Hall & Hpath & _ & Hlast & Hwalk).
        exists file, (name :: more).
        split; [constructor; auto|].
        split.
        { rewrite Hpath, Hjoin, split_resolved.
          - rewrite <- app_assoc; reflexivity.
          - apply Forall_app; split; [exact Hns|repeat constructor; auto]. }
        split; [simpl; auto|]; split; [exact Hlast|].
        intros stack; rewrite walk_cons by exact Hfile.
        simpl FS.child; rewrite String.eqb_refl; apply Hwalk.
    + destruct (IHrest f Hf) as (name & more & Hall & Hpath & Hin & Hlast & Hwalk).
      exists name, more.
      split; [exact Hall|]; split; [exact Hpath|].
      split; [simpl; auto|]; split; [exact Hlast|].
      intros stack.
      inversion Hall as [|? ? Hname Hmore]; subst.
      specialize (Hwalk stack).
      rewrite walk_cons in * by exact Hname.
      rewrite child_cons_other; [|intros ->; exact (Hfresh Hin)].
      destruct (FS.child name rest) as [c|]; [|discriminate].
      rewrite (walk_any_stack more Hmore _ (FS.Dir true w rest :: stack)).
      exact Hwalk.
Qed.

Lemma last_app_cons {A} (l : list A) (x : A) (m : list A) (d : A) :
  last (l ++ x :: m) d = last (x :: m) d.
Proof.
  induction l as [|y l IH]; [reflexivity|].
  change ((y :: l) ++ x :: m)%list with (y :: (l ++ x :: m))%list.
  destruct (l ++ x :: m)%list eqn:E; [destruct l; discriminate|].
  rewrite <- E, <- IH; simpl; rewrite E; reflexivity.
Qed.

Lemma basename_of_resolved (segs : list string) (x : string)
  (m : list string) :
  Forall (fun s => isSegment s = true) (x :: m) ->
  Path.basename (String "/" (Str.join (segs ++ x :: m))) = last (x :: m) "".
Proof.
  intros Hall.
  destruct (exists_last (l := x :: m)) as (init & c & E); [discriminate|].
  rewrite E in *.
  apply Forall_app in Hall; destruct Hall as [_ Hc].
  inversion Hc as [|? ? Hc' _]; subst.
  rewrite app_assoc, basename_resolved by exact Hc'.
  rewrite last_last; reflexivity.
Qed.

(** X24. Over a tree as [readdir] shows it, every Item that the
    scan of a library with an absolute path adds has as [filename] the
    base name of its [filepath], and that filepath leads to a regular
    file whose size and probed duration are those of the Item. *)
Theorem scanLibrary_items_describe_the_files_found
  (cwd : string) (libraryId : nat) (w : World) (library : MediaLibrary.t) :
  Repo.findLibraryById (db w) libraryId = Some library ->
  Path.isAbsolute (MediaLibrary.path library) = true ->
  (forall n, FS.lookup cwd (disk w) (MediaLibrary.path library) = Some n ->
             wellFormed n) ->
  let w' := snd (scanLibrary cwd libraryId w) in
  exists added,
    Repo.items (db w') = (Repo.items (db w) ++ added)%list
    /\ Forall (fun i =>
                 MediaItem.filename i = Path.basename (MediaItem.filepath i)
                 /\ exists data,
                      FS.lookup cwd (disk w') (MediaItem.filepath i)
                      = Some (FS.File data)
                      /\ MediaItem.size i = byteSize data
                      /\ MediaItem.duration i
                         = fst (probeDuration (probe data)))
         added.
Proof.
  intros Hlib Habs Hwf w'; subst w'.
  destruct (scanLibrary_found cwd libraryId w library Hlib) as (_ & Hd & Hdb).
  rewrite Hd.
  assert (HF : Forall (fun i =>
                 MediaItem.filename i = Path.basename (MediaItem.filepath i)
                 /\ exists data,
                      FS.lookup cwd (disk w) (MediaItem.filepath i)
                      = Some (FS.File data)
                      /\ MediaItem.size i = byteSize data
                      /\ MediaItem.duration i
                         = fst (probeDuration (probe data)))
               (newItems (db w) library
                  (libraryFiles cwd (disk w) library))).
  { unfold newItems; apply Forall_forall; intros i Hi.
    apply in_map_iff in Hi; destruct Hi as ([[file filePath] data] & <- & Hf).
    apply filter_In in Hf; destruct Hf as [Hf _].
    unfold libraryFiles in Hf.
    destruct (FS.lookup cwd (disk w) (MediaLibrary.path library))
      as [n|] eqn:Hl; [|destruct Hf].
    destruct (supportedFiles_found n _ Habs (Hwf n eq_refl) _ Hf)
      as (name & more & Hall & Hpath & _ & Hlast & Hwalk).
    simpl in Hpath, Hlast, Hwalk |- *.
    set (ns := Path.normalizeSegments false []
                 (Str.split (MediaLibrary.path library))) in *.
    assert (Hns : Forall (fun s => isSegment s = true) ns).
    { apply normalizeSegments_gives_segments;
        [apply split_noSlash|constructor]. }
    split.
    - rewrite Hpath, basename_of_resolved by exact Hall.
      symmetry; exact Hlast.
    - exists data; split; [|auto].
      destruct (lookup_needs_root _ _ _ _ Hl) as (r0 & w0 & es0 & Eroot).
      rewrite Hpath, lookup_resolved by (apply Forall_app; auto).
      rewrite Eroot; rewrite <- Eroot.
      rewrite (walk_app_proper ns (name :: more) Hns Hall [] (disk w) n).
      + apply Hwalk.
      + apply walk_normalized; [apply split_noSlash|].
        unfold FS.lookup in Hl; rewrite Habs in Hl; exact Hl. }
  rewrite Hdb.
  destruct (newItems _ _ _) as [|i batch] eqn:Eb.
  - exists []; rewrite app_nil_r; auto.
  - eexists; split; [reflexivity|].
    apply assignIds_Forall; [intros j k Hj; exact Hj|exact HF].
Qed.

Lemma scanLibrary_items_describe_the_files_found_witness :
  let w' := snd (scanLibrary Example.cwd 1 Example.world) in
  exists added,
    Repo.items (db w') = (Repo.items (db Example.world) ++ added)%list
    /\ Forall (fun i =>
                 MediaItem.filename i = Path.basename (MediaItem.filepath i)
                 /\ exists data,
                      FS.lookup Example.cwd (disk w') (MediaItem.filepath i)
                      = Some (FS.File data)
                      /\ MediaItem.size i = byteSize data
                      /\ MediaItem.duration i
                         = fst (probeDuration (probe data)))
         added.
Proof.
  apply (scanLibrary_items_describe_the_files_found
           Example.cwd 1 Example.world Example.movies).
  - reflexivity.
  - reflexivity.
  - exact example_media_wellFormed.
Defined.

(* ================================================================== *)
(** * Extensions, whatever their case *)
(* ================================================================== *)

Lemma lowerChar_isSlash (c : ascii) :
  Str.isSlash (Str.lowerChar c) = Str.isSlash c.
Proof. destruct c as [[] [] [] [] [] [] [] []]; reflexivity. Qed.

Lemma lowerChar_isDot (c : ascii) :
  Ascii.eqb (Str.lowerChar c) Str.dot = Ascii.eqb c Str.dot.
Proof. destruct c as [[] [] [] [] [] [] [] []]; reflexivity. Qed.

Lemma lowerChar_twice (c : ascii) :
  Str.lowerChar (Str.lowerChar c) = Str.lowerChar c.
Proof. destruct c as [[] [] [] [] [] [] [] []]; reflexivity. Qed.

Lemma lowerAscii_map (s : string) :
  Str.lowerAscii s = Str.ofChars (map Str.lowerChar (Str.chars s)).
Proof.
  induction s as [|c r IH]; simpl; [reflexivity|].
  rewrite IH; reflexivity.
Qed.

Lemma chars_ofChars (l : list ascii) : Str.chars (Str.ofChars l) = l.
Proof. apply list_ascii_of_string_of_list_ascii. Qed.

Lemma dropWhile_map {A B} (f : A -> B) (p : B -> bool) (q : A -> bool)
  (l : list A) :
  (forall x, p (f x) = q x) ->
  Str.dropWhile p (map f l) = map f (Str.dropWhile q l).
Proof.
  intros H; induction l as [|x l IH]; simpl; [reflexivity|].
  rewrite H; destruct (q x); [exact IH|reflexivity].
Qed.

Lemma takeWhile_map {A B} (f : A -> B) (p : B -> bool) (q : A -> bool)
  (l : list A) :
  (forall x, p (f x) = q x) ->
  Str.takeWhile p (map f l) = map f (Str.takeWhile q l).
Proof.
  intros H; induction l as [|x l IH]; simpl; [reflexivity|].
  rewrite H; destruct (q x); simpl; [rewrite IH|]; reflexivity.
Qed.

Lemma basename_lowerAscii (p : string) :
  Path.basename (Str.lowerAscii p) = Str.lowerAscii (Path.basename p).
Proof.
  unfold Path.basename.
  rewrite !lowerAscii_map, !chars_ofChars, <- map_rev.
  rewrite (dropWhile_map Str.lowerChar Str.isSlash Str.isSlash)
    by apply lowerChar_isSlash.
  rewrite (takeWhile_map Str.lowerChar _ (fun c => negb (Str.isSlash c)))
    by (intros x; rewrite lowerChar_isSlash; reflexivity).
  rewrite map_rev; reflexivity.
Qed.

Lemma lastDot_map (l : list ascii) :
  forall ext,
  Path.lastDot (map Str.lowerChar l) (map Str.lowerChar ext)
  = match Path.lastDot l ext with
    | Some (before, e) =>
        Some (map Str.lowerChar before, map Str.lowerChar e)
    | None => None
    end.
Proof.
  induction l as [|c l IH]; intros ext; simpl; [reflexivity|].
  rewrite lowerChar_isDot.
  destruct (Ascii.eqb c Str.dot); [reflexivity|].
  apply (IH (c :: ext)).
Qed.

Lemma lowerAscii_is_dotdot (b : string) :
  String.eqb (Str.lowerAscii b) ".." = String.eqb b "..".
Proof.
  destruct b as [|c1 [|c2 [|c3 r]]]; try reflexivity.
  - simpl. destruct c1 as [[] [] [] [] [] [] [] []]; reflexivity.
  - simpl.
    destruct c1 as [[] [] [] [] [] [] [] []]; try reflexivity;
      destruct c2 as [[] [] [] [] [] [] [] []]; reflexivity.
  - simpl.
    destruct c1 as [[] [] [] [] [] [] [] []]; try reflexivity;
      destruct c2 as [[] [] [] [] [] [] [] []]; reflexivity.
Qed.

Lemma extname_lowerAscii (p : string) :
  Path.extname (Str.lowerAscii p) = Str.lowerAscii (Path.extname p).
Proof.
  unfold Path.extname.
  rewrite basename_lowerAscii, lowerAscii_is_dotdot.
  rewrite (lowerAscii_map (Path.basename p)), chars_ofChars, <- map_rev.
  pose proof (lastDot_map (rev (Str.chars (Path.basename p))) []) as H.
  simpl map at 2 in H; rewrite H.
  destruct (Path.lastDot (rev (Str.chars (Path.basename p))) [])
    as [[before e]|]; [|reflexivity].
  destruct before as [|c before]; [reflexivity|].
  simpl map.
  destruct (String.eqb (Path.basename p) ".."); [reflexivity|].
  rewrite lowerAscii_map, chars_ofChars; reflexivity.
Qed.

(** The bytes of the Kelvin sign are no letters of ASCII, in either
    case. *)
Lemma lowerChar_code (c : ascii) (n : nat) :
  128 <= n ->
  (nat_of_ascii (Str.lowerChar c) =? n)%nat = (nat_of_ascii c =? n)%nat.
Proof.
  intros Hn; unfold Str.lowerChar.
  destruct ((65 <=? nat_of_ascii c)%nat && (nat_of_ascii c <=? 90)%nat)
    eqn:E; [|reflexivity].
  apply andb_prop in E; destruct E as [E1 E2].
  apply Nat.leb_le in E1, E2.
  rewrite nat_ascii_embedding by lia.
  destruct (Nat.eqb_spec (nat_of_ascii c + 32) n);
    destruct (Nat.eqb_spec (nat_of_ascii c) n); try reflexivity; lia.
Qed.

Lemma isKelvin_lowerChar (c1 c2 c3 : ascii) :
  Str.isKelvin (Str.lowerChar c1) (Str.lowerChar c2) (Str.lowerChar c3)
  = Str.isKelvin c1 c2 c3.
Proof.
  unfold Str.isKelvin; rewrite !lowerChar_code by lia; reflexivity.
Qed.

(** Lower case all the way is lower case of the ASCII letters first. *)
Lemma toLowerCase_lowerAscii (s : string) :
  Str.toLowerCase (Str.lowerAscii s) = Str.toLowerCase s.
Proof.
  assert (H : forall n s, String.length s <= n ->
                Str.toLowerCase (Str.lowerAscii s) = Str.toLowerCase s);
    [|apply (H (String.length s)); lia].
  clear s; induction n as [|n IH]; intros s Hs.
  - destruct s; [reflexivity|simpl in Hs; lia].
  - destruct s as [|c1 [|c2 [|c3 r3]]].
    + reflexivity.
    + simpl; rewrite lowerChar_twice; reflexivity.
    + simpl; rewrite !lowerChar_twice; reflexivity.
    + change (Str.lowerAscii (String c1 (String c2 (String c3 r3))))
        with (String (Str.lowerChar c1)
                (Str.lowerAscii (String c2 (String c3 r3)))).
      change (Str.lowerAscii (String c2 (String c3 r3)))
        with (String (Str.lowerChar c2)
                (String (Str.lowerChar c3) (Str.lowerAscii r3))) at 1.
      change (Str.toLowerCase (String ?a (String ?b (String ?c ?r))))
        with (if Str.isKelvin a b c then String "k" (Str.toLowerCase r)
              else String (Str.lowerChar a)
                     (Str.toLowerCase (String b (String c r)))).
      rewrite isKelvin_lowerChar, lowerChar_twice.
      cbn [String.length] in Hs.
      rewrite (IH r3) by lia.
      change (String (Str.lowerChar c2)
                (String (Str.lowerChar c3) (Str.lowerAscii r3)))
        with (Str.lowerAscii (String c2 (String c3 r3))).
      rewrite (IH (String c2 (String c3 r3))) by (cbn [String.length]; lia).
      reflexivity.
Qed.

Lemma isSupported_lowerAscii (file : string) :
  isSupported (Str.lowerAscii file) = isSupported file.
Proof.
  unfold isSupported.
  rewrite extname_lowerAscii, toLowerCase_lowerAscii; reflexivity.
Qed.

(** X25. Whether a file name has a supported extension does not
    depend on the case of its ASCII letters: two names that differ in
    nothing else are treated alike, and a name is treated as it is with
    these letters in lower case.  (Outside ASCII the Kelvin sign counts
    as a [k], as in [film.mKv].) *)
Theorem isSupported_ignores_case (file other : string) :
  isSupported (Str.lowerAscii file) = isSupported file
  /\ (Str.lowerAscii file = Str.lowerAscii other ->
      isSupported file = isSupported other)
  /\ isSupported Sample.kelvinName = true.
Proof.
  split; [apply isSupported_lowerAscii|split; [|reflexivity]].
  intros H.
  rewrite <- (isSupported_lowerAscii file), <- (isSupported_lowerAscii other).
  rewrite H; reflexivity.
Qed.

Lemma isSupported_ignores_case_witness :
  isSupported (Str.lowerAscii "Film.MKV") = isSupported "Film.MKV"
  /\ (Str.lowerAscii "Film.MKV" = Str.lowerAscii "FILM.mkv" ->
      isSupported "Film.MKV" = isSupported "FILM.mkv")
  /\ isSupported Sample.kelvinName = true.
Proof.
  exact (isSupported_ignores_case "Film.MKV" "FILM.mkv").
Defined.

(* ================================================================== *)
(** * The libraries with their Items *)
(* ================================================================== *)

(** X26. In a consistent store [getAllLibraries] returns the
    libraries in their order, every Item appears under a library, under
    the one it belongs to, and under no second one. *)
Theorem getAllLibraries_lists_each_item_under_its_library (w : World) :
  consistent (db w) ->
  map fst (getAllLibraries w) = Repo.libraries (db w)
  /\ (forall i,
        In i (Repo.items (db w))
        <-> exists l its, In (l, its) (getAllLibraries w) /\ In i its)
  /\ (forall l its i,
        In (l, its) (getAllLibraries w) -> In i its ->
        MediaItem.library i = MediaLibrary.id l)
  /\ (forall l1 its1 l2 its2 i,
        In (l1, its1) (getAllLibraries w) ->
        In (l2, its2) (getAllLibraries w) ->
        In i its1 -> In i its2 -> l1 = l2).
Proof.
  intros [_ C2 _ _ _ C6]; unfold getAllLibraries.
  assert (Hin : forall l its,
             In (l, its)
               (map (fun l => (l, Repo.mediaItemsOf (db w) (MediaLibrary.id l)))
                  (Repo.libraries (db w))) ->
             In l (Repo.libraries (db w))
             /\ its = Repo.mediaItemsOf (db w) (MediaLibrary.id l)).
  { intros l its H; apply in_map_iff in H.
    destruct H as (l' & E & Hl); injection E as -> <-; auto. }
  assert (Hown : forall l i,
             In i (Repo.mediaItemsOf (db w) (MediaLibrary.id l)) ->
             In i (Repo.items (db w))
             /\ MediaItem.library i = MediaLibrary.id l).
  { intros l i H; apply filter_In in H; destruct H as [H E].
    apply Nat.eqb_eq in E; auto. }
  split; [rewrite map_map; simpl; apply map_id|].
  split; [|split].
  - intros i; split.
    + intros Hi.
      rewrite Forall_forall in C6; destruct (C6 i Hi) as (l & Hl & E).
      exists l, (Repo.mediaItemsOf (db w) (MediaLibrary.id l)); split.
      * apply in_map_iff; exists l; auto.
      * apply filter_In; split; [exact Hi|].
        apply Nat.eqb_eq; symmetry; exact E.
    + intros (l & its & H & Hi).
      apply Hin in H; destruct H as [_ ->].
      apply Hown in Hi; apply Hi.
  - intros l its i H Hi.
    apply Hin in H; destruct H as [_ ->].
    apply Hown in Hi; apply Hi.
  - intros l1 its1 l2 its2 i H1 H2 Hi1 Hi2.
    apply Hin in H1; destruct H1 as [Hl1 ->].
    apply Hin in H2; destruct H2 as [Hl2 ->].
    apply Hown in Hi1; apply Hown in Hi2.
    destruct Hi1 as [_ E1]; destruct Hi2 as [_ E2].
    assert (E : MediaLibrary.id l1 = MediaLibrary.id l2) by congruence.
    clear -C2 Hl1 Hl2 E.
    induction (Repo.libraries (db w)) as [|l ls IH]; [destruct Hl1|].
    simpl in C2; inversion C2 as [|? ? Hx Hrest]; subst.
    destruct Hl1 as [->|Hl1]; destruct Hl2 as [->|Hl2]; auto.
    + exfalso; apply Hx; rewrite E; apply in_map; exact Hl2.
    + exfalso; apply Hx; rewrite <- E; apply in_map; exact Hl1.
Qed.

Lemma example_scanned_consistent : consistent (db Example.scanned).
Proof.
  constructor; simpl; repeat constructor; simpl;
    try (intuition discriminate); try lia.
  - exists Example.movies; simpl; auto.
  - exists Example.movies; simpl; auto.
Qed.

Lemma getAllLibraries_lists_each_item_under_its_library_witness :
  map fst (getAllLibraries Example.scanned)
  = Repo.libraries (db Example.scanned)
  /\ (forall i,
        In i (Repo.items (db Example.scanned))
        <-> exists l its,
              In (l, its) (getAllLibraries Example.scanned) /\ In i its)
  /\ (forall l its i,
        In (l, its) (getAllLibraries Example.scanned) -> In i its ->
        MediaItem.library i = MediaLibrary.id l)
  /\ (forall l1 its1 l2 its2 i,
        In (l1, its1) (getAllLibraries Example.scanned) ->
        In (l2, its2) (getAllLibraries Example.scanned) ->
        In i its1 -> In i its2 -> l1 = l2).
Proof.
  exact (getAllLibraries_lists_each_item_under_its_library
           Example.scanned example_scanned_consistent).
Defined.
